(** * bot-discord: the scheduling and playback core, embedded

    The definitions follow the source files, one module each:

    - [MD5]        the digest computed by [crypto.createHash('md5')]
                   (RFC 1321), which names the files of the speech cache;
    - [Js]         JavaScript conventions the code relies on: truthiness
                   of strings, [||], [%], indexing out of range;
    - [Config]     src/config.js;
    - [Logger]     src/utils/logger.js;
    - [Path], [Fs] Node's [path] module (POSIX) and [fs.existsSync];
    - [Discord]    the channels that [client.channels.fetch] returns;
    - [Events]     src/scheduler/events.js;
    - [Voice]      src/voice/connection.js, with the registry of the voice
                   library at its boundary;
    - [Player]     src/audio/player.js, with the event emitter of the
                   playback engine;
    - [TTS]        src/tts/generator.js, over a file store;
    - [Scheduler]  src/scheduler/cron.js;
    - [Index]      src/index.js.

    Conventions.  Strings are byte strings (UTF-8) and numbers are [Z].
    A method that reads or writes the fields of its object is a
    computation [M S A] over those fields, which returns or throws.  What
    lies outside the process (the clock, the channel directory, the voice
    transport, the synthesis service, the playback engine) answers through
    the fields of [Scheduler.env], and an [await] is the place where the
    answer is taken; executions are run one at a time, so the interleaving
    of executions that overlap in time is not part of the model.  The log
    lines of the scheduler are entered in its trace of calls; the logger
    calls of the other modules, which only write to the console, are left
    out. *)

From Stdlib Require Import ZArith List String Ascii Lia Bool.
From stdpp Require Import gmap strings list fin_maps.
Import ListNotations.

#[local] Open Scope string_scope.
#[local] Open Scope Z_scope.
#[local] Open Scope list_scope.

(* ===================================================================== *)
(** ** MD5 (RFC 1321), as computed by Node's [crypto] module             *)
(* ===================================================================== *)

Module MD5.

Definition mask32 : Z := 4294967295.

Definition add32 (x y : Z) : Z := Z.land (x + y) mask32.

Definition not32 (x : Z) : Z := Z.lxor x mask32.

Definition rotl32 (x c : Z) : Z :=
  Z.lor (Z.land (Z.shiftl x c) mask32) (Z.shiftr x (32 - c)).

(** Sine-derived constants, [floor (2^32 * abs (sin (i + 1)))]. *)
Definition K : list Z :=
  [ 3614090360; 3905402710; 606105819; 3250441966;
    4118548399; 1200080426; 2821735955; 4249261313;
    1770035416; 2336552879; 4294925233; 2304563134;
    1804603682; 4254626195; 2792965006; 1236535329;
    4129170786; 3225465664; 643717713; 3921069994;
    3593408605; 38016083; 3634488961; 3889429448;
    568446438; 3275163606; 4107603335; 1163531501;
    2850285829; 4243563512; 1735328473; 2368359562;
    4294588738; 2272392833; 1839030562; 4259657740;
    2763975236; 1272893353; 4139469664; 3200236656;
    681279174; 3936430074; 3572445317; 76029189;
    3654602809; 3873151461; 530742520; 3299628645;
    4096336452; 1126891415; 2878612391; 4237533241;
    1700485571; 2399980690; 4293915773; 2240044497;
    1873313359; 4264355552; 2734768916; 1309151649;
    4149444226; 3174756917; 718787259; 3951481745 ]%Z.

(** Per-round left-rotation amounts. *)
Definition R : list Z :=
  [ 7; 12; 17; 22; 7; 12; 17; 22; 7; 12; 17; 22; 7; 12; 17; 22;
    5; 9; 14; 20; 5; 9; 14; 20; 5; 9; 14; 20; 5; 9; 14; 20;
    4; 11; 16; 23; 4; 11; 16; 23; 4; 11; 16; 23; 4; 11; 16; 23;
    6; 10; 15; 21; 6; 10; 15; 21; 6; 10; 15; 21; 6; 10; 15; 21 ]%Z.

Definition bytes_of_string (s : string) : list Z :=
  map (fun a => Z.of_N (N_of_ascii a)) (list_ascii_of_string s).

(** [n] as [k] little-endian bytes. *)
Fixpoint le_bytes (k : nat) (n : Z) : list Z :=
  match k with
  | O => []
  | S k' => Z.land n 255 :: le_bytes k' (Z.shiftr n 8)
  end.

(** Message followed by 0x80, zeros up to 56 modulo 64, and the bit
    length on 64 bits. *)
Definition pad (msg : list Z) : list Z :=
  let len := Z.of_nat (length msg) in
  let zeros := Z.to_nat ((55 - len) mod 64) in
  msg ++ [128] ++ repeat 0 zeros ++ le_bytes 8 (8 * len).

(** Little-endian 32-bit words of a byte list. *)
Fixpoint words (fuel : nat) (bs : list Z) : list Z :=
  match fuel, bs with
  | S f, b0 :: b1 :: b2 :: b3 :: rest =>
      (b0 + Z.shiftl b1 8 + Z.shiftl b2 16 + Z.shiftl b3 24) :: words f rest
  | _, _ => []
  end.

(** The list cut into blocks of [n] elements. *)
Fixpoint chunks {A} (fuel n : nat) (l : list A) : list (list A) :=
  match fuel, l with
  | S f, _ :: _ => firstn n l :: chunks f n (skipn n l)
  | _, _ => []
  end.

Definition regs : Type := Z * Z * Z * Z.

Definition init : regs := (1732584193, 4023233417, 2562383102, 271733878).

Definition step (m : list Z) (st : regs) (i : Z) : regs :=
  let '(a, b, c, d) := st in
  let f :=
    if i <? 16 then Z.lor (Z.land b c) (Z.land (not32 b) d)
    else if i <? 32 then Z.lor (Z.land d b) (Z.land (not32 d) c)
    else if i <? 48 then Z.lxor b (Z.lxor c d)
    else Z.lxor c (Z.lor b (not32 d)) in
  let g :=
    if i <? 16 then i
    else if i <? 32 then (5 * i + 1) mod 16
    else if i <? 48 then (3 * i + 5) mod 16
    else (7 * i) mod 16 in
  let ki := nth (Z.to_nat i) K 0 in
  let ri := nth (Z.to_nat i) R 0 in
  let mg := nth (Z.to_nat g) m 0 in
  let f' := add32 (add32 (add32 f a) ki) mg in
  (d, add32 b (rotl32 f' ri), b, c).

Definition rounds : list Z := map Z.of_nat (seq 0 64).

Definition compress (st : regs) (block : list Z) : regs :=
  let m := words 16 block in
  let '(a, b, c, d) := st in
  let '(a', b', c', d') := fold_left (step m) rounds st in
  (add32 a a', add32 b b', add32 c c', add32 d d').

Definition digest (msg : list Z) : list Z :=
  let p := pad msg in
  let '(a, b, c, d) := fold_left compress (chunks (length p) 64 p) init in
  le_bytes 4 a ++ le_bytes 4 b ++ le_bytes 4 c ++ le_bytes 4 d.

Definition hex_digit (n : Z) : ascii :=
  nth (Z.to_nat n) (list_ascii_of_string "0123456789abcdef") "0"%char.

Definition hex_of_bytes (bs : list Z) : string :=
  string_of_list_ascii
    (flat_map (fun b => [hex_digit (Z.shiftr b 4); hex_digit (Z.land b 15)]) bs).

(** [crypto.createHash('md5').update(s).digest('hex')] *)
Definition md5_hex (s : string) : string :=
  hex_of_bytes (digest (bytes_of_string s)).

End MD5.


(* ===================================================================== *)
(** ** JavaScript conventions                                            *)
(* ===================================================================== *)

(** A call either returns a value or throws; [Throw] carries the
    [message] of the error. *)
Inductive outcome (A : Type) : Type :=
| Ok (a : A)
| Throw (message : string).

Arguments Ok {A} a.
Arguments Throw {A} message.

Module Js.

(** A string is falsy exactly when it is empty. *)
Definition truthy (s : string) : bool := negb (String.eqb s "").

(** [o || d] for a possibly absent string [o]. *)
Definition or_else (o : option string) (d : string) : string :=
  match o with
  | Some s => if truthy s then s else d
  | None => d
  end.

(** [a % b]: the remainder takes the sign of the dividend. *)
Definition rem (a b : Z) : Z := Z.rem a b.

(** [xs[i]] for an integral [i]: [undefined] (here [None]) out of range. *)
Definition index {A} (xs : list A) (i : Z) : option A :=
  if i <? 0 then None else xs !! Z.to_nat i.

(** The white space and the line terminators of ECMAScript, each as the
    bytes of its UTF-8 encoding: U+0009 to U+000D, U+0020, U+00A0, U+1680,
    U+2000 to U+200A, U+2028, U+2029, U+202F, U+205F, U+3000, U+FEFF. *)
Definition whiteSpace : list (list ascii) :=
  map (map ascii_of_nat)
    [ [9]; [10]; [11]; [12]; [13]; [32]; [194; 160]; [225; 154; 128];
      [226; 128; 128]; [226; 128; 129]; [226; 128; 130]; [226; 128; 131];
      [226; 128; 132]; [226; 128; 133]; [226; 128; 134]; [226; 128; 135];
      [226; 128; 136]; [226; 128; 137]; [226; 128; 138];
      [226; 128; 168]; [226; 128; 169]; [226; 128; 175]; [226; 129; 159];
      [227; 128; 128]; [239; 187; 191] ]%nat.

(** [l] without its prefix [w], when [w] is one. *)
Fixpoint strip (w l : list ascii) : option (list ascii) :=
  match w, l with
  | [], _ => Some l
  | a :: w', b :: l' => if Ascii.eqb a b then strip w' l' else None
  | _ :: _, [] => None
  end.

(** [l] without the first of the sequences [ws] that it starts with. *)
Fixpoint strip_any (ws : list (list ascii)) (l : list ascii) : option (list ascii) :=
  match ws with
  | [] => None
  | w :: rest =>
      match strip w l with
      | Some r => Some r
      | None => strip_any rest l
      end
  end.

(** The sequences of [ws] taken off the front of [l] one after the other;
    [fuel] bounds their number, and the length of [l] is enough. *)
Fixpoint strip_all (fuel : nat) (ws : list (list ascii)) (l : list ascii) : list ascii :=
  match fuel with
  | O => l
  | S fuel' =>
      match strip_any ws l with
      | Some r => strip_all fuel' ws r
      | None => l
      end
  end.

Definition trimStart (l : list ascii) : list ascii := strip_all (length l) whiteSpace l.

Definition trimEnd (l : list ascii) : list ascii :=
  rev (strip_all (length l) (map (@rev ascii) whiteSpace) (rev l)).

(** [s.trim()], for a string that is well-formed UTF-8. *)
Definition trim (s : string) : string :=
  string_of_list_ascii (trimEnd (trimStart (list_ascii_of_string s))).

(** The pieces of [l] between the occurrences of [sep]. *)
Fixpoint split_chars (sep : ascii) (piece : list ascii) (l : list ascii)
  : list (list ascii) :=
  match l with
  | [] => [piece]
  | a :: rest =>
      if Ascii.eqb a sep then piece :: split_chars sep [] rest
      else split_chars sep (piece ++ [a]) rest
  end.

(** [s.split(sep)] for a separator of one character. *)
Definition split (sep : ascii) (s : string) : list string :=
  map string_of_list_ascii (split_chars sep [] (list_ascii_of_string s)).

(** [s.startsWith(p)] and [s.endsWith(p)] *)
Definition startsWith (s p : string) : bool := String.prefix p s.

Definition endsWith (s p : string) : bool :=
  match strip (rev (list_ascii_of_string p)) (rev (list_ascii_of_string s)) with
  | Some _ => true
  | None => false
  end.

(** [parseInt(s, 10)]: leading white space is skipped, a sign is read,
    then the decimal digits up to the first other character; without a
    digit the result is [NaN], here [None].  The number is the integer
    read; JavaScript holds the double nearest to it, which is that integer
    up to 2^53. *)
Definition digit (a : ascii) : option Z :=
  let n := Z.of_N (N_of_ascii a) in
  if (48 <=? n) && (n <=? 57) then Some (n - 48) else None.

Fixpoint digits (acc : option Z) (l : list ascii) : option Z :=
  match l with
  | [] => acc
  | a :: rest =>
      match digit a with
      | Some d => digits (Some (10 * match acc with Some n => n | None => 0 end + d)) rest
      | None => acc
      end
  end.

Definition parseInt (s : option string) : option Z :=
  match s with
  | None => None                      (* "undefined" holds no digit *)
  | Some s =>
      match trimStart (list_ascii_of_string s) with
      | a :: rest =>
          if Ascii.eqb a "-" then option_map Z.opp (digits None rest)
          else if Ascii.eqb a "+" then digits None rest
          else digits None (a :: rest)
      | [] => None
      end
  end.

(** [n || d] for a number: [NaN] and zero are falsy. *)
Definition number_or (n : option Z) (d : Z) : Z :=
  match n with
  | Some v => if v =? 0 then d else v
  | None => d
  end.

End Js.

(** Code that reads and writes a store [S] and may throw.  As in
    JavaScript, the writes made before a throw stay. *)
Definition M (S A : Type) : Type := S -> outcome A * S.

Definition ret {S A} (a : A) : M S A := fun s => (Ok a, s).

Definition throw {S A} (message : string) : M S A := fun s => (Throw message, s).

Definition bind {S A B} (m : M S A) (k : A -> M S B) : M S B :=
  fun s =>
    match m s with
    | (Ok a, s') => k a s'
    | (Throw e, s') => (Throw e, s')
    end.

Definition gets {S A} (f : S -> A) : M S A := fun s => (Ok (f s), s).

Definition modify {S} (f : S -> S) : M S unit := fun s => (Ok tt, f s).

(** [try { body } catch (error) { handler }] *)
Definition try_catch {S A} (body : M S A) (handler : string -> M S A) : M S A :=
  fun s =>
    match body s with
    | (Ok a, s') => (Ok a, s')
    | (Throw e, s') => handler e s'
    end.

(** [try { body } finally { cleanup }]: the cleanup runs on every exit of
    the body, and an exception of the cleanup replaces the body's result. *)
Definition try_finally {S A} (body : M S A) (cleanup : M S unit) : M S A :=
  fun s =>
    let '(r, s') := body s in
    match cleanup s' with
    | (Ok _, s'') => (r, s'')
    | (Throw e, s'') => (Throw e, s'')
    end.

(** Runs a computation on one component of the store. *)
Definition zoom {S T A} (get : S -> T) (set : T -> S -> S) (m : M T A) : M S A :=
  fun s => let '(r, t) := m (get s) in (r, set t s).

Notation "'let*' x ':=' c 'in' k" := (bind c (fun x => k))
  (at level 10, x name, c at level 100, k at level 200).
Notation "c ';;' k" := (bind c (fun _ => k))
  (at level 100, k at level 200, right associativity).

(** [for (const x of xs) body(x)] *)
Fixpoint for_each {S A} (xs : list A) (body : A -> M S unit) : M S unit :=
  match xs with
  | [] => ret tt
  | x :: rest => body x ;; for_each rest body
  end.

(* ===================================================================== *)
(** ** src/config.js                                                     *)
(* ===================================================================== *)

Module Config.

Record voice_settings : Type := {
  disconnectDelay : Z;     (* seconds *)
  preConnectSeconds : Z
}.

Record tts_settings : Type := {
  voice_name : string;
  rate : string;
  pitch : string
}.

Record config : Type := {
  token : option string;
  channelIds : list string;
  audioDir : string;
  cacheDir : string;
  timezone : string;
  logLevel : string;
  voice : voice_settings;
  tts : tts_settings
}.

(** The values taken when the environment sets none of the optional
    variables. *)
Definition defaults (token : option string) (channelIds : list string) : config :=
  {| token := token;
     channelIds := channelIds;
     audioDir := "./audio";
     cacheDir := "./cache";
     timezone := "America/Mexico_City";
     logLevel := "info";
     voice := {| disconnectDelay := 5; preConnectSeconds := 5 |};
     tts := {| voice_name := "es-MX-DaliaNeural"; rate := "+0%"; pitch := "+0Hz" |} |}.

(** [validateConfig]: the names of the required settings that are
    missing; it throws when the list is not empty. *)
Definition missing (c : config) : list string :=
  (match token c with
   | Some t => if Js.truthy t then [] else ["DISCORD_TOKEN"]
   | None => ["DISCORD_TOKEN"]
   end)
  ++ (if Nat.eqb (length (channelIds c)) 0 then ["CHANNEL_IDS"] else []).

Definition validateConfig (c : config) : outcome bool :=
  match missing c with
  | [] => Ok true
  | names =>
      Throw ("Missing required environment variables: "
             +:+ String.concat ", " names)
  end.

(** [parseChannelIds(value)]; [None] is [undefined]. *)
Definition parseChannelIds (value : option string) : list string :=
  match value with
  | None => []
  | Some value =>
      if negb (Js.truthy value) then []
      else
        filter (fun id => (0 < String.length id)%nat)
          (map Js.trim (Js.split "," value))
  end.

(** [a || b] for two variables of the environment. *)
Definition first_set (a b : option string) : option string :=
  match a with
  | Some s => if Js.truthy s then a else b
  | None => b
  end.

(** The [config] object, from [process.env]. *)
Definition load (env : gmap string string) : config :=
  {| token := env !! "DISCORD_TOKEN";
     channelIds := parseChannelIds (first_set (env !! "CHANNEL_IDS") (env !! "CHANNEL_ID"));
     audioDir := Js.or_else (env !! "AUDIO_DIR") "./audio";
     cacheDir := Js.or_else (env !! "CACHE_DIR") "./cache";
     timezone := Js.or_else (env !! "TZ") "America/Mexico_City";
     logLevel := Js.or_else (env !! "LOG_LEVEL") "info";
     voice := {| disconnectDelay :=
                   Js.number_or (Js.parseInt (env !! "DISCONNECT_DELAY")) 5;
                 preConnectSeconds :=
                   Js.number_or (Js.parseInt (env !! "PRE_CONNECT_SECONDS")) 5 |};
     tts := {| voice_name := Js.or_else (env !! "TTS_VOICE") "es-MX-DaliaNeural";
               rate := Js.or_else (env !! "TTS_RATE") "+0%";
               pitch := Js.or_else (env !! "TTS_PITCH") "+0Hz" |} |}.

End Config.

(* ===================================================================== *)
(** ** src/utils/logger.js                                               *)
(* ===================================================================== *)

Module Logger.

(** The four methods of the [logger] object. *)
Inductive level : Type := debug | info | warn | error.

Definition name (l : level) : string :=
  match l with
  | debug => "debug" | info => "info" | warn => "warn" | error => "error"
  end.

(** What a property access on the object [LOG_LEVELS] yields: the number
    of an own key, a member inherited from [Object.prototype], or
    [undefined]. *)
Inductive value : Type :=
| Number (n : Z)
| Inherited
| Undefined.

Definition objectPrototype : list string :=
  [ "constructor"; "__defineGetter__"; "__defineSetter__"; "hasOwnProperty";
    "__lookupGetter__"; "__lookupSetter__"; "isPrototypeOf"; "propertyIsEnumerable";
    "toString"; "valueOf"; "__proto__"; "toLocaleString" ].

(** [LOG_LEVELS[key]] *)
Definition LOG_LEVELS (key : string) : value :=
  if String.eqb key "debug" then Number 0
  else if String.eqb key "info" then Number 1
  else if String.eqb key "warn" then Number 2
  else if String.eqb key "error" then Number 3
  else if existsb (String.eqb key) objectPrototype then Inherited
  else Undefined.

(** [LOG_LEVELS[config.logLevel] ?? LOG_LEVELS.info] *)
Definition currentLevel (cfg : Config.config) : value :=
  match LOG_LEVELS (Config.logLevel cfg) with
  | Undefined => LOG_LEVELS "info"
  | v => v
  end.

(** [a >= b]: a comparison with what is not a number is false. *)
Definition ge (a b : value) : bool :=
  match a, b with
  | Number x, Number y => y <=? x
  | _, _ => false
  end.

Definition upper (a : ascii) : ascii :=
  let n := nat_of_ascii a in
  if (Nat.leb 97 n && Nat.leb n 122)%bool then ascii_of_nat (n - 32) else a.

Definition toUpperCase (s : string) : string :=
  string_of_list_ascii (map upper (list_ascii_of_string s)).

(** [s.padEnd(n)] *)
Definition padEnd (n : nat) (s : string) : string :=
  s +:+ string_of_list_ascii (repeat " "%char (n - String.length s)).

(** The [data] argument as [formatLog] sees it: the number of its own
    keys and its JSON text. *)
Record data : Type := { keys : nat; json : string }.

(** [formatLog(level, message, data)], with the value of
    [new Date().toISOString()]. *)
Definition formatLog (timestamp : string) (l : level) (message : string)
    (d : option data) : string :=
  let levelUpper := padEnd 5 (toUpperCase (name l)) in
  let line := "[" +:+ timestamp +:+ "] " +:+ levelUpper +:+ " " +:+ message in
  match d with
  | Some d => if Nat.ltb 0 (keys d) then line +:+ " " +:+ json d else line
  | None => line
  end.

(** The three streams of the console, each with its lines in order. *)
Record console : Type := {
  console_log : list string;
  console_warn : list string;
  console_error : list string
}.

(** [log(level, message, data)] *)
Definition log (cfg : Config.config) (timestamp : string) (l : level)
    (message : string) (d : option data) (c : console) : console :=
  if ge (LOG_LEVELS (name l)) (currentLevel cfg) then
    let line := formatLog timestamp l message d in
    match l with
    | error => {| console_log := console_log c; console_warn := console_warn c;
                  console_error := console_error c ++ [line] |}
    | warn => {| console_log := console_log c; console_warn := console_warn c ++ [line];
                 console_error := console_error c |}
    | _ => {| console_log := console_log c ++ [line]; console_warn := console_warn c;
              console_error := console_error c |}
    end
  else c.

End Logger.

(* ===================================================================== *)
(** ** Node's [path] module (POSIX)                                      *)
(* ===================================================================== *)

Module Path.

(** The pieces of a path between its separators. *)
Fixpoint split_chars (piece : list ascii) (l : list ascii) : list (list ascii) :=
  match l with
  | [] => [piece]
  | a :: rest =>
      if Ascii.eqb a "/" then piece :: split_chars [] rest
      else split_chars (piece ++ [a]) rest
  end.

Definition segments (p : string) : list string :=
  map string_of_list_ascii (split_chars [] (list_ascii_of_string p)).

(** Empty and ["."] segments go; [".."] takes back the segment before
    it, or stays when there is none to take back and the path is
    relative.  [kept] is in reverse order. *)
Fixpoint resolve_segments (allowAboveRoot : bool) (kept : list string)
    (segs : list string) : list string :=
  match segs with
  | [] => rev kept
  | seg :: rest =>
      if (String.eqb seg "" || String.eqb seg ".")%bool
      then resolve_segments allowAboveRoot kept rest
      else if String.eqb seg ".."
      then
        match kept with
        | top :: below =>
            if String.eqb top ".."
            then resolve_segments allowAboveRoot
                   (if allowAboveRoot then ".." :: kept else kept) rest
            else resolve_segments allowAboveRoot below rest
        | [] =>
            resolve_segments allowAboveRoot
              (if allowAboveRoot then [".."] else []) rest
        end
      else resolve_segments allowAboveRoot (seg :: kept) rest
  end.

Definition isAbsolute (p : string) : bool :=
  match p with
  | String a _ => Ascii.eqb a "/"
  | EmptyString => false
  end.

Definition endsWithSeparator (p : string) : bool :=
  match rev (list_ascii_of_string p) with
  | a :: _ => Ascii.eqb a "/"
  | [] => false
  end.

(** [path.normalize(p)] *)
Definition normalize (p : string) : string :=
  if String.eqb p "" then "."
  else
    let body :=
      String.concat "/" (resolve_segments (negb (isAbsolute p)) [] (segments p)) in
    if String.eqb body ""
    then (if isAbsolute p then "/" else if endsWithSeparator p then "./" else ".")
    else
      let body' := if endsWithSeparator p then body +:+ "/" else body in
      if isAbsolute p then "/" +:+ body' else body'.

(** [path.join(a, b)] *)
Definition join (a b : string) : string :=
  match negb (String.eqb a ""), negb (String.eqb b "") with
  | true, true => normalize (a +:+ "/" +:+ b)
  | true, false => normalize a
  | false, true => normalize b
  | false, false => "."
  end.

(** [path.resolve(p)], with the value of [process.cwd()]: the path, and
    before it the working directory unless the path is absolute, are put
    together and normalized; the result has no separator at its end.  It
    is absolute when the working directory is, as that of a process is. *)
Definition resolve (cwd p : string) : string :=
  let stage := if String.eqb p "" then "" else p +:+ "/" in
  let joined :=
    if isAbsolute p then stage
    else if String.eqb cwd "" then stage
    else cwd +:+ "/" +:+ stage in
  let absolute := isAbsolute joined in
  let body := String.concat "/" (resolve_segments (negb absolute) [] (segments joined)) in
  if absolute then "/" +:+ body
  else if String.eqb body "" then "." else body.

(** The characters after the last separator. *)
Fixpoint basename_chars (acc l : list ascii) : list ascii :=
  match l with
  | [] => acc
  | a :: rest =>
      if Ascii.eqb a "/" then basename_chars [] rest else basename_chars (acc ++ [a]) rest
  end.

(** The characters from the first that is not a separator. *)
Fixpoint skip_separators (l : list ascii) : list ascii :=
  match l with
  | [] => []
  | a :: rest => if Ascii.eqb a "/" then skip_separators rest else l
  end.

(** [path.basename(p)]: the separators at the end are left out, and the
    characters after the last separator that remains are the base name. *)
Definition basename (p : string) : string :=
  string_of_list_ascii
    (basename_chars [] (rev (skip_separators (rev (list_ascii_of_string p))))).

(** [path.extname(p)]: the extension from the last ["."] of the base
    name, empty when there is none, when the base name starts with its
    only dot, and for the base name [".."]. *)
Fixpoint ext_chars (seen : bool) (acc : option (list ascii)) (l : list ascii)
  : option (list ascii) :=
  match l with
  | [] => acc
  | a :: rest =>
      if (Ascii.eqb a "." && seen)%bool then ext_chars true (Some [a]) rest
      else ext_chars true (option_map (fun e => e ++ [a]) acc) rest
  end.

Definition extname (p : string) : string :=
  if String.eqb (basename p) ".." then ""
  else
    match ext_chars false None (list_ascii_of_string (basename p)) with
    | Some e => string_of_list_ascii e
    | None => ""
    end.

End Path.

(* ===================================================================== *)
(** ** The file system, as [fs.existsSync] sees it                       *)
(* ===================================================================== *)

Module Fs.

(** The store of files names each regular file by a path, absolute or
    from the working directory, as the code names it when it writes the
    file.  A directory is there when a file lies below it; the working
    directory and the directories above it are there in any case. *)

(** The names along an absolute path, from the root. *)
Definition parts (p : string) : list string :=
  List.filter (fun seg => negb (String.eqb seg "")) (Path.segments p).

Fixpoint starts_with (pre l : list string) : bool :=
  match pre, l with
  | [], _ => true
  | a :: pre', b :: l' => String.eqb a b && starts_with pre' l'
  | _ :: _, [] => false
  end.

(** Whether [p] names a regular file of the store. *)
Definition isFile (cwd : string) (files : gmap string string) (p : string) : bool :=
  existsb (fun k => String.eqb (Path.resolve cwd k) (Path.resolve cwd p))
    (map fst (map_to_list files)).

(** Whether [p] names a directory. *)
Definition isDirectory (cwd : string) (files : gmap string string) (p : string) : bool :=
  let target := parts (Path.resolve cwd p) in
  starts_with target (parts (Path.resolve cwd ""))
  || existsb
       (fun k =>
          let q := parts (Path.resolve cwd k) in
          starts_with target q && Nat.ltb (length target) (length q))
       (map fst (map_to_list files)).

(** [existsSync(p)]: the empty path names nothing, and a path that ends
    in a separator names a directory or nothing. *)
Definition existsSync (cwd : string) (files : gmap string string) (p : string) : bool :=
  if String.eqb p "" then false
  else isDirectory cwd files p
       || (negb (Path.endsWithSeparator p) && isFile cwd files p).

End Fs.

(* ===================================================================== *)
(** ** The directory of channels (discord.js)                            *)
(* ===================================================================== *)

Module Discord.

Record member : Type := { bot : bool }.

Record channel : Type := {
  id : string;
  name : string;
  guild_id : string;
  isVoiceBased : bool;
  members : list member
}.

(** What [client.channels.fetch(id)] settles to. *)
Inductive fetched : Type :=
| Rejected (message : string)
| Null
| Found (c : channel).

End Discord.

(* ===================================================================== *)
(** ** src/scheduler/events.js                                           *)
(* ===================================================================== *)

Module Events.

Inductive EventType : Type := AUDIO | AUDIO_ROTATE | TTS.

#[global] Instance EventType_eq_dec : EqDecision EventType.
Proof. solve_decision. Defined.

Record event : Type := {
  name : string;
  cron : string;
  type : EventType;
  content : string;
  enabled : bool;
  requireUsers : option bool      (* [None]: the property is absent *)
}.

(** The rotation sets of the repository. *)
Definition audioSets (cfg : Config.config) : gmap string (list string) :=
  <["shugo15" := [ Path.join (Config.audioDir cfg) "shugo.mp3";
                   Path.join (Config.audioDir cfg) "shugo_1.mp3";
                   Path.join (Config.audioDir cfg) "shugo_2.mp3" ]]>
  (<["shugo10" := [ Path.join (Config.audioDir cfg) "shugo5.mp3";
                    Path.join (Config.audioDir cfg) "shugo5_1.mp3";
                    Path.join (Config.audioDir cfg) "shugo5_2.mp3" ]]> ∅).

(** What [audioSets[setName]] yields for a name that is no key of the
    table but a member of [Object.prototype]: a function, with the number
    of its parameters as [length], or, for [__proto__], an object without
    [length]. *)
Definition inherited_length (setName : string) : option (option nat) :=
  if existsb (String.eqb setName) ["__defineGetter__"; "__defineSetter__"]
  then Some (Some 2%nat)
  else if existsb (String.eqb setName)
            ["constructor"; "hasOwnProperty"; "__lookupGetter__"; "__lookupSetter__";
             "isPrototypeOf"; "propertyIsEnumerable"]
  then Some (Some 1%nat)
  else if existsb (String.eqb setName) ["toString"; "valueOf"; "toLocaleString"]
  then Some (Some 0%nat)
  else if String.eqb setName "__proto__" then Some None
  else None.

(** [getRotatedAudio(setName)], with the table it reads and the value of
    [new Date().getHours()] as arguments.  An inherited member passes the
    test unless its [length] is 0, and has nothing at the index. *)
Definition getRotatedAudio (sets : gmap string (list string)) (hour : Z)
    (setName : string) : outcome (option string) :=
  match sets !! setName with
  | Some set =>
      if Nat.eqb (length set) 0 then Throw ("Audio set not found: " +:+ setName)
      else
        let index := Js.rem hour (Z.of_nat (length set)) in
        Ok (Js.index set index)
  | None =>
      match inherited_length setName with
      | Some (Some O) | None => Throw ("Audio set not found: " +:+ setName)
      | Some _ => Ok None
      end
  end.

Definition audio_event (cfg : Config.config) (name cron file : string) : event :=
  {| name := name; cron := cron; type := AUDIO;
     content := Path.join (Config.audioDir cfg) file;
     enabled := true; requireUsers := Some true |}.

Definition rotate_event (name cron set : string) : event :=
  {| name := name; cron := cron; type := AUDIO_ROTATE; content := set;
     enabled := true; requireUsers := Some true |}.

(** The event table of the repository. *)
Definition events (cfg : Config.config) : list event :=
  [ rotate_event "Shugo 15 min" "0 15 * * * *" "shugo15";
    rotate_event "Shugo 10 min" "0 10 * * * *" "shugo10";
    audio_event cfg "Culito 3" "0 42 * * * *" "culito3.mp3";
    audio_event cfg "Culito" "0 45 * * * *" "culito.mp3";
    audio_event cfg "Reset Diario" "0 0 15 * * *" "reset_diario.mp3";
    audio_event cfg "Mantenimiento" "0 0 11 * * 2" "mantenimiento.mp3";
    audio_event cfg "Rift 5 min" "0 55 23,2,5,8,11,14,17,20 * * *" "rift_5.mp3";
    audio_event cfg "Rift Spawn" "0 0 0,3,6,9,12,15,18,21 * * *" "rift.mp3" ].

(** [getEnabledEvents()] and [getEventByName(name)], over the table. *)
Definition getEnabledEvents (table : list event) : list event :=
  filter (fun e => enabled e = true) table.

Definition getEventByName (table : list event) (n : string) : option event :=
  find (fun e => String.eqb (name e) n) table.

End Events.

(* ===================================================================== *)
(** ** src/voice/connection.js                                           *)
(* ===================================================================== *)

Module Voice.

Inductive VoiceConnectionStatus : Type :=
| Signalling | Connecting | Ready | Disconnected | Destroyed.

#[global] Instance VoiceConnectionStatus_eq_dec : EqDecision VoiceConnectionStatus.
Proof. solve_decision. Defined.

(** A connection object of the voice library.  [handlers] counts the
    calls of [_setupConnectionHandlers] on the object. *)
Record VoiceConnection : Type := {
  guildId : string;
  channelId : string;              (* joinConfig.channelId *)
  status : VoiceConnectionStatus;
  handlers : nat
}.

Definition with_status (s : VoiceConnectionStatus) (c : VoiceConnection) : VoiceConnection :=
  {| guildId := guildId c; channelId := channelId c; status := s;
     handlers := handlers c |}.

(** [connection.rejoin({channelId, ...})] on a connection that is
    [Disconnected]: the join configuration takes the channel and the
    connection signals again. *)
Definition rejoin (ch : string) (c : VoiceConnection) : VoiceConnection :=
  {| guildId := guildId c; channelId := ch; status := Signalling;
     handlers := handlers c |}.

(** The join configuration takes the channel that Discord reports. *)
Definition with_channel (ch : string) (c : VoiceConnection) : VoiceConnection :=
  {| guildId := guildId c; channelId := ch; status := status c;
     handlers := handlers c |}.

Definition add_handlers (c : VoiceConnection) : VoiceConnection :=
  {| guildId := guildId c; channelId := channelId c; status := status c;
     handlers := S (handlers c) |}.

(** The manager together with the part of the voice library it talks to.
    A connection object is named by its position in [objects], which lists
    every object created so far; [tracked] is the library's registry, read
    by [getVoiceConnection]; [timers] holds the pending callbacks of
    [disconnectFromChannel], oldest first, each with the guild it closes
    over; [opened] and [destroyed] record the transport sessions opened and
    the calls of [destroy()]. *)
Record state : Type := {
  objects : list VoiceConnection;
  tracked : gmap string nat;
  connections : gmap string (nat * string);    (* this.connections *)
  reconnecting : gset string;                  (* this.reconnecting *)
  timers : list string;
  opened : list nat;
  destroyed : list nat
}.

Definition initial : state :=
  {| objects := []; tracked := ∅; connections := ∅; reconnecting := ∅;
     timers := []; opened := []; destroyed := [] |}.

Definition set_objects (o : list VoiceConnection) (st : state) : state :=
  {| objects := o; tracked := tracked st; connections := connections st;
     reconnecting := reconnecting st; timers := timers st;
     opened := opened st; destroyed := destroyed st |}.

Definition set_tracked (t : gmap string nat) (st : state) : state :=
  {| objects := objects st; tracked := t; connections := connections st;
     reconnecting := reconnecting st; timers := timers st;
     opened := opened st; destroyed := destroyed st |}.

Definition set_connections (c : gmap string (nat * string)) (st : state) : state :=
  {| objects := objects st; tracked := tracked st; connections := c;
     reconnecting := reconnecting st; timers := timers st;
     opened := opened st; destroyed := destroyed st |}.

Definition set_reconnecting (r : gset string) (st : state) : state :=
  {| objects := objects st; tracked := tracked st; connections := connections st;
     reconnecting := r; timers := timers st;
     opened := opened st; destroyed := destroyed st |}.

Definition set_timers (t : list string) (st : state) : state :=
  {| objects := objects st; tracked := tracked st; connections := connections st;
     reconnecting := reconnecting st; timers := t;
     opened := opened st; destroyed := destroyed st |}.

Definition set_opened (o : list nat) (st : state) : state :=
  {| objects := objects st; tracked := tracked st; connections := connections st;
     reconnecting := reconnecting st; timers := timers st;
     opened := o; destroyed := destroyed st |}.

Definition set_destroyed (d : list nat) (st : state) : state :=
  {| objects := objects st; tracked := tracked st; connections := connections st;
     reconnecting := reconnecting st; timers := timers st;
     opened := opened st; destroyed := d |}.

(** *** The voice library, at its boundary *)

(** [getVoiceConnection(guildId)] *)
Definition getVoiceConnection (g : string) (st : state) : option nat :=
  tracked st !! g.

(** [connection.joinConfig.channelId === channelId] *)
Definition targets (c : nat) (ch : string) (st : state) : bool :=
  match objects st !! c with
  | Some o => String.eqb (channelId o) ch
  | None => false
  end.

(** The connection of the guild that [joinVoiceChannel] finds in the
    registry: one that is not destroyed. *)
Definition existing (g : string) (st : state) : option (nat * VoiceConnection) :=
  match tracked st !! g with
  | Some c =>
      match objects st !! c with
      | Some o =>
          match status o with
          | Destroyed => None
          | _ => Some (c, o)
          end
      | None => None
      end
  | None => None
  end.

(** [joinVoiceChannel({channelId, guildId, ...})]: the library keeps one
    connection per guild.  A guild that has one gets the same object
    back: if it is [Disconnected] it rejoins, on the channel asked for;
    otherwise the request to join the channel goes to the gateway, which
    takes it, and the join configuration of the object stays as it is
    until Discord reports the move.  A guild that has none gets a new
    object, which is tracked from then on. *)
Definition joinVoiceChannel (g ch : string) (st : state) : nat * state :=
  match existing g st with
  | Some (c, o) =>
      match status o with
      | Disconnected => (c, set_objects (alter (rejoin ch) c (objects st)) st)
      | _ => (c, st)
      end
  | None =>
      let c := length (objects st) in
      let fresh := {| guildId := g; channelId := ch; status := Signalling;
                      handlers := 0 |} in
      (c, set_opened (opened st ++ [c])
            (set_tracked (<[g := c]> (tracked st))
               (set_objects (objects st ++ [fresh]) st)))
  end.

(** [connection.destroy()]: throws on an object already destroyed;
    otherwise the object leaves the registry, reaches [Destroyed], and its
    [Destroyed] observers run: the one of [_setupConnectionHandlers]
    deletes the guild from [this.connections]. *)
Definition destroy (c : nat) : M state unit :=
  fun st =>
    match objects st !! c with
    | None => (Throw "Cannot destroy VoiceConnection - it has already been destroyed", st)
    | Some o =>
        match status o with
        | Destroyed =>
            (Throw "Cannot destroy VoiceConnection - it has already been destroyed", st)
        | _ =>
            let st1 := set_destroyed (destroyed st ++ [c]) st in
            let st2 := set_objects (alter (with_status Destroyed) c (objects st1)) st1 in
            let st3 :=
              match tracked st2 !! guildId o with
              | Some c' =>
                  if Nat.eqb c' c then set_tracked (delete (guildId o) (tracked st2)) st2
                  else st2
              | None => st2
              end in
            let st4 :=
              if Nat.ltb 0 (handlers o)
              then set_connections (delete (guildId o) (connections st3)) st3
              else st3 in
            (Ok tt, st4)
        end
    end.

(** [entersState(connection, Ready, 30_000)]; [ready] tells whether the
    transport gets ready in time. *)
Definition entersReady (ready : bool) (c : nat) : M state unit :=
  fun st =>
    match objects st !! c with
    | None => (Throw "The operation was aborted", st)
    | Some o =>
        match status o with
        | Ready => (Ok tt, st)
        | Destroyed => (Throw "The operation was aborted", st)
        | _ =>
            if ready
            then (Ok tt, set_objects (alter (with_status Ready) c (objects st)) st)
            else (Throw "The operation was aborted", st)
        end
    end.

(** The transport reports a status other than [Destroyed] for a
    connection that is not destroyed. *)
Definition transport_reports (c : nat) (s : VoiceConnectionStatus) : M state unit :=
  fun st =>
    match objects st !! c, s with
    | _, Destroyed => (Ok tt, st)
    | Some o, _ =>
        match status o with
        | Destroyed => (Ok tt, st)
        | _ => (Ok tt, set_objects (alter (with_status s) c (objects st)) st)
        end
    | None, _ => (Ok tt, st)
    end.

(** Discord reports the voice channel the bot is in (a voice state
    update): the join configuration of a connection that is not destroyed
    takes it. *)
Definition voice_state_update (c : nat) (ch : string) : M state unit :=
  fun st =>
    match objects st !! c with
    | Some o =>
        match status o with
        | Destroyed => (Ok tt, st)
        | _ => (Ok tt, set_objects (alter (with_channel ch) c (objects st)) st)
        end
    | None => (Ok tt, st)
    end.

(** *** The manager *)

(** [_setupConnectionHandlers(connection, guildId, channelId)] *)
Definition _setupConnectionHandlers (c : nat) : M state unit :=
  modify (fun st => set_objects (alter add_handlers c (objects st)) st).

(** [connectToChannel(channel)]; the [catch] logs and throws again. *)
Definition connectToChannel (ready : bool) (channel : Discord.channel) : M state nat :=
  try_catch
    (let guildId := Discord.guild_id channel in
     let* existingConnection := gets (getVoiceConnection guildId) in
     let* same := gets (fun st =>
                    match existingConnection with
                    | Some c => targets c (Discord.id channel) st
                    | None => false
                    end) in
     match existingConnection, same with
     | Some c, true => ret c
     | _, _ =>
         let* connection :=
           (fun st => let '(c, st') := joinVoiceChannel guildId (Discord.id channel) st
                      in (Ok c, st')) in
         _setupConnectionHandlers connection ;;
         entersReady ready connection ;;
         modify (fun st => set_connections
                   (<[guildId := (connection, Discord.id channel)]> (connections st)) st) ;;
         ret connection
     end)
    (fun error => throw error).

(** [disconnectFromChannel(guildId)]: with a connection for the guild, a
    timer is set for [config.voice.disconnectDelay] seconds. *)
Definition disconnectFromChannel (g : string) : M state unit :=
  let* connection := gets (getVoiceConnection g) in
  match connection with
  | Some _ => modify (fun st => set_timers (timers st ++ [g]) st)
  | None => ret tt
  end.

(** The callback that [disconnectFromChannel] hands to [setTimeout]. *)
Definition disconnect_callback (g : string) : M state unit :=
  let* conn := gets (getVoiceConnection g) in
  match conn with
  | Some c => destroy c
  | None => ret tt
  end ;;
  modify (fun st => set_connections (delete g (connections st)) st).

(** The oldest pending timer expires and its callback runs. *)
Definition fire_timer : M state unit :=
  fun st =>
    match timers st with
    | [] => (Ok tt, st)
    | g :: rest => disconnect_callback g (set_timers rest st)
    end.

(** [_cleanupConnection(guildId)] *)
Definition _cleanupConnection (g : string) : M state unit :=
  let* connection := gets (getVoiceConnection g) in
  match connection with
  | Some c => destroy c
  | None => ret tt
  end ;;
  modify (fun st => set_connections (delete g (connections st)) st).

(** [disconnectAll()]: the guilds of [this.connections] are visited; a
    visit deletes only its own entry. *)
Definition disconnectAll : M state unit :=
  let* guilds := gets (fun st => (map fst (map_to_list (connections st)))) in
  for_each guilds _cleanupConnection ;;
  modify (set_connections ∅).

(** The observer of [Disconnected] that [_setupConnectionHandlers]
    registers; [renegotiating] tells whether the transport reports
    [Signalling] or [Connecting] within five seconds. *)
Definition on_disconnected (renegotiating : bool) (g : string) : M state unit :=
  let* busy := gets (fun st => bool_decide (g ∈ reconnecting st)) in
  if busy then ret tt
  else
    modify (fun st => set_reconnecting ({[g]} ∪ reconnecting st) st) ;;
    try_finally
      (if renegotiating then ret tt else _cleanupConnection g)
      (modify (fun st => set_reconnecting (reconnecting st ∖ {[g]}) st)).

(** [isConnected(guildId)] *)
Definition isConnected (g : string) (st : state) : bool :=
  match getVoiceConnection g st with
  | Some c =>
      match objects st !! c with
      | Some o => bool_decide (status o = Ready)
      | None => false
      end
  | None => false
  end.

(** [getConnection(guildId)] *)
Definition getConnection (g : string) (st : state) : option nat :=
  getVoiceConnection g st.

(** The deprecated methods and [cleanup()]. *)
Definition connect (ready : bool) (channel : Discord.channel) : M state nat :=
  connectToChannel ready channel.

Definition disconnect : M state unit := disconnectAll.

Definition disconnectAfterDelay : M state unit := ret tt.

Definition cleanup : M state unit := disconnectAll.

End Voice.

(* ===================================================================== *)
(** ** src/audio/player.js                                               *)
(* ===================================================================== *)

Module Player.

Inductive StreamType : Type := OggOpus | Arbitrary.

Record resource : Type := { title : string; inputType : StreamType }.

(** The functions that the manager registers on the engine.  [OnIdle k]
    and [OnError k] are the two closures of the [k]-th call of
    [playFile]. *)
Inductive listener : Type :=
| LogPlaying
| CleanupOnIdle
| CleanupOnError
| OnIdle (k : nat)
| OnError (k : nat).

#[global] Instance listener_eq_dec : EqDecision listener.
Proof. solve_decision. Defined.

(** An entry of a listener array; [once] marks the wrapper of
    [emitter.once]. *)
Record registration : Type := { fn : listener; once : bool }.

Inductive promise : Type :=
| Pending
| Resolved
| Rejected (message : string).

(** The manager and the engine it drives.  [promises] lists the promises
    returned by [playFile], by call number; [subscribed] and [played]
    record the calls of [connection.subscribe] and [player.play]. *)
Record state : Type := {
  player : bool;                          (* this.player !== null *)
  on_playing : list registration;
  on_idle : list registration;
  on_error : list registration;
  currentResource : option resource;
  promises : list promise;
  subscribed : list nat;
  played : list resource
}.

Definition initial : state :=
  {| player := false; on_playing := []; on_idle := []; on_error := [];
     currentResource := None; promises := []; subscribed := []; played := [] |}.

Definition set_player (b : bool) (st : state) : state :=
  {| player := b; on_playing := on_playing st; on_idle := on_idle st;
     on_error := on_error st; currentResource := currentResource st;
     promises := promises st; subscribed := subscribed st; played := played st |}.

Definition set_on_playing (l : list registration) (st : state) : state :=
  {| player := player st; on_playing := l; on_idle := on_idle st;
     on_error := on_error st; currentResource := currentResource st;
     promises := promises st; subscribed := subscribed st; played := played st |}.

Definition set_on_idle (l : list registration) (st : state) : state :=
  {| player := player st; on_playing := on_playing st; on_idle := l;
     on_error := on_error st; currentResource := currentResource st;
     promises := promises st; subscribed := subscribed st; played := played st |}.

Definition set_on_error (l : list registration) (st : state) : state :=
  {| player := player st; on_playing := on_playing st; on_idle := on_idle st;
     on_error := l; currentResource := currentResource st;
     promises := promises st; subscribed := subscribed st; played := played st |}.

Definition set_currentResource (r : option resource) (st : state) : state :=
  {| player := player st; on_playing := on_playing st; on_idle := on_idle st;
     on_error := on_error st; currentResource := r;
     promises := promises st; subscribed := subscribed st; played := played st |}.

Definition set_promises (p : list promise) (st : state) : state :=
  {| player := player st; on_playing := on_playing st; on_idle := on_idle st;
     on_error := on_error st; currentResource := currentResource st;
     promises := p; subscribed := subscribed st; played := played st |}.

Definition set_subscribed (l : list nat) (st : state) : state :=
  {| player := player st; on_playing := on_playing st; on_idle := on_idle st;
     on_error := on_error st; currentResource := currentResource st;
     promises := promises st; subscribed := l; played := played st |}.

Definition set_played (l : list resource) (st : state) : state :=
  {| player := player st; on_playing := on_playing st; on_idle := on_idle st;
     on_error := on_error st; currentResource := currentResource st;
     promises := promises st; subscribed := subscribed st; played := l |}.

(** *** The event emitter of the engine *)

(** [emitter.off(event, f)]: the last entry added for [f] goes, wrapped
    by [once] or not. *)
Fixpoint remove_first (f : listener) (l : list registration) : list registration :=
  match l with
  | [] => []
  | r :: rest => if decide (fn r = f) then rest else r :: remove_first f rest
  end.

Definition off (f : listener) (l : list registration) : list registration :=
  rev (remove_first f (rev l)).

(** The wrapper of [once] takes itself out before it calls [f]: of the
    entries of an emission still to run, it is the first one for [f]. *)
Fixpoint remove_wrapper (f : listener) (l : list registration) : list registration :=
  match l with
  | [] => []
  | r :: rest =>
      if decide (fn r = f) then (if once r then rest else r :: remove_wrapper f rest)
      else r :: remove_wrapper f rest
  end.

(** A promise settles once. *)
Definition settle (k : nat) (p : promise) (st : state) : state :=
  match promises st !! k with
  | Some Pending => set_promises (<[k := p]> (promises st)) st
  | _ => st
  end.

(** [_cleanup()] *)
Definition _cleanup (st : state) : state := set_currentResource None st.

(** The [cleanup] closure of the [k]-th call of [playFile]. *)
Definition cleanup (k : nat) (st : state) : state :=
  set_on_error (off (OnError k) (on_error st))
    (set_on_idle (off (OnIdle k) (on_idle st)) st).

(** The body of each registered function; [error] is the argument of the
    emission. *)
Definition call (f : listener) (error : string) (st : state) : state :=
  match f with
  | LogPlaying => st
  | CleanupOnIdle => _cleanup st
  | CleanupOnError => _cleanup st
  | OnIdle k => settle k Resolved (cleanup k st)
  | OnError k => settle k (Rejected error) (cleanup k st)
  end.

(** [emit] walks a copy of the listener array taken when it starts. *)
Definition deliver (unwrap : listener -> state -> state) (error : string)
    (st : state) (r : registration) : state :=
  call (fn r) error (if once r then unwrap (fn r) st else st).

Definition emit_idle (st : state) : state :=
  fold_left
    (deliver (fun f s => set_on_idle (remove_wrapper f (on_idle s)) s) "")
    (on_idle st) st.

Definition emit_error (error : string) (st : state) : state :=
  fold_left
    (deliver (fun f s => set_on_error (remove_wrapper f (on_error s)) s) error)
    (on_error st) st.

(** What the engine reports for a submitted resource: it plays to the
    end, or fails; after a failure the engine goes idle as well. *)
Inductive report : Type :=
| Finished
| Failed (message : string).

Definition engine_reports (r : report) (st : state) : state :=
  match r with
  | Finished => emit_idle st
  | Failed e => emit_idle (emit_error e st)
  end.

(** *** The manager *)

(** [_setupPlayerHandlers()] *)
Definition _setupPlayerHandlers (st : state) : state :=
  set_on_error (on_error st ++ [{| fn := CleanupOnError; once := false |}])
    (set_on_idle (on_idle st ++ [{| fn := CleanupOnIdle; once := false |}])
       (set_on_playing (on_playing st ++ [{| fn := LogPlaying; once := false |}]) st)).

(** [getPlayer()] *)
Definition getPlayer (st : state) : state :=
  if player st then st else _setupPlayerHandlers (set_player true st).

Definition lower (a : ascii) : ascii :=
  let n := nat_of_ascii a in
  if (Nat.leb 65 n && Nat.leb n 90)%bool then ascii_of_nat (n + 32) else a.

Definition toLowerCase (s : string) : string :=
  string_of_list_ascii (map lower (list_ascii_of_string s)).

(** [playFile(filePath, connection)]: the promise it returns, by number.
    [cwd] is the working directory of the process and [files] the file
    store read by [existsSync]; [fault] is the exception, if any, that
    the library throws while the resource is made.  The [catch] logs and
    throws again. *)
Definition playFile (cwd : string) (files : gmap string string) (fault : option string)
    (filePath : string) (connection : nat) : M state nat :=
  let absolutePath := Path.resolve cwd filePath in
  if negb (Fs.existsSync cwd files absolutePath)
  then throw ("Audio file not found: " +:+ absolutePath)
  else
    let ext := toLowerCase (Path.extname absolutePath) in
    try_catch
      (modify getPlayer ;;
       let* resource :=
         match fault with
         | Some e => throw e
         | None =>
             ret (if String.eqb ext ".opus"
                  then {| title := Path.basename absolutePath; inputType := OggOpus |}
                  else {| title := Path.basename absolutePath; inputType := Arbitrary |})
         end in
       modify (set_currentResource (Some resource)) ;;
       modify (fun st => set_subscribed (subscribed st ++ [connection]) st) ;;
       modify (fun st => set_played (played st ++ [resource]) st) ;;
       let* k := gets (fun st => length (promises st)) in
       modify (fun st => set_promises (promises st ++ [Pending]) st) ;;
       modify (fun st => set_on_idle (on_idle st ++ [{| fn := OnIdle k; once := true |}]) st) ;;
       modify (fun st => set_on_error (on_error st ++ [{| fn := OnError k; once := true |}]) st) ;;
       ret k)
      (fun error => throw error).

(** [await] of the promise [k] once it has settled. *)
Definition await (k : nat) : M state unit :=
  fun st =>
    match promises st !! k with
    | Some Resolved => (Ok tt, st)
    | Some (Rejected e) => (Throw e, st)
    | _ => (Throw "the promise has not settled", st)
    end.

(** [player.stop(true)] on the engine: an engine that is playing or
    buffering goes idle at once and emits [Idle]; an idle engine stays as
    it is.  [busy] tells which it is. *)
Definition engine_stop (busy : bool) (st : state) : state :=
  if busy then emit_idle st else st.

(** [stop()] *)
Definition stop (busy : bool) (st : state) : state :=
  if player st then engine_stop busy st else st.

(** [destroy()]: the engine is stopped and let go, with the listeners it
    carries; the next [getPlayer] makes a new one. *)
Definition destroy (busy : bool) (st : state) : state :=
  set_currentResource None
    (if player st
     then set_on_error [] (set_on_idle [] (set_on_playing []
            (set_player false (engine_stop busy st))))
     else st).

End Player.

(* ===================================================================== *)
(** ** src/tts/generator.js                                              *)
(* ===================================================================== *)

Module TTS.

(** The [options] argument of [generate]; [None] is an absent property. *)
Record options : Type := {
  voice : option string;
  rate : option string;
  pitch : option string;
  useCache : option bool
}.

Definition no_options : options :=
  {| voice := None; rate := None; pitch := None; useCache := None |}.

(** One call of the synthesis service. *)
Record request : Type := {
  req_text : string;
  req_voice : string;
  req_rate : string;
  req_pitch : string
}.

(** The service: the audio bytes for a request, or a failure. *)
Definition service : Type := request -> outcome string.

(** The file store, and the requests sent to the service so far. *)
Record state : Type := {
  files : gmap string string;
  requests : list request
}.

Definition set_files (f : gmap string string) (st : state) : state :=
  {| files := f; requests := requests st |}.

Definition set_requests (r : list request) (st : state) : state :=
  {| files := files st; requests := r |}.

(** [_getCacheKey(text, voice)] *)
Definition _getCacheKey (cfg : Config.config) (text voice : string) : string :=
  let hash :=
    MD5.md5_hex (text +:+ "|" +:+ voice +:+ "|" +:+ Config.rate (Config.tts cfg)
                 +:+ "|" +:+ Config.pitch (Config.tts cfg)) in
  "tts_" +:+ hash +:+ ".mp3".

(** [getCached(text, voice)]; [None] is [null].  [existsSync] is read on
    the regular files of the store: a directory under the name of a cache
    file, which nothing in the program makes, is left out of account. *)
Definition getCached (cfg : Config.config) (text voice : string) (st : state)
  : option string :=
  let cacheFile := Path.join (Config.cacheDir cfg) (_getCacheKey cfg text voice) in
  if bool_decide (is_Some (files st !! cacheFile)) then Some cacheFile else None.

(** [generate(text, options)]; the [catch] logs and throws again. *)
Definition generate (cfg : Config.config) (synthesize : service)
    (text : string) (opts : options) : M state string :=
  let voice := Js.or_else (voice opts) (Config.voice_name (Config.tts cfg)) in
  let rate := Js.or_else (rate opts) (Config.rate (Config.tts cfg)) in
  let pitch := Js.or_else (pitch opts) (Config.pitch (Config.tts cfg)) in
  let useCache :=
    match useCache opts with Some false => false | _ => true end in
  let cacheFile := Path.join (Config.cacheDir cfg) (_getCacheKey cfg text voice) in
  let synthesise_and_store : M state string :=
    try_catch
      (let req := {| req_text := text; req_voice := voice;
                     req_rate := rate; req_pitch := pitch |} in
       modify (fun st => set_requests (requests st ++ [req]) st) ;;
       let* audio := (fun st => (synthesize req, st)) in
       modify (fun st => set_files (<[cacheFile := audio]> (files st)) st) ;;
       ret cacheFile)
      (fun error => throw error) in
  if useCache then
    let* cached := gets (getCached cfg text voice) in
    match cached with
    | Some file => if Js.truthy file then ret file else synthesise_and_store
    | None => synthesise_and_store
    end
  else synthesise_and_store.

(** [pregenerate(texts)] *)
Fixpoint pregenerate (cfg : Config.config) (synthesize : service)
    (texts : list string) (results : list string) : M state (list string) :=
  match texts with
  | [] => ret results
  | text :: rest =>
      let* results' :=
        try_catch
          (let* file := generate cfg synthesize text no_options in
           ret (results ++ [file]))
          (fun _ => ret results) in
      pregenerate cfg synthesize rest results'
  end.

(** *** Directories of the store

    The store holds the regular files, each under the path the code
    names it by; a directory is there when a file lies below it, and the
    cache directory, which the constructor makes, is there in any case. *)

(** The paths of the directories above a path, the nearest last. *)
Definition ancestors (p : string) : list string :=
  let segs := Path.segments p in
  map (fun n => String.concat "/" (firstn n segs)) (seq 1 (length segs - 1)).

(** Whether [p] is directly in the directory [dir]. *)
Definition directly_in (dir p : string) : bool :=
  String.eqb (Path.join dir (Path.basename p)) p.

(** Whether [p] is a directory of the store. *)
Definition isDirectory (p : string) (fs : gmap string string) : bool :=
  existsb (fun k => existsb (String.eqb p) (ancestors k)) (map fst (map_to_list fs)).

(** [fs.readdirSync(dir)]: the names of the files and of the directories
    that are directly in [dir], each once.  The order of the names, which
    the file system does not promise, is that of the store. *)
Definition readdirSync (dir : string) (fs : gmap string string) : list string :=
  remove_dups
    (flat_map
       (fun k =>
          (if directly_in dir k then [Path.basename k] else [])
          ++ map Path.basename (filter (fun a => directly_in dir a = true) (ancestors k)))
       (map fst (map_to_list fs))).

(** [fs.unlinkSync(p)] *)
Definition unlinkSync (p : string) : M state unit :=
  fun st =>
    if bool_decide (is_Some (files st !! p))
    then (Ok tt, set_files (delete p (files st)) st)
    else if isDirectory p (files st)
    then (Throw ("EISDIR: illegal operation on a directory, unlink '" +:+ p +:+ "'"), st)
    else (Throw ("ENOENT: no such file or directory, unlink '" +:+ p +:+ "'"), st).

(** [clearCache()] *)
Definition clearCache (cfg : Config.config) : M state unit :=
  let* files := gets (fun st => readdirSync (Config.cacheDir cfg) (files st)) in
  for_each files
    (fun file =>
       if Js.startsWith file "tts_" && Js.endsWith file ".mp3"
       then unlinkSync (Path.join (Config.cacheDir cfg) file)
       else ret tt).

End TTS.

(* ===================================================================== *)
(** ** src/scheduler/cron.js                                             *)
(* ===================================================================== *)

Module Scheduler.

(** The fields of a [Date] that the scheduler reads. *)
Record localtime : Type := {
  getDay : Z;          (* 0 = Sunday *)
  getHours : Z;
  getMinutes : Z
}.

(** What the scheduler is given: the configuration, the tables of
    events.js, and the outside world.  The world answers by observation
    number, so that two observations need not agree. *)
Record env : Type := {
  cwd : string;                           (* [process.cwd()] *)
  config : Config.config;
  events : list Events.event;
  audioSets : gmap string (list string);
  cron_validate : string -> bool;
  clock : nat -> localtime;               (* now, in [config.timezone] *)
  local_hour : nat -> Z;                  (* [new Date().getHours()] *)
  directory : nat -> string -> Discord.fetched;
  transport_ready : nat -> bool;
  synthesis : nat -> TTS.service;
  resource_fault : nat -> option string;
  engine : nat -> Player.report
}.

(** The calls that the scheduler makes on its collaborators, in order;
    an awaited call is entered when it settles, with its result. *)
Inductive call : Type :=
| Log (level message : string)
| Fetch (channelId : string)
| ConnectToChannel (guildId channelId : string) (result : outcome nat)
| Delay (ms : Z)
| Generate (text : string) (result : outcome string)
| PlayFile (filePath : option string) (connection : nat) (result : outcome unit)
| DisconnectFromChannel (guildId : string)
| CronSchedule (name : string)
| JobStop (name : string).

(** The scheduler, the three singletons it uses, the number of
    observations of the outside world made so far, and the calls made so
    far. *)
Record world : Type := {
  voice : Voice.state;
  audio : Player.state;
  tts : TTS.state;
  scheduledJobs : gmap string Events.event;
  pregeneratedAudio : gmap string string;
  observations : nat;
  trace : list call
}.

Definition set_voice (v : Voice.state) (w : world) : world :=
  {| voice := v; audio := audio w; tts := tts w; scheduledJobs := scheduledJobs w;
     pregeneratedAudio := pregeneratedAudio w; observations := observations w;
     trace := trace w |}.

Definition set_audio (a : Player.state) (w : world) : world :=
  {| voice := voice w; audio := a; tts := tts w; scheduledJobs := scheduledJobs w;
     pregeneratedAudio := pregeneratedAudio w; observations := observations w;
     trace := trace w |}.

Definition set_tts (t : TTS.state) (w : world) : world :=
  {| voice := voice w; audio := audio w; tts := t; scheduledJobs := scheduledJobs w;
     pregeneratedAudio := pregeneratedAudio w; observations := observations w;
     trace := trace w |}.

Definition set_scheduledJobs (j : gmap string Events.event) (w : world) : world :=
  {| voice := voice w; audio := audio w; tts := tts w; scheduledJobs := j;
     pregeneratedAudio := pregeneratedAudio w; observations := observations w;
     trace := trace w |}.

Definition set_pregeneratedAudio (p : gmap string string) (w : world) : world :=
  {| voice := voice w; audio := audio w; tts := tts w; scheduledJobs := scheduledJobs w;
     pregeneratedAudio := p; observations := observations w; trace := trace w |}.

Definition set_observations (n : nat) (w : world) : world :=
  {| voice := voice w; audio := audio w; tts := tts w; scheduledJobs := scheduledJobs w;
     pregeneratedAudio := pregeneratedAudio w; observations := n; trace := trace w |}.

Definition set_trace (t : list call) (w : world) : world :=
  {| voice := voice w; audio := audio w; tts := tts w; scheduledJobs := scheduledJobs w;
     pregeneratedAudio := pregeneratedAudio w; observations := observations w;
     trace := t |}.

(** [new EventScheduler(client)] beside fresh singletons and a file
    store that holds the given audio files. *)
Definition initial (audio_files : gmap string string) : world :=
  {| voice := Voice.initial; audio := Player.initial;
     tts := {| TTS.files := audio_files; TTS.requests := [] |};
     scheduledJobs := ∅; pregeneratedAudio := ∅; observations := 0; trace := [] |}.

Definition record (c : call) : M world unit :=
  modify (fun w => set_trace (trace w ++ [c]) w).

Definition log (level message : string) : M world unit := record (Log level message).

(** The number of the next observation of the outside world. *)
Definition observe : M world nat :=
  let* n := gets observations in
  modify (set_observations (S n)) ;;
  ret n.

Definition of_outcome {S A} (r : outcome A) : M S A := fun s => (r, s).

(** An awaited call, entered in the trace with its result. *)
Definition recording {A} (entry : outcome A -> call) (m : M world A) : M world A :=
  fun w => let '(r, w') := m w in (r, set_trace (trace w' ++ [entry r]) w').

(** *** Calls on the collaborators *)

(** [await voiceManager.connectToChannel(channel)] *)
Definition connectToChannel (E : env) (channel : Discord.channel) : M world nat :=
  recording (ConnectToChannel (Discord.guild_id channel) (Discord.id channel))
    (let* n := observe in
     zoom voice set_voice (Voice.connectToChannel (transport_ready E n) channel)).

(** [voiceManager.disconnectFromChannel(guildId)] *)
Definition disconnectFromChannel (g : string) : M world unit :=
  record (DisconnectFromChannel g) ;;
  zoom voice set_voice (Voice.disconnectFromChannel g).

(** [await ttsGenerator.generate(text)] *)
Definition generate (E : env) (text : string) : M world string :=
  recording (Generate text)
    (let* n := observe in
     zoom tts set_tts (TTS.generate (config E) (synthesis E n) text TTS.no_options)).

(** [await audioPlayer.playFile(audioPath, connection)]: the call, what
    the engine then reports, and the settled promise.  An [undefined]
    path makes [path.resolve] throw. *)
Definition playFile (E : env) (audioPath : option string) (connection : nat)
  : M world unit :=
  recording (PlayFile audioPath connection)
    match audioPath with
    | None => throw "The 'paths[0]' argument must be of type string. Received undefined"
    | Some filePath =>
        let* n := observe in
        let* files := gets (fun w => TTS.files (tts w)) in
        let* k := zoom audio set_audio
                    (Player.playFile (cwd E) files (resource_fault E n) filePath
                       connection) in
        modify (fun w => set_audio (Player.engine_reports (engine E n) (audio w)) w) ;;
        zoom audio set_audio (Player.await k)
    end.

(** [await this.client.channels.fetch(channelId)] *)
Definition fetch (E : env) (channelId : string) : M world (option Discord.channel) :=
  record (Fetch channelId) ;;
  let* n := observe in
  match directory E n channelId with
  | Discord.Rejected e => throw e
  | Discord.Null => ret None
  | Discord.Found c => ret (Some c)
  end.

(** *** The scheduler *)

(** The test of [_isMaintenanceWindow] on the converted time. *)
Definition inWindow (mexicoTime : localtime) : bool :=
  let dayOfWeek := getDay mexicoTime in
  let hours := getHours mexicoTime in
  let minutes := getMinutes mexicoTime in
  let currentTimeInMinutes := hours * 60 + minutes in
  let isTuesday := dayOfWeek =? 2 in
  let startTime := 13 * 60 + 30 in
  let endTime := 19 * 60 + 30 in
  isTuesday && (startTime <=? currentTimeInMinutes) && (currentTimeInMinutes <? endTime).

(** [_isMaintenanceWindow()] *)
Definition _isMaintenanceWindow (E : env) : M world bool :=
  let* n := observe in
  let mexicoTime := clock E n in
  (if inWindow mexicoTime then log "debug" "Currently in maintenance window" else ret tt) ;;
  ret (inWindow mexicoTime).

(** [channel.members.filter(member => !member.user.bot)] *)
Definition humanMembers (channel : Discord.channel) : list Discord.member :=
  filter (fun m => Discord.bot m = false) (Discord.members channel).

(** [_hasUsersInChannel(channelId)] *)
Definition _hasUsersInChannel (E : env) (channelId : string) : M world bool :=
  try_catch
    (let* channel := fetch E channelId in
     match channel with
     | None => ret false
     | Some channel =>
         if negb (Discord.isVoiceBased channel) then ret false
         else
           let count := length (humanMembers channel) in
           log "debug" "Channel user check" ;;
           ret (Nat.ltb 0 count)
     end)
    (fun error => log "error" "Failed to check channel users" ;; ret false).

(** [_getVoiceChannel(channelId)] *)
Definition _getVoiceChannel (E : env) (channelId : string)
  : M world (option Discord.channel) :=
  try_catch
    (let* channel := fetch E channelId in
     match channel with
     | None => ret None
     | Some channel =>
         if negb (Discord.isVoiceBased channel) then ret None else ret (Some channel)
     end)
    (fun error => log "error" "Failed to fetch voice channel" ;; ret None).

(** [await this._delay(ms)] *)
Definition _delay (ms : Z) : M world unit := record (Delay ms).

(** The two variables that [_executeEventForChannel] declares before its
    [try] and reads in its [finally]. *)
Record frame : Type := {
  connection : option nat;
  guildId : option string
}.

Definition in_world {A} (m : M world A) : M (frame * world) A :=
  zoom snd (fun w s => (fst s, w)) m.

Definition assign_guildId (g : string) : M (frame * world) unit :=
  modify (fun s => ({| connection := connection (fst s); guildId := Some g |}, snd s)).

Definition assign_connection (c : nat) : M (frame * world) unit :=
  modify (fun s => ({| connection := Some c; guildId := guildId (fst s) |}, snd s)).

Definition with_frame {A} (f : frame) (m : M (frame * world) A) : M world A :=
  fun w => let '(r, s) := m (f, w) in (r, snd s).

(** The choice of the audio file in [_executeEventForChannel] (the
    [if] on [event.type]). *)
Definition audioPath_of (E : env) (event : Events.event) : M world (option string) :=
  match Events.type event with
  | Events.TTS =>
      let* audioPath := gets (fun w => pregeneratedAudio w !! Events.name event) in
      match audioPath with
      | Some p =>
          if Js.truthy p then ret (Some p)
          else
            let* p' := generate E (Events.content event) in
            ret (Some p')
      | None =>
          let* p' := generate E (Events.content event) in
          ret (Some p')
      end
  | Events.AUDIO_ROTATE =>
      let* n := observe in
      let* audioPath :=
        of_outcome (Events.getRotatedAudio (audioSets E) (local_hour E n)
                      (Events.content event)) in
      log "debug" "Using rotated audio" ;;
      ret audioPath
  | Events.AUDIO => ret (Some (Events.content event))
  end.

(** The [try] block of [_executeEventForChannel]. *)
Definition try_block (E : env) (event : Events.event) (channelId : string)
  : M (frame * world) unit :=
  let* channel := in_world (_getVoiceChannel E channelId) in
  match channel with
  | None => in_world (log "error" "Voice channel not found")
  | Some channel =>
      assign_guildId (Discord.guild_id channel) ;;
      let* c := in_world (connectToChannel E channel) in
      assign_connection c ;;
      let* connection := gets (fun s => connection (fst s)) in
      match connection with
      | None => in_world (log "error" "Failed to connect to voice channel")
      | Some connection =>
          in_world (_delay 500) ;;
          let* audioPath := in_world (audioPath_of E event) in
          in_world (playFile E audioPath connection) ;;
          in_world (log "info" "Event playback complete")
      end
  end.

(** The [catch] block. *)
Definition catch_block (error : string) : M (frame * world) unit :=
  in_world (log "error" "Event execution failed").

(** The [finally] block. *)
Definition finally_block : M (frame * world) unit :=
  let* f := gets fst in
  match connection f, guildId f with
  | Some _, Some g =>
      if Js.truthy g then in_world (disconnectFromChannel g) else ret tt
  | _, _ => ret tt
  end.

(** [_executeEventForChannel(event, channelId)] *)
Definition _executeEventForChannel (E : env) (event : Events.event)
    (channelId : string) : M world unit :=
  let* maintenance := _isMaintenanceWindow E in
  if maintenance then
    log "info" "Skipping event - maintenance window active"
  else
    let requireUsers :=
      match Events.requireUsers event with Some false => false | _ => true end in
    let* skipped :=
      if requireUsers then
        let* hasUsers := _hasUsersInChannel E channelId in
        if negb hasUsers
        then log "info" "Skipping event - no users in channel" ;; ret true
        else ret false
      else ret false in
    if skipped then ret tt
    else
      log "info" "Executing event for channel" ;;
      with_frame {| connection := None; guildId := None |}
        (try_finally (try_catch (try_block E event channelId) catch_block)
           finally_block).

(** [_executeEventForAllChannels(event)]: one execution per configured
    channel, none of which can fail the others ([Promise.allSettled]).
    The executions are run one after the other, in the order of the
    channel list. *)
Definition _executeEventForAllChannels (E : env) (event : Events.event) : M world unit :=
  log "info" "Executing scheduled event for all channels" ;;
  for_each (Config.channelIds (config E))
    (fun channelId =>
       try_catch (_executeEventForChannel E event channelId) (fun _ => ret tt)).

(** [_pregenerateTTS(eventsList)] *)
Definition _pregenerateTTS (E : env) (eventsList : list Events.event) : M world unit :=
  let ttsEvents :=
    filter (fun e => Events.type e = Events.TTS) eventsList in
  if Nat.eqb (length ttsEvents) 0 then ret tt
  else
    log "info" "Pre-generating TTS audio" ;;
    for_each ttsEvents
      (fun event =>
         try_catch
           (let* audioPath := generate E (Events.content event) in
            modify (fun w => set_pregeneratedAudio
                      (<[Events.name event := audioPath]> (pregeneratedAudio w)) w) ;;
            log "debug" "Pre-generated TTS for event")
           (fun error => log "error" "Failed to pre-generate TTS")).

(** [scheduleEvent(event)]; the job is kept as the event its callback
    closes over. *)
Definition scheduleEvent (E : env) (event : Events.event) : M world unit :=
  if negb (cron_validate E (Events.cron event))
  then log "error" "Invalid cron expression"
  else
    record (CronSchedule (Events.name event)) ;;
    modify (fun w => set_scheduledJobs
              (<[Events.name event := event]> (scheduledJobs w)) w) ;;
    log "info" "Event scheduled".

(** [initialize()] *)
Definition initialize (E : env) : M world unit :=
  let enabledEvents := Events.getEnabledEvents (events E) in
  if Nat.eqb (length enabledEvents) 0
  then log "warn" "No events enabled. Add events to src/scheduler/events.js"
  else
    log "info" "Initializing scheduler" ;;
    _pregenerateTTS E enabledEvents ;;
    for_each enabledEvents (scheduleEvent E).

(** [stopAll()] *)
Definition stopAll : M world unit :=
  let* names := gets (fun w => map fst (map_to_list (scheduledJobs w))) in
  for_each names
    (fun name => record (JobStop name) ;; log "debug" "Stopped scheduled job") ;;
  modify (set_scheduledJobs ∅).

(** [triggerEvent(eventName)] *)
Definition triggerEvent (E : env) (eventName : string) : M world unit :=
  match find (fun e => String.eqb (Events.name e) eventName) (events E) with
  | None => log "error" "Event not found"
  | Some event => _executeEventForAllChannels E event
  end.

(** The timer of a scheduled job fires. *)
Definition cron_fire (E : env) (name : string) : M world unit :=
  let* job := gets (fun w => scheduledJobs w !! name) in
  match job with
  | Some event => _executeEventForAllChannels E event
  | None => ret tt
  end.

End Scheduler.

(* ===================================================================== *)
(** ** src/index.js                                                      *)
(* ===================================================================== *)

Module Index.

(** How the process ends, if it does. *)
Inductive exit : Type := Exit (code : Z).

(** What [main] and [shutdown] do beside the scheduler: the lines handed
    to the logger, whether [client.login] and [client.destroy] were
    called, and the exit of the process. *)
Record process : Type := {
  world : Scheduler.world;
  scheduler : bool;                  (* scheduler !== null *)
  logged : list (string * string);
  login_calls : list (option string);
  client_destroyed : bool;
  exited : option exit
}.

Definition set_world (w : Scheduler.world) (p : process) : process :=
  {| world := w; scheduler := scheduler p; logged := logged p;
     login_calls := login_calls p; client_destroyed := client_destroyed p;
     exited := exited p |}.

Definition set_scheduler (b : bool) (p : process) : process :=
  {| world := world p; scheduler := b; logged := logged p;
     login_calls := login_calls p; client_destroyed := client_destroyed p;
     exited := exited p |}.

Definition set_logged (l : list (string * string)) (p : process) : process :=
  {| world := world p; scheduler := scheduler p; logged := l;
     login_calls := login_calls p; client_destroyed := client_destroyed p;
     exited := exited p |}.

Definition set_login_calls (l : list (option string)) (p : process) : process :=
  {| world := world p; scheduler := scheduler p; logged := logged p;
     login_calls := l; client_destroyed := client_destroyed p;
     exited := exited p |}.

Definition set_client_destroyed (b : bool) (p : process) : process :=
  {| world := world p; scheduler := scheduler p; logged := logged p;
     login_calls := login_calls p; client_destroyed := b;
     exited := exited p |}.

Definition set_exited (e : option exit) (p : process) : process :=
  {| world := world p; scheduler := scheduler p; logged := logged p;
     login_calls := login_calls p; client_destroyed := client_destroyed p;
     exited := e |}.

(** The process before [main], beside fresh singletons. *)
Definition initial (audio_files : gmap string string) : process :=
  {| world := Scheduler.initial audio_files; scheduler := false; logged := [];
     login_calls := []; client_destroyed := false; exited := None |}.

Definition log (level message : string) : M process unit :=
  modify (fun p => set_logged (logged p ++ [(level, message)]) p).

(** [process.exit(code)] *)
Definition process_exit (code : Z) : M process unit :=
  modify (set_exited (Some (Exit code))).

(** The handler of [ready]: the scheduler is a new one, with empty maps. *)
Definition on_ready (E : Scheduler.env) : M process unit :=
  log "info" "Bot is online" ;;
  modify (fun p => set_world
            (Scheduler.set_pregeneratedAudio ∅
               (Scheduler.set_scheduledJobs ∅ (world p))) p) ;;
  modify (set_scheduler true) ;;
  zoom world set_world (Scheduler.initialize E) ;;
  log "info" "Bot initialization complete".

(** [shutdown(signal)]; [busy] tells whether the engine is playing when
    it is stopped.  An exception leaves the function before
    [process.exit]. *)
Definition shutdown (busy : bool) : M process unit :=
  log "info" "Shutdown signal received" ;;
  let* started := gets scheduler in
  (if started then zoom world set_world Scheduler.stopAll else ret tt) ;;
  zoom world set_world (zoom Scheduler.voice Scheduler.set_voice Voice.cleanup) ;;
  modify (fun p => set_world
            (Scheduler.set_audio (Player.destroy busy (Scheduler.audio (world p)))
               (world p)) p) ;;
  modify (set_client_destroyed true) ;;
  log "info" "Graceful shutdown complete" ;;
  process_exit 0.

(** [main()], with the configuration read from the environment and what
    [client.login] settles to. *)
Definition main (cfg : Config.config) (login : outcome unit) : M process unit :=
  try_catch
    (Scheduler.of_outcome (Config.validateConfig cfg) ;;
     log "info" "Starting Discord Voice Reminder Bot" ;;
     log "info" "Configuration loaded" ;;
     modify (fun p => set_login_calls (login_calls p ++ [Config.token cfg]) p) ;;
     Scheduler.of_outcome login)
    (fun error =>
       log "error" "Failed to start bot" ;;
       process_exit 1).

End Index.

(* ===================================================================== *)
(** * Vocabulary of the properties                                       *)
(* ===================================================================== *)

(** ** Calls of a trace *)

(** A call that neither opens a session nor plays: a log line or a
    directory lookup. *)
Definition lookup_or_log (c : Scheduler.call) : Prop :=
  match c with
  | Scheduler.Log _ _ | Scheduler.Fetch _ => True
  | _ => False
  end.

(** The guilds for which a disconnect was requested, in order. *)
Fixpoint disconnect_requests (t : list Scheduler.call) : list string :=
  match t with
  | [] => []
  | Scheduler.DisconnectFromChannel g :: rest => g :: disconnect_requests rest
  | _ :: rest => disconnect_requests rest
  end.

(** The sessions that [connectToChannel] returned, with their guild. *)
Fixpoint sessions_obtained (t : list Scheduler.call) : list (string * nat) :=
  match t with
  | [] => []
  | Scheduler.ConnectToChannel g _ (Ok c) :: rest => (g, c) :: sessions_obtained rest
  | _ :: rest => sessions_obtained rest
  end.

(** ** What a computation keeps *)

(** Every run of [m] takes a store to one related to it by [R]. *)
Definition preserves {S A} (R : S -> S -> Prop) (m : M S A) : Prop :=
  forall s, R s (snd (m s)).

(** The scheduled jobs are the same. *)
Definition same_jobs (w w' : Scheduler.world) : Prop :=
  Scheduler.scheduledJobs w' = Scheduler.scheduledJobs w.

(** The trace has grown by calls that satisfy [Q]. *)
Definition grows_by (Q : Scheduler.call -> Prop) (w w' : Scheduler.world) : Prop :=
  exists new, Scheduler.trace w' = Scheduler.trace w ++ new /\ Forall Q new.

(** ** Sessions of the voice manager *)

(** The connection object [c] is a live session of the guild [g]: it
    exists, was opened for [g], and is not destroyed. *)
Definition live (st : Voice.state) (g : string) (c : nat) : Prop :=
  exists o, Voice.objects st !! c = Some o /\ Voice.guildId o = g
            /\ Voice.status o <> Voice.Destroyed.

(** The registry and the objects agree: what a guild is tracked to is a
    live object of that guild, and every live object is the one its guild
    is tracked to. *)
Record consistent (st : Voice.state) : Prop := {
  tracked_live :
    forall g c, Voice.tracked st !! g = Some c ->
      exists o, Voice.objects st !! c = Some o /\ Voice.guildId o = g
                /\ Voice.status o <> Voice.Destroyed;
  live_tracked :
    forall c o, Voice.objects st !! c = Some o ->
      Voice.status o <> Voice.Destroyed ->
      Voice.tracked st !! Voice.guildId o = Some c
}.

Definition keeps_consistent (st st' : Voice.state) : Prop :=
  consistent st -> consistent st'.

(** At most one live session per guild. *)
Definition one_session_per_guild (st : Voice.state) : Prop :=
  forall g c1 c2, live st g c1 -> live st g c2 -> c1 = c2.

(** One operation of the manager, one expiry of a timer, one report of
    the transport, or one voice state update from Discord. *)
Inductive step : Voice.state -> Voice.state -> Prop :=
| step_connect ready channel st :
    step st (snd (Voice.connectToChannel ready channel st))
| step_disconnect g st :
    step st (snd (Voice.disconnectFromChannel g st))
| step_timer st :
    step st (snd (Voice.fire_timer st))
| step_cleanup g st :
    step st (snd (Voice._cleanupConnection g st))
| step_disconnectAll st :
    step st (snd (Voice.disconnectAll st))
| step_on_disconnected renegotiating g st :
    step st (snd (Voice.on_disconnected renegotiating g st))
| step_transport c s st :
    step st (snd (Voice.transport_reports c s st))
| step_voice_state c ch st :
    step st (snd (Voice.voice_state_update c ch st)).

(** The states of the manager from its construction on. *)
Inductive reachable : Voice.state -> Prop :=
| reachable_initial : reachable Voice.initial
| reachable_step st st' : reachable st -> step st st' -> reachable st'.

(** The next [n] pending timers expire, oldest first. *)
Fixpoint expire (n : nat) : M Voice.state unit :=
  match n with
  | O => ret tt
  | S n' => Voice.fire_timer ;; expire n'
  end.

(** The number of calls of [destroy()] made on the connection [c]. *)
Definition teardowns (c : nat) (st : Voice.state) : nat :=
  count_occ Nat.eq_dec (Voice.destroyed st) c.

(** ** Observers of the playback engine *)

(** The entries of a listener array that were added for [f]. *)
Definition registrations (f : Player.listener) (l : list Player.registration)
  : list Player.registration :=
  filter (fun r => Player.fn r = f) l.

(** The two completion observers of the [k]-th call of [playFile] are on
    the engine no more. *)
Definition detached (k : nat) (st : Player.state) : Prop :=
  registrations (Player.OnIdle k) (Player.on_idle st) = []
  /\ registrations (Player.OnError k) (Player.on_error st) = [].

(** Both completion observers of the [k]-th call are on the engine, once
    each, and its promise is pending. *)
Definition awaiting (k : nat) (st : Player.state) : Prop :=
  Player.promises st !! k = Some Player.Pending
  /\ registrations (Player.OnIdle k) (Player.on_idle st)
     = [ {| Player.fn := Player.OnIdle k; Player.once := true |} ]
  /\ registrations (Player.OnError k) (Player.on_error st)
     = [ {| Player.fn := Player.OnError k; Player.once := true |} ].

Definition idle_listener (n : nat) (r : Player.registration) : Prop :=
  Player.fn r = Player.CleanupOnIdle \/ exists j, (j < n)%nat /\ Player.fn r = Player.OnIdle j.

Definition error_listener (n : nat) (r : Player.registration) : Prop :=
  Player.fn r = Player.CleanupOnError \/ exists j, (j < n)%nat /\ Player.fn r = Player.OnError j.

(** The listener arrays hold what the manager puts there: its own two
    observers and completion observers of calls made so far. *)
Record well_formed (st : Player.state) : Prop := {
  wf_idle : Forall (idle_listener (length (Player.promises st))) (Player.on_idle st);
  wf_error : Forall (error_listener (length (Player.promises st))) (Player.on_error st)
}.

(** One call of [playFile], or one report or emission of the engine. *)
Inductive driver_step : Player.state -> Player.state -> Prop :=
| driver_playFile cwd files fault filePath connection st :
    driver_step st (snd (Player.playFile cwd files fault filePath connection st))
| driver_reports r st :
    driver_step st (Player.engine_reports r st)
| driver_idle st :
    driver_step st (Player.emit_idle st)
| driver_error e st :
    driver_step st (Player.emit_error e st).

(** The states of the driver from its construction on. *)
Inductive driver_reachable : Player.state -> Prop :=
| driver_initial : driver_reachable Player.initial
| driver_next st st' : driver_reachable st -> driver_step st st' -> driver_reachable st'.

(** How a promise of [playFile] settles on a report of the engine. *)
Definition settled (r : Player.report) : Player.promise :=
  match r with
  | Player.Finished => Player.Resolved
  | Player.Failed e => Player.Rejected e
  end.

(** What the [k]-th call of [playFile] can see of the engine: its promise
    and the entries of its two observers. *)
Definition view (k : nat) (st : Player.state)
  : option Player.promise * list Player.registration * list Player.registration :=
  (Player.promises st !! k,
   registrations (Player.OnIdle k) (Player.on_idle st),
   registrations (Player.OnError k) (Player.on_error st)).

(** A listener that is not an observer of the [k]-th call. *)
Definition foreign (k : nat) (r : Player.registration) : Prop :=
  Player.fn r <> Player.OnIdle k /\ Player.fn r <> Player.OnError k.

(** ** The shape of an execution for a channel *)

(** A call that is neither a session obtained nor a disconnect request. *)
Definition quiet (c : Scheduler.call) : Prop :=
  match c with
  | Scheduler.ConnectToChannel _ _ (Ok _) => False
  | Scheduler.DisconnectFromChannel _ => False
  | _ => True
  end.

(** The calls of one execution: either no session is obtained and no
    disconnect requested, or one session is obtained and, whatever
    follows, the last call requests the disconnect of its guild (the guild
    id being a non-empty string). *)
Inductive execution_shape : list Scheduler.call -> Prop :=
| shape_no_session new :
    Forall quiet new ->
    execution_shape new
| shape_session before g ch c after :
    Forall quiet before ->
    Forall quiet after ->
    execution_shape
      (before ++ [Scheduler.ConnectToChannel g ch (Ok c)] ++ after
       ++ (if Js.truthy g then [Scheduler.DisconnectFromChannel g] else [])).

(** The variables of the frame are as they were and the trace has grown
    by quiet calls. *)
Definition quiet_step (s s' : Scheduler.frame * Scheduler.world) : Prop :=
  fst s' = fst s /\ grows_by quiet (snd s) (snd s').

(** ** Sample data *)

(** The working directory of the samples. *)
Definition sample_cwd : string := "/srv/bot".

Definition sample_config : Config.config :=
  Config.defaults (Some "token") ["c1"; "c2"].

(** Two humans and a bot in the first channel, a bot alone in the
    second. *)
Definition general : Discord.channel :=
  {| Discord.id := "c1"; Discord.name := "General"; Discord.guild_id := "g1";
     Discord.isVoiceBased := true;
     Discord.members := [ {| Discord.bot := false |}; {| Discord.bot := true |};
                          {| Discord.bot := false |} ] |}.

(** A second channel of the guild of [general]. *)
Definition afk : Discord.channel :=
  {| Discord.id := "c9"; Discord.name := "AFK"; Discord.guild_id := "g1";
     Discord.isVoiceBased := true; Discord.members := [] |}.

Definition lobby : Discord.channel :=
  {| Discord.id := "c2"; Discord.name := "Lobby"; Discord.guild_id := "g2";
     Discord.isVoiceBased := true;
     Discord.members := [ {| Discord.bot := true |} ] |}.

(** A channel whose guild carries an empty id, which Discord does not
    issue. *)
Definition nameless_guild : Discord.channel :=
  {| Discord.id := "c3"; Discord.name := "Nowhere"; Discord.guild_id := "";
     Discord.isVoiceBased := true; Discord.members := [ {| Discord.bot := false |} ] |}.

Definition sample_directory (c : string) : Discord.fetched :=
  if String.eqb c "c1" then Discord.Found general
  else if String.eqb c "c2" then Discord.Found lobby
  else if String.eqb c "c3" then Discord.Found nameless_guild
  else Discord.Null.

Definition wednesday_10_15 : Scheduler.localtime :=
  {| Scheduler.getDay := 3; Scheduler.getHours := 10; Scheduler.getMinutes := 15 |}.

Definition tuesday_14_00 : Scheduler.localtime :=
  {| Scheduler.getDay := 2; Scheduler.getHours := 14; Scheduler.getMinutes := 0 |}.

(** An environment that answers every observation alike. *)
Definition steady_env (table : list Events.event) (now : Scheduler.localtime)
    (ready : bool) (service : TTS.service) (report : Player.report) : Scheduler.env :=
  {| Scheduler.cwd := sample_cwd;
     Scheduler.config := sample_config;
     Scheduler.events := table;
     Scheduler.audioSets := Events.audioSets sample_config;
     Scheduler.cron_validate := fun _ => true;
     Scheduler.clock := fun _ => now;
     Scheduler.local_hour := fun _ => Scheduler.getHours now;
     Scheduler.directory := fun _ => sample_directory;
     Scheduler.transport_ready := fun _ => ready;
     Scheduler.synthesis := fun _ => service;
     Scheduler.resource_fault := fun _ => None;
     Scheduler.engine := fun _ => report |}.

(** A Wednesday morning on which every collaborator succeeds. *)
Definition sample_env : Scheduler.env :=
  steady_env (Events.events sample_config) wednesday_10_15 true
    (fun _ => Ok "mp3") Player.Finished.

(** The same, with other answers of the clock, the transport and the
    engine. *)
Definition sample_env_with (now : Scheduler.localtime) (ready : bool)
    (report : Player.report) : Scheduler.env :=
  steady_env (Events.events sample_config) now ready (fun _ => Ok "mp3") report.

Definition env_failing_synthesis : Scheduler.env :=
  steady_env (Events.events sample_config) wednesday_10_15 true
    (fun _ => Throw "service unavailable") Player.Finished.

(** The event of the README, switched off, after the table of the
    repository. *)
Definition boss_spawn : Events.event :=
  {| Events.name := "Boss Spawn"; Events.cron := "0 55 19 * * *";
     Events.type := Events.AUDIO;
     Events.content := "./audio/culito.mp3";
     Events.enabled := false; Events.requireUsers := None |}.

Definition env_with_disabled_event : Scheduler.env :=
  steady_env (Events.events sample_config ++ [boss_spawn]) wednesday_10_15 true
    (fun _ => Ok "mp3") Player.Finished.

Definition sample_files : gmap string string :=
  <["audio/shugo_1.mp3" := "ID3"]> (<["audio/culito.mp3" := "ID3"]> ∅).

Definition culito : Events.event :=
  Events.audio_event sample_config "Culito" "0 45 * * * *" "culito.mp3".

Definition spoken : Events.event :=
  {| Events.name := "Boss"; Events.cron := "0 55 19 * * *"; Events.type := Events.TTS;
     Events.content := "hola"; Events.enabled := true; Events.requireUsers := None |}.

Definition unknown_set : Events.event :=
  Events.rotate_event "Shugo 20 min" "0 20 * * * *" "shugo20".

Definition unattended : Events.event :=
  {| Events.name := "Reset"; Events.cron := "0 0 15 * * *"; Events.type := Events.AUDIO;
     Events.content := "./audio/culito.mp3"; Events.enabled := true;
     Events.requireUsers := Some false |}.

(** A service whose audio tells the rate it was asked for. *)
Definition rate_telling_service : TTS.service :=
  fun r => Ok ("speech at rate " +:+ TTS.req_rate r).

Definition at_rate (r : string) : TTS.options :=
  {| TTS.voice := None; TTS.rate := Some r; TTS.pitch := None; TTS.useCache := None |}.

Definition at_pitch (p : string) : TTS.options :=
  {| TTS.voice := None; TTS.rate := None; TTS.pitch := Some p; TTS.useCache := None |}.

Definition empty_store : TTS.state := {| TTS.files := ∅; TTS.requests := [] |}.

(** ** The job registry *)

(** The events that [initialize] hands to [cron.schedule]: the enabled
    ones whose cron expression validates, in the order of the table. *)
Definition scheduled_by (E : Scheduler.env) : list Events.event :=
  filter (fun e => Scheduler.cron_validate E (Events.cron e) = true)
    (Events.getEnabledEvents (Scheduler.events E)).

(** The last event of a list that carries the name. *)
Definition last_named (n : string) (l : list Events.event) : option Events.event :=
  find (fun e => String.eqb (Events.name e) n) (rev l).

(** The names passed to [cron.schedule], in order. *)
Fixpoint schedules (t : list Scheduler.call) : list string :=
  match t with
  | [] => []
  | Scheduler.CronSchedule n :: rest => n :: schedules rest
  | _ :: rest => schedules rest
  end.

(** The names of the jobs stopped, in order. *)
Fixpoint stops (t : list Scheduler.call) : list string :=
  match t with
  | [] => []
  | Scheduler.JobStop n :: rest => n :: stops rest
  | _ :: rest => stops rest
  end.

(** The texts for which [generate] was called, in order. *)
Fixpoint generations (t : list Scheduler.call) : list string :=
  match t with
  | [] => []
  | Scheduler.Generate text _ :: rest => text :: generations rest
  | _ :: rest => generations rest
  end.

(** A call that is not a [cron.schedule]. *)
Definition not_a_schedule (c : Scheduler.call) : Prop :=
  match c with
  | Scheduler.CronSchedule _ => False
  | _ => True
  end.

(** The cache file of a text spoken with the configured voice. *)
Definition cache_file (cfg : Config.config) (text : string) : string :=
  Path.join (Config.cacheDir cfg)
    (TTS._getCacheKey cfg text (Config.voice_name (Config.tts cfg))).

(** Every pre-generated entry names a file of the store. *)
Definition pregenerated_present (w : Scheduler.world) : Prop :=
  forall n p, Scheduler.pregeneratedAudio w !! n = Some p ->
    is_Some (TTS.files (Scheduler.tts w) !! p).

(** The only parts of the world that a lookup in the directory touches
    are the count of observations and the trace. *)
Definition same_parts (w w' : Scheduler.world) : Prop :=
  Scheduler.voice w' = Scheduler.voice w
  /\ Scheduler.audio w' = Scheduler.audio w
  /\ Scheduler.tts w' = Scheduler.tts w
  /\ Scheduler.scheduledJobs w' = Scheduler.scheduledJobs w
  /\ Scheduler.pregeneratedAudio w' = Scheduler.pregeneratedAudio w.

(** No file of the store goes away. *)
Definition keeps_files (t t' : TTS.state) : Prop :=
  forall p, is_Some (TTS.files t !! p) -> is_Some (TTS.files t' !! p).

(** The events of a list that are spoken. *)
Definition spoken_events (l : list Events.event) : list Events.event :=
  filter (fun e => Events.type e = Events.TTS) l.

(** ** The map of the voice manager *)

(** Every entry of [this.connections] names the connection that the
    library tracks for the guild, and that connection carries the
    handlers of the manager. *)
Definition recorded_tracked (st : Voice.state) : Prop :=
  forall g c ch, Voice.connections st !! g = Some (c, ch) ->
    Voice.tracked st !! g = Some c
    /\ exists o, Voice.objects st !! c = Some o /\ (0 < Voice.handlers o)%nat.

Definition keeps_recorded (st st' : Voice.state) : Prop :=
  recorded_tracked st -> recorded_tracked st'.

(** The connections that the guilds of a list are tracked to. *)
Definition sessions_of (st : Voice.state) (gs : list string) : list nat :=
  omap (fun g => Voice.tracked st !! g) gs.

(** ** The playback driver across calls *)

(** A pending promise has both observers of its call on the engine. *)
Definition pending_awaits (st : Player.state) : Prop :=
  forall k, Player.promises st !! k = Some Player.Pending -> awaiting k st.

(** What the manager holds of the engine beside the observers of the
    calls: whether it has a player, and the entries of the three handlers
    of [_setupPlayerHandlers]. *)
Definition own_view (st : Player.state)
  : bool * list Player.registration * list Player.registration
    * list Player.registration :=
  (Player.player st,
   Player.on_playing st,
   registrations Player.CleanupOnIdle (Player.on_idle st),
   registrations Player.CleanupOnError (Player.on_error st)).

(** Before its first use the manager is as constructed; from then on the
    engine carries the three handlers of the manager once each. *)
Definition own_handlers (st : Player.state) : Prop :=
  st = Player.initial
  \/ own_view st
     = (true,
        [ {| Player.fn := Player.LogPlaying; Player.once := false |} ],
        [ {| Player.fn := Player.CleanupOnIdle; Player.once := false |} ],
        [ {| Player.fn := Player.CleanupOnError; Player.once := false |} ]).

(** An entry that [once] wraps is an observer of a call. *)
Definition wraps_call_only (r : Player.registration) : Prop :=
  Player.once r = true ->
  Player.fn r <> Player.CleanupOnIdle /\ Player.fn r <> Player.CleanupOnError.

(** ** Channel ids *)

(** An id as [parseChannelIds] returns it: not empty, without a comma,
    and with no white space at either end. *)
Definition clean_id (id : string) : Prop :=
  id <> "" /\ ~ In ","%char (list_ascii_of_string id) /\ Js.trim id = id.

(** ** The configuration *)

(** The environment names a token, and at least one channel id that is
    not blank in [CHANNEL_IDS], or in [CHANNEL_ID] when [CHANNEL_IDS] is
    unset or empty. *)
Definition configured (env : gmap string string) : Prop :=
  (exists t, env !! "DISCORD_TOKEN" = Some t /\ t <> "")
  /\ (exists v piece,
        Config.first_set (env !! "CHANNEL_IDS") (env !! "CHANNEL_ID") = Some v
        /\ In piece (Js.split "," v) /\ Js.trim piece <> "").

(** ** The logger *)

(** The order of the levels. *)
Definition rank (l : Logger.level) : Z :=
  match l with
  | Logger.debug => 0 | Logger.info => 1 | Logger.warn => 2 | Logger.error => 3
  end.

(** The level from which lines are written under a configured name:
    the level of that name, and [info] for any other name. *)
Definition threshold (configured_name : string) : Logger.level :=
  if String.eqb configured_name "debug" then Logger.debug
  else if String.eqb configured_name "warn" then Logger.warn
  else if String.eqb configured_name "error" then Logger.error
  else Logger.info.

(** A line added to the stream of its level: [console.error] for errors,
    [console.warn] for warnings, [console.log] for the rest. *)
Definition written (l : Logger.level) (line : string) (c : Logger.console)
  : Logger.console :=
  match l with
  | Logger.error =>
      {| Logger.console_log := Logger.console_log c;
         Logger.console_warn := Logger.console_warn c;
         Logger.console_error := Logger.console_error c ++ [line] |}
  | Logger.warn =>
      {| Logger.console_log := Logger.console_log c;
         Logger.console_warn := Logger.console_warn c ++ [line];
         Logger.console_error := Logger.console_error c |}
  | _ =>
      {| Logger.console_log := Logger.console_log c ++ [line];
         Logger.console_warn := Logger.console_warn c;
         Logger.console_error := Logger.console_error c |}
  end.

(* --- the speech cache as a directory ------------------------------- *)

(** The names that [clearCache] removes. *)
Definition cache_name (file : string) : bool :=
  Js.startsWith file "tts_" && Js.endsWith file ".mp3".

(** Characters without a separator. *)
Definition plain (l : list ascii) : Prop := ~ In "/"%char l.

(** A path ends in a separator, or is empty. *)
Definition opens (pre : string) : Prop :=
  pre = "" \/ exists x, pre = x +:+ "/".

(** A name that is a segment of its own. *)
Definition segment_name (name : string) : Prop :=
  plain (list_ascii_of_string name)
  /\ name <> "" /\ name <> "." /\ name <> "..".

(** A store after one synthesis, with a file of another kind in the
    cache directory. *)
Definition cached_store : TTS.state :=
  snd (TTS.generate sample_config (fun _ => Ok "mp3") "hola" TTS.no_options
         {| TTS.files := <["cache/notes.txt" := "n"]> sample_files;
            TTS.requests := [] |}).

(* --- from ready to shutdown ------------------------------------------ *)

(** A call that stops no job. *)
Definition not_a_stop (c : Scheduler.call) : Prop :=
  match c with
  | Scheduler.JobStop _ => False
  | _ => True
  end.

(** The voice manager and the player are as they were, and the trace has
    grown by calls that stop no job. *)
Definition setup_step (w w' : Scheduler.world) : Prop :=
  Scheduler.voice w' = Scheduler.voice w
  /\ Scheduler.audio w' = Scheduler.audio w
  /\ grows_by not_a_stop w w'.

(* --- what pregenerate collects ------------------------------------- *)

(** The request that [generate] sends for a text when it is given no
    options. *)
Definition request_of (cfg : Config.config) (text : string) : TTS.request :=
  {| TTS.req_text := text;
     TTS.req_voice := Config.voice_name (Config.tts cfg);
     TTS.req_rate := Config.rate (Config.tts cfg);
     TTS.req_pitch := Config.pitch (Config.tts cfg) |}.

(** Whether [generate] has a file to return for the text: its cache file
    is there, or the service answers the request. *)
Definition obtainable (cfg : Config.config) (svc : TTS.service)
    (present : string -> bool) (text : string) : bool :=
  present (cache_file cfg text)
  || match svc (request_of cfg text) with Ok _ => true | Throw _ => false end.

(** The texts of a list for which [generate] has a file to return, taken
    one after the other: the file obtained for a text is there for the
    texts after it. *)
Fixpoint obtained (cfg : Config.config) (svc : TTS.service)
    (present : string -> bool) (texts : list string) : list string :=
  match texts with
  | [] => []
  | text :: rest =>
      if obtainable cfg svc present text
      then text :: obtained cfg svc
                     (fun p => present p || String.eqb p (cache_file cfg text)) rest
      else obtained cfg svc present rest
  end.

(** The files of a store, as a test. *)
Definition present_in (st : TTS.state) (p : string) : bool :=
  bool_decide (is_Some (TTS.files st !! p)).
(* ===================================================================== *)
(** * Properties                                                          *)
(* ===================================================================== *)

(** ** Test vectors of the digest (RFC 1321, appendix A.5) *)

Example md5_empty : MD5.md5_hex "" = "d41d8cd98f00b204e9800998ecf8427e".
Proof. vm_compute. reflexivity. Qed.

Example md5_abc : MD5.md5_hex "abc" = "900150983cd24fb0d6963f7d28e17f72".
Proof. vm_compute. reflexivity. Qed.

Example md5_two_blocks :
  MD5.md5_hex
    "aaaaaaaaaaaaaaaaaaaaaaaaaaaaaaaaaaaaaaaaaaaaaaaaaaaaaaaaaaaaaaaaaaaaaa"
  = "0f5c6c4e740bfcc08c3c26ccb2673d46".
Proof. vm_compute. reflexivity. Qed.

(* ===================================================================== *)
(** ** Computations that keep a relation                                 *)
(* ===================================================================== *)

Section Preserves.

Context {S : Type} (R : S -> S -> Prop) `{!Reflexive R} `{!Transitive R}.

Lemma preserves_ret {A} (a : A) : preserves R (ret a).
Proof. intros s. reflexivity. Qed.

Lemma preserves_throw {A} (e : string) : preserves R (@throw S A e).
Proof. intros s. reflexivity. Qed.

Lemma preserves_gets {A} (f : S -> A) : preserves R (gets f).
Proof. intros s. reflexivity. Qed.

Lemma preserves_of_outcome {A} (r : outcome A) : preserves R (Scheduler.of_outcome r).
Proof. intros s. reflexivity. Qed.

Lemma preserves_modify (f : S -> S) : (forall s, R s (f s)) -> preserves R (modify f).
Proof. intros H s. apply H. Qed.

Lemma preserves_bind {A B} (m : M S A) (k : A -> M S B) :
  preserves R m -> (forall a, preserves R (k a)) -> preserves R (bind m k).
Proof.
  intros Hm Hk s. unfold bind. specialize (Hm s).
  destruct (m s) as [[a|e] s1]; simpl in *; auto.
  transitivity s1; auto. apply Hk.
Qed.

Lemma preserves_try_catch {A} (m : M S A) (h : string -> M S A) :
  preserves R m -> (forall e, preserves R (h e)) -> preserves R (try_catch m h).
Proof.
  intros Hm Hh s. unfold try_catch. specialize (Hm s).
  destruct (m s) as [[a|e] s1]; simpl in *; auto.
  transitivity s1; auto. apply Hh.
Qed.

Lemma preserves_try_finally {A} (m : M S A) (c : M S unit) :
  preserves R m -> preserves R c -> preserves R (try_finally m c).
Proof.
  intros Hm Hc s. unfold try_finally. specialize (Hm s).
  destruct (m s) as [r s1]; simpl in *. specialize (Hc s1).
  destruct (c s1) as [[[]|e] s2]; simpl in *; etransitivity; eauto.
Qed.

Lemma preserves_for_each {A} (xs : list A) (body : A -> M S unit) :
  (forall x, preserves R (body x)) -> preserves R (for_each xs body).
Proof.
  intros Hb. induction xs as [|x xs IH]; simpl.
  - apply preserves_ret.
  - apply preserves_bind; auto.
Qed.

Lemma preserves_zoom {T A} (get : S -> T) (set : T -> S -> S) (m : M T A) :
  (forall t s, R s (set t s)) -> preserves R (zoom get set m).
Proof. intros H s. unfold zoom. destruct (m (get s)) as [r t]. apply H. Qed.

End Preserves.

(* ===================================================================== *)
(** ** Rotation sets (events.js)                                         *)
(* ===================================================================== *)

Lemma js_rem_is_mod (h n : Z) : 0 <= h -> 0 < n -> Js.rem h n = h mod n.
Proof. intros Hh Hn. unfold Js.rem. apply Z.rem_mod_nonneg; lia. Qed.

Lemma js_index_in_range {A} (xs : list A) (i : Z) :
  0 <= i < Z.of_nat (length xs) -> exists x, Js.index xs i = Some x /\ xs !! Z.to_nat i = Some x.
Proof.
  intros [Hlo Hhi]. unfold Js.index.
  destruct (Z.ltb_spec i 0) as [?|_]; [lia|].
  destruct (lookup_lt_is_Some_2 xs (Z.to_nat i)) as [x Hx]; [lia|].
  exists x. split; exact Hx.
Qed.

(** C4. For a registered rotation set [R] of length [N >= 1] and an hour
    [H] in 0..23, [getRotatedAudio] returns exactly the entry of [R] at
    position [H mod N]; the result is a function of the table, the hour and
    the name alone, and run inside any computation it leaves the store as
    it was. *)
Theorem rotation_resolves_by_hour
    (sets : gmap string (list string)) (setName : string) (R : list string) (H : Z) :
  sets !! setName = Some R ->
  (1 <= length R)%nat ->
  0 <= H <= 23 ->
  exists file,
    R !! Z.to_nat (H mod Z.of_nat (length R)) = Some file
    /\ Events.getRotatedAudio sets H setName = Ok (Some file)
    /\ forall (S : Type) (s : S),
         Scheduler.of_outcome (Events.getRotatedAudio sets H setName) s
         = (Ok (Some file), s).
Proof.
  intros Hset Hlen Hh.
  unfold Events.getRotatedAudio. rewrite Hset.
  destruct (Nat.eqb_spec (length R) 0) as [Hz|_]; [lia|].
  rewrite js_rem_is_mod by lia.
  destruct (js_index_in_range R (H mod Z.of_nat (length R))) as (file & Hi & Hl).
  { apply Z.mod_pos_bound. lia. }
  exists file. rewrite Hi. repeat split; auto.
Qed.

Lemma rotation_resolves_by_hour_witness :
  exists file,
    [ "audio/shugo.mp3"; "audio/shugo_1.mp3"; "audio/shugo_2.mp3" ]
      !! Z.to_nat (22 mod 3) = Some file
    /\ Events.getRotatedAudio (Events.audioSets sample_config) 22 "shugo15"
       = Ok (Some file)
    /\ forall (S : Type) (s : S),
         Scheduler.of_outcome
           (Events.getRotatedAudio (Events.audioSets sample_config) 22 "shugo15") s
         = (Ok (Some file), s).
Proof.
  apply (rotation_resolves_by_hour (Events.audioSets sample_config) "shugo15"
           [ "audio/shugo.mp3"; "audio/shugo_1.mp3"; "audio/shugo_2.mp3" ] 22).
  - reflexivity.
  - simpl. lia.
  - lia.
Defined.

Example rotation_over_a_day :
  map (fun h => Events.getRotatedAudio (Events.audioSets sample_config) h "shugo10")
      [0; 1; 2; 3; 23]
  = [ Ok (Some "audio/shugo5.mp3"); Ok (Some "audio/shugo5_1.mp3");
      Ok (Some "audio/shugo5_2.mp3"); Ok (Some "audio/shugo5.mp3");
      Ok (Some "audio/shugo5_2.mp3") ].
Proof. vm_compute. reflexivity. Qed.

Example rotation_unknown_set :
  Events.getRotatedAudio (Events.audioSets sample_config) 5 "shugo20"
  = Throw "Audio set not found: shugo20".
Proof. vm_compute. reflexivity. Qed.

(** A name that the table inherits from [Object.prototype] is no set:
    the call returns [undefined], or throws when the member is a function
    without parameters. *)
Example rotation_inherited_name :
  map (Events.getRotatedAudio (Events.audioSets sample_config) 5)
    ["constructor"; "__proto__"; "hasOwnProperty"; "toString"]
  = [Ok None; Ok None; Ok None; Throw "Audio set not found: toString"].
Proof. vm_compute. reflexivity. Qed.

(* ===================================================================== *)
(** ** The gates of the per-channel execution (cron.js)                  *)
(* ===================================================================== *)

Lemma inWindow_spec (t : Scheduler.localtime) :
  Scheduler.inWindow t = true <->
  Scheduler.getDay t = 2
  /\ 810 <= Scheduler.getHours t * 60 + Scheduler.getMinutes t < 1170.
Proof.
  unfold Scheduler.inWindow. cbv zeta.
  rewrite !andb_true_iff, Z.eqb_eq, Z.leb_le, Z.ltb_lt. lia.
Qed.

Example window_opens_at_13_30 :
  Scheduler.inWindow {| Scheduler.getDay := 2; Scheduler.getHours := 13;
                        Scheduler.getMinutes := 30 |} = true
  /\ Scheduler.inWindow {| Scheduler.getDay := 2; Scheduler.getHours := 13;
                           Scheduler.getMinutes := 29 |} = false.
Proof. split; reflexivity. Qed.

Example window_closes_at_19_30 :
  Scheduler.inWindow {| Scheduler.getDay := 2; Scheduler.getHours := 19;
                        Scheduler.getMinutes := 29 |} = true
  /\ Scheduler.inWindow {| Scheduler.getDay := 2; Scheduler.getHours := 19;
                           Scheduler.getMinutes := 30 |} = false.
Proof. split; reflexivity. Qed.

Example window_is_on_tuesday_only :
  map (fun d => Scheduler.inWindow
                  {| Scheduler.getDay := d; Scheduler.getHours := 15;
                     Scheduler.getMinutes := 0 |})
      [0; 1; 2; 3; 4; 5; 6]
  = [false; false; true; false; false; false; false].
Proof. reflexivity. Qed.

(** C5. When the time read in the configured zone is a Tuesday at a
    minute of the day in [810, 1170), the execution for a channel returns
    after two log lines: nothing is looked up in the directory, no session
    is opened, nothing is played and nothing else of the world changes,
    whatever the event and whoever is in the channel. *)
Theorem maintenance_window_suppresses_execution
    (E : Scheduler.env) (event : Events.event) (channelId : string)
    (w : Scheduler.world) :
  Scheduler.getDay (Scheduler.clock E (Scheduler.observations w)) = 2 ->
  810 <= Scheduler.getHours (Scheduler.clock E (Scheduler.observations w)) * 60
         + Scheduler.getMinutes (Scheduler.clock E (Scheduler.observations w))
      < 1170 ->
  Scheduler._executeEventForChannel E event channelId w
  = (Ok tt,
     Scheduler.set_trace
       (Scheduler.trace w
        ++ [ Scheduler.Log "debug" "Currently in maintenance window";
             Scheduler.Log "info" "Skipping event - maintenance window active" ])
       (Scheduler.set_observations (S (Scheduler.observations w)) w)).
Proof.
  intros Hday Hmin.
  assert (Hin : Scheduler.inWindow (Scheduler.clock E (Scheduler.observations w)) = true)
    by (apply inWindow_spec; auto).
  unfold Scheduler._executeEventForChannel, Scheduler._isMaintenanceWindow,
    Scheduler.observe, Scheduler.log, Scheduler.record, bind, gets, modify, ret.
  simpl. rewrite Hin. simpl. rewrite <- app_assoc. reflexivity.
Qed.

Lemma maintenance_window_suppresses_execution_witness :
  Scheduler._executeEventForChannel
    (sample_env_with tuesday_14_00 true Player.Finished) culito "c1"
    (Scheduler.initial sample_files)
  = (Ok tt,
     Scheduler.set_trace
       (Scheduler.trace (Scheduler.initial sample_files)
        ++ [ Scheduler.Log "debug" "Currently in maintenance window";
             Scheduler.Log "info" "Skipping event - maintenance window active" ])
       (Scheduler.set_observations
          (S (Scheduler.observations (Scheduler.initial sample_files)))
          (Scheduler.initial sample_files))).
Proof.
  apply (maintenance_window_suppresses_execution
           (sample_env_with tuesday_14_00 true Player.Finished) culito "c1"
           (Scheduler.initial sample_files)).
  - reflexivity.
  - simpl. lia.
Defined.

(** Unfolds the combinators of [M] in the goal. *)
Ltac run_M :=
  unfold Scheduler.log, Scheduler.record, Scheduler.observe, Scheduler.of_outcome,
    Scheduler.recording, zoom, try_catch, try_finally, bind, gets, modify, ret, throw;
  simpl.

(** C1. For an event whose [requireUsers] is absent or true, if the
    channel looked up by the gate has no member that is not a bot, the
    execution returns normally, the voice manager, the player and the file
    store are as before, and the calls made are directory lookups and log
    lines only; outside the maintenance window the last of them is the log
    line of the skip. *)
Theorem empty_channel_is_skipped
    (E : Scheduler.env) (event : Events.event) (channelId : string)
    (w : Scheduler.world) :
  Events.requireUsers event <> Some false ->
  (forall c, Scheduler.directory E (S (Scheduler.observations w)) channelId
             = Discord.Found c ->
             Scheduler.humanMembers c = []) ->
  exists w' new,
    Scheduler._executeEventForChannel E event channelId w = (Ok tt, w')
    /\ Scheduler.voice w' = Scheduler.voice w
    /\ Scheduler.audio w' = Scheduler.audio w
    /\ Scheduler.tts w' = Scheduler.tts w
    /\ Scheduler.trace w' = Scheduler.trace w ++ new
    /\ Forall lookup_or_log new
    /\ (Scheduler.inWindow (Scheduler.clock E (Scheduler.observations w)) = false ->
        last new = Some (Scheduler.Log "info" "Skipping event - no users in channel")).
Proof.
  intros Hreq Hempty.
  assert (Hr : match Events.requireUsers event with Some false => false | _ => true end
               = true)
    by (destruct (Events.requireUsers event) as [[|]|]; congruence).
  unfold Scheduler._executeEventForChannel, Scheduler._isMaintenanceWindow,
    Scheduler._hasUsersInChannel, Scheduler.fetch.
  run_M.
  destruct (Scheduler.inWindow (Scheduler.clock E (Scheduler.observations w))) eqn:Hin;
    simpl.
  - eexists _, _. split; [reflexivity|]. simpl.
    rewrite <- app_assoc. repeat split; auto.
    + repeat constructor.
    + discriminate.
  - rewrite Hr. simpl.
    destruct (Scheduler.directory E (S (Scheduler.observations w)) channelId)
      as [e| |c] eqn:Hdir; simpl.
    + eexists _, _. split; [reflexivity|]. simpl.
      rewrite <- !app_assoc. repeat split; auto. repeat constructor.
    + eexists _, _. split; [reflexivity|]. simpl.
      rewrite <- !app_assoc. repeat split; auto. repeat constructor.
    + destruct (Discord.isVoiceBased c); simpl.
      * rewrite (Hempty c eq_refl). simpl.
        eexists _, _. split; [reflexivity|]. simpl.
        rewrite <- !app_assoc. repeat split; auto. repeat constructor.
      * eexists _, _. split; [reflexivity|]. simpl.
        rewrite <- !app_assoc. repeat split; auto. repeat constructor.
Qed.

Lemma empty_channel_is_skipped_witness :
  exists w' new,
    Scheduler._executeEventForChannel sample_env culito "c2"
      (Scheduler.initial sample_files) = (Ok tt, w')
    /\ Scheduler.voice w' = Scheduler.voice (Scheduler.initial sample_files)
    /\ Scheduler.audio w' = Scheduler.audio (Scheduler.initial sample_files)
    /\ Scheduler.tts w' = Scheduler.tts (Scheduler.initial sample_files)
    /\ Scheduler.trace w' = Scheduler.trace (Scheduler.initial sample_files) ++ new
    /\ Forall lookup_or_log new
    /\ (Scheduler.inWindow
          (Scheduler.clock sample_env
             (Scheduler.observations (Scheduler.initial sample_files))) = false ->
        last new = Some (Scheduler.Log "info" "Skipping event - no users in channel")).
Proof.
  apply (empty_channel_is_skipped sample_env culito "c2"
           (Scheduler.initial sample_files)).
  - simpl. discriminate.
  - intros c Hc. simpl in Hc. injection Hc as <-. reflexivity.
Defined.

(** The scenario of the specification: no human and one automated
    member. *)
Example bot_only_channel_trace :
  let '(r, w') := Scheduler._executeEventForChannel sample_env culito "c2"
                    (Scheduler.initial sample_files) in
  r = Ok tt
  /\ Scheduler.trace w'
     = [ Scheduler.Fetch "c2"; Scheduler.Log "debug" "Channel user check";
         Scheduler.Log "info" "Skipping event - no users in channel" ].
Proof. vm_compute. split; reflexivity. Qed.

(* ===================================================================== *)
(** ** The speech cache (generator.js)                                   *)
(* ===================================================================== *)

Lemma normalize_truthy (p : string) : Js.truthy (Path.normalize p) = true.
Proof.
  unfold Path.normalize.
  destruct (String.eqb p ""); [reflexivity|].
  set (body := String.concat "/" _).
  destruct (String.eqb_spec body "") as [_|Hbody].
  - destruct (Path.isAbsolute p), (Path.endsWithSeparator p); reflexivity.
  - destruct (Path.isAbsolute p); [reflexivity|].
    destruct (Path.endsWithSeparator p), body; try reflexivity; contradiction.
Qed.

(** A joined path is never the empty string. *)
Lemma path_join_truthy (dir file : string) : Js.truthy (Path.join dir file) = true.
Proof.
  unfold Path.join.
  destruct (negb (String.eqb dir "")), (negb (String.eqb file ""));
    try apply normalize_truthy; reflexivity.
Qed.

Example path_join_normalizes :
  Path.join "./cache" "tts_0.mp3" = "cache/tts_0.mp3"
  /\ Path.join "/data/audio/" "a.mp3" = "/data/audio/a.mp3"
  /\ Path.join "audio/sets" "../a.mp3" = "audio/a.mp3"
  /\ Path.join "../audio" "a.mp3" = "../audio/a.mp3".
Proof. vm_compute. repeat split; reflexivity. Qed.

Example path_resolve_is_absolute :
  map (Path.resolve "/srv/bot")
    ["./audio//culito.mp3"; "audio/culito.mp3/"; ""; "/data/a.mp3"; "../../../x"; "."]
  = ["/srv/bot/audio/culito.mp3"; "/srv/bot/audio/culito.mp3"; "/srv/bot";
     "/data/a.mp3"; "/x"; "/srv/bot"].
Proof. vm_compute. reflexivity. Qed.

Example basename_of_paths :
  map Path.basename ["audio/culito.mp3"; "audio/culito.mp3/"; "culito.mp3"; "/"; ""; "a//"]
  = ["culito.mp3"; "culito.mp3"; "culito.mp3"; ""; ""; "a"].
Proof. vm_compute. reflexivity. Qed.

Example extname_of_paths :
  map Path.extname
    ["audio/a.OPUS"; "audio/a.tar.gz"; "audio/.hidden"; "audio/none"; "..";
     "audio/x.opus/"; "a."; "..."]
  = [".OPUS"; ".gz"; ""; ""; ""; ".opus"; "."; "."].
Proof. vm_compute. reflexivity. Qed.

Lemma getCached_Some (cfg : Config.config) (text voice file : string) (st : TTS.state) :
  TTS.getCached cfg text voice st = Some file ->
  file = Path.join (Config.cacheDir cfg) (TTS._getCacheKey cfg text voice)
  /\ is_Some (TTS.files st !! file).
Proof.
  unfold TTS.getCached. case_bool_decide as Hex; [|discriminate].
  intros [= <-]. auto.
Qed.

Lemma getCached_present (cfg : Config.config) (text voice : string) (st : TTS.state) :
  is_Some (TTS.files st
             !! Path.join (Config.cacheDir cfg) (TTS._getCacheKey cfg text voice)) ->
  TTS.getCached cfg text voice st
  = Some (Path.join (Config.cacheDir cfg) (TTS._getCacheKey cfg text voice)).
Proof. intros H. unfold TTS.getCached. rewrite bool_decide_eq_true_2; auto. Qed.

(** What a successful [generate] returns and leaves in the store: the
    file named after the key of the effective voice, present afterwards. *)
Lemma generate_Ok (cfg : Config.config) (svc : TTS.service) (text : string)
    (opts : TTS.options) (st st1 : TTS.state) (file : string) :
  TTS.generate cfg svc text opts st = (Ok file, st1) ->
  file = Path.join (Config.cacheDir cfg)
           (TTS._getCacheKey cfg text
              (Js.or_else (TTS.voice opts) (Config.voice_name (Config.tts cfg))))
  /\ is_Some (TTS.files st1 !! file).
Proof.
  unfold TTS.generate.
  set (v := Js.or_else (TTS.voice opts) (Config.voice_name (Config.tts cfg))).
  set (f := Path.join (Config.cacheDir cfg) (TTS._getCacheKey cfg text v)).
  assert (Hmiss : forall s s1 file0,
    try_catch
      (modify (fun st0 => TTS.set_requests
                 (TTS.requests st0
                  ++ [{| TTS.req_text := text; TTS.req_voice := v;
                         TTS.req_rate := Js.or_else (TTS.rate opts) (Config.rate (Config.tts cfg));
                         TTS.req_pitch := Js.or_else (TTS.pitch opts) (Config.pitch (Config.tts cfg)) |}])
                 st0) ;;
       let* audio := (fun st0 => (svc {| TTS.req_text := text; TTS.req_voice := v;
                         TTS.req_rate := Js.or_else (TTS.rate opts) (Config.rate (Config.tts cfg));
                         TTS.req_pitch := Js.or_else (TTS.pitch opts) (Config.pitch (Config.tts cfg)) |}, st0)) in
       modify (fun st0 => TTS.set_files (<[f := audio]> (TTS.files st0)) st0) ;;
       ret f)
      (fun error => throw error) s = (Ok file0, s1) ->
    file0 = f /\ is_Some (TTS.files s1 !! file0)).
  { intros s s1 file0. run_M.
    destruct (svc _) as [audio|e]; simpl; intros [= <- <-]; simpl.
    split; [reflexivity|]. rewrite lookup_insert_eq. eauto. }
  destruct (match TTS.useCache opts with Some false => false | _ => true end).
  - unfold bind at 1, gets at 1.
    destruct (TTS.getCached cfg text v st) as [c|] eqn:Hc.
    + rewrite (proj1 (getCached_Some _ _ _ _ _ Hc)), path_join_truthy.
      unfold ret. intros [= <- <-].
      apply getCached_Some in Hc. destruct Hc as [-> Hs]. auto.
    + apply Hmiss.
  - apply Hmiss.
Qed.

(** A request that does not switch the cache off, made when the file of
    its key is in the store, is answered with that file and changes
    nothing. *)
Lemma generate_hits_the_cache
    (cfg : Config.config) (svc : TTS.service) (text : string)
    (opts : TTS.options) (st : TTS.state) (file : string) :
  TTS.useCache opts <> Some false ->
  file = Path.join (Config.cacheDir cfg)
           (TTS._getCacheKey cfg text
              (Js.or_else (TTS.voice opts) (Config.voice_name (Config.tts cfg)))) ->
  is_Some (TTS.files st !! file) ->
  TTS.generate cfg svc text opts st = (Ok file, st).
Proof.
  intros Huse Hfile Hpresent. unfold TTS.generate.
  replace (match TTS.useCache opts with Some false => false | _ => true end)
    with true by (destruct (TTS.useCache opts) as [[|]|]; congruence).
  unfold bind at 1, gets at 1.
  rewrite getCached_present by (rewrite <- Hfile; exact Hpresent).
  rewrite path_join_truthy, <- Hfile. reflexivity.
Qed.

(** C7. After a successful resolution of (text, voice, rate, pitch), a
    second resolution of the same tuple returns the same path and leaves
    the store as it is: no request reaches the synthesis service, whatever
    the service would have answered.  The requests are those that do not
    switch the cache off. *)
Theorem second_resolution_hits_the_cache
    (cfg : Config.config) (svc1 svc2 : TTS.service) (text : string)
    (opts : TTS.options) (st st1 : TTS.state) (file : string) :
  TTS.useCache opts <> Some false ->
  TTS.generate cfg svc1 text opts st = (Ok file, st1) ->
  TTS.generate cfg svc2 text opts st1 = (Ok file, st1)
  /\ TTS.requests (snd (TTS.generate cfg svc2 text opts st1)) = TTS.requests st1.
Proof.
  intros Huse Hgen.
  apply generate_Ok in Hgen. destruct Hgen as [Hfile Hpresent].
  rewrite (generate_hits_the_cache cfg svc2 text opts st1 file Huse Hfile Hpresent).
  auto.
Qed.

Lemma second_resolution_hits_the_cache_witness :
  let svc1 : TTS.service := fun _ => Ok "mp3" in
  let svc2 : TTS.service := fun _ => Throw "service unavailable" in
  let st0 := {| TTS.files := ∅; TTS.requests := [] |} in
  let st1 := snd (TTS.generate sample_config svc1 "hola" TTS.no_options st0) in
  TTS.generate sample_config svc2 "hola" TTS.no_options st1
  = (Ok "cache/tts_96600d9668d7b4085b0fcf98fe02a9f3.mp3", st1)
  /\ TTS.requests (snd (TTS.generate sample_config svc2 "hola" TTS.no_options st1))
     = TTS.requests st1.
Proof.
  intros svc1 svc2 st0 st1.
  apply (second_resolution_hits_the_cache sample_config svc1 svc2 "hola"
           TTS.no_options st0 st1).
  - simpl. discriminate.
  - vm_compute. reflexivity.
Defined.

(** The same on the path of the scheduler, which passes no options: a
    second resolution of a text returns the same path and leaves the file
    store and the list of requests to the service as they are. *)
Corollary scheduler_resolves_from_cache
    (E : Scheduler.env) (text file : string) (w w1 : Scheduler.world) :
  Scheduler.generate E text w = (Ok file, w1) ->
  exists w2,
    Scheduler.generate E text w1 = (Ok file, w2)
    /\ Scheduler.tts w2 = Scheduler.tts w1.
Proof.
  unfold Scheduler.generate, Scheduler.recording, Scheduler.observe, zoom,
    bind, gets, modify, ret. simpl.
  destruct (TTS.generate (Scheduler.config E)
              (Scheduler.synthesis E (Scheduler.observations w)) text TTS.no_options
              (Scheduler.tts w)) as [r t1] eqn:Hfirst.
  intros [= -> <-]. simpl.
  apply generate_Ok in Hfirst. destruct Hfirst as [Hfile Hpresent].
  rewrite (generate_hits_the_cache (Scheduler.config E)
             (Scheduler.synthesis E (S (Scheduler.observations w)))
             text TTS.no_options t1 file); [|discriminate|exact Hfile|exact Hpresent].
  eexists. split; reflexivity.
Qed.

(** The cache file of a request is named after the text, the effective
    voice and the configured rate and pitch; the rate and pitch of the
    request itself do not enter. *)
Lemma cache_file_of_request (cfg : Config.config) (svc : TTS.service) (text : string)
    (o1 o2 : TTS.options) (st1 st2 st1' st2' : TTS.state) (f1 f2 : string) :
  Js.or_else (TTS.voice o1) (Config.voice_name (Config.tts cfg))
  = Js.or_else (TTS.voice o2) (Config.voice_name (Config.tts cfg)) ->
  TTS.generate cfg svc text o1 st1 = (Ok f1, st1') ->
  TTS.generate cfg svc text o2 st2 = (Ok f2, st2') ->
  f1 = f2.
Proof.
  intros Hv H1 H2. apply generate_Ok in H1, H2.
  destruct H1 as [-> _], H2 as [-> _]. rewrite Hv. reflexivity.
Qed.

(** C8, on the code.  Two requests for the same text that differ in rate
    get the same cache file name, so the second is answered with the audio
    made at the rate of the first and the service is not asked; likewise
    for pitch. *)
Theorem requested_rate_does_not_enter_the_cache_name :
  let '(r1, st1) := TTS.generate sample_config rate_telling_service "hola"
                      TTS.no_options empty_store in
  let '(r2, st2) := TTS.generate sample_config rate_telling_service "hola"
                      (at_rate "+50%") st1 in
  let '(r3, st3) := TTS.generate sample_config rate_telling_service "hola"
                      (at_pitch "+10Hz") st2 in
  r1 = Ok "cache/tts_96600d9668d7b4085b0fcf98fe02a9f3.mp3"
  /\ r2 = r1
  /\ r3 = r1
  /\ TTS.files st3 !! "cache/tts_96600d9668d7b4085b0fcf98fe02a9f3.mp3"
     = Some "speech at rate +0%"
  /\ TTS.requests st3
     = [ {| TTS.req_text := "hola"; TTS.req_voice := "es-MX-DaliaNeural";
            TTS.req_rate := "+0%"; TTS.req_pitch := "+0Hz" |} ].
Proof. vm_compute. repeat split; reflexivity. Qed.

(** Requests that differ in text or in voice do get names of their own,
    and equal requests the same name. *)
Example cache_names_by_text_and_voice :
  TTS._getCacheKey sample_config "hola" "es-MX-DaliaNeural"
  = "tts_96600d9668d7b4085b0fcf98fe02a9f3.mp3"
  /\ TTS._getCacheKey sample_config "hola" "es-MX-JorgeNeural"
     <> TTS._getCacheKey sample_config "hola" "es-MX-DaliaNeural"
  /\ TTS._getCacheKey sample_config "adios" "es-MX-DaliaNeural"
     <> TTS._getCacheKey sample_config "hola" "es-MX-DaliaNeural".
Proof. vm_compute. repeat split; discriminate. Qed.

(* ===================================================================== *)
(** ** The job registry and the manual trigger (cron.js)                 *)
(* ===================================================================== *)

#[local] Instance same_jobs_refl : Reflexive same_jobs.
Proof. intros w. reflexivity. Qed.

#[local] Instance same_jobs_trans : Transitive same_jobs.
Proof. unfold same_jobs. intros w1 w2 w3. congruence. Qed.

Lemma log_same_jobs (level message : string) :
  preserves same_jobs (Scheduler.log level message).
Proof. intros w. reflexivity. Qed.

Lemma generate_same_jobs (E : Scheduler.env) (text : string) :
  preserves same_jobs (Scheduler.generate E text).
Proof.
  intros w. unfold Scheduler.generate, Scheduler.recording.
  destruct (bind _ _ w) as [r w1] eqn:Hrun. simpl.
  change (same_jobs w w1).
  replace w1 with (snd ((let* n := Scheduler.observe in
                         zoom Scheduler.tts Scheduler.set_tts
                           (TTS.generate (Scheduler.config E) (Scheduler.synthesis E n)
                              text TTS.no_options)) w))
    by (rewrite Hrun; reflexivity).
  apply (preserves_bind same_jobs).
  - intros s. reflexivity.
  - intros n. apply preserves_zoom. intros t s. reflexivity.
Qed.

Lemma pregenerate_same_jobs (E : Scheduler.env) (l : list Events.event) :
  preserves same_jobs (Scheduler._pregenerateTTS E l).
Proof.
  unfold Scheduler._pregenerateTTS.
  destruct (Nat.eqb _ 0).
  - apply (preserves_ret same_jobs).
  - apply (preserves_bind same_jobs);
      [apply log_same_jobs|intros _].
    apply (preserves_for_each same_jobs). intros ev.
    apply (preserves_try_catch same_jobs).
    + apply (preserves_bind same_jobs);
        [apply generate_same_jobs|intros p].
      apply (preserves_bind same_jobs);
        [intros s; reflexivity|intros _; apply log_same_jobs].
    + intros e. apply log_same_jobs.
Qed.






Lemma find_by_unique_name (table : list Events.event) (e : Events.event) :
  In e table ->
  NoDup (map Events.name table) ->
  find (fun x => String.eqb (Events.name x) (Events.name e)) table = Some e.
Proof.
  induction table as [|x l IH]; intros Hin Hnd; [destruct Hin|].
  simpl in *. apply NoDup_cons in Hnd. destruct Hnd as [Hx Hnd].
  destruct (String.eqb_spec (Events.name x) (Events.name e)) as [Heq|Hne].
  - destruct Hin as [->|Hin]; [reflexivity|].
    exfalso. apply Hx. rewrite Heq. apply list_elem_of_In, in_map, Hin.
  - destruct Hin as [->|Hin]; [congruence|]. auto.
Qed.



(** The disabled event, triggered by hand: it plays in the occupied
    channel and is skipped in the empty one; after [initialize] the
    registry holds the eight enabled events and not this one. *)
Example disabled_event_triggered :
  let w := snd (Scheduler.initialize env_with_disabled_event
                  (Scheduler.initial sample_files)) in
  let '(r, w') := Scheduler.triggerEvent env_with_disabled_event "Boss Spawn" w in
  r = Ok tt
  /\ size (Scheduler.scheduledJobs w) = 8%nat
  /\ Scheduler.scheduledJobs w !! "Boss Spawn" = None
  /\ sessions_obtained (Scheduler.trace w') = [("g1", 0%nat)]
  /\ Player.played (Scheduler.audio w')
     = [ {| Player.title := "culito.mp3"; Player.inputType := Player.Arbitrary |} ].
Proof. vm_compute. repeat split; reflexivity. Qed.

(* ===================================================================== *)
(** ** The voice manager (connection.js)                                 *)
(* ===================================================================== *)

#[local] Instance keeps_consistent_refl : Reflexive keeps_consistent.
Proof. intros st H. exact H. Qed.

#[local] Instance keeps_consistent_trans : Transitive keeps_consistent.
Proof. intros s1 s2 s3 H12 H23 H. auto. Qed.

Lemma consistent_initial : consistent Voice.initial.
Proof.
  split; simpl.
  - intros g c H. rewrite lookup_empty in H. discriminate.
  - intros c o H. destruct c; discriminate.
Qed.

(** Fields beside [objects] and [tracked] do not matter. *)
Lemma consistent_same_sessions (st st' : Voice.state) :
  Voice.objects st' = Voice.objects st ->
  Voice.tracked st' = Voice.tracked st ->
  consistent st -> consistent st'.
Proof.
  intros Ho Ht [H1 H2]. split; rewrite ?Ho, ?Ht; auto.
Qed.

(** An update of one object that keeps its guild and whether it is
    destroyed. *)
Lemma consistent_alter (f : Voice.VoiceConnection -> Voice.VoiceConnection)
    (c : nat) (st : Voice.state) :
  (forall o, Voice.guildId (f o) = Voice.guildId o) ->
  (forall o, Voice.objects st !! c = Some o ->
             (Voice.status (f o) = Voice.Destroyed <-> Voice.status o = Voice.Destroyed)) ->
  consistent st ->
  consistent (Voice.set_objects (alter f c (Voice.objects st)) st).
Proof.
  intros Hg Hs [H1 H2]. split; simpl.
  - intros g c' Ht. destruct (H1 g c' Ht) as (o & Ho & Hgo & Hso).
    destruct (decide (c' = c)) as [->|Hne].
    + exists (f o). rewrite list_lookup_alter_eq, Ho. simpl.
      rewrite Hg. split; [reflexivity|]. split; [exact Hgo|].
      intros Hd. apply Hso, (Hs o Ho), Hd.
    + exists o. rewrite list_lookup_alter_ne by auto. auto.
  - intros c' o' Ho' Hso'.
    destruct (decide (c' = c)) as [->|Hne].
    + rewrite list_lookup_alter_eq in Ho'.
      destruct (Voice.objects st !! c) as [o|] eqn:Ho; [|discriminate].
      simpl in Ho'. injection Ho' as <-. rewrite Hg.
      apply H2; auto. intros Hd. apply Hso', (Hs o eq_refl), Hd.
    + rewrite list_lookup_alter_ne in Ho' by auto. auto.
Qed.

(** What [joinVoiceChannel] finds is tracked and not destroyed. *)
Lemma existing_Some (g : string) (st : Voice.state) (c : nat)
    (o : Voice.VoiceConnection) :
  Voice.existing g st = Some (c, o) ->
  Voice.tracked st !! g = Some c /\ Voice.objects st !! c = Some o
  /\ Voice.status o <> Voice.Destroyed.
Proof.
  unfold Voice.existing.
  destruct (Voice.tracked st !! g) as [c0|]; [|discriminate].
  destruct (Voice.objects st !! c0) as [o0|] eqn:Ho; [|discriminate].
  destruct (Voice.status o0) eqn:Hs; try discriminate; intros [= <- <-];
    (split; [reflexivity|split; [exact Ho|rewrite Hs; discriminate]]).
Qed.

(** In a consistent state it finds every tracked connection. *)
Lemma existing_tracked (g : string) (st : Voice.state) (c : nat) :
  consistent st -> Voice.tracked st !! g = Some c ->
  exists o, Voice.existing g st = Some (c, o) /\ Voice.objects st !! c = Some o.
Proof.
  intros Hc Ht. destruct (tracked_live st Hc g c Ht) as (o & Ho & _ & Hs).
  exists o. split; [|exact Ho]. unfold Voice.existing. rewrite Ht, Ho.
  destruct (Voice.status o); try reflexivity. congruence.
Qed.

Lemma existing_None (g : string) (st : Voice.state) :
  consistent st -> Voice.existing g st = None -> Voice.tracked st !! g = None.
Proof.
  intros Hc Hex. destruct (Voice.tracked st !! g) as [c|] eqn:Ht; [|reflexivity].
  destruct (existing_tracked g st c Hc Ht) as (o & Ho & _). congruence.
Qed.

Lemma joinVoiceChannel_consistent (g ch : string) (st : Voice.state) :
  consistent st -> consistent (snd (Voice.joinVoiceChannel g ch st)).
Proof.
  intros Hc. unfold Voice.joinVoiceChannel.
  destruct (Voice.existing g st) as [[c o]|] eqn:Hex.
  - apply existing_Some in Hex. destruct Hex as (_ & Ho & _).
    destruct (Voice.status o) eqn:Hso; simpl; try exact Hc.
    apply consistent_alter; auto. intros o' Ho'.
    rewrite Ho in Ho'. injection Ho' as <-. simpl. rewrite Hso. split; discriminate.
  - pose proof (existing_None g st Hc Hex) as Ht. simpl.
    destruct Hc as [H1 H2]. split; simpl.
    + intros g' c' Hg'.
      destruct (decide (g = g')) as [<-|Hne].
      * rewrite lookup_insert_eq in Hg'. injection Hg' as <-.
        eexists. rewrite lookup_app_r by lia. rewrite Nat.sub_diag. simpl.
        repeat split. discriminate.
      * rewrite lookup_insert_ne in Hg' by auto.
        destruct (H1 g' c' Hg') as (o & Ho & Hgo & Hso).
        exists o. rewrite lookup_app_l by (eapply lookup_lt_Some; eauto). auto.
    + intros c' o' Ho' Hso'.
      destruct (decide (c' < length (Voice.objects st))%nat) as [Hlt|Hge].
      * rewrite lookup_app_l in Ho' by auto.
        pose proof (H2 c' o' Ho' Hso') as Htr.
        rewrite lookup_insert_ne; auto. intros Heq. rewrite <- Heq in Htr. congruence.
      * rewrite lookup_app_r in Ho' by lia.
        destruct (c' - length (Voice.objects st))%nat eqn:Hd; [|destruct n; discriminate].
        simpl in Ho'. injection Ho' as <-. simpl.
        rewrite lookup_insert_eq. f_equal. lia.
Qed.

Lemma destroy_consistent (c : nat) : preserves keeps_consistent (Voice.destroy c).
Proof.
  intros st Hc. unfold Voice.destroy.
  destruct (Voice.objects st !! c) as [o|] eqn:Ho; simpl; [|exact Hc].
  destruct (decide (Voice.status o = Voice.Destroyed)) as [Hd|Hlive].
  { rewrite Hd. exact Hc. }
  assert (Htr : Voice.tracked st !! Voice.guildId o = Some c)
    by (apply (live_tracked st Hc); auto).
  assert (Hgoal : consistent
            (Voice.set_tracked (delete (Voice.guildId o) (Voice.tracked st))
               (Voice.set_objects
                  (alter (Voice.with_status Voice.Destroyed) c (Voice.objects st)) st))).
  { destruct Hc as [H1 H2]. split; simpl.
    - intros g c' Hg.
      destruct (decide (Voice.guildId o = g)) as [<-|Hne].
      + rewrite lookup_delete_eq in Hg. discriminate.
      + rewrite lookup_delete_ne in Hg by auto.
        destruct (H1 g c' Hg) as (o' & Ho' & Hgo' & Hso').
        exists o'. rewrite list_lookup_alter_ne; auto.
        intros ->. congruence.
    - intros c' o' Ho' Hso'.
      destruct (decide (c' = c)) as [->|Hne].
      + rewrite list_lookup_alter_eq, Ho in Ho'. simpl in Ho'.
        injection Ho' as <-. simpl in Hso'. congruence.
      + rewrite list_lookup_alter_ne in Ho' by auto.
        pose proof (H2 c' o' Ho' Hso') as Ht'.
        rewrite lookup_delete_ne; auto.
        intros Heq. rewrite Heq in Htr. congruence. }
  assert (Hout : forall st4,
            (let st1 := Voice.set_destroyed (Voice.destroyed st ++ [c]) st in
             let st2 := Voice.set_objects
                          (alter (Voice.with_status Voice.Destroyed) c (Voice.objects st1)) st1 in
             let st3 := match Voice.tracked st2 !! Voice.guildId o with
                        | Some c' =>
                            if Nat.eqb c' c
                            then Voice.set_tracked (delete (Voice.guildId o) (Voice.tracked st2)) st2
                            else st2
                        | None => st2
                        end in
             if Nat.ltb 0 (Voice.handlers o)
             then Voice.set_connections (delete (Voice.guildId o) (Voice.connections st3)) st3
             else st3) = st4 -> consistent st4).
  { intros st4 <-. cbv zeta. simpl. rewrite Htr, Nat.eqb_refl.
    destruct (Nat.ltb 0 (Voice.handlers o));
      (eapply consistent_same_sessions; [| |exact Hgoal]; reflexivity). }
  destruct (Voice.status o); try congruence; simpl; eapply Hout; reflexivity.
Qed.

Lemma entersReady_consistent (ready : bool) (c : nat) :
  preserves keeps_consistent (Voice.entersReady ready c).
Proof.
  intros st Hc. unfold Voice.entersReady.
  destruct (Voice.objects st !! c) as [o|] eqn:Ho; simpl; [|exact Hc].
  destruct (Voice.status o) eqn:Hs, ready; simpl; try exact Hc;
    (apply consistent_alter; auto; intros o' Ho'; simpl;
     rewrite Ho in Ho'; injection Ho' as <-; rewrite Hs; split; discriminate).
Qed.

Lemma transport_reports_consistent (c : nat) (s : Voice.VoiceConnectionStatus) :
  preserves keeps_consistent (Voice.transport_reports c s).
Proof.
  intros st Hc. unfold Voice.transport_reports.
  destruct (Voice.objects st !! c) as [o|] eqn:Ho; [|destruct s; exact Hc].
  destruct s, (Voice.status o) eqn:Hs; simpl; try exact Hc;
    (apply consistent_alter; auto; intros o' Ho'; simpl;
     rewrite Ho in Ho'; injection Ho' as <-; rewrite Hs; split; discriminate).
Qed.

Lemma voice_state_update_consistent (c : nat) (ch : string) :
  preserves keeps_consistent (Voice.voice_state_update c ch).
Proof.
  intros st Hc. unfold Voice.voice_state_update.
  destruct (Voice.objects st !! c) as [o|] eqn:Ho; [|exact Hc].
  destruct (Voice.status o) eqn:Hs; simpl; try exact Hc;
    (apply consistent_alter; [reflexivity|intros o' _; reflexivity|exact Hc]).
Qed.

Lemma setup_handlers_consistent (c : nat) :
  preserves keeps_consistent (Voice._setupConnectionHandlers c).
Proof.
  intros st Hc. simpl.
  apply consistent_alter; [intros o; reflexivity|intros o _; reflexivity|exact Hc].
Qed.

Lemma modify_consistent (f : Voice.state -> Voice.state) :
  (forall st, Voice.objects (f st) = Voice.objects st) ->
  (forall st, Voice.tracked (f st) = Voice.tracked st) ->
  preserves keeps_consistent (modify f).
Proof.
  intros Ho Ht st Hc. simpl. eapply consistent_same_sessions; eauto.
Qed.

Lemma connectToChannel_consistent (ready : bool) (channel : Discord.channel) :
  preserves keeps_consistent (Voice.connectToChannel ready channel).
Proof.
  unfold Voice.connectToChannel.
  apply (preserves_try_catch keeps_consistent); [|intros e; apply (preserves_throw keeps_consistent)].
  apply (preserves_bind keeps_consistent); [apply (preserves_gets keeps_consistent)|intros ex].
  apply (preserves_bind keeps_consistent); [apply (preserves_gets keeps_consistent)|intros same].
  assert (Hopen : preserves keeps_consistent
            (let* connection :=
               (fun st => let '(c, st') :=
                            Voice.joinVoiceChannel (Discord.guild_id channel)
                              (Discord.id channel) st in (Ok c, st')) in
             Voice._setupConnectionHandlers connection ;;
             Voice.entersReady ready connection ;;
             modify (fun st => Voice.set_connections
                       (<[Discord.guild_id channel := (connection, Discord.id channel)]>
                          (Voice.connections st)) st) ;;
             ret connection)).
  { apply (preserves_bind keeps_consistent).
    - intros st Hc.
      pose proof (joinVoiceChannel_consistent (Discord.guild_id channel)
                    (Discord.id channel) st Hc) as Hj.
      destruct (Voice.joinVoiceChannel _ _ st). exact Hj.
    - intros c.
      apply (preserves_bind keeps_consistent); [apply setup_handlers_consistent|intros _].
      apply (preserves_bind keeps_consistent); [apply entersReady_consistent|intros _].
      apply (preserves_bind keeps_consistent);
        [apply modify_consistent; reflexivity|intros _].
      apply (preserves_ret keeps_consistent). }
  destruct ex as [c|]; [destruct same|]; auto.
  apply (preserves_ret keeps_consistent).
Qed.

Lemma disconnectFromChannel_consistent (g : string) :
  preserves keeps_consistent (Voice.disconnectFromChannel g).
Proof.
  unfold Voice.disconnectFromChannel.
  apply (preserves_bind keeps_consistent); [apply (preserves_gets keeps_consistent)|].
  intros [c|]; [apply modify_consistent; reflexivity|apply (preserves_ret keeps_consistent)].
Qed.

Lemma cleanupConnection_consistent (g : string) :
  preserves keeps_consistent (Voice._cleanupConnection g).
Proof.
  unfold Voice._cleanupConnection.
  apply (preserves_bind keeps_consistent); [apply (preserves_gets keeps_consistent)|].
  intros conn.
  apply (preserves_bind keeps_consistent).
  - destruct conn; [apply destroy_consistent|apply (preserves_ret keeps_consistent)].
  - intros _. apply modify_consistent; reflexivity.
Qed.

Lemma disconnect_callback_consistent (g : string) :
  preserves keeps_consistent (Voice.disconnect_callback g).
Proof. apply cleanupConnection_consistent. Qed.

Lemma fire_timer_consistent : preserves keeps_consistent Voice.fire_timer.
Proof.
  intros st Hc. unfold Voice.fire_timer.
  destruct (Voice.timers st) as [|g rest]; [exact Hc|].
  apply disconnect_callback_consistent.
  eapply consistent_same_sessions; [| |exact Hc]; reflexivity.
Qed.

Lemma disconnectAll_consistent : preserves keeps_consistent Voice.disconnectAll.
Proof.
  unfold Voice.disconnectAll.
  apply (preserves_bind keeps_consistent); [apply (preserves_gets keeps_consistent)|].
  intros guilds.
  apply (preserves_bind keeps_consistent).
  - apply (preserves_for_each keeps_consistent). apply cleanupConnection_consistent.
  - intros _. apply modify_consistent; reflexivity.
Qed.

Lemma on_disconnected_consistent (renegotiating : bool) (g : string) :
  preserves keeps_consistent (Voice.on_disconnected renegotiating g).
Proof.
  unfold Voice.on_disconnected.
  apply (preserves_bind keeps_consistent); [apply (preserves_gets keeps_consistent)|].
  intros [|]; [apply (preserves_ret keeps_consistent)|].
  apply (preserves_bind keeps_consistent); [apply modify_consistent; reflexivity|].
  intros _. apply (preserves_try_finally keeps_consistent).
  - destruct renegotiating;
      [apply (preserves_ret keeps_consistent)|apply cleanupConnection_consistent].
  - apply modify_consistent; reflexivity.
Qed.

Lemma step_consistent (st st' : Voice.state) :
  step st st' -> consistent st -> consistent st'.
Proof.
  intros Hstep. destruct Hstep.
  - apply connectToChannel_consistent.
  - apply disconnectFromChannel_consistent.
  - apply fire_timer_consistent.
  - apply cleanupConnection_consistent.
  - apply disconnectAll_consistent.
  - apply on_disconnected_consistent.
  - apply transport_reports_consistent.
  - apply voice_state_update_consistent.
Qed.

Lemma reachable_consistent (st : Voice.state) : reachable st -> consistent st.
Proof.
  induction 1 as [|st st' _ IH Hstep].
  - apply consistent_initial.
  - eapply step_consistent; eauto.
Qed.

Lemma consistent_one_session (st : Voice.state) :
  consistent st -> one_session_per_guild st.
Proof.
  intros [_ H2] g c1 c2 (o1 & Ho1 & Hg1 & Hl1) (o2 & Ho2 & Hg2 & Hl2).
  pose proof (H2 c1 o1 Ho1 Hl1) as T1.
  pose proof (H2 c2 o2 Ho2 Hl2) as T2.
  rewrite Hg1 in T1. rewrite Hg2 in T2. congruence.
Qed.

(** After [joinVoiceChannel] the guild is tracked to the object returned.
    The object is on the channel asked for, unless a connection of the
    guild that is not [Disconnected] was found: that one is returned as
    it is. *)
Lemma joinVoiceChannel_spec (g ch : string) (st st' : Voice.state) (c : nat) :
  Voice.joinVoiceChannel g ch st = (c, st') ->
  Voice.tracked st' !! g = Some c
  /\ ((exists o', Voice.objects st' !! c = Some o' /\ Voice.channelId o' = ch
                  /\ Voice.status o' = Voice.Signalling)
      \/ (exists o, Voice.existing g st = Some (c, o)
                    /\ Voice.status o <> Voice.Disconnected /\ st' = st)).
Proof.
  unfold Voice.joinVoiceChannel.
  destruct (Voice.existing g st) as [[c0 o]|] eqn:Hex.
  - destruct (existing_Some g st c0 o Hex) as (Ht & Ho & _).
    destruct (Voice.status o) eqn:Hs; intros [= <- <-];
      (split; [exact Ht|]); try (right; exists o; rewrite Hs; repeat split; discriminate).
    left. simpl. rewrite list_lookup_alter_eq, Ho. simpl. eauto.
  - intros [= <- <-]. simpl. split; [apply lookup_insert_eq|]. left.
    rewrite lookup_app_r by lia. rewrite Nat.sub_diag. simpl. eauto.
Qed.

Lemma targets_spec (c : nat) (ch : string) (st : Voice.state) :
  Voice.targets c ch st = true <->
  exists o, Voice.objects st !! c = Some o /\ Voice.channelId o = ch.
Proof.
  unfold Voice.targets. destruct (Voice.objects st !! c) as [o|].
  - rewrite String.eqb_eq. split; [eauto|]. intros (o' & [= <-] & H). exact H.
  - split; [discriminate|]. intros (o' & H & _). discriminate.
Qed.

(** The part of [connectToChannel] after the early return, on a
    connection of the guild that is [Ready]: it is returned, with one
    more set of handlers and the entry of [this.connections] written. *)
Lemma open_session_on_ready (ready : bool) (g ch : string) (st : Voice.state)
    (c : nat) (o : Voice.VoiceConnection) :
  Voice.tracked st !! g = Some c ->
  Voice.objects st !! c = Some o ->
  Voice.status o = Voice.Ready ->
  (let* connection :=
     (fun st => let '(c, st') := Voice.joinVoiceChannel g ch st in (Ok c, st')) in
   Voice._setupConnectionHandlers connection ;;
   Voice.entersReady ready connection ;;
   modify (fun st => Voice.set_connections
             (<[g := (connection, ch)]> (Voice.connections st)) st) ;;
   ret connection) st
  = (Ok c,
     Voice.set_connections (<[g := (c, ch)]> (Voice.connections st))
       (Voice.set_objects (alter Voice.add_handlers c (Voice.objects st)) st)).
Proof.
  intros Ht Ho Hs. unfold bind at 1.
  unfold Voice.joinVoiceChannel, Voice.existing. rewrite Ht, Ho, Hs. simpl. rewrite Hs.
  unfold Voice._setupConnectionHandlers, Voice.entersReady, bind, modify, ret. simpl.
  rewrite list_lookup_alter_eq, Ho. simpl. rewrite Hs. reflexivity.
Qed.

(** The part of [connectToChannel] after the early return, when it
    returns: the guild is connected on the object returned, and the
    object is on the channel unless it was found in the registry and not
    [Disconnected]. *)
Lemma open_session_Ok (ready : bool) (g ch : string) (st st1 : Voice.state) (c : nat) :
  (let* connection :=
     (fun st => let '(c, st') := Voice.joinVoiceChannel g ch st in (Ok c, st')) in
   Voice._setupConnectionHandlers connection ;;
   Voice.entersReady ready connection ;;
   modify (fun st => Voice.set_connections
             (<[g := (connection, ch)]> (Voice.connections st)) st) ;;
   ret connection) st = (Ok c, st1) ->
  Voice.getVoiceConnection g st1 = Some c
  /\ Voice.isConnected g st1 = true
  /\ Voice.connections st1 !! g = Some (c, ch)
  /\ (Voice.targets c ch st1 = true
      \/ exists o, Voice.existing g st = Some (c, o)
                   /\ Voice.status o <> Voice.Disconnected
                   /\ forall ch', Voice.targets c ch' st1 = Voice.targets c ch' st).
Proof.
  unfold bind at 1.
  destruct (Voice.joinVoiceChannel g ch st) as [c0 st'] eqn:Hj.
  apply joinVoiceChannel_spec in Hj. destruct Hj as [Ht Hch].
  unfold Voice._setupConnectionHandlers, Voice.entersReady.
  unfold bind, modify, ret. simpl.
  rewrite list_lookup_alter_eq.
  destruct (Voice.objects st' !! c0) as [o|] eqn:Ho; simpl; [|discriminate].
  assert (Hgoal : forall st2,
            Voice.tracked st2 = Voice.tracked st' ->
            (exists o2, Voice.objects st2 !! c0 = Some o2
                        /\ Voice.channelId o2 = Voice.channelId o
                        /\ Voice.status o2 = Voice.Ready) ->
            Voice.connections st2 !! g = Some (c0, ch) ->
            Voice.getVoiceConnection g st2 = Some c0
            /\ Voice.isConnected g st2 = true
            /\ Voice.connections st2 !! g = Some (c0, ch)
            /\ (Voice.targets c0 ch st2 = true
                \/ exists o1, Voice.existing g st = Some (c0, o1)
                              /\ Voice.status o1 <> Voice.Disconnected
                              /\ forall ch', Voice.targets c0 ch' st2
                                             = Voice.targets c0 ch' st)).
  { intros st2 Htr (o2 & Ho2 & Hch2 & Hs2) Hconn.
    unfold Voice.getVoiceConnection, Voice.isConnected, Voice.getVoiceConnection.
    rewrite Htr, Ht, Ho2, Hs2.
    split; [reflexivity|]. split; [reflexivity|]. split; [exact Hconn|].
    destruct Hch as [(o' & Ho' & Hch' & _)|(o1 & Hex & Hnd & ->)].
    - left. apply targets_spec. exists o2. split; [exact Ho2|]. congruence.
    - right. exists o1. split; [exact Hex|]. split; [exact Hnd|].
      intros ch'. unfold Voice.targets. rewrite Ho2, Ho, Hch2. reflexivity. }
  destruct (Voice.status o) eqn:Hs, ready; simpl; try discriminate;
    intros [= <- <-]; apply Hgoal; try reflexivity; simpl;
    try apply lookup_insert_eq;
    rewrite ?list_lookup_alter_eq, ?Ho; simpl;
    rewrite ?list_lookup_alter_eq, ?Ho; simpl; eauto.
Qed.

(** What a successful [connectToChannel] leaves: the guild is tracked to
    the object returned; and either the object is on the channel, or the
    guild had a connection on another channel that was not
    [Disconnected], which is returned, connected, as the entry of
    [this.connections] for the channel asked for. *)
Lemma connectToChannel_Ok (ready : bool) (channel : Discord.channel)
    (st st1 : Voice.state) (c : nat) :
  Voice.connectToChannel ready channel st = (Ok c, st1) ->
  Voice.getVoiceConnection (Discord.guild_id channel) st1 = Some c
  /\ (Voice.targets c (Discord.id channel) st1 = true
      \/ (Voice.isConnected (Discord.guild_id channel) st1 = true
          /\ Voice.connections st1 !! Discord.guild_id channel
             = Some (c, Discord.id channel)
          /\ Voice.getVoiceConnection (Discord.guild_id channel) st = Some c
          /\ Voice.targets c (Discord.id channel) st = false)).
Proof.
  unfold Voice.connectToChannel, try_catch.
  unfold bind at 1, gets at 1. unfold bind at 1, gets at 1.
  destruct (Voice.getVoiceConnection (Discord.guild_id channel) st) as [c0|] eqn:Hex.
  - destruct (Voice.targets c0 (Discord.id channel) st) eqn:Hsame.
    + unfold ret. intros [= <- <-]. auto.
    + destruct (bind _ _ st) as [[c1|e] st2] eqn:Hopen; [|unfold throw; discriminate].
      intros [= <- <-].
      destruct (open_session_Ok _ _ _ _ _ _ Hopen) as (Hg & Hconn & Hent & Hcase).
      split; [exact Hg|]. destruct Hcase as [Ht|(o & Hfound & _ & Hsame')]; [auto|].
      right. apply existing_Some in Hfound. destruct Hfound as (Htr & _ & _).
      unfold Voice.getVoiceConnection in Hex. rewrite Htr in Hex. injection Hex as <-.
      auto.
  - destruct (bind _ _ st) as [[c1|e] st2] eqn:Hopen; [|unfold throw; discriminate].
    intros [= <- <-].
    destruct (open_session_Ok _ _ _ _ _ _ Hopen) as (Hg & _ & _ & Hcase).
    split; [exact Hg|]. destruct Hcase as [Ht|(o & Hfound & _)]; [auto|].
    apply existing_Some in Hfound. destruct Hfound as (Htr & _).
    unfold Voice.getVoiceConnection in Hex. congruence.
Qed.

(** A session for the guild that targets the channel is returned as it
    is: the state, and with it the list of sessions opened, is the same. *)
Lemma connectToChannel_existing (ready : bool) (channel : Discord.channel)
    (st : Voice.state) (c : nat) :
  Voice.getVoiceConnection (Discord.guild_id channel) st = Some c ->
  Voice.targets c (Discord.id channel) st = true ->
  Voice.connectToChannel ready channel st = (Ok c, st).
Proof.
  intros Hex Hsame. unfold Voice.connectToChannel, try_catch.
  unfold bind at 1, gets at 1. unfold bind at 1, gets at 1.
  rewrite Hex, Hsame. reflexivity.
Qed.

(** C3. [connectToChannel] called twice in a row for the same channel
    returns the same connection object both times: the object that the
    library holds for the guild, which is live.  The second call opens no
    transport session, and it leaves the manager as it is when the object
    is on the channel.  The object is on the channel after the first
    call, except when the guild already had this object, connected, on
    another channel: then the join configuration keeps the old channel
    until Discord reports the move, and the second call goes through the
    join again, on the same object.  Any call that finds a session of
    the guild on that channel returns the object found and changes
    nothing; and in every state that the manager can reach, before and
    after the calls, no guild has two live sessions. *)
Theorem connect_twice_yields_same_session
    (st st1 : Voice.state) (ready1 ready2 : bool) (channel : Discord.channel)
    (c : nat) :
  reachable st ->
  Voice.connectToChannel ready1 channel st = (Ok c, st1) ->
  Voice.getVoiceConnection (Discord.guild_id channel) st1 = Some c
  /\ live st1 (Discord.guild_id channel) c
  /\ (exists st2,
        Voice.connectToChannel ready2 channel st1 = (Ok c, st2)
        /\ Voice.opened st2 = Voice.opened st1
        /\ Voice.getVoiceConnection (Discord.guild_id channel) st2 = Some c
        /\ one_session_per_guild st2
        /\ (Voice.targets c (Discord.id channel) st1 = true -> st2 = st1))
  /\ (Voice.targets c (Discord.id channel) st1 = true
      \/ (Voice.getVoiceConnection (Discord.guild_id channel) st = Some c
          /\ Voice.targets c (Discord.id channel) st = false
          /\ Voice.isConnected (Discord.guild_id channel) st1 = true))
  /\ (forall s c0 ready,
         Voice.getVoiceConnection (Discord.guild_id channel) s = Some c0 ->
         Voice.targets c0 (Discord.id channel) s = true ->
         Voice.connectToChannel ready channel s = (Ok c0, s))
  /\ one_session_per_guild st
  /\ one_session_per_guild st1.
Proof.
  intros Hreach Hfirst.
  pose proof (connectToChannel_Ok _ _ _ _ _ Hfirst) as [Hex Hcase].
  assert (Hreach1 : reachable st1).
  { apply reachable_step with st; [exact Hreach|].
    replace st1 with (snd (Voice.connectToChannel ready1 channel st))
      by (rewrite Hfirst; reflexivity).
    constructor. }
  pose proof (reachable_consistent st1 Hreach1) as Hc1.
  split; [exact Hex|]. split; [exact (tracked_live st1 Hc1 _ _ Hex)|].
  split; [|split; [|split; [|split]]].
  - destruct (Voice.targets c (Discord.id channel) st1) eqn:Htar.
    + exists st1. rewrite (connectToChannel_existing ready2 channel st1 c Hex Htar).
      split; [reflexivity|]. split; [reflexivity|]. split; [exact Hex|].
      split; [apply consistent_one_session, Hc1|reflexivity].
    + destruct Hcase as [Habs|(Hready & _)]; [discriminate|].
      unfold Voice.isConnected in Hready. rewrite Hex in Hready.
      destruct (Voice.objects st1 !! c) as [o1|] eqn:Ho1; [|discriminate].
      apply bool_decide_eq_true_1 in Hready.
      assert (Hsecond :
                Voice.connectToChannel ready2 channel st1
                = (Ok c,
                   Voice.set_connections
                     (<[Discord.guild_id channel := (c, Discord.id channel)]>
                        (Voice.connections st1))
                     (Voice.set_objects
                        (alter Voice.add_handlers c (Voice.objects st1)) st1))).
      { unfold Voice.connectToChannel, try_catch.
        unfold bind at 1, gets at 1. unfold bind at 1, gets at 1.
        rewrite Hex, Htar.
        rewrite (open_session_on_ready ready2 _ _ st1 c o1 Hex Ho1 Hready).
        reflexivity. }
      eexists. split; [exact Hsecond|]. split; [reflexivity|]. split; [exact Hex|].
      split; [|discriminate].
      apply consistent_one_session, reachable_consistent.
      apply reachable_step with st1; [exact Hreach1|].
      replace (Voice.set_connections _ _)
        with (snd (Voice.connectToChannel ready2 channel st1))
        by (rewrite Hsecond; reflexivity).
      constructor.
  - destruct Hcase as [Htar|(Hready & _ & Hold & Hother)]; auto.
  - intros s c0 ready. apply connectToChannel_existing.
  - apply consistent_one_session, reachable_consistent, Hreach.
  - apply consistent_one_session, Hc1.
Qed.

Lemma connect_twice_yields_same_session_witness :
  let st := snd (Voice.connectToChannel true general Voice.initial) in
  let st1 := snd (Voice.connectToChannel true afk st) in
  Voice.getVoiceConnection (Discord.guild_id afk) st1 = Some 0%nat
  /\ live st1 (Discord.guild_id afk) 0
  /\ (exists st2,
        Voice.connectToChannel false afk st1 = (Ok 0%nat, st2)
        /\ Voice.opened st2 = Voice.opened st1
        /\ Voice.getVoiceConnection (Discord.guild_id afk) st2 = Some 0%nat
        /\ one_session_per_guild st2
        /\ (Voice.targets 0 (Discord.id afk) st1 = true -> st2 = st1))
  /\ (Voice.targets 0 (Discord.id afk) st1 = true
      \/ (Voice.getVoiceConnection (Discord.guild_id afk) st = Some 0%nat
          /\ Voice.targets 0 (Discord.id afk) st = false
          /\ Voice.isConnected (Discord.guild_id afk) st1 = true))
  /\ (forall s c0 ready,
         Voice.getVoiceConnection (Discord.guild_id afk) s = Some c0 ->
         Voice.targets c0 (Discord.id afk) s = true ->
         Voice.connectToChannel ready afk s = (Ok c0, s))
  /\ one_session_per_guild st
  /\ one_session_per_guild st1.
Proof.
  intros st st1.
  apply (connect_twice_yields_same_session st st1 true false afk 0%nat).
  - apply (reachable_step Voice.initial st); [apply reachable_initial|].
    apply (step_connect true general Voice.initial).
  - vm_compute. reflexivity.
Defined.

(** Twice in a row for a guild that had no session: the second call
    returns the object of the first and changes nothing. *)
Example connect_twice_from_scratch :
  let '(r1, st1) := Voice.connectToChannel true general Voice.initial in
  let '(r2, st2) := Voice.connectToChannel false general st1 in
  r1 = Ok 0%nat /\ r2 = Ok 0%nat /\ st2 = st1
  /\ Voice.opened st2 = [0%nat]
  /\ Voice.targets 0 "c1" st2 = true.
Proof. vm_compute. repeat split; reflexivity. Qed.

(** A guild moved to another channel keeps its one connection object.
    The join configuration of the object names the old channel until
    Discord reports the move, so a connect for the new channel in the
    meantime joins again and registers the handlers once more; after the
    report it returns at once. *)
Example move_within_guild :
  let '(r1, st1) := Voice.connectToChannel true general Voice.initial in
  let '(r2, st2) := Voice.connectToChannel true afk st1 in
  let '(r3, st3) := Voice.connectToChannel true afk st2 in
  let st4 := snd (Voice.voice_state_update 0 "c9" st3) in
  let '(r5, st5) := Voice.connectToChannel true afk st4 in
  r1 = Ok 0%nat /\ r2 = Ok 0%nat /\ r3 = Ok 0%nat /\ r5 = Ok 0%nat
  /\ Voice.opened st5 = [0%nat]
  /\ Voice.channelId <$> Voice.objects st2 !! 0%nat = Some "c1"
  /\ Voice.connections st2 !! "g1" = Some (0%nat, "c9")
  /\ Voice.handlers <$> Voice.objects st1 !! 0%nat = Some 1%nat
  /\ Voice.handlers <$> Voice.objects st2 !! 0%nat = Some 2%nat
  /\ Voice.handlers <$> Voice.objects st3 !! 0%nat = Some 3%nat
  /\ Voice.channelId <$> Voice.objects st4 !! 0%nat = Some "c9"
  /\ st5 = st4.
Proof. vm_compute. repeat split; reflexivity. Qed.

(** [destroy] on the connection a guild is tracked to: it returns, the
    call is recorded once, and the guild is tracked no more. *)
Lemma destroy_tracked (st : Voice.state) (g : string) (c : nat) :
  consistent st ->
  Voice.tracked st !! g = Some c ->
  exists st',
    Voice.destroy c st = (Ok tt, st')
    /\ Voice.destroyed st' = Voice.destroyed st ++ [c]
    /\ Voice.tracked st' = delete g (Voice.tracked st)
    /\ Voice.timers st' = Voice.timers st.
Proof.
  intros Hc Ht.
  destruct (tracked_live st Hc g c Ht) as (o & Ho & Hg & Hs).
  unfold Voice.destroy. rewrite Ho.
  assert (Hout : forall st4,
            (let st1 := Voice.set_destroyed (Voice.destroyed st ++ [c]) st in
             let st2 := Voice.set_objects
                          (alter (Voice.with_status Voice.Destroyed) c (Voice.objects st1)) st1 in
             let st3 := match Voice.tracked st2 !! Voice.guildId o with
                        | Some c' =>
                            if Nat.eqb c' c
                            then Voice.set_tracked (delete (Voice.guildId o) (Voice.tracked st2)) st2
                            else st2
                        | None => st2
                        end in
             if Nat.ltb 0 (Voice.handlers o)
             then Voice.set_connections (delete (Voice.guildId o) (Voice.connections st3)) st3
             else st3) = st4 ->
            Voice.destroyed st4 = Voice.destroyed st ++ [c]
            /\ Voice.tracked st4 = delete g (Voice.tracked st)
            /\ Voice.timers st4 = Voice.timers st).
  { intros st4 <-. cbv zeta. simpl. rewrite Hg, Ht, Nat.eqb_refl.
    destruct (Nat.ltb 0 (Voice.handlers o)); simpl; auto. }
  destruct (Voice.status o); try congruence; eexists; (split; [reflexivity|]);
    apply Hout; reflexivity.
Qed.

(** One expiry of a timer, in a consistent state: the callback returns;
    if the guild of the timer has a session, [destroy] is called on it and
    the guild is tracked no more; otherwise nothing is torn down. *)
Lemma fire_timer_run (st : Voice.state) (h : string) (rest : list string) :
  consistent st ->
  Voice.timers st = h :: rest ->
  exists st',
    Voice.fire_timer st = (Ok tt, st')
    /\ consistent st'
    /\ Voice.timers st' = rest
    /\ match Voice.tracked st !! h with
       | Some c => Voice.destroyed st' = Voice.destroyed st ++ [c]
                   /\ Voice.tracked st' = delete h (Voice.tracked st)
       | None => Voice.destroyed st' = Voice.destroyed st
                 /\ Voice.tracked st' = Voice.tracked st
       end.
Proof.
  intros Hc Ht.
  pose proof (fire_timer_consistent st Hc) as Hc'.
  unfold Voice.fire_timer in *. rewrite Ht in *.
  set (armed := Voice.set_timers rest st) in *.
  assert (Hca : consistent armed)
    by (eapply consistent_same_sessions; [| |exact Hc]; reflexivity).
  unfold Voice.disconnect_callback in *.
  unfold bind at 1, gets at 1 in Hc'. unfold bind at 1, gets at 1.
  unfold Voice.getVoiceConnection in *.
  change (Voice.tracked armed) with (Voice.tracked st) in *.
  destruct (Voice.tracked st !! h) as [c|] eqn:Htr.
  - destruct (destroy_tracked armed h c Hca Htr) as (sd & Hd & Hdd & Hdt & Hdtm).
    unfold bind in Hc' |- *. rewrite Hd in Hc' |- *. simpl in Hc' |- *.
    eexists. split; [reflexivity|]. split; [exact Hc'|]. simpl.
    split; [exact Hdtm|]. split; [exact Hdd|exact Hdt].
  - unfold bind, ret, modify in Hc' |- *. simpl in Hc' |- *.
    eexists. split; [reflexivity|]. split; [exact Hc'|]. simpl. auto.
Qed.

Lemma teardowns_snoc (c c' : nat) (st st' : Voice.state) :
  Voice.destroyed st' = Voice.destroyed st ++ [c'] ->
  teardowns c st' = (teardowns c st + if decide (c' = c) then 1 else 0)%nat.
Proof.
  intros H. unfold teardowns. rewrite H, count_occ_app. simpl.
  destruct (Nat.eq_dec c' c), (decide (c' = c)); try contradiction; reflexivity.
Qed.

(** Timers of guilds that are not tracked to [c] leave [c] alone. *)
Lemma expire_untracked (c : nat) (n : nat) (st : Voice.state) :
  consistent st ->
  (forall g, In g (Voice.timers st) -> Voice.tracked st !! g <> Some c) ->
  exists st',
    expire n st = (Ok tt, st')
    /\ teardowns c st' = teardowns c st
    /\ Voice.timers st' = drop n (Voice.timers st)
    /\ (forall g c', Voice.tracked st' !! g = Some c' -> Voice.tracked st !! g = Some c').
Proof.
  revert st. induction n as [|n IH]; intros st Hc Hun.
  - exists st. simpl. rewrite drop_0. auto.
  - simpl. unfold bind.
    destruct (Voice.timers st) as [|h rest] eqn:Ht.
    + unfold Voice.fire_timer at 1. rewrite Ht.
      destruct (IH st Hc) as (st' & Hrun & Hcount & Htm & Hsub);
        [rewrite Ht; intros g []|].
      exists st'. rewrite Hrun. rewrite Ht in Htm. rewrite drop_nil in Htm.
      repeat split; auto.
    + destruct (fire_timer_run st h rest Hc Ht) as (st1 & Hfire & Hc1 & Ht1 & Heff).
      rewrite Hfire.
      assert (Hsub1 : forall g c', Voice.tracked st1 !! g = Some c' ->
                                   Voice.tracked st !! g = Some c').
      { intros g c'. destruct (Voice.tracked st !! h); destruct Heff as [_ ->]; auto.
        intros Hg. apply lookup_delete_Some in Hg. tauto. }
      destruct (IH st1 Hc1) as (st' & Hrun & Hcount & Htm & Hsub).
      { rewrite Ht1. intros g Hg Hgc. apply (Hun g); [right; exact Hg|auto]. }
      exists st'. rewrite Hrun. split; [reflexivity|]. split; [|split].
      * rewrite Hcount. pose proof (Hun h (or_introl eq_refl)) as Hh.
        destruct (Voice.tracked st !! h) as [c'|]; destruct Heff as [Hd _].
        -- rewrite (teardowns_snoc c c' st st1 Hd).
           destruct (decide (c' = c)); [congruence|lia].
        -- unfold teardowns. rewrite Hd. reflexivity.
      * rewrite Htm, Ht1. reflexivity.
      * intros g c' Hg. auto.
Qed.

(** A timer of the guild that is tracked to [c], among the next [n]: of
    all of them, exactly one calls [destroy] on [c]. *)
Lemma expire_tracked (g : string) (c : nat) (n : nat) (st : Voice.state) :
  consistent st ->
  Voice.tracked st !! g = Some c ->
  In g (take n (Voice.timers st)) ->
  exists st',
    expire n st = (Ok tt, st')
    /\ teardowns c st' = S (teardowns c st)
    /\ Voice.timers st' = drop n (Voice.timers st)
    /\ Voice.tracked st' !! g = None.
Proof.
  revert st. induction n as [|n IH]; intros st Hc Hg Hin; [destruct Hin|].
  destruct (Voice.timers st) as [|h rest] eqn:Ht; [destruct Hin|].
  simpl. unfold bind.
  destruct (fire_timer_run st h rest Hc Ht) as (st1 & Hfire & Hc1 & Ht1 & Heff).
  rewrite Hfire.
  destruct (decide (h = g)) as [->|Hne].
  - rewrite Hg in Heff. destruct Heff as [Hd Htr].
    destruct (expire_untracked c n st1 Hc1) as (st' & Hrun & Hcount & Htm & Hsub).
    { intros g' _ Hg'. rewrite Htr in Hg'. apply lookup_delete_Some in Hg'.
      destruct Hg' as [Hne Hg'].
      destruct (tracked_live st Hc g c Hg) as (o & Ho & Hgo & _).
      destruct (tracked_live st Hc g' c Hg') as (o' & Ho' & Hgo' & _).
      congruence. }
    exists st'. rewrite Hrun. split; [reflexivity|]. split; [|split].
    + rewrite Hcount, (teardowns_snoc c c st st1 Hd).
      destruct (decide (c = c)); [lia|contradiction].
    + rewrite Htm, Ht1. reflexivity.
    + destruct (Voice.tracked st' !! g) as [c'|] eqn:Hst'; [|reflexivity].
      apply Hsub in Hst'. rewrite Htr, lookup_delete_eq in Hst'. discriminate.
  - assert (Hg1 : Voice.tracked st1 !! g = Some c).
    { destruct (Voice.tracked st !! h); destruct Heff as [_ ->]; auto.
      rewrite lookup_delete_ne; auto. }
    destruct (IH st1 Hc1 Hg1) as (st' & Hrun & Hcount & Htm & Hnone).
    { rewrite Ht1. destruct Hin as [Hin|Hin]; [contradiction|exact Hin]. }
    exists st'. rewrite Hrun. split; [reflexivity|]. split; [|split; [|exact Hnone]].
    + rewrite Hcount. f_equal.
      destruct (Voice.tracked st !! h) as [c'|] eqn:Hh; destruct Heff as [Hd _].
      * rewrite (teardowns_snoc c c' st st1 Hd).
        destruct (decide (c' = c)) as [->|_]; [|lia].
        destruct (tracked_live st Hc g c Hg) as (o & Ho & Hgo & _).
        destruct (tracked_live st Hc h c Hh) as (o' & Ho' & Hgo' & _).
        congruence.
      * unfold teardowns. rewrite Hd. reflexivity.
    + rewrite Htm, Ht1. reflexivity.
Qed.

(** C6. With a session for the guild, [disconnectFromChannel] called
    twice before the delay elapses returns both times, tears nothing down,
    and sets two timers behind those already pending.  When all pending
    timers have expired, [destroy] has been called on the session exactly
    once and the guild has no session: the callbacks after the first find
    none.  Neither the calls nor the callbacks throw. *)
Theorem disconnect_twice_destroys_once (st : Voice.state) (g : string) (c : nat) :
  reachable st ->
  Voice.getVoiceConnection g st = Some c ->
  exists st1 st2 st',
    Voice.disconnectFromChannel g st = (Ok tt, st1)
    /\ Voice.disconnectFromChannel g st1 = (Ok tt, st2)
    /\ Voice.timers st2 = Voice.timers st ++ [g; g]
    /\ Voice.destroyed st2 = Voice.destroyed st
    /\ expire (length (Voice.timers st2)) st2 = (Ok tt, st')
    /\ teardowns c st' = S (teardowns c st)
    /\ Voice.timers st' = []
    /\ Voice.getVoiceConnection g st' = None.
Proof.
  intros Hreach Hconn.
  pose proof (reachable_consistent st Hreach) as Hc. clear Hreach.
  unfold Voice.getVoiceConnection in Hconn.
  set (st1 := Voice.set_timers (Voice.timers st ++ [g]) st).
  set (st2 := Voice.set_timers (Voice.timers st1 ++ [g]) st1).
  assert (H1 : Voice.disconnectFromChannel g st = (Ok tt, st1)).
  { unfold Voice.disconnectFromChannel, bind, gets, modify, Voice.getVoiceConnection.
    rewrite Hconn. reflexivity. }
  assert (H2 : Voice.disconnectFromChannel g st1 = (Ok tt, st2)).
  { unfold Voice.disconnectFromChannel, bind, gets, modify, Voice.getVoiceConnection.
    simpl. rewrite Hconn. reflexivity. }
  assert (Ht2 : Voice.timers st2 = Voice.timers st ++ [g; g])
    by (simpl; rewrite <- app_assoc; reflexivity).
  assert (Hc2 : consistent st2)
    by (eapply consistent_same_sessions; [| |exact Hc]; reflexivity).
  destruct (expire_tracked g c (length (Voice.timers st2)) st2 Hc2 Hconn)
    as (st' & Hrun & Hcount & Htm & Hnone).
  { rewrite firstn_all, Ht2. apply in_or_app. right. left. reflexivity. }
  exists st1, st2, st'. repeat split; auto.
  rewrite Htm. apply drop_all.
Qed.

Lemma disconnect_twice_destroys_once_witness :
  let st := snd (Voice.connectToChannel true general Voice.initial) in
  exists st1 st2 st',
    Voice.disconnectFromChannel "g1" st = (Ok tt, st1)
    /\ Voice.disconnectFromChannel "g1" st1 = (Ok tt, st2)
    /\ Voice.timers st2 = Voice.timers st ++ ["g1"; "g1"]
    /\ Voice.destroyed st2 = Voice.destroyed st
    /\ expire (length (Voice.timers st2)) st2 = (Ok tt, st')
    /\ teardowns 0 st' = S (teardowns 0 st)
    /\ Voice.timers st' = []
    /\ Voice.getVoiceConnection "g1" st' = None.
Proof.
  intros st.
  apply (disconnect_twice_destroys_once st "g1" 0%nat).
  - apply reachable_step with Voice.initial; [apply reachable_initial|].
    apply step_connect.
  - vm_compute. reflexivity.
Defined.

(** The scenario of the specification, run: two timers, one teardown. *)
Example two_disconnects_run :
  let st := snd (Voice.connectToChannel true general Voice.initial) in
  let st2 := snd ((Voice.disconnectFromChannel "g1" ;;
                   Voice.disconnectFromChannel "g1") st) in
  let '(r, st') := expire 2 st2 in
  Voice.timers st2 = ["g1"; "g1"]
  /\ r = Ok tt
  /\ Voice.destroyed st' = [0%nat]
  /\ Voice.status <$> Voice.objects st' !! 0%nat = Some Voice.Destroyed
  /\ Voice.connections st' !! "g1" = None.
Proof. vm_compute. repeat split; reflexivity. Qed.

(** The delay of the timers when the environment sets none: five
    seconds. *)
Example default_disconnect_delay :
  Config.disconnectDelay (Config.voice sample_config) = 5.
Proof. reflexivity. Qed.

(** Without a session for the guild a disconnect sets no timer. *)
Example disconnect_without_session :
  Voice.disconnectFromChannel "g1" Voice.initial = (Ok tt, Voice.initial).
Proof. reflexivity. Qed.

(* ===================================================================== *)
(** ** The playback driver (player.js)                                   *)
(* ===================================================================== *)

Lemma registrations_app (f : Player.listener) (l1 l2 : list Player.registration) :
  registrations f (l1 ++ l2) = registrations f l1 ++ registrations f l2.
Proof. apply filter_app. Qed.

Lemma registrations_rev (f : Player.listener) (l : list Player.registration) :
  registrations f (rev l) = rev (registrations f l).
Proof.
  unfold registrations. induction l as [|r l IH]; [reflexivity|].
  simpl. rewrite filter_app, IH, !filter_cons, filter_nil.
  destruct (decide (Player.fn r = f)); simpl; [reflexivity|apply app_nil_r].
Qed.

Lemma registrations_remove_first_ne (f g : Player.listener) (l : list Player.registration) :
  f <> g -> registrations g (Player.remove_first f l) = registrations g l.
Proof.
  intros Hne. unfold registrations. induction l as [|r l IH]; [reflexivity|].
  simpl. destruct (decide (Player.fn r = f)) as [Hf|Hf].
  - rewrite filter_cons. destruct (decide (Player.fn r = g)); [congruence|reflexivity].
  - rewrite !filter_cons, IH. reflexivity.
Qed.

Lemma registrations_remove_first (f : Player.listener) (l : list Player.registration) :
  registrations f (Player.remove_first f l) = tail (registrations f l).
Proof.
  unfold registrations. induction l as [|r l IH]; [reflexivity|].
  simpl. destruct (decide (Player.fn r = f)) as [Hf|Hf].
  - rewrite filter_cons. destruct (decide (Player.fn r = f)); [reflexivity|contradiction].
  - rewrite !filter_cons. destruct (decide (Player.fn r = f)); [contradiction|exact IH].
Qed.

Lemma registrations_off_ne (f g : Player.listener) (l : list Player.registration) :
  f <> g -> registrations g (Player.off f l) = registrations g l.
Proof.
  intros Hne. unfold Player.off.
  rewrite registrations_rev, registrations_remove_first_ne, registrations_rev by auto.
  apply rev_involutive.
Qed.

(** [off] takes out the one entry of [f], if there is one. *)
Lemma registrations_off_single (f : Player.listener) (l : list Player.registration) :
  (length (registrations f l) <= 1)%nat -> registrations f (Player.off f l) = [].
Proof.
  intros Hlen. unfold Player.off.
  rewrite registrations_rev, registrations_remove_first, registrations_rev.
  destruct (registrations f l) as [|r [|r' rest]]; simpl in *; [reflexivity..|lia].
Qed.

Lemma registrations_remove_wrapper_ne (f g : Player.listener)
    (l : list Player.registration) :
  f <> g -> registrations g (Player.remove_wrapper f l) = registrations g l.
Proof.
  intros Hne. unfold registrations. induction l as [|r l IH]; [reflexivity|].
  simpl. destruct (decide (Player.fn r = f)) as [Hf|Hf].
  - destruct (Player.once r).
    + rewrite filter_cons. destruct (decide (Player.fn r = g)); [congruence|reflexivity].
    + rewrite !filter_cons, IH. reflexivity.
  - rewrite !filter_cons, IH. reflexivity.
Qed.

Lemma registrations_remove_wrapper_single (f : Player.listener)
    (l : list Player.registration) :
  registrations f l = [ {| Player.fn := f; Player.once := true |} ] ->
  registrations f (Player.remove_wrapper f l) = [].
Proof.
  unfold registrations. induction l as [|r l IH]; [discriminate|].
  simpl. rewrite filter_cons.
  destruct (decide (Player.fn r = f)) as [Hf|Hf].
  - intros [= -> Hrest]. simpl. exact Hrest.
  - intros H. rewrite filter_cons.
    destruct (decide (Player.fn r = f)); [contradiction|auto].
Qed.

Lemma Forall_remove_first (P : Player.registration -> Prop) (f : Player.listener)
    (l : list Player.registration) :
  Forall P l -> Forall P (Player.remove_first f l).
Proof.
  induction 1 as [|r l Hr Hl IH]; simpl; [constructor|].
  destruct (decide (Player.fn r = f)); auto.
Qed.

Lemma Forall_off (P : Player.registration -> Prop) (f : Player.listener)
    (l : list Player.registration) :
  Forall P l -> Forall P (Player.off f l).
Proof.
  intros H. unfold Player.off.
  apply Forall_rev, Forall_remove_first, Forall_rev, H.
Qed.

Lemma Forall_remove_wrapper (P : Player.registration -> Prop) (f : Player.listener)
    (l : list Player.registration) :
  Forall P l -> Forall P (Player.remove_wrapper f l).
Proof.
  induction 1 as [|r l Hr Hl IH]; simpl; [constructor|].
  destruct (decide (Player.fn r = f)); [destruct (Player.once r)|]; auto.
Qed.

Lemma settle_length (k : nat) (p : Player.promise) (st : Player.state) :
  length (Player.promises (Player.settle k p st)) = length (Player.promises st).
Proof.
  unfold Player.settle. destruct (Player.promises st !! k) as [[| |e]|]; simpl; auto.
  apply length_insert.
Qed.

Lemma settle_lists (k : nat) (p : Player.promise) (st : Player.state) :
  Player.on_idle (Player.settle k p st) = Player.on_idle st
  /\ Player.on_error (Player.settle k p st) = Player.on_error st.
Proof.
  unfold Player.settle. destruct (Player.promises st !! k) as [[| |e]|]; simpl; auto.
Qed.

Lemma settle_other (j k : nat) (p : Player.promise) (st : Player.state) :
  j <> k -> Player.promises (Player.settle j p st) !! k = Player.promises st !! k.
Proof.
  intros Hne. unfold Player.settle.
  destruct (Player.promises st !! j) as [[| |e]|]; simpl; auto.
  apply list_lookup_insert_ne. exact Hne.
Qed.

Lemma settle_pending (k : nat) (p : Player.promise) (st : Player.state) :
  Player.promises st !! k = Some Player.Pending ->
  Player.promises (Player.settle k p st) !! k = Some p.
Proof.
  intros H. unfold Player.settle. rewrite H. simpl.
  apply list_lookup_insert_eq. eapply lookup_lt_Some; eauto.
Qed.

(** The body of a foreign listener leaves the view of the call as it is. *)
Lemma call_foreign (k : nat) (f : Player.listener) (e : string) (st : Player.state) :
  f <> Player.OnIdle k -> f <> Player.OnError k ->
  view k (Player.call f e st) = view k st.
Proof.
  intros Hi He. unfold view.
  destruct f as [| | |j|j]; simpl; try reflexivity.
  - assert (j <> k) by congruence.
    destruct (settle_lists j Player.Resolved (Player.cleanup j st)) as [-> ->].
    rewrite settle_other by auto. simpl.
    rewrite !registrations_off_ne by congruence. reflexivity.
  - assert (j <> k) by congruence.
    destruct (settle_lists j (Player.Rejected e) (Player.cleanup j st)) as [-> ->].
    rewrite settle_other by auto. simpl.
    rewrite !registrations_off_ne by congruence. reflexivity.
Qed.

Lemma deliver_idle_foreign (k : nat) (e : string) (st : Player.state)
    (r : Player.registration) :
  foreign k r ->
  view k (Player.deliver (fun f s => Player.set_on_idle
                            (Player.remove_wrapper f (Player.on_idle s)) s) e st r)
  = view k st.
Proof.
  intros [Hi He]. unfold Player.deliver. rewrite call_foreign by auto.
  destruct (Player.once r); [|reflexivity].
  unfold view. simpl. rewrite registrations_remove_wrapper_ne by auto. reflexivity.
Qed.

Lemma deliver_error_foreign (k : nat) (e : string) (st : Player.state)
    (r : Player.registration) :
  foreign k r ->
  view k (Player.deliver (fun f s => Player.set_on_error
                            (Player.remove_wrapper f (Player.on_error s)) s) e st r)
  = view k st.
Proof.
  intros [Hi He]. unfold Player.deliver. rewrite call_foreign by auto.
  destruct (Player.once r); [|reflexivity].
  unfold view. simpl. rewrite registrations_remove_wrapper_ne by auto. reflexivity.
Qed.

Lemma fold_foreign (k : nat) (step : Player.state -> Player.registration -> Player.state)
    (l : list Player.registration) (st : Player.state) :
  (forall s r, foreign k r -> view k (step s r) = view k s) ->
  Forall (foreign k) l ->
  view k (fold_left step l st) = view k st.
Proof.
  intros Hstep Hl. revert st. induction Hl as [|r l Hr Hl IH]; intros st; simpl.
  - reflexivity.
  - rewrite IH. apply Hstep, Hr.
Qed.

(** The observer of an error of the [k]-th call, run while the call
    waits: the promise is rejected with the error and both observers are
    gone. *)
Lemma deliver_own_error (k : nat) (e : string) (st : Player.state) :
  awaiting k st ->
  let st' := Player.deliver (fun f s => Player.set_on_error
                               (Player.remove_wrapper f (Player.on_error s)) s) e st
               {| Player.fn := Player.OnError k; Player.once := true |} in
  Player.promises st' !! k = Some (Player.Rejected e) /\ detached k st'.
Proof.
  intros (Hp & Hi & He). unfold Player.deliver. simpl.
  destruct (settle_lists k (Player.Rejected e)
              (Player.cleanup k
                 (Player.set_on_error
                    (Player.remove_wrapper (Player.OnError k) (Player.on_error st)) st)))
    as [Hli Hle].
  split.
  - apply settle_pending. simpl. exact Hp.
  - unfold detached. rewrite Hli, Hle. simpl. split.
    + apply registrations_off_single. rewrite Hi. simpl. lia.
    + apply registrations_off_single.
      rewrite registrations_remove_wrapper_single by exact He. simpl. lia.
Qed.

Lemma deliver_own_idle (k : nat) (e : string) (st : Player.state) :
  awaiting k st ->
  let st' := Player.deliver (fun f s => Player.set_on_idle
                               (Player.remove_wrapper f (Player.on_idle s)) s) e st
               {| Player.fn := Player.OnIdle k; Player.once := true |} in
  Player.promises st' !! k = Some Player.Resolved /\ detached k st'.
Proof.
  intros (Hp & Hi & He). unfold Player.deliver. simpl.
  destruct (settle_lists k Player.Resolved
              (Player.cleanup k
                 (Player.set_on_idle
                    (Player.remove_wrapper (Player.OnIdle k) (Player.on_idle st)) st)))
    as [Hli Hle].
  split.
  - apply settle_pending. simpl. exact Hp.
  - unfold detached. rewrite Hli, Hle. simpl. split.
    + apply registrations_off_single.
      rewrite registrations_remove_wrapper_single by exact Hi. simpl. lia.
    + apply registrations_off_single. rewrite He. simpl. lia.
Qed.

Lemma idle_listener_foreign (n k : nat) (r : Player.registration) :
  (n <= k)%nat -> idle_listener n r -> foreign k r.
Proof.
  intros Hle [H|(j & Hj & H)]; split; rewrite H; try discriminate.
  intros [= ->]. lia.
Qed.

Lemma error_listener_foreign (n k : nat) (r : Player.registration) :
  (n <= k)%nat -> error_listener n r -> foreign k r.
Proof.
  intros Hle [H|(j & Hj & H)]; split; rewrite H; try discriminate.
  intros [= ->]. lia.
Qed.

Lemma registrations_foreign_idle (k : nat) (l : list Player.registration) :
  Forall (foreign k) l -> registrations (Player.OnIdle k) l = [].
Proof.
  induction 1 as [|r l [Hr _] _ IH]; [reflexivity|].
  unfold registrations in *. rewrite filter_cons.
  destruct (decide (Player.fn r = Player.OnIdle k)); [contradiction|exact IH].
Qed.

Lemma registrations_foreign_error (k : nat) (l : list Player.registration) :
  Forall (foreign k) l -> registrations (Player.OnError k) l = [].
Proof.
  induction 1 as [|r l [_ Hr] _ IH]; [reflexivity|].
  unfold registrations in *. rewrite filter_cons.
  destruct (decide (Player.fn r = Player.OnError k)); [contradiction|exact IH].
Qed.

(** Entries that are not of [f] when none of [f] is registered. *)
Lemma registrations_nil_Forall (f : Player.listener) (l : list Player.registration) :
  registrations f l = [] -> Forall (fun r => Player.fn r <> f) l.
Proof.
  unfold registrations. induction l as [|r l IH]; [constructor|].
  rewrite filter_cons. destruct (decide (Player.fn r = f)); [discriminate|].
  intros H. constructor; auto.
Qed.

Lemma idle_listener_mono (n m : nat) (r : Player.registration) :
  (n <= m)%nat -> idle_listener n r -> idle_listener m r.
Proof. intros Hle [H|(j & Hj & H)]; [left; auto|right; exists j; split; [lia|auto]]. Qed.

Lemma error_listener_mono (n m : nat) (r : Player.registration) :
  (n <= m)%nat -> error_listener n r -> error_listener m r.
Proof. intros Hle [H|(j & Hj & H)]; [left; auto|right; exists j; split; [lia|auto]]. Qed.

Lemma well_formed_initial : well_formed Player.initial.
Proof. split; constructor. Qed.

Lemma getPlayer_well_formed (st : Player.state) :
  well_formed st -> well_formed (Player.getPlayer st).
Proof.
  intros [Hi He]. unfold Player.getPlayer.
  destruct (Player.player st); [split; assumption|].
  split; simpl; apply Forall_app; split; auto; repeat constructor.
Qed.

Lemma getPlayer_promises (st : Player.state) :
  Player.promises (Player.getPlayer st) = Player.promises st.
Proof. unfold Player.getPlayer. destruct (Player.player st); reflexivity. Qed.

(** A call of [playFile] that returns a promise: the promise is the next
    one, it is pending, and the two observers of the call are the last
    entries of the two listener arrays. *)
Lemma playFile_Ok (cwd : string) (files : gmap string string) (fault : option string)
    (filePath : string) (connection : nat) (st st1 : Player.state) (k : nat) :
  well_formed st ->
  Player.playFile cwd files fault filePath connection st = (Ok k, st1) ->
  k = length (Player.promises st)
  /\ well_formed st1
  /\ awaiting k st1
  /\ (exists pre, Player.on_idle st1
                  = pre ++ [ {| Player.fn := Player.OnIdle k; Player.once := true |} ]
                  /\ Forall (foreign k) pre)
  /\ (exists pre, Player.on_error st1
                  = pre ++ [ {| Player.fn := Player.OnError k; Player.once := true |} ]
                  /\ Forall (foreign k) pre).
Proof.
  intros Hwf. unfold Player.playFile.
  destruct (negb _); [unfold throw; discriminate|].
  pose proof (getPlayer_well_formed st Hwf) as [Hi He].
  pose proof (getPlayer_promises st) as Hp. rewrite Hp in Hi, He.
  unfold try_catch, bind, modify, gets, ret, throw.
  destruct fault as [e|]; [discriminate|]. cbn.
  intros [= <- <-]. cbn. rewrite !Hp.
  assert (Hfi : Forall (foreign (length (Player.promises st)))
                  (Player.on_idle (Player.getPlayer st)))
    by (eapply Forall_impl; [exact Hi|]; intros r; apply idle_listener_foreign; lia).
  assert (Hfe : Forall (foreign (length (Player.promises st)))
                  (Player.on_error (Player.getPlayer st)))
    by (eapply Forall_impl; [exact He|]; intros r; apply error_listener_foreign; lia).
  split; [reflexivity|]. split; [|split; [|split]].
  - split; simpl; rewrite length_app; simpl; apply Forall_app; split.
    + eapply Forall_impl; [exact Hi|]. intros r. apply idle_listener_mono. lia.
    + constructor; [|constructor]. right. eexists. split; [|reflexivity]. lia.
    + eapply Forall_impl; [exact He|]. intros r. apply error_listener_mono. lia.
    + constructor; [|constructor]. right. eexists. split; [|reflexivity]. lia.
  - unfold awaiting. simpl. split; [|split].
    + rewrite lookup_app_r by lia. rewrite Nat.sub_diag. reflexivity.
    + rewrite registrations_app, registrations_foreign_idle by exact Hfi.
      unfold registrations. rewrite filter_cons.
      destruct (decide _) as [_|Hn]; [reflexivity|]. exfalso. apply Hn. reflexivity.
    + rewrite registrations_app, registrations_foreign_error by exact Hfe.
      unfold registrations. rewrite filter_cons.
      destruct (decide _) as [_|Hn]; [reflexivity|]. exfalso. apply Hn. reflexivity.
  - eexists. split; [reflexivity|exact Hfi].
  - eexists. split; [reflexivity|exact Hfe].
Qed.

Lemma call_well_formed (f : Player.listener) (e : string) (st : Player.state) :
  well_formed st -> well_formed (Player.call f e st).
Proof.
  intros [Hi He].
  assert (Hc : forall j, well_formed (Player.cleanup j st))
    by (intros j; split; simpl; [apply Forall_off, Hi|apply Forall_off, He]).
  assert (Hs : forall j p s, well_formed s -> well_formed (Player.settle j p s)).
  { intros j p s [Hsi Hse]. split.
    - rewrite settle_length, (proj1 (settle_lists j p s)). exact Hsi.
    - rewrite settle_length, (proj2 (settle_lists j p s)). exact Hse. }
  destruct f; simpl; auto; split; assumption.
Qed.

Lemma deliver_idle_well_formed (e : string) (st : Player.state) (r : Player.registration) :
  well_formed st ->
  well_formed (Player.deliver (fun f s => Player.set_on_idle
                                 (Player.remove_wrapper f (Player.on_idle s)) s) e st r).
Proof.
  intros [Hi He]. unfold Player.deliver. apply call_well_formed.
  destruct (Player.once r); split; simpl; auto. apply Forall_remove_wrapper, Hi.
Qed.

Lemma deliver_error_well_formed (e : string) (st : Player.state) (r : Player.registration) :
  well_formed st ->
  well_formed (Player.deliver (fun f s => Player.set_on_error
                                 (Player.remove_wrapper f (Player.on_error s)) s) e st r).
Proof.
  intros [Hi He]. unfold Player.deliver. apply call_well_formed.
  destruct (Player.once r); split; simpl; auto. apply Forall_remove_wrapper, He.
Qed.

Lemma fold_well_formed (step : Player.state -> Player.registration -> Player.state)
    (l : list Player.registration) (st : Player.state) :
  (forall s r, well_formed s -> well_formed (step s r)) ->
  well_formed st -> well_formed (fold_left step l st).
Proof.
  intros Hstep. revert st. induction l as [|r l IH]; intros st Hwf; simpl; auto.
Qed.

Lemma emit_idle_well_formed (st : Player.state) :
  well_formed st -> well_formed (Player.emit_idle st).
Proof.
  intros Hwf. unfold Player.emit_idle.
  apply fold_well_formed; [|exact Hwf]. intros s r. apply deliver_idle_well_formed.
Qed.

Lemma emit_error_well_formed (e : string) (st : Player.state) :
  well_formed st -> well_formed (Player.emit_error e st).
Proof.
  intros Hwf. unfold Player.emit_error.
  apply fold_well_formed; [|exact Hwf]. intros s r. apply deliver_error_well_formed.
Qed.

Lemma engine_reports_well_formed (r : Player.report) (st : Player.state) :
  well_formed st -> well_formed (Player.engine_reports r st).
Proof.
  intros Hwf. destruct r as [|e]; simpl.
  - apply emit_idle_well_formed, Hwf.
  - apply emit_idle_well_formed, emit_error_well_formed, Hwf.
Qed.

(** An emission of [Idle] while the call waits and its observer is the
    last entry. *)
Lemma emit_idle_awaiting (k : nat) (st : Player.state) (pre : list Player.registration) :
  awaiting k st ->
  Player.on_idle st = pre ++ [ {| Player.fn := Player.OnIdle k; Player.once := true |} ] ->
  Forall (foreign k) pre ->
  Player.promises (Player.emit_idle st) !! k = Some Player.Resolved
  /\ detached k (Player.emit_idle st).
Proof.
  intros Haw Hl Hpre. unfold Player.emit_idle. rewrite Hl, fold_left_app. simpl.
  apply deliver_own_idle.
  pose proof (fold_foreign k _ pre st
                (fun s r => deliver_idle_foreign k "" s r) Hpre) as Hv.
  unfold view in Hv. injection Hv as Hp Hi He.
  destruct Haw as (Hp0 & Hi0 & He0). unfold awaiting.
  rewrite Hp, Hi, He. auto.
Qed.

Lemma emit_error_awaiting (k : nat) (e : string) (st : Player.state)
    (pre : list Player.registration) :
  awaiting k st ->
  Player.on_error st = pre ++ [ {| Player.fn := Player.OnError k; Player.once := true |} ] ->
  Forall (foreign k) pre ->
  Player.promises (Player.emit_error e st) !! k = Some (Player.Rejected e)
  /\ detached k (Player.emit_error e st).
Proof.
  intros Haw Hl Hpre. unfold Player.emit_error. rewrite Hl, fold_left_app. simpl.
  apply deliver_own_error.
  pose proof (fold_foreign k _ pre st
                (fun s r => deliver_error_foreign k e s r) Hpre) as Hv.
  unfold view in Hv. injection Hv as Hp Hi He.
  destruct Haw as (Hp0 & Hi0 & He0). unfold awaiting.
  rewrite Hp, Hi, He. auto.
Qed.

(** Once the observers of a call are gone, no emission touches its
    promise, and they stay gone. *)
Lemma emit_idle_detached (k : nat) (st : Player.state) :
  well_formed st -> detached k st ->
  view k (Player.emit_idle st) = view k st.
Proof.
  intros [Hi _] [Hdi _]. unfold Player.emit_idle.
  apply fold_foreign; [intros s r; apply deliver_idle_foreign|].
  apply registrations_nil_Forall in Hdi.
  rewrite Forall_forall in Hi, Hdi. apply Forall_forall. intros r Hr. split.
  - apply Hdi, Hr.
  - destruct (Hi r Hr) as [H|(j & _ & H)]; rewrite H; discriminate.
Qed.

Lemma emit_error_detached (k : nat) (e : string) (st : Player.state) :
  well_formed st -> detached k st ->
  view k (Player.emit_error e st) = view k st.
Proof.
  intros [_ He] [_ Hde]. unfold Player.emit_error.
  apply fold_foreign; [intros s r; apply deliver_error_foreign|].
  apply registrations_nil_Forall in Hde.
  rewrite Forall_forall in He, Hde. apply Forall_forall. intros r Hr. split.
  - destruct (He r Hr) as [H|(j & _ & H)]; rewrite H; discriminate.
  - apply Hde, Hr.
Qed.

Lemma engine_reports_detached (k : nat) (r : Player.report) (st : Player.state) :
  well_formed st -> detached k st ->
  view k (Player.engine_reports r st) = view k st.
Proof.
  intros Hwf Hd. destruct r as [|e]; simpl.
  - apply emit_idle_detached; auto.
  - pose proof (emit_error_detached k e st Hwf Hd) as Hv.
    rewrite emit_idle_detached; [exact Hv|apply emit_error_well_formed, Hwf|].
    unfold view in Hv. injection Hv as _ Hi He.
    destruct Hd as [Hdi Hde]. split; congruence.
Qed.

(** What the engine reports for the resource of a waiting call settles
    the promise of that call accordingly and detaches its observers. *)
Lemma engine_reports_awaiting (k : nat) (r : Player.report) (st : Player.state)
    (pre_idle pre_error : list Player.registration) :
  well_formed st ->
  awaiting k st ->
  Player.on_idle st
  = pre_idle ++ [ {| Player.fn := Player.OnIdle k; Player.once := true |} ] ->
  Forall (foreign k) pre_idle ->
  Player.on_error st
  = pre_error ++ [ {| Player.fn := Player.OnError k; Player.once := true |} ] ->
  Forall (foreign k) pre_error ->
  Player.promises (Player.engine_reports r st) !! k = Some (settled r)
  /\ detached k (Player.engine_reports r st).
Proof.
  intros Hwf Haw Hli Hpi Hle Hpe. destruct r as [|e]; simpl.
  - eapply emit_idle_awaiting; eauto.
  - destruct (emit_error_awaiting k e st pre_error Haw Hle Hpe) as [Hp Hd].
    pose proof (emit_idle_detached k (Player.emit_error e st)
                  (emit_error_well_formed e st Hwf) Hd) as Hv.
    unfold view in Hv. injection Hv as Hvp Hvi Hve.
    rewrite Hvp. split; [exact Hp|].
    destruct Hd as [Hdi Hde]. split; congruence.
Qed.

Lemma getPlayer_view (j : nat) (st : Player.state) :
  view j (Player.getPlayer st) = view j st.
Proof.
  unfold Player.getPlayer. destruct (Player.player st); [reflexivity|].
  unfold view, registrations. simpl.
  rewrite !filter_app, !filter_cons, !filter_nil.
  destruct (decide _) as [H|_]; [discriminate|].
  destruct (decide _) as [H|_]; [discriminate|].
  rewrite !app_nil_r. reflexivity.
Qed.

(** A later call of [playFile] leaves the view of an earlier call as it
    is, whether it returns a promise or throws. *)
Lemma playFile_view (cwd : string) (files : gmap string string) (fault : option string)
    (filePath : string) (connection : nat) (st st1 : Player.state)
    (r : outcome nat) (j : nat) :
  (j < length (Player.promises st))%nat ->
  Player.playFile cwd files fault filePath connection st = (r, st1) ->
  view j st1 = view j st.
Proof.
  intros Hj. unfold Player.playFile.
  destruct (negb _); [unfold throw; intros [= <- <-]; reflexivity|].
  pose proof (getPlayer_view j st) as Hv.
  pose proof (getPlayer_promises st) as Hp.
  unfold try_catch, bind, modify, gets, ret, throw.
  destruct fault as [e|]; cbn; intros [= <- <-]; [exact Hv|].
  rewrite <- Hv. unfold view, registrations. simpl.
  rewrite !filter_app, !filter_cons, !filter_nil.
  destruct (decide _) as [H|_]; [injection H as H; rewrite Hp in H; lia|].
  destruct (decide _) as [H|_]; [injection H as H; rewrite Hp in H; lia|].
  rewrite !app_nil_r, lookup_app_l by (rewrite Hp; exact Hj). reflexivity.
Qed.

Lemma playFile_well_formed (cwd : string) (files : gmap string string) (fault : option string)
    (filePath : string) (connection : nat) (st : Player.state) :
  well_formed st ->
  well_formed (snd (Player.playFile cwd files fault filePath connection st)).
Proof.
  intros Hwf.
  destruct (Player.playFile cwd files fault filePath connection st) as [[k|e] st1] eqn:Hrun.
  - apply (playFile_Ok _ _ _ _ _ _ _ _ Hwf Hrun).
  - revert Hrun. unfold Player.playFile.
    destruct (negb _); [unfold throw; intros [= _ <-]; exact Hwf|].
    unfold try_catch, bind, modify, gets, ret, throw.
    destruct fault as [e'|]; cbn; [|discriminate].
    intros [= _ <-]. apply getPlayer_well_formed, Hwf.
Qed.

Lemma driver_reachable_well_formed (st : Player.state) :
  driver_reachable st -> well_formed st.
Proof.
  induction 1 as [|st st' _ IH Hstep]; [apply well_formed_initial|].
  destruct Hstep.
  - apply playFile_well_formed, IH.
  - apply engine_reports_well_formed, IH.
  - apply emit_idle_well_formed, IH.
  - apply emit_error_well_formed, IH.
Qed.

(** C9. In any state of the driver, let a call of [playFile] return its
    promise.  If the engine then emits an error, the promise is rejected
    with that error; on every completion, by an error or by reaching idle,
    the promise settles as the engine reported and both observers of the
    call, on [Idle] and on [error], are off the engine.  For a next call made after that, what the
    engine reports settles the promise of the next call, and the promise of
    the first call stays as it settled. *)
Theorem playFile_settles_and_detaches
    (cwd : string) (files : gmap string string) (fault : option string) (filePath : string)
    (connection : nat) (st st1 : Player.state) (k : nat) :
  driver_reachable st ->
  Player.playFile cwd files fault filePath connection st = (Ok k, st1) ->
  (forall e,
      Player.promises (Player.emit_error e st1) !! k = Some (Player.Rejected e)
      /\ detached k (Player.emit_error e st1)
      /\ Player.await k (Player.engine_reports (Player.Failed e) st1)
         = (Throw e, Player.engine_reports (Player.Failed e) st1))
  /\ Player.await k (Player.engine_reports Player.Finished st1)
     = (Ok tt, Player.engine_reports Player.Finished st1)
  /\ (forall r, detached k (Player.engine_reports r st1))
  /\ (forall r cwd' files' fault' filePath' connection' k' st3 r',
         Player.playFile cwd' files' fault' filePath' connection'
           (Player.engine_reports r st1) = (Ok k', st3) ->
         Player.promises (Player.engine_reports r' st3) !! k' = Some (settled r')
         /\ Player.promises (Player.engine_reports r' st3) !! k = Some (settled r)
         /\ detached k' (Player.engine_reports r' st3)
         /\ detached k (Player.engine_reports r' st3)).
Proof.
  intros Hreach Hplay.
  pose proof (driver_reachable_well_formed st Hreach) as Hwf.
  destruct (playFile_Ok _ _ _ _ _ _ _ _ Hwf Hplay)
    as (Hk & Hwf1 & Haw & (pi & Hli & Hpi) & (pe & Hle & Hpe)).
  assert (Hrep : forall r,
             Player.promises (Player.engine_reports r st1) !! k = Some (settled r)
             /\ detached k (Player.engine_reports r st1))
    by (intros r; eapply engine_reports_awaiting; eauto).
  split; [|split; [|split]].
  - intros e. destruct (emit_error_awaiting k e st1 pe Haw Hle Hpe) as [Hp Hd].
    split; [exact Hp|]. split; [exact Hd|].
    unfold Player.await. rewrite (proj1 (Hrep (Player.Failed e))). reflexivity.
  - unfold Player.await. rewrite (proj1 (Hrep Player.Finished)). reflexivity.
  - intros r. apply Hrep.
  - intros r cwd' files' fault' filePath' connection' k' st3 r' Hnext.
    pose proof (engine_reports_well_formed r st1 Hwf1) as Hwf2.
    destruct (Hrep r) as [Hp2 Hd2].
    destruct (playFile_Ok _ _ _ _ _ _ _ _ Hwf2 Hnext)
      as (Hk' & Hwf3 & Haw' & (pi' & Hli' & Hpi') & (pe' & Hle' & Hpe')).
    destruct (engine_reports_awaiting k' r' st3 pi' pe' Hwf3 Haw' Hli' Hpi' Hle' Hpe')
      as [Hp4 Hd4].
    assert (Hlt : (k < length (Player.promises (Player.engine_reports r st1)))%nat)
      by (eapply lookup_lt_Some; eauto).
    pose proof (playFile_view _ _ _ _ _ _ _ _ k Hlt Hnext) as Hv3.
    assert (Hd3 : detached k st3).
    { unfold view in Hv3. injection Hv3 as _ Hi He.
      destruct Hd2 as [Hdi Hde]. split; congruence. }
    pose proof (engine_reports_detached k r' st3 Hwf3 Hd3) as Hv4.
    unfold view in Hv3, Hv4. injection Hv3 as Hp3 _ _. injection Hv4 as Hp4' Hi4 He4.
    split; [exact Hp4|]. split; [rewrite Hp4', Hp3; exact Hp2|].
    split; [exact Hd4|]. destruct Hd3 as [Hdi Hde].
    split; [rewrite Hi4; exact Hdi|rewrite He4; exact Hde].
Qed.

Lemma playFile_settles_and_detaches_witness :
  let st1 := snd (Player.playFile sample_cwd sample_files None "./audio/culito.mp3" 0
                    Player.initial) in
  (forall e,
      Player.promises (Player.emit_error e st1) !! 0%nat = Some (Player.Rejected e)
      /\ detached 0 (Player.emit_error e st1)
      /\ Player.await 0 (Player.engine_reports (Player.Failed e) st1)
         = (Throw e, Player.engine_reports (Player.Failed e) st1))
  /\ Player.await 0 (Player.engine_reports Player.Finished st1)
     = (Ok tt, Player.engine_reports Player.Finished st1)
  /\ (forall r, detached 0 (Player.engine_reports r st1))
  /\ (forall r cwd' files' fault' filePath' connection' k' st3 r',
         Player.playFile cwd' files' fault' filePath' connection'
           (Player.engine_reports r st1) = (Ok k', st3) ->
         Player.promises (Player.engine_reports r' st3) !! k' = Some (settled r')
         /\ Player.promises (Player.engine_reports r' st3) !! 0%nat = Some (settled r)
         /\ detached k' (Player.engine_reports r' st3)
         /\ detached 0 (Player.engine_reports r' st3)).
Proof.
  intros st1.
  apply (playFile_settles_and_detaches sample_cwd sample_files None "./audio/culito.mp3" 0%nat
           Player.initial st1 0%nat).
  - apply driver_initial.
  - vm_compute. reflexivity.
Defined.

(** Two plays in a row, the first failing: the listener arrays are back
    to the two observers of the manager after each. *)
Example two_plays_in_a_row :
  let '(_, s1) := Player.playFile sample_cwd sample_files None "./audio/culito.mp3" 0
                    Player.initial in
  let s2 := Player.engine_reports (Player.Failed "decoder died") s1 in
  let '(_, s3) := Player.playFile sample_cwd sample_files None "./audio/shugo_1.mp3" 0 s2 in
  let s4 := Player.engine_reports Player.Finished s3 in
  Player.promises s4 = [Player.Rejected "decoder died"; Player.Resolved]
  /\ Player.on_idle s2 = [ {| Player.fn := Player.CleanupOnIdle; Player.once := false |} ]
  /\ Player.on_error s2 = [ {| Player.fn := Player.CleanupOnError; Player.once := false |} ]
  /\ Player.on_idle s4 = Player.on_idle s2
  /\ Player.on_error s4 = Player.on_error s2.
Proof. vm_compute. repeat split; reflexivity. Qed.

Example playFile_missing_file :
  Player.playFile sample_cwd sample_files None "./audio/nope.mp3" 0 Player.initial
  = (Throw "Audio file not found: /srv/bot/audio/nope.mp3", Player.initial).
Proof. vm_compute. reflexivity. Qed.

(** What [existsSync] finds: a file under each of its names, a directory,
    the working directory for the empty path; nothing under the name of a
    file that is not there. *)
Example playFile_finds_the_path :
  map (fun filePath =>
         fst (Player.playFile sample_cwd sample_files None filePath 0 Player.initial))
    [ "audio/culito.mp3"; "audio/culito.mp3/"; "/srv/bot/audio/culito.mp3"; "audio"; "";
      "/srv"; "audio/nope.mp3"; "/srv/other" ]
  = [ Ok 0%nat; Ok 0%nat; Ok 0%nat; Ok 0%nat; Ok 0%nat; Ok 0%nat;
      Throw "Audio file not found: /srv/bot/audio/nope.mp3";
      Throw "Audio file not found: /srv/other" ].
Proof. vm_compute. reflexivity. Qed.

(* ===================================================================== *)
(** ** The per-channel execution: cleanup on every exit (cron.js)        *)
(* ===================================================================== *)

#[local] Instance grows_by_refl (Q : Scheduler.call -> Prop) : Reflexive (grows_by Q).
Proof. intros w. exists []. split; [symmetry; apply app_nil_r|constructor]. Qed.

#[local] Instance grows_by_trans (Q : Scheduler.call -> Prop) : Transitive (grows_by Q).
Proof.
  intros w1 w2 w3 (n1 & H1 & Q1) (n2 & H2 & Q2).
  exists (n1 ++ n2). split.
  - rewrite H2, H1. symmetry. apply app_assoc.
  - apply Forall_app. auto.
Qed.

#[local] Instance quiet_step_refl : Reflexive quiet_step.
Proof. intros s. split; reflexivity. Qed.

#[local] Instance quiet_step_trans : Transitive quiet_step.
Proof.
  intros s1 s2 s3 [F1 G1] [F2 G2]. split; [congruence|]. etransitivity; eauto.
Qed.

Lemma grows_by_same_trace (Q : Scheduler.call -> Prop) (w w' : Scheduler.world) :
  Scheduler.trace w' = Scheduler.trace w -> grows_by Q w w'.
Proof. intros H. exists []. split; [rewrite H; symmetry; apply app_nil_r|constructor]. Qed.

Lemma record_grows (Q : Scheduler.call -> Prop) (c : Scheduler.call) :
  Q c -> preserves (grows_by Q) (Scheduler.record c).
Proof. intros Hc w. exists [c]. split; [reflexivity|repeat constructor; exact Hc]. Qed.

Lemma log_quiet (level message : string) :
  preserves (grows_by quiet) (Scheduler.log level message).
Proof. apply record_grows. exact I. Qed.

Lemma observe_grows (Q : Scheduler.call -> Prop) : preserves (grows_by Q) Scheduler.observe.
Proof. intros w. apply grows_by_same_trace. reflexivity. Qed.

Lemma recording_grows {A} (Q : Scheduler.call -> Prop) (entry : outcome A -> Scheduler.call)
    (m : M Scheduler.world A) :
  (forall r, Q (entry r)) ->
  preserves (grows_by Q) m ->
  preserves (grows_by Q) (Scheduler.recording entry m).
Proof.
  intros He Hm w. unfold Scheduler.recording. specialize (Hm w).
  destruct (m w) as [r w1]. simpl in *.
  etransitivity; [exact Hm|].
  exists [entry r]. split; [reflexivity|repeat constructor; apply He].
Qed.

Lemma fetch_quiet (E : Scheduler.env) (channelId : string) :
  preserves (grows_by quiet) (Scheduler.fetch E channelId).
Proof.
  unfold Scheduler.fetch.
  apply (preserves_bind (grows_by quiet)); [apply record_grows; exact I|intros _].
  apply (preserves_bind (grows_by quiet)); [apply observe_grows|intros n].
  destruct (Scheduler.directory E n channelId);
    [apply (preserves_throw (grows_by quiet))|apply (preserves_ret (grows_by quiet))..].
Qed.

Lemma isMaintenanceWindow_quiet (E : Scheduler.env) :
  preserves (grows_by quiet) (Scheduler._isMaintenanceWindow E).
Proof.
  unfold Scheduler._isMaintenanceWindow.
  apply (preserves_bind (grows_by quiet)); [apply observe_grows|intros n].
  apply (preserves_bind (grows_by quiet)); [|intros _; apply (preserves_ret (grows_by quiet))].
  destruct (Scheduler.inWindow _); [apply log_quiet|apply (preserves_ret (grows_by quiet))].
Qed.

Lemma hasUsersInChannel_quiet (E : Scheduler.env) (channelId : string) :
  preserves (grows_by quiet) (Scheduler._hasUsersInChannel E channelId).
Proof.
  unfold Scheduler._hasUsersInChannel.
  apply (preserves_try_catch (grows_by quiet)).
  - apply (preserves_bind (grows_by quiet)); [apply fetch_quiet|intros [c|]].
    + destruct (negb _); [apply (preserves_ret (grows_by quiet))|].
      apply (preserves_bind (grows_by quiet)); [apply log_quiet|intros _].
      apply (preserves_ret (grows_by quiet)).
    + apply (preserves_ret (grows_by quiet)).
  - intros e. apply (preserves_bind (grows_by quiet)); [apply log_quiet|intros _].
    apply (preserves_ret (grows_by quiet)).
Qed.

Lemma getVoiceChannel_quiet (E : Scheduler.env) (channelId : string) :
  preserves (grows_by quiet) (Scheduler._getVoiceChannel E channelId).
Proof.
  unfold Scheduler._getVoiceChannel.
  apply (preserves_try_catch (grows_by quiet)).
  - apply (preserves_bind (grows_by quiet)); [apply fetch_quiet|intros [c|]].
    + destruct (negb _); apply (preserves_ret (grows_by quiet)).
    + apply (preserves_ret (grows_by quiet)).
  - intros e. apply (preserves_bind (grows_by quiet)); [apply log_quiet|intros _].
    apply (preserves_ret (grows_by quiet)).
Qed.

Lemma zoom_grows {T A} (Q : Scheduler.call -> Prop) (get : Scheduler.world -> T)
    (set : T -> Scheduler.world -> Scheduler.world) (m : M T A) :
  (forall t w, Scheduler.trace (set t w) = Scheduler.trace w) ->
  preserves (grows_by Q) (zoom get set m).
Proof.
  intros H. apply preserves_zoom. intros t w. apply grows_by_same_trace, H.
Qed.

Lemma generate_quiet (E : Scheduler.env) (text : string) :
  preserves (grows_by quiet) (Scheduler.generate E text).
Proof.
  unfold Scheduler.generate. apply recording_grows; [intros r; exact I|].
  apply (preserves_bind (grows_by quiet)); [apply observe_grows|intros n].
  apply zoom_grows. reflexivity.
Qed.

Lemma playFile_quiet (E : Scheduler.env) (audioPath : option string) (connection : nat) :
  preserves (grows_by quiet) (Scheduler.playFile E audioPath connection).
Proof.
  unfold Scheduler.playFile. apply recording_grows; [intros r; exact I|].
  destruct audioPath as [p|]; [|apply (preserves_throw (grows_by quiet))].
  apply (preserves_bind (grows_by quiet)); [apply observe_grows|intros n].
  apply (preserves_bind (grows_by quiet)); [apply (preserves_gets (grows_by quiet))|intros f].
  apply (preserves_bind (grows_by quiet)); [apply zoom_grows; reflexivity|intros k].
  apply (preserves_bind (grows_by quiet)).
  - apply preserves_modify. intros w. apply grows_by_same_trace. reflexivity.
  - intros _. apply zoom_grows. reflexivity.
Qed.

Lemma audioPath_of_quiet (E : Scheduler.env) (event : Events.event) :
  preserves (grows_by quiet) (Scheduler.audioPath_of E event).
Proof.
  unfold Scheduler.audioPath_of. destruct (Events.type event).
  - apply (preserves_ret (grows_by quiet)).
  - apply (preserves_bind (grows_by quiet)); [apply observe_grows|intros n].
    apply (preserves_bind (grows_by quiet));
      [apply (preserves_of_outcome (grows_by quiet))|intros p].
    apply (preserves_bind (grows_by quiet)); [apply log_quiet|intros _].
    apply (preserves_ret (grows_by quiet)).
  - apply (preserves_bind (grows_by quiet)); [apply (preserves_gets (grows_by quiet))|].
    assert (Hgen : preserves (grows_by quiet)
                     (let* p' := Scheduler.generate E (Events.content event) in
                      ret (Some p'))).
    { apply (preserves_bind (grows_by quiet)); [apply generate_quiet|intros p].
      apply (preserves_ret (grows_by quiet)). }
    intros [p|]; [destruct (Js.truthy p)|]; auto.
    apply (preserves_ret (grows_by quiet)).
Qed.

Lemma in_world_quiet {A} (m : M Scheduler.world A) :
  preserves (grows_by quiet) m -> preserves quiet_step (Scheduler.in_world m).
Proof.
  intros Hm [f w]. unfold Scheduler.in_world, zoom. simpl. specialize (Hm w).
  destruct (m w) as [r w1]. split; [reflexivity|exact Hm].
Qed.

Lemma in_world_run {A} (m : M Scheduler.world A) (f : Scheduler.frame)
    (w : Scheduler.world) :
  Scheduler.in_world m (f, w) = (fst (m w), (f, snd (m w))).
Proof. unfold Scheduler.in_world, zoom. simpl. destruct (m w); reflexivity. Qed.

Lemma grows_by_nothing (w w' : Scheduler.world) :
  grows_by (fun _ => False) w w' -> Scheduler.trace w' = Scheduler.trace w.
Proof.
  intros (new & H & Hnone). destruct new as [|c new].
  - rewrite H. apply app_nil_r.
  - inversion Hnone; contradiction.
Qed.

(** [connectToChannel] enters one call in the trace: itself, with its
    result. *)
Lemma connectToChannel_trace (E : Scheduler.env) (channel : Discord.channel)
    (w : Scheduler.world) :
  Scheduler.trace (snd (Scheduler.connectToChannel E channel w))
  = Scheduler.trace w
    ++ [ Scheduler.ConnectToChannel (Discord.guild_id channel) (Discord.id channel)
           (fst (Scheduler.connectToChannel E channel w)) ].
Proof.
  unfold Scheduler.connectToChannel, Scheduler.recording.
  assert (Hin : preserves (grows_by (fun _ => False))
                  (let* n := Scheduler.observe in
                   zoom Scheduler.voice Scheduler.set_voice
                     (Voice.connectToChannel (Scheduler.transport_ready E n) channel))).
  { apply (preserves_bind (grows_by (fun _ => False))); [apply observe_grows|intros n].
    apply zoom_grows. reflexivity. }
  specialize (Hin w). apply grows_by_nothing in Hin.
  destruct (bind _ _ w) as [r w1]. simpl in *. rewrite Hin. reflexivity.
Qed.

(** [disconnectFromChannel] enters one call in the trace and returns. *)
Lemma disconnectFromChannel_trace (g : string) (w : Scheduler.world) :
  fst (Scheduler.disconnectFromChannel g w) = Ok tt
  /\ Scheduler.trace (snd (Scheduler.disconnectFromChannel g w))
     = Scheduler.trace w ++ [Scheduler.DisconnectFromChannel g].
Proof.
  unfold Scheduler.disconnectFromChannel, Scheduler.record, zoom,
    Voice.disconnectFromChannel, bind, gets, modify, ret. simpl.
  destruct (Voice.getVoiceConnection g (Scheduler.voice w)); simpl; auto.
Qed.

(** What follows the connection in the [try] block. *)
Lemma after_connect_quiet (E : Scheduler.env) (event : Events.event) (connection : nat) :
  preserves quiet_step
    (Scheduler.in_world (Scheduler._delay 500) ;;
     let* audioPath := Scheduler.in_world (Scheduler.audioPath_of E event) in
     Scheduler.in_world (Scheduler.playFile E audioPath connection) ;;
     Scheduler.in_world (Scheduler.log "info" "Event playback complete")).
Proof.
  apply (preserves_bind quiet_step);
    [apply in_world_quiet, record_grows; exact I|intros _].
  apply (preserves_bind quiet_step);
    [apply in_world_quiet, audioPath_of_quiet|intros p].
  apply (preserves_bind quiet_step);
    [apply in_world_quiet, playFile_quiet|intros _].
  apply in_world_quiet, log_quiet.
Qed.

(** The [try] block, from the two variables unset: either it ends with
    no connection assigned and only quiet calls made, or a session was
    obtained, both variables are assigned, and the other calls are quiet.
    It may end by an exception in both cases. *)
Lemma try_block_shape (E : Scheduler.env) (event : Events.event) (channelId : string)
    (w : Scheduler.world) :
  exists r f w',
    Scheduler.try_block E event channelId
      ({| Scheduler.connection := None; Scheduler.guildId := None |}, w)
    = (r, (f, w'))
    /\ ((Scheduler.connection f = None /\ grows_by quiet w w')
        \/ (exists g ch c before after,
               f = {| Scheduler.connection := Some c; Scheduler.guildId := Some g |}
               /\ Scheduler.trace w'
                  = Scheduler.trace w ++ before
                    ++ [Scheduler.ConnectToChannel g ch (Ok c)] ++ after
               /\ Forall quiet before /\ Forall quiet after)).
Proof.
  unfold Scheduler.try_block. unfold bind at 1. rewrite in_world_run.
  pose proof (getVoiceChannel_quiet E channelId w) as H1.
  destruct (Scheduler._getVoiceChannel E channelId w) as [[[channel|]|e] w1];
    simpl in H1 |- *.
  - unfold bind at 1, Scheduler.assign_guildId at 1, modify at 1. simpl.
    unfold bind at 1. rewrite in_world_run.
    pose proof (connectToChannel_trace E channel w1) as H2.
    destruct (Scheduler.connectToChannel E channel w1) as [[c|e] w2]; simpl in H2 |- *.
    + unfold bind at 1, Scheduler.assign_connection at 1, modify at 1. simpl.
      unfold bind at 1, gets at 1. simpl.
      pose proof (after_connect_quiet E event c
                    ({| Scheduler.connection := Some c;
                        Scheduler.guildId := Some (Discord.guild_id channel) |}, w2))
        as [Hf (after & H3 & Hq3)].
      destruct (bind _ _ _) as [r [f3 w3]]. simpl in Hf, H3.
      exists r, f3, w3. split; [reflexivity|]. right.
      destruct H1 as (before & H1 & Hq1).
      exists (Discord.guild_id channel), (Discord.id channel), c, before, after.
      split; [exact Hf|]. split; [|auto].
      rewrite H3, H2, H1, <- !app_assoc. reflexivity.
    + eexists _, _, _. split; [reflexivity|]. left. split; [reflexivity|].
      etransitivity; [exact H1|]. eexists. split; [exact H2|]. repeat constructor.
  - rewrite in_world_run. eexists _, _, _. split; [reflexivity|]. left.
    split; [reflexivity|]. etransitivity; [exact H1|]. apply log_quiet.
  - eexists _, _, _. split; [reflexivity|]. left. split; [reflexivity|exact H1].
Qed.

(** The [try], [catch] and [finally] blocks together return normally and
    make calls of the shape of an execution. *)
Lemma guarded_block_shape (E : Scheduler.env) (event : Events.event)
    (channelId : string) (w : Scheduler.world) :
  exists w' new,
    Scheduler.with_frame {| Scheduler.connection := None; Scheduler.guildId := None |}
      (try_finally
         (try_catch (Scheduler.try_block E event channelId) Scheduler.catch_block)
         Scheduler.finally_block) w
    = (Ok tt, w')
    /\ Scheduler.trace w' = Scheduler.trace w ++ new
    /\ execution_shape new.
Proof.
  destruct (try_block_shape E event channelId w) as (r & f & w1 & Htry & Hshape).
  (* the [catch] block turns an exception into a log line *)
  assert (Hcatch : exists w2 extra,
             try_catch (Scheduler.try_block E event channelId) Scheduler.catch_block
               ({| Scheduler.connection := None; Scheduler.guildId := None |}, w)
             = (Ok tt, (f, w2))
             /\ Scheduler.trace w2 = Scheduler.trace w1 ++ extra
             /\ Forall quiet extra).
  { unfold try_catch. rewrite Htry. destruct r as [[]|e].
    - exists w1, []. split; [reflexivity|]. split; [symmetry; apply app_nil_r|constructor].
    - unfold Scheduler.catch_block. rewrite in_world_run. simpl.
      eexists _, _. split; [reflexivity|]. split; [reflexivity|repeat constructor]. }
  destruct Hcatch as (w2 & extra & Hcatch & Hextra & Hq).
  unfold Scheduler.with_frame, try_finally. rewrite Hcatch.
  unfold Scheduler.finally_block, bind at 1, gets at 1. simpl.
  destruct Hshape as [[Hnone (new & Hnew & Hqn)]
                     |(g & ch & c & before & after & -> & Hnew & Hqb & Hqa)].
  - rewrite Hnone. simpl. exists w2, (new ++ extra). split; [reflexivity|]. split.
    + rewrite Hextra, Hnew, <- app_assoc. reflexivity.
    + apply shape_no_session, Forall_app. auto.
  - simpl. destruct (Js.truthy g) eqn:Hg.
    + rewrite in_world_run.
      destruct (disconnectFromChannel_trace g w2) as [Hr Ht].
      destruct (Scheduler.disconnectFromChannel g w2) as [rd w3]. simpl in Hr, Ht |- *.
      subst rd. exists w3, (before ++ [Scheduler.ConnectToChannel g ch (Ok c)]
                            ++ (after ++ extra)
                            ++ (if Js.truthy g then [Scheduler.DisconnectFromChannel g]
                                else [])).
      split; [reflexivity|]. split.
      * rewrite Ht, Hextra, Hnew, Hg, <- !app_assoc. reflexivity.
      * apply shape_session; [exact Hqb|apply Forall_app; auto].
    + exists w2, (before ++ [Scheduler.ConnectToChannel g ch (Ok c)]
                  ++ (after ++ extra)
                  ++ (if Js.truthy g then [Scheduler.DisconnectFromChannel g] else [])).
      split; [reflexivity|]. split.
      * rewrite Hextra, Hnew, Hg, <- !app_assoc, app_nil_r. reflexivity.
      * apply shape_session; [exact Hqb|apply Forall_app; auto].
Qed.

(** Every execution for a channel returns normally, and its calls have
    the shape of an execution. *)
Lemma execution_has_shape (E : Scheduler.env) (event : Events.event)
    (channelId : string) (w : Scheduler.world) :
  exists w' new,
    Scheduler._executeEventForChannel E event channelId w = (Ok tt, w')
    /\ Scheduler.trace w' = Scheduler.trace w ++ new
    /\ execution_shape new.
Proof.
  unfold Scheduler._executeEventForChannel. unfold bind at 1.
  pose proof (isMaintenanceWindow_quiet E w) as (n1 & H1 & Q1).
  assert (Hret : exists b, fst (Scheduler._isMaintenanceWindow E w) = Ok b).
  { unfold Scheduler._isMaintenanceWindow, Scheduler.observe, Scheduler.log,
      Scheduler.record, bind, gets, modify, ret. simpl.
    destruct (Scheduler.inWindow _); simpl; eauto. }
  destruct Hret as [b Hb].
  destruct (Scheduler._isMaintenanceWindow E w) as [rm w1]. simpl in H1, Hb. subst rm.
  destruct b.
  { eexists _, _. split; [reflexivity|]. simpl. split.
    - rewrite H1, <- app_assoc. reflexivity.
    - apply shape_no_session, Forall_app. split; [exact Q1|repeat constructor]. }
  unfold bind at 1.
  assert (Hgate : exists s w2 n2,
             (if match Events.requireUsers event with Some false => false | _ => true end
              then
                let* hasUsers := Scheduler._hasUsersInChannel E channelId in
                if negb hasUsers
                then Scheduler.log "info" "Skipping event - no users in channel" ;; ret true
                else ret false
              else ret false) w1 = (Ok s, w2)
             /\ Scheduler.trace w2 = Scheduler.trace w1 ++ n2 /\ Forall quiet n2).
  { destruct (match Events.requireUsers event with Some false => false | _ => true end).
    - unfold bind at 1.
      pose proof (hasUsersInChannel_quiet E channelId w1) as (n2 & H2 & Q2).
      assert (Hh : exists h, fst (Scheduler._hasUsersInChannel E channelId w1) = Ok h).
      { unfold Scheduler._hasUsersInChannel, try_catch.
        destruct (bind _ _ w1) as [[h|e] wx]; simpl; eauto. }
      destruct Hh as [h Hh].
      destruct (Scheduler._hasUsersInChannel E channelId w1) as [rh w2].
      simpl in H2, Hh. subst rh. destruct h; simpl.
      + exists false, w2, n2. auto.
      + eexists _, _, _. split; [reflexivity|]. simpl. split.
        * rewrite H2, <- app_assoc. reflexivity.
        * apply Forall_app. split; [exact Q2|repeat constructor].
    - exists false, w1, []. split; [reflexivity|].
      split; [symmetry; apply app_nil_r|constructor]. }
  destruct Hgate as (s & w2 & n2 & Hgate & H2 & Q2). rewrite Hgate.
  destruct s.
  { exists w2, (n1 ++ n2). split; [reflexivity|]. split.
    - rewrite H2, H1, <- app_assoc. reflexivity.
    - apply shape_no_session, Forall_app. auto. }
  unfold bind at 1, Scheduler.log at 1, Scheduler.record at 1, modify at 1.
  destruct (guarded_block_shape E event channelId
              (Scheduler.set_trace
                 (Scheduler.trace w2
                  ++ [Scheduler.Log "info" "Executing event for channel"]) w2))
    as (w3 & n3 & Hrun & H3 & S3).
  rewrite Hrun. exists w3.
  simpl in H3.
  assert (Hq : Forall quiet
                 (n1 ++ n2 ++ [Scheduler.Log "info" "Executing event for channel"]))
    by (apply Forall_app; split; [exact Q1|];
        apply Forall_app; split; [exact Q2|repeat constructor]).
  destruct S3 as [new Hn|before g ch c after Hb Ha].
  - exists ((n1 ++ n2 ++ [Scheduler.Log "info" "Executing event for channel"]) ++ new).
    split; [reflexivity|]. split.
    + rewrite H3, H2, H1, <- !app_assoc. reflexivity.
    + apply shape_no_session, Forall_app. auto.
  - exists (((n1 ++ n2 ++ [Scheduler.Log "info" "Executing event for channel"]) ++ before)
            ++ [Scheduler.ConnectToChannel g ch (Ok c)] ++ after
            ++ (if Js.truthy g then [Scheduler.DisconnectFromChannel g] else [])).
    split; [reflexivity|]. split.
    + rewrite H3, H2, H1, <- !app_assoc. reflexivity.
    + apply shape_session; [apply Forall_app; auto|exact Ha].
Qed.

Lemma quiet_no_session (l : list Scheduler.call) :
  Forall quiet l -> sessions_obtained l = [].
Proof.
  induction 1 as [|c l Hc _ IH]; [reflexivity|].
  destruct c as [| | g ch [s|e] | | | | | |]; simpl in *; auto. contradiction.
Qed.

Lemma quiet_no_request (l : list Scheduler.call) :
  Forall quiet l -> disconnect_requests l = [].
Proof.
  induction 1 as [|c l Hc _ IH]; [reflexivity|].
  destruct c; simpl in *; auto. contradiction.
Qed.

Lemma sessions_obtained_app (l1 l2 : list Scheduler.call) :
  sessions_obtained (l1 ++ l2) = sessions_obtained l1 ++ sessions_obtained l2.
Proof.
  induction l1 as [|c l1 IH]; [reflexivity|].
  destruct c as [| | g ch [s|e] | | | | | |]; simpl; rewrite ?IH; reflexivity.
Qed.

Lemma disconnect_requests_app (l1 l2 : list Scheduler.call) :
  disconnect_requests (l1 ++ l2) = disconnect_requests l1 ++ disconnect_requests l2.
Proof.
  induction l1 as [|c l1 IH]; [reflexivity|].
  destruct c; simpl; rewrite ?IH; reflexivity.
Qed.

Lemma truthy_nonempty (s : string) : s <> "" -> Js.truthy s = true.
Proof. intros H. unfold Js.truthy. destruct s; [contradiction|reflexivity]. Qed.

(** C2. Every execution for a channel returns normally.  If a session was
    obtained in it for a guild (a non-empty guild id), then that is the
    only session obtained, exactly one disconnect is requested, for that
    guild, and the request is the last call of the execution, whatever the
    resolution of the audio and the playback did in between.  If no session
    was obtained, no disconnect is requested. *)
Theorem disconnect_requested_on_every_exit
    (E : Scheduler.env) (event : Events.event) (channelId : string)
    (w : Scheduler.world) :
  exists w' new,
    Scheduler._executeEventForChannel E event channelId w = (Ok tt, w')
    /\ Scheduler.trace w' = Scheduler.trace w ++ new
    /\ (forall g c,
           In (g, c) (sessions_obtained new) -> g <> "" ->
           sessions_obtained new = [(g, c)]
           /\ disconnect_requests new = [g]
           /\ last new = Some (Scheduler.DisconnectFromChannel g))
    /\ (sessions_obtained new = [] -> disconnect_requests new = []).
Proof.
  destruct (execution_has_shape E event channelId w) as (w' & new & Hrun & Htrace & Hshape).
  exists w', new. split; [exact Hrun|]. split; [exact Htrace|].
  destruct Hshape as [new Hq|before g ch c after Hb Ha].
  - split.
    + intros g c Hin. rewrite (quiet_no_session new Hq) in Hin. destruct Hin.
    + intros _. apply quiet_no_request, Hq.
  - assert (Hs : sessions_obtained
                   (before ++ [Scheduler.ConnectToChannel g ch (Ok c)] ++ after
                    ++ (if Js.truthy g then [Scheduler.DisconnectFromChannel g] else []))
                 = [(g, c)]).
    { rewrite !sessions_obtained_app, (quiet_no_session before Hb),
        (quiet_no_session after Ha).
      destruct (Js.truthy g); reflexivity. }
    rewrite Hs. split.
    + intros g' c' [[= <- <-]|[]] Hne. rewrite (truthy_nonempty g Hne).
      split; [reflexivity|]. split.
      * rewrite !disconnect_requests_app, (quiet_no_request before Hb),
          (quiet_no_request after Ha). reflexivity.
      * rewrite !app_assoc. apply last_snoc.
    + discriminate.
Qed.

(** The exits of an execution, one by one, in an occupied channel:
    success; a file that is not there; an engine error; a rotation set that
    is not registered; a synthesis that fails. *)
Example exit_after_playback :
  let w' := snd (Scheduler._executeEventForChannel sample_env culito "c1"
                   (Scheduler.initial sample_files)) in
  Scheduler.trace w'
  = [ Scheduler.Fetch "c1"; Scheduler.Log "debug" "Channel user check";
      Scheduler.Log "info" "Executing event for channel"; Scheduler.Fetch "c1";
      Scheduler.ConnectToChannel "g1" "c1" (Ok 0%nat); Scheduler.Delay 500;
      Scheduler.PlayFile (Some "audio/culito.mp3") 0 (Ok tt);
      Scheduler.Log "info" "Event playback complete";
      Scheduler.DisconnectFromChannel "g1" ]
  /\ Voice.timers (Scheduler.voice w') = ["g1"].
Proof. vm_compute. split; reflexivity. Qed.

Example exit_on_missing_file :
  let w' := snd (Scheduler._executeEventForChannel sample_env culito "c1"
                   (Scheduler.initial ∅)) in
  sessions_obtained (Scheduler.trace w') = [("g1", 0%nat)]
  /\ last (Scheduler.trace w') = Some (Scheduler.DisconnectFromChannel "g1")
  /\ In (Scheduler.PlayFile (Some "audio/culito.mp3") 0
           (Throw "Audio file not found: /srv/bot/audio/culito.mp3"))
        (Scheduler.trace w').
Proof. vm_compute. repeat split; auto 10. Qed.

Example exit_on_engine_error :
  let w' := snd (Scheduler._executeEventForChannel
                   (sample_env_with wednesday_10_15 true (Player.Failed "decoder died"))
                   culito "c1" (Scheduler.initial sample_files)) in
  sessions_obtained (Scheduler.trace w') = [("g1", 0%nat)]
  /\ last (Scheduler.trace w') = Some (Scheduler.DisconnectFromChannel "g1")
  /\ In (Scheduler.PlayFile (Some "audio/culito.mp3") 0 (Throw "decoder died"))
        (Scheduler.trace w').
Proof. vm_compute. repeat split; auto 10. Qed.

Example exit_on_unknown_rotation_set :
  let w' := snd (Scheduler._executeEventForChannel sample_env unknown_set "c1"
                   (Scheduler.initial sample_files)) in
  Scheduler.trace w'
  = [ Scheduler.Fetch "c1"; Scheduler.Log "debug" "Channel user check";
      Scheduler.Log "info" "Executing event for channel"; Scheduler.Fetch "c1";
      Scheduler.ConnectToChannel "g1" "c1" (Ok 0%nat); Scheduler.Delay 500;
      Scheduler.Log "error" "Event execution failed";
      Scheduler.DisconnectFromChannel "g1" ].
Proof. vm_compute. reflexivity. Qed.

Example exit_on_failed_synthesis :
  let w' := snd (Scheduler._executeEventForChannel env_failing_synthesis spoken "c1"
                   (Scheduler.initial sample_files)) in
  Scheduler.trace w'
  = [ Scheduler.Fetch "c1"; Scheduler.Log "debug" "Channel user check";
      Scheduler.Log "info" "Executing event for channel"; Scheduler.Fetch "c1";
      Scheduler.ConnectToChannel "g1" "c1" (Ok 0%nat); Scheduler.Delay 500;
      Scheduler.Generate "hola" (Throw "service unavailable");
      Scheduler.Log "error" "Event execution failed";
      Scheduler.DisconnectFromChannel "g1" ].
Proof. vm_compute. reflexivity. Qed.

(** The exits without a session: the transport does not get ready; the
    channel is not found. *)
Example exit_on_connect_timeout :
  let w' := snd (Scheduler._executeEventForChannel
                   (sample_env_with wednesday_10_15 false Player.Finished)
                   culito "c1" (Scheduler.initial sample_files)) in
  Scheduler.trace w'
  = [ Scheduler.Fetch "c1"; Scheduler.Log "debug" "Channel user check";
      Scheduler.Log "info" "Executing event for channel"; Scheduler.Fetch "c1";
      Scheduler.ConnectToChannel "g1" "c1" (Throw "The operation was aborted");
      Scheduler.Log "error" "Event execution failed" ]
  /\ Voice.timers (Scheduler.voice w') = [].
Proof. vm_compute. split; reflexivity. Qed.

Example exit_on_unknown_channel :
  let w' := snd (Scheduler._executeEventForChannel sample_env unattended "c7"
                   (Scheduler.initial sample_files)) in
  Scheduler.trace w'
  = [ Scheduler.Log "info" "Executing event for channel"; Scheduler.Fetch "c7";
      Scheduler.Log "error" "Voice channel not found" ].
Proof. vm_compute. reflexivity. Qed.

(** The guard of the [finally] block reads the guild id as a condition:
    for the empty id, which Discord does not issue, no request is made. *)
Example guard_on_guild_id :
  let w' := snd (Scheduler._executeEventForChannel sample_env culito "c3"
                   (Scheduler.initial sample_files)) in
  sessions_obtained (Scheduler.trace w') = [("", 0%nat)]
  /\ disconnect_requests (Scheduler.trace w') = [].
Proof. vm_compute. split; reflexivity. Qed.
(* ===================================================================== *)
(** ** Paths and the files they name (Node's [path] and [fs])            *)
(* ===================================================================== *)

Lemma list_of_append (s1 s2 : string) :
  list_ascii_of_string (s1 +:+ s2) = list_ascii_of_string s1 ++ list_ascii_of_string s2.
Proof. induction s1 as [|a s1 IH]; simpl; [reflexivity|]. rewrite IH. reflexivity. Qed.

Lemma string_of_list_inj (l1 l2 : list ascii) :
  string_of_list_ascii l1 = string_of_list_ascii l2 -> l1 = l2.
Proof.
  intros H. rewrite <- (list_ascii_of_string_of_list_ascii l1),
    <- (list_ascii_of_string_of_list_ascii l2), H. reflexivity.
Qed.

Lemma append_assoc (a b c : string) : (a +:+ b) +:+ c = a +:+ (b +:+ c).
Proof.
  induction a as [|x a IH]; [reflexivity|].
  change (String x ((a +:+ b) +:+ c) = String x (a +:+ (b +:+ c))).
  f_equal. exact IH.
Qed.

Lemma path_split_plain (piece l : list ascii) :
  plain l -> Path.split_chars piece l = [piece ++ l].
Proof.
  revert piece. induction l as [|a l IH]; intros piece Hl; simpl.
  - rewrite app_nil_r. reflexivity.
  - destruct (Ascii.eqb a "/") eqn:Ha.
    + apply Ascii.eqb_eq in Ha. subst a. exfalso. apply Hl. left. reflexivity.
    + rewrite IH; [rewrite <- app_assoc; reflexivity|].
      intros Hin. apply Hl. right. exact Hin.
Qed.

Lemma path_split_app (piece l1 l2 : list ascii) :
  Path.split_chars piece (l1 ++ "/"%char :: l2)
  = Path.split_chars piece l1 ++ Path.split_chars [] l2.
Proof.
  revert piece. induction l1 as [|a l1 IH]; intros piece; simpl; [reflexivity|].
  destruct (Ascii.eqb a "/"); [rewrite IH; reflexivity|apply IH].
Qed.

Lemma concat_last (name : string) (ks : list string) :
  exists pre, String.concat "/" (ks ++ [name]) = pre +:+ name /\ opens pre.
Proof.
  induction ks as [|k ks IH].
  - exists "". split; [reflexivity|left; reflexivity].
  - destruct IH as (pre & Hpre & Hopens).
    exists (k +:+ "/" +:+ pre). split.
    + change ((k :: ks) ++ [name]) with (k :: (ks ++ [name])).
      destruct (ks ++ [name]) as [|y l] eqn:Hl; [destruct ks; discriminate|].
      change (String.concat "/" (k :: y :: l))
        with (k +:+ "/" +:+ String.concat "/" (y :: l)).
      rewrite Hpre, !append_assoc. reflexivity.
    + right. destruct Hopens as [->|[x ->]].
      * exists k. reflexivity.
      * exists (k +:+ "/" +:+ x). rewrite !append_assoc. reflexivity.
Qed.

Lemma split_chars_pieces_plain (piece l : list ascii) :
  plain piece -> Forall plain (Path.split_chars piece l).
Proof.
  revert piece. induction l as [|a l IH]; intros piece Hp; simpl.
  - constructor; [exact Hp|constructor].
  - destruct (Ascii.eqb a "/") eqn:Ha.
    + constructor; [exact Hp|]. apply IH. intros [].
    + apply IH. intros Hin. apply in_app_or in Hin. destruct Hin as [Hin|[Heq|[]]].
      * exact (Hp Hin).
      * rewrite Heq, Ascii.eqb_refl in Ha. discriminate.
Qed.

Lemma segments_plain (p : string) :
  Forall (fun seg => plain (list_ascii_of_string seg)) (Path.segments p).
Proof.
  unfold Path.segments. apply Forall_map.
  eapply Forall_impl; [apply split_chars_pieces_plain; intros []|].
  intros l Hl. simpl. rewrite list_ascii_of_string_of_list_ascii. exact Hl.
Qed.

(** From the root, what is kept of the segments of a path are names. *)
Lemma resolve_segments_names (segs kept : list string) :
  Forall segment_name kept ->
  Forall (fun seg => plain (list_ascii_of_string seg)) segs ->
  Forall segment_name (Path.resolve_segments false kept segs).
Proof.
  revert kept. induction segs as [|seg segs IH]; intros kept Hkept Hsegs; simpl.
  - apply Forall_rev. exact Hkept.
  - apply Forall_cons in Hsegs. destruct Hsegs as [Hseg Hsegs].
    destruct (String.eqb_spec seg "") as [->|H0]; simpl; [apply IH; assumption|].
    destruct (String.eqb_spec seg ".") as [->|H1]; simpl; [apply IH; assumption|].
    destruct (String.eqb_spec seg "..") as [->|H2].
    + destruct kept as [|top below]; [apply IH; assumption|].
      apply Forall_cons in Hkept. destruct Hkept as [Htop Hbelow].
      destruct (String.eqb top ".."); apply IH; auto.
    + apply IH; [|exact Hsegs]. constructor; [|exact Hkept].
      repeat split; assumption.
Qed.

(** Names are kept as they are. *)
Lemma resolve_segments_of_names (b : bool) (segs kept : list string) :
  Forall segment_name segs ->
  Path.resolve_segments b kept (segs ++ [""]) = rev kept ++ segs.
Proof.
  revert kept. induction segs as [|seg segs IH]; intros kept Hsegs; simpl.
  - rewrite app_nil_r. reflexivity.
  - apply Forall_cons in Hsegs. destruct Hsegs as [(_ & H0 & H1 & H2) Hsegs].
    apply String.eqb_neq in H0, H1, H2. rewrite H0, H1, H2. simpl.
    rewrite IH by exact Hsegs. simpl. rewrite <- app_assoc. reflexivity.
Qed.

(** The pieces of names put together with separators are the names. *)
Lemma split_concat_names (segs : list string) :
  Forall segment_name segs -> segs <> [] ->
  Path.split_chars [] (list_ascii_of_string (String.concat "/" segs))
  = map list_ascii_of_string segs.
Proof.
  induction segs as [|x segs IH]; intros Hsegs Hne; [contradiction|].
  apply Forall_cons in Hsegs. destruct Hsegs as [(Hx & _) Hsegs].
  destruct segs as [|y segs].
  - simpl. rewrite path_split_plain by exact Hx. reflexivity.
  - change (String.concat "/" (x :: y :: segs))
      with (x +:+ "/" +:+ String.concat "/" (y :: segs)).
    rewrite !list_of_append.
    change (list_ascii_of_string "/" ++ list_ascii_of_string (String.concat "/" (y :: segs)))
      with ("/"%char :: list_ascii_of_string (String.concat "/" (y :: segs))).
    rewrite path_split_app, (path_split_plain [] _ Hx), IH by (auto; discriminate).
    reflexivity.
Qed.

Lemma isAbsolute_append (a b : string) :
  a <> "" -> Path.isAbsolute (a +:+ b) = Path.isAbsolute a.
Proof. destruct a; [contradiction|reflexivity]. Qed.

Lemma isAbsolute_nonempty (a : string) : Path.isAbsolute a = true -> a <> "".
Proof. destruct a; [discriminate|discriminate]. Qed.

(** [path.resolve] from an absolute working directory: the root and
    names, with separators between them. *)
Lemma resolve_form (cwd p : string) :
  Path.isAbsolute cwd = true ->
  exists segs,
    Forall segment_name segs
    /\ Path.resolve cwd p = "/" +:+ String.concat "/" segs.
Proof.
  intros Hcwd. pose proof (isAbsolute_nonempty cwd Hcwd) as Hne.
  unfold Path.resolve.
  set (stage := if String.eqb p "" then "" else p +:+ "/").
  set (joined := if Path.isAbsolute p then stage
                 else if String.eqb cwd "" then stage else cwd +:+ "/" +:+ stage).
  assert (Habs : Path.isAbsolute joined = true).
  { unfold joined, stage. destruct (Path.isAbsolute p) eqn:Hp.
    - pose proof (isAbsolute_nonempty p Hp) as Hpne.
      apply String.eqb_neq in Hpne. rewrite Hpne.
      rewrite isAbsolute_append; [exact Hp|apply String.eqb_neq; exact Hpne].
    - apply String.eqb_neq in Hne. rewrite Hne.
      rewrite isAbsolute_append; [exact Hcwd|apply String.eqb_neq; exact Hne]. }
  rewrite Habs. simpl negb. cbv iota.
  exists (Path.resolve_segments false [] (Path.segments joined)).
  split; [|reflexivity].
  apply resolve_segments_names; [constructor|apply segments_plain].
Qed.

Lemma resolve_of_form (cwd : string) (segs : list string) :
  Forall segment_name segs ->
  Path.resolve cwd ("/" +:+ String.concat "/" segs) = "/" +:+ String.concat "/" segs.
Proof.
  intros Hsegs. unfold Path.resolve.
  change (String.eqb ("/" +:+ String.concat "/" segs) "") with false. cbv iota.
  change (Path.isAbsolute ("/" +:+ String.concat "/" segs)) with true. cbv iota.
  change (Path.isAbsolute (("/" +:+ String.concat "/" segs) +:+ "/")) with true.
  cbv iota. simpl negb. f_equal. f_equal.
  unfold Path.segments. rewrite !list_of_append.
  change (list_ascii_of_string "/") with ["/"%char]. simpl app.
  change (Path.split_chars [] ("/"%char :: ?l)) with ([] :: Path.split_chars [] l).
  destruct segs as [|x segs].
  - reflexivity.
  - rewrite path_split_app, split_concat_names by (auto; discriminate).
    change (Path.split_chars [] []) with [@nil ascii].
    change (map string_of_list_ascii
              ([] :: map list_ascii_of_string (x :: segs) ++ [[]]))
      with ("" :: map string_of_list_ascii
                    (map list_ascii_of_string (x :: segs) ++ [[]])).
    rewrite map_app, map_map.
    rewrite (map_ext _ (fun s => s)) by apply string_of_list_ascii_of_string.
    rewrite map_id.
    change (map string_of_list_ascii [[]]) with [""].
    change (Path.resolve_segments false [] ("" :: (x :: segs) ++ [""]))
      with (Path.resolve_segments false [] ((x :: segs) ++ [""])).
    rewrite resolve_segments_of_names by exact Hsegs. reflexivity.
Qed.

(** [path.resolve] does nothing to a path it has resolved. *)
Lemma resolve_idempotent (cwd p : string) :
  Path.isAbsolute cwd = true ->
  Path.resolve cwd (Path.resolve cwd p) = Path.resolve cwd p.
Proof.
  intros Hcwd. destruct (resolve_form cwd p Hcwd) as (segs & Hsegs & ->).
  apply resolve_of_form, Hsegs.
Qed.

Lemma endsWithSeparator_named (pre name : string) :
  plain (list_ascii_of_string name) -> name <> "" ->
  Path.endsWithSeparator (pre +:+ name) = false.
Proof.
  intros Hplain Hne. unfold Path.endsWithSeparator.
  rewrite list_of_append, rev_app_distr.
  destruct (rev (list_ascii_of_string name)) as [|a l] eqn:Hrev.
  - exfalso. apply Hne. rewrite <- (string_of_list_ascii_of_string name).
    rewrite <- (rev_involutive (list_ascii_of_string name)), Hrev. reflexivity.
  - simpl. apply Ascii.eqb_neq. intros ->. apply Hplain.
    apply in_rev. rewrite Hrev. left. reflexivity.
Qed.

(** A file of the store is found under the path that [path.resolve]
    makes of its name. *)
Lemma stored_file_exists (cwd : string) (files : gmap string string) (k : string) :
  Path.isAbsolute cwd = true ->
  is_Some (files !! k) ->
  Fs.existsSync cwd files (Path.resolve cwd k) = true.
Proof.
  intros Hcwd [v Hk].
  pose proof (resolve_idempotent cwd k Hcwd) as Hidem.
  destruct (resolve_form cwd k Hcwd) as (segs & Hsegs & Hform).
  unfold Fs.existsSync.
  assert (Hne : String.eqb (Path.resolve cwd k) "" = false).
  { rewrite Hform. reflexivity. }
  rewrite Hne.
  destruct segs as [|x segs] using rev_ind.
  - assert (Hroot : Fs.isDirectory cwd files (Path.resolve cwd k) = true).
    { unfold Fs.isDirectory. rewrite Hidem, Hform. reflexivity. }
    rewrite Hroot. reflexivity.
  - clear IHsegs. apply orb_true_iff. right. apply andb_true_iff. split.
    + apply negb_true_iff. rewrite Hform.
      apply Forall_app in Hsegs. destruct Hsegs as [_ Hx].
      apply Forall_cons in Hx. destruct Hx as [(Hplain & H0 & _) _].
      destruct (concat_last x segs) as (pre & -> & _).
      rewrite <- append_assoc. apply endsWithSeparator_named; assumption.
    + unfold Fs.isFile. apply existsb_exists. exists k. split.
      * apply in_map_iff. exists (k, v). split; [reflexivity|].
        apply list_elem_of_In, elem_of_map_to_list. exact Hk.
      * rewrite Hidem. apply String.eqb_refl.
Qed.

Lemma resolve_absolute (cwd p : string) :
  Path.isAbsolute cwd = true -> Path.isAbsolute (Path.resolve cwd p) = true.
Proof.
  intros Hcwd. destruct (resolve_form cwd p Hcwd) as (segs & _ & ->). reflexivity.
Qed.

(* ===================================================================== *)
(** * Further properties of the code                                     *)
(* ===================================================================== *)

(* ===================================================================== *)
(** ** The scheduler: registry of jobs (cron.js)                         *)
(* ===================================================================== *)

Lemma find_app_first {A} (f : A -> bool) (l1 l2 : list A) :
  find f (l1 ++ l2) = match find f l1 with Some x => Some x | None => find f l2 end.
Proof.
  induction l1 as [|x l1 IH]; simpl; [reflexivity|].
  destruct (f x); [reflexivity|exact IH].
Qed.

Lemma last_named_cons (n : string) (ev : Events.event) (l : list Events.event) :
  last_named n (ev :: l)
  = match last_named n l with
    | Some e => Some e
    | None => if String.eqb (Events.name ev) n then Some ev else None
    end.
Proof. unfold last_named. simpl. rewrite find_app_first. reflexivity. Qed.

Lemma schedules_app (l1 l2 : list Scheduler.call) :
  schedules (l1 ++ l2) = schedules l1 ++ schedules l2.
Proof.
  induction l1 as [|c l1 IH]; simpl; [reflexivity|].
  destruct c; simpl; rewrite IH; reflexivity.
Qed.

Lemma stops_app (l1 l2 : list Scheduler.call) :
  stops (l1 ++ l2) = stops l1 ++ stops l2.
Proof.
  induction l1 as [|c l1 IH]; simpl; [reflexivity|].
  destruct c; simpl; rewrite IH; reflexivity.
Qed.

Lemma generations_app (l1 l2 : list Scheduler.call) :
  generations (l1 ++ l2) = generations l1 ++ generations l2.
Proof.
  induction l1 as [|c l1 IH]; simpl; [reflexivity|].
  destruct c; simpl; rewrite IH; reflexivity.
Qed.

Lemma schedules_quiet (l : list Scheduler.call) :
  Forall not_a_schedule l -> schedules l = [].
Proof.
  induction 1 as [|c l Hc _ IH]; [reflexivity|].
  destruct c; simpl; auto; contradiction.
Qed.

Lemma for_each_returns {S A} (xs : list A) (body : A -> M S unit) (s : S) :
  (forall x s0, fst (body x s0) = Ok tt) ->
  fst (for_each xs body s) = Ok tt.
Proof.
  intros Hb. revert s. induction xs as [|x xs IH]; intros s; simpl; [reflexivity|].
  unfold bind. specialize (Hb x s).
  destruct (body x s) as [[[]|e] s1]; simpl in *; [apply IH|discriminate].
Qed.

(** What [scheduleEvent] does, case by case. *)
Lemma scheduleEvent_run (E : Scheduler.env) (ev : Events.event) (w : Scheduler.world) :
  Scheduler.scheduleEvent E ev w
  = if Scheduler.cron_validate E (Events.cron ev)
    then (Ok tt,
          Scheduler.set_trace
            (Scheduler.trace w
             ++ [ Scheduler.CronSchedule (Events.name ev);
                  Scheduler.Log "info" "Event scheduled" ])
            (Scheduler.set_scheduledJobs
               (<[Events.name ev := ev]> (Scheduler.scheduledJobs w)) w))
    else (Ok tt,
          Scheduler.set_trace
            (Scheduler.trace w ++ [Scheduler.Log "error" "Invalid cron expression"]) w).
Proof.
  unfold Scheduler.scheduleEvent.
  destruct (Scheduler.cron_validate E (Events.cron ev)); run_M; [|reflexivity].
  rewrite <- app_assoc. reflexivity.
Qed.

(** The loop of [initialize] over a list of events. *)
Lemma schedule_all_run (E : Scheduler.env) (l : list Events.event) (w : Scheduler.world) :
  exists w',
    for_each l (Scheduler.scheduleEvent E) w = (Ok tt, w')
    /\ (forall n,
          Scheduler.scheduledJobs w' !! n
          = match last_named n
                    (filter (fun e => Scheduler.cron_validate E (Events.cron e) = true) l)
            with
            | Some e => Some e
            | None => Scheduler.scheduledJobs w !! n
            end)
    /\ schedules (Scheduler.trace w')
       = schedules (Scheduler.trace w)
         ++ map Events.name
              (filter (fun e => Scheduler.cron_validate E (Events.cron e) = true) l)
    /\ Scheduler.pregeneratedAudio w' = Scheduler.pregeneratedAudio w
    /\ Scheduler.tts w' = Scheduler.tts w.
Proof.
  revert w. induction l as [|ev l IH]; intros w.
  - exists w. simpl. rewrite app_nil_r. auto.
  - simpl. unfold bind. rewrite scheduleEvent_run. rewrite filter_cons.
    destruct (Scheduler.cron_validate E (Events.cron ev)) eqn:Hv.
    + destruct (decide (true = true)) as [_|Hn]; [|contradiction].
      destruct (IH (Scheduler.set_trace
                      (Scheduler.trace w
                       ++ [ Scheduler.CronSchedule (Events.name ev);
                            Scheduler.Log "info" "Event scheduled" ])
                      (Scheduler.set_scheduledJobs
                         (<[Events.name ev := ev]> (Scheduler.scheduledJobs w)) w)))
        as (w' & Hrun & Hjobs & Htr & Hpre & Htts).
      exists w'. split; [exact Hrun|]. split; [|split; [|split]].
      * intros n. rewrite Hjobs, last_named_cons.
        destruct (last_named n _); [reflexivity|]. simpl.
        destruct (String.eqb_spec (Events.name ev) n) as [->|Hne].
        -- apply lookup_insert_eq.
        -- apply lookup_insert_ne. exact Hne.
      * rewrite Htr. simpl. rewrite schedules_app. simpl.
        rewrite <- app_assoc. reflexivity.
      * rewrite Hpre. reflexivity.
      * rewrite Htts. reflexivity.
    + destruct (decide (false = true)) as [Hn|_]; [discriminate|].
      destruct (IH (Scheduler.set_trace
                      (Scheduler.trace w
                       ++ [Scheduler.Log "error" "Invalid cron expression"]) w))
        as (w' & Hrun & Hjobs & Htr & Hpre & Htts).
      exists w'. split; [exact Hrun|]. split; [|split; [|split]].
      * intros n. rewrite Hjobs. reflexivity.
      * rewrite Htr. simpl. rewrite schedules_app. simpl.
        rewrite app_nil_r. reflexivity.
      * rewrite Hpre. reflexivity.
      * rewrite Htts. reflexivity.
Qed.

Lemma generate_grows (Q : Scheduler.call -> Prop) (E : Scheduler.env) (text : string) :
  (forall r, Q (Scheduler.Generate text r)) ->
  preserves (grows_by Q) (Scheduler.generate E text).
Proof.
  intros HQ. unfold Scheduler.generate. apply recording_grows; [exact HQ|].
  apply (preserves_bind (grows_by Q)); [apply observe_grows|intros n].
  apply zoom_grows. reflexivity.
Qed.

Lemma pregenerateTTS_grows (Q : Scheduler.call -> Prop) (E : Scheduler.env)
    (l : list Events.event) :
  (forall level message, Q (Scheduler.Log level message)) ->
  (forall text r, Q (Scheduler.Generate text r)) ->
  preserves (grows_by Q) (Scheduler._pregenerateTTS E l).
Proof.
  intros Hlog Hgen. unfold Scheduler._pregenerateTTS.
  destruct (Nat.eqb _ 0); [apply (preserves_ret (grows_by Q))|].
  apply (preserves_bind (grows_by Q)); [apply record_grows, Hlog|intros _].
  apply (preserves_for_each (grows_by Q)). intros ev.
  apply (preserves_try_catch (grows_by Q)).
  - apply (preserves_bind (grows_by Q)); [apply generate_grows, Hgen|intros p].
    apply (preserves_bind (grows_by Q)).
    + apply preserves_modify. intros w. apply grows_by_same_trace. reflexivity.
    + intros _. apply record_grows, Hlog.
  - intros e. apply record_grows, Hlog.
Qed.

(** Pre-generation returns normally whatever the synthesis service
    answers. *)
Lemma pregenerateTTS_returns (E : Scheduler.env) (l : list Events.event)
    (w : Scheduler.world) :
  fst (Scheduler._pregenerateTTS E l w) = Ok tt.
Proof.
  unfold Scheduler._pregenerateTTS.
  destruct (Nat.eqb _ 0); [reflexivity|].
  unfold bind at 1. simpl.
  apply for_each_returns. intros ev s0.
  unfold try_catch, bind.
  destruct (Scheduler.generate E (Events.content ev) s0) as [[p|e] s1]; reflexivity.
Qed.

(** [initialize], from any world. *)
Lemma initialize_run (E : Scheduler.env) (w : Scheduler.world) :
  exists w',
    Scheduler.initialize E w = (Ok tt, w')
    /\ (forall n,
          Scheduler.scheduledJobs w' !! n
          = match last_named n (scheduled_by E) with
            | Some e => Some e
            | None => Scheduler.scheduledJobs w !! n
            end)
    /\ schedules (Scheduler.trace w')
       = schedules (Scheduler.trace w) ++ map Events.name (scheduled_by E).
Proof.
  unfold Scheduler.initialize, scheduled_by.
  destruct (Nat.eqb_spec (length (Events.getEnabledEvents (Scheduler.events E))) 0)
    as [Hz|Hnz].
  - apply nil_length_inv in Hz. rewrite Hz. simpl.
    eexists. split; [reflexivity|]. simpl.
    rewrite schedules_app. simpl. rewrite !app_nil_r. auto.
  - unfold bind at 1. simpl. unfold bind at 1.
    set (w0 := Scheduler.set_trace _ w).
    pose proof (pregenerateTTS_returns E (Events.getEnabledEvents (Scheduler.events E)) w0)
      as Hret.
    pose proof (pregenerate_same_jobs E (Events.getEnabledEvents (Scheduler.events E)) w0)
      as Hjobs.
    pose proof (pregenerateTTS_grows not_a_schedule E
                  (Events.getEnabledEvents (Scheduler.events E))
                  (fun _ _ => I) (fun _ _ => I) w0) as (new & Htr & Hq).
    destruct (Scheduler._pregenerateTTS E _ w0) as [[[]|e] w1]; simpl in *;
      [|discriminate].
    destruct (schedule_all_run E (Events.getEnabledEvents (Scheduler.events E)) w1)
      as (w2 & Hrun & Hj2 & Ht2 & _).
    exists w2. split; [exact Hrun|]. split.
    + intros n. rewrite Hj2. rewrite Hjobs. reflexivity.
    + rewrite Ht2, Htr, !schedules_app, (schedules_quiet new Hq). simpl.
      rewrite !app_nil_r. reflexivity.
Qed.

(** X1. [initialize] returns normally whatever the synthesis service
    answers; it passes to [cron.schedule], once each and in the order of
    the table, the enabled events whose cron expression validates; and
    afterwards the registry holds, under each name, the last such event
    of that name, or what it held before when there is none. *)
Theorem initialize_registers_enabled_events (E : Scheduler.env) (w : Scheduler.world) :
  exists w',
    Scheduler.initialize E w = (Ok tt, w')
    /\ (forall n,
          Scheduler.scheduledJobs w' !! n
          = match last_named n (scheduled_by E) with
            | Some e => Some e
            | None => Scheduler.scheduledJobs w !! n
            end)
    /\ schedules (Scheduler.trace w')
       = schedules (Scheduler.trace w) ++ map Events.name (scheduled_by E).
Proof. exact (initialize_run E w). Qed.

(** The repository's table on a fresh scheduler: eight jobs, one under
    each name; and with no enabled event only a warning. *)
Example initialize_shipped_table :
  let w := snd (Scheduler.initialize sample_env (Scheduler.initial sample_files)) in
  schedules (Scheduler.trace w)
  = [ "Shugo 15 min"; "Shugo 10 min"; "Culito 3"; "Culito"; "Reset Diario";
      "Mantenimiento"; "Rift 5 min"; "Rift Spawn" ]
  /\ Scheduler.initialize
       (steady_env [boss_spawn] wednesday_10_15 true (fun _ => Ok "mp3") Player.Finished)
       (Scheduler.initial sample_files)
     = (Ok tt,
        Scheduler.set_trace
          [Scheduler.Log "warn" "No events enabled. Add events to src/scheduler/events.js"]
          (Scheduler.initial sample_files)).
Proof. vm_compute. split; reflexivity. Qed.

(** The loop of [stopAll] over the names of the jobs. *)
Lemma stop_each_run (names : list string) (w : Scheduler.world) :
  for_each names
    (fun name => Scheduler.record (Scheduler.JobStop name) ;;
                 Scheduler.log "debug" "Stopped scheduled job") w
  = (Ok tt,
     Scheduler.set_trace
       (Scheduler.trace w
        ++ flat_map (fun name => [ Scheduler.JobStop name;
                                   Scheduler.Log "debug" "Stopped scheduled job" ]) names)
       w).
Proof.
  revert w. induction names as [|n names IH]; intros w; simpl.
  - rewrite app_nil_r. destruct w; reflexivity.
  - run_M. rewrite IH. simpl. rewrite <- !app_assoc. reflexivity.
Qed.

Lemma stops_of_stop_lines (names : list string) :
  stops (flat_map (fun name => [ Scheduler.JobStop name;
                                 Scheduler.Log "debug" "Stopped scheduled job" ]) names)
  = names.
Proof. induction names as [|n names IH]; simpl; [reflexivity|]. rewrite IH. reflexivity. Qed.

Lemma map_is_fmap {A B} (f : A -> B) (l : list A) : map f l = f <$> l.
Proof. induction l as [|x l IH]; simpl; [reflexivity|]. rewrite IH. reflexivity. Qed.

(** [stopAll] empties the registry and touches nothing but the trace. *)
Lemma stopAll_stops_jobs (w : Scheduler.world) :
  exists w',
    Scheduler.stopAll w = (Ok tt, w')
    /\ Scheduler.scheduledJobs w' = ∅
    /\ Scheduler.voice w' = Scheduler.voice w
    /\ Scheduler.audio w' = Scheduler.audio w
    /\ Scheduler.trace w'
       = Scheduler.trace w
         ++ flat_map (fun name => [ Scheduler.JobStop name;
                                    Scheduler.Log "debug" "Stopped scheduled job" ])
              (map fst (map_to_list (Scheduler.scheduledJobs w))).
Proof.
  unfold Scheduler.stopAll. unfold bind at 1, gets at 1.
  unfold bind at 1. rewrite stop_each_run. unfold modify. simpl.
  eexists. split; [reflexivity|]. auto.
Qed.

(** X2. [stopAll] returns normally, stops every job of the registry
    exactly once, and leaves the registry empty; the rest of the world is
    as before, so a second [stopAll] stops nothing. *)
Theorem stopAll_stops_every_job_once (w : Scheduler.world) :
  exists w' names,
    Scheduler.stopAll w = (Ok tt, w')
    /\ Scheduler.scheduledJobs w' = ∅
    /\ stops (Scheduler.trace w') = stops (Scheduler.trace w) ++ names
    /\ NoDup names
    /\ (forall n, In n names <-> is_Some (Scheduler.scheduledJobs w !! n))
    /\ same_parts (Scheduler.set_scheduledJobs ∅ w) w'
    /\ stops (Scheduler.trace (snd (Scheduler.stopAll w'))) = stops (Scheduler.trace w').
Proof.
  exists (Scheduler.set_scheduledJobs ∅
            (Scheduler.set_trace
               (Scheduler.trace w
                ++ flat_map (fun name => [ Scheduler.JobStop name;
                                           Scheduler.Log "debug" "Stopped scheduled job" ])
                     (map fst (map_to_list (Scheduler.scheduledJobs w))))
               w)),
         (map fst (map_to_list (Scheduler.scheduledJobs w))).
  split; [|split; [|split; [|split; [|split; [|split]]]]].
  - unfold Scheduler.stopAll. unfold bind at 1, gets at 1.
    unfold bind at 1. rewrite stop_each_run. reflexivity.
  - reflexivity.
  - simpl. rewrite stops_app, stops_of_stop_lines. reflexivity.
  - rewrite map_is_fmap. apply NoDup_fst_map_to_list.
  - intros n. rewrite <- list_elem_of_In, map_is_fmap, list_elem_of_fmap. split.
    + intros ([k v] & -> & Hkv). apply elem_of_map_to_list in Hkv. simpl. eauto.
    + intros [v Hv]. exists (n, v). split; [reflexivity|].
      apply elem_of_map_to_list. exact Hv.
  - repeat split.
  - unfold Scheduler.stopAll. unfold bind at 1, gets at 1.
    unfold bind at 1. rewrite stop_each_run. simpl.
    rewrite map_to_list_empty. simpl. rewrite app_nil_r. reflexivity.
Qed.

(** X3. [triggerEvent] with a name that no event of the table carries
    logs one error and does nothing else: no channel is looked up and no
    execution is started. *)
Theorem trigger_of_unknown_name_only_logs
    (E : Scheduler.env) (eventName : string) (w : Scheduler.world) :
  (forall e, In e (Scheduler.events E) -> Events.name e <> eventName) ->
  Scheduler.triggerEvent E eventName w
  = (Ok tt,
     Scheduler.set_trace (Scheduler.trace w ++ [Scheduler.Log "error" "Event not found"]) w)
  /\ Events.getEventByName (Scheduler.events E) eventName = None.
Proof.
  intros Hnone.
  assert (Hfind : find (fun e => String.eqb (Events.name e) eventName) (Scheduler.events E)
                  = None).
  { destruct (find _ _) as [e|] eqn:Hf; [|reflexivity].
    apply find_some in Hf. destruct Hf as [Hin Heq].
    apply String.eqb_eq in Heq. destruct (Hnone e Hin Heq). }
  split; [|exact Hfind].
  unfold Scheduler.triggerEvent. rewrite Hfind. reflexivity.
Qed.

Lemma trigger_of_unknown_name_only_logs_witness :
  Scheduler.triggerEvent sample_env "Boss Spawn" (Scheduler.initial sample_files)
  = (Ok tt,
     Scheduler.set_trace
       (Scheduler.trace (Scheduler.initial sample_files)
        ++ [Scheduler.Log "error" "Event not found"])
       (Scheduler.initial sample_files))
  /\ Events.getEventByName (Scheduler.events sample_env) "Boss Spawn" = None.
Proof.
  apply (trigger_of_unknown_name_only_logs sample_env "Boss Spawn"
           (Scheduler.initial sample_files)).
  intros e He. simpl in He.
  repeat (destruct He as [<-|He]; [discriminate|]). destruct He.
Defined.

(* ===================================================================== *)
(** ** The scheduler: lookups in the directory (cron.js)                 *)
(* ===================================================================== *)

Lemma humans_present (c : Discord.channel) :
  Nat.ltb 0 (length (Scheduler.humanMembers c))
  = existsb (fun m => negb (Discord.bot m)) (Discord.members c).
Proof.
  unfold Scheduler.humanMembers.
  induction (Discord.members c) as [|m l IH]; [reflexivity|].
  rewrite filter_cons. simpl. destruct (Discord.bot m); simpl.
  - destruct (decide (true = false)) as [Hn|_]; [discriminate|]. exact IH.
  - destruct (decide (false = false)) as [_|Hn]; [reflexivity|contradiction].
Qed.

(** X4. Neither lookup of a channel throws.  [_hasUsersInChannel]
    answers true exactly when the directory yields a voice channel with at
    least one member that is not a bot, and [_getVoiceChannel] returns the
    channel exactly when the directory yields a voice channel; a rejected
    fetch, a null result and a channel that is not voice based all read as
    no users and no channel.  Both leave the voice manager, the player,
    the file store and the registry as they are. *)
Theorem channel_lookups_absorb_failure
    (E : Scheduler.env) (channelId : string) (w : Scheduler.world) :
  (exists w',
     Scheduler._hasUsersInChannel E channelId w
     = (Ok match Scheduler.directory E (Scheduler.observations w) channelId with
           | Discord.Found c =>
               Discord.isVoiceBased c
               && existsb (fun m => negb (Discord.bot m)) (Discord.members c)
           | _ => false
           end, w')
     /\ same_parts w w' /\ grows_by lookup_or_log w w')
  /\ (exists w',
        Scheduler._getVoiceChannel E channelId w
        = (Ok match Scheduler.directory E (Scheduler.observations w) channelId with
              | Discord.Found c => if Discord.isVoiceBased c then Some c else None
              | _ => None
              end, w')
        /\ same_parts w w' /\ grows_by lookup_or_log w w').
Proof.
  split.
  - unfold Scheduler._hasUsersInChannel, Scheduler.fetch. run_M.
    destruct (Scheduler.directory E (Scheduler.observations w) channelId) as [e| |c];
      simpl.
    + eexists. split; [reflexivity|]. split; [repeat split|].
      eexists. simpl. rewrite <- app_assoc. split; [reflexivity|repeat constructor].
    + eexists. split; [reflexivity|]. split; [repeat split|].
      eexists. simpl. split; [reflexivity|repeat constructor].
    + destruct (Discord.isVoiceBased c); simpl.
      * rewrite humans_present. eexists. split; [reflexivity|]. split; [repeat split|].
        eexists. simpl. rewrite <- app_assoc. split; [reflexivity|repeat constructor].
      * eexists. split; [reflexivity|]. split; [repeat split|].
        eexists. simpl. split; [reflexivity|repeat constructor].
  - unfold Scheduler._getVoiceChannel, Scheduler.fetch. run_M.
    destruct (Scheduler.directory E (Scheduler.observations w) channelId) as [e| |c];
      simpl.
    + eexists. split; [reflexivity|]. split; [repeat split|].
      eexists. simpl. rewrite <- app_assoc. split; [reflexivity|repeat constructor].
    + eexists. split; [reflexivity|]. split; [repeat split|].
      eexists. simpl. split; [reflexivity|repeat constructor].
    + destruct (Discord.isVoiceBased c); simpl.
      * eexists. split; [reflexivity|]. split; [repeat split|].
        eexists. simpl. split; [reflexivity|repeat constructor].
      * eexists. split; [reflexivity|]. split; [repeat split|].
        eexists. simpl. split; [reflexivity|repeat constructor].
Qed.

Example lookups_of_the_sample_directory :
  let rejecting := 
    {| Scheduler.cwd := sample_cwd;
       Scheduler.config := sample_config;
       Scheduler.events := [];
       Scheduler.audioSets := ∅;
       Scheduler.cron_validate := fun _ => true;
       Scheduler.clock := fun _ => wednesday_10_15;
       Scheduler.local_hour := fun _ => 10;
       Scheduler.directory := fun _ _ => Discord.Rejected "Missing Access";
       Scheduler.transport_ready := fun _ => true;
       Scheduler.synthesis := fun _ _ => Ok "mp3";
       Scheduler.resource_fault := fun _ => None;
       Scheduler.engine := fun _ => Player.Finished |} in
  let w := Scheduler.initial sample_files in
  fst (Scheduler._hasUsersInChannel sample_env "c1" w) = Ok true
  /\ fst (Scheduler._hasUsersInChannel sample_env "c2" w) = Ok false
  /\ fst (Scheduler._hasUsersInChannel sample_env "c7" w) = Ok false
  /\ fst (Scheduler._hasUsersInChannel rejecting "c1" w) = Ok false
  /\ Scheduler.trace (snd (Scheduler._getVoiceChannel rejecting "c1" w))
     = [Scheduler.Fetch "c1"; Scheduler.Log "error" "Failed to fetch voice channel"].
Proof. vm_compute. repeat split; reflexivity. Qed.

(* ===================================================================== *)
(** ** The scheduler: pre-generated speech (cron.js)                     *)
(* ===================================================================== *)

Lemma generate_keeps_files (cfg : Config.config) (svc : TTS.service) (text : string)
    (opts : TTS.options) (st : TTS.state) :
  keeps_files st (snd (TTS.generate cfg svc text opts st)).
Proof.
  intros p Hp. unfold TTS.generate.
  set (f := Path.join _ _).
  set (req := {| TTS.req_text := text; TTS.req_voice := _; TTS.req_rate := _;
                 TTS.req_pitch := _ |}).
  assert (Hmiss : is_Some
            (TTS.files
               (snd (try_catch
                       (modify (fun st0 => TTS.set_requests (TTS.requests st0 ++ [req]) st0) ;;
                        let* audio := (fun st0 => (svc req, st0)) in
                        modify (fun st0 => TTS.set_files (<[f := audio]> (TTS.files st0)) st0) ;;
                        ret f)
                       (fun error => throw error) st)) !! p)).
  { run_M. destruct (svc req) as [audio|e]; simpl; [|exact Hp].
    apply lookup_insert_is_Some'. right. exact Hp. }
  destruct (match TTS.useCache opts with Some false => false | _ => true end);
    [|exact Hmiss].
  unfold bind at 1, gets at 1.
  destruct (TTS.getCached cfg text _ st) as [c|]; [|exact Hmiss].
  destruct (Js.truthy c); [exact Hp|exact Hmiss].
Qed.

(** With a service that answers, [generate] returns. *)
Lemma generate_returns (cfg : Config.config) (svc : TTS.service) (text : string)
    (opts : TTS.options) (st : TTS.state) :
  (forall req, exists audio, svc req = Ok audio) ->
  exists file, fst (TTS.generate cfg svc text opts st) = Ok file.
Proof.
  intros Hsvc. unfold TTS.generate.
  set (f := Path.join _ _).
  set (req := {| TTS.req_text := text; TTS.req_voice := _; TTS.req_rate := _;
                 TTS.req_pitch := _ |}).
  assert (Hmiss : exists file,
            fst (try_catch
                   (modify (fun st0 => TTS.set_requests (TTS.requests st0 ++ [req]) st0) ;;
                    let* audio := (fun st0 => (svc req, st0)) in
                    modify (fun st0 => TTS.set_files (<[f := audio]> (TTS.files st0)) st0) ;;
                    ret f)
                   (fun error => throw error) st) = Ok file).
  { run_M. destruct (Hsvc req) as [audio ->]. simpl. eauto. }
  destruct (match TTS.useCache opts with Some false => false | _ => true end);
    [|exact Hmiss].
  unfold bind at 1, gets at 1.
  destruct (TTS.getCached cfg text _ st) as [c|]; [|exact Hmiss].
  destruct (Js.truthy c); [simpl; eauto|exact Hmiss].
Qed.

(** The call of [generate] by the scheduler, in terms of the generator. *)
Lemma scheduler_generate_run (E : Scheduler.env) (text : string) (w : Scheduler.world) :
  Scheduler.generate E text w
  = (fst (TTS.generate (Scheduler.config E)
            (Scheduler.synthesis E (Scheduler.observations w)) text TTS.no_options
            (Scheduler.tts w)),
     Scheduler.set_trace
       (Scheduler.trace w
        ++ [Scheduler.Generate text
              (fst (TTS.generate (Scheduler.config E)
                      (Scheduler.synthesis E (Scheduler.observations w)) text
                      TTS.no_options (Scheduler.tts w)))])
       (Scheduler.set_tts
          (snd (TTS.generate (Scheduler.config E)
                  (Scheduler.synthesis E (Scheduler.observations w)) text TTS.no_options
                  (Scheduler.tts w)))
          (Scheduler.set_observations (S (Scheduler.observations w)) w))).
Proof.
  unfold Scheduler.generate. run_M.
  destruct (TTS.generate _ _ text TTS.no_options (Scheduler.tts w)); reflexivity.
Qed.

(** The loop of [_pregenerateTTS]: every event is tried once, a failure
    is logged and the loop goes on. *)
Lemma pregenerate_loop (E : Scheduler.env) (evs : list Events.event)
    (w : Scheduler.world) :
  pregenerated_present w ->
  exists w',
    for_each evs
      (fun event =>
         try_catch
           (let* audioPath := Scheduler.generate E (Events.content event) in
            modify (fun w => Scheduler.set_pregeneratedAudio
                      (<[Events.name event := audioPath]> (Scheduler.pregeneratedAudio w)) w) ;;
            Scheduler.log "debug" "Pre-generated TTS for event")
           (fun error => Scheduler.log "error" "Failed to pre-generate TTS")) w
    = (Ok tt, w')
    /\ pregenerated_present w'
    /\ keeps_files (Scheduler.tts w) (Scheduler.tts w')
    /\ Scheduler.voice w' = Scheduler.voice w
    /\ Scheduler.audio w' = Scheduler.audio w
    /\ Scheduler.scheduledJobs w' = Scheduler.scheduledJobs w
    /\ generations (Scheduler.trace w')
       = generations (Scheduler.trace w) ++ map Events.content evs.
Proof.
  revert w. induction evs as [|ev evs IH]; intros w Hinv.
  - exists w. simpl. rewrite app_nil_r. repeat split; auto. intros p Hp. exact Hp.
  - simpl. unfold bind at 1. unfold try_catch at 1. unfold bind at 1.
    rewrite scheduler_generate_run.
    pose proof (generate_keeps_files (Scheduler.config E)
                  (Scheduler.synthesis E (Scheduler.observations w)) (Events.content ev)
                  TTS.no_options (Scheduler.tts w)) as Hkeep.
    destruct (TTS.generate (Scheduler.config E)
                (Scheduler.synthesis E (Scheduler.observations w)) (Events.content ev)
                TTS.no_options (Scheduler.tts w)) as [[p|e] t] eqn:Hgen;
      cbn [fst snd] in *.
    + apply generate_Ok in Hgen. destruct Hgen as [_ Hp].
      run_M.
      match goal with
      | |- exists w', for_each _ _ ?w1 = _ /\ _ => destruct (IH w1) as (w' & Hrun & H)
      end.
      { intros n q. simpl.
        destruct (decide (Events.name ev = n)) as [<-|Hne].
        - rewrite lookup_insert_eq. intros [= <-]. exact Hp.
        - rewrite lookup_insert_ne by exact Hne. intros Hq. apply Hkeep, (Hinv n q Hq). }
      destruct H as (Hinv' & Hk' & Hv & Ha & Hj & Hg).
      exists w'. split; [exact Hrun|]. simpl in *.
      split; [exact Hinv'|]. split; [intros q Hq; apply Hk', Hkeep, Hq|].
      split; [exact Hv|]. split; [exact Ha|]. split; [exact Hj|].
      rewrite Hg, !generations_app. simpl. rewrite <- !app_assoc. reflexivity.
    + run_M.
      match goal with
      | |- exists w', for_each _ _ ?w1 = _ /\ _ => destruct (IH w1) as (w' & Hrun & H)
      end.
      { intros n q Hq. simpl in *. apply Hkeep, (Hinv n q Hq). }
      destruct H as (Hinv' & Hk' & Hv & Ha & Hj & Hg).
      exists w'. split; [exact Hrun|]. simpl in *.
      split; [exact Hinv'|]. split; [intros q Hq; apply Hk', Hkeep, Hq|].
      split; [exact Hv|]. split; [exact Ha|]. split; [exact Hj|].
      rewrite Hg, !generations_app. simpl. rewrite <- !app_assoc. reflexivity.
Qed.

(** X5. Pre-generation returns normally whatever the synthesis service
    answers: [generate] is called once for each spoken event of the list,
    in order, a failure for one event not stopping the others; every
    entry of [pregeneratedAudio] names a file of the store afterwards if
    it did before; no file is removed, and the voice manager, the player
    and the registry are untouched. *)
Theorem pregeneration_tries_every_spoken_event
    (E : Scheduler.env) (l : list Events.event) (w : Scheduler.world) :
  pregenerated_present w ->
  exists w',
    Scheduler._pregenerateTTS E l w = (Ok tt, w')
    /\ generations (Scheduler.trace w')
       = generations (Scheduler.trace w) ++ map Events.content (spoken_events l)
    /\ pregenerated_present w'
    /\ keeps_files (Scheduler.tts w) (Scheduler.tts w')
    /\ Scheduler.voice w' = Scheduler.voice w
    /\ Scheduler.audio w' = Scheduler.audio w
    /\ Scheduler.scheduledJobs w' = Scheduler.scheduledJobs w.
Proof.
  intros Hinv. unfold Scheduler._pregenerateTTS. fold (spoken_events l).
  destruct (Nat.eqb_spec (length (spoken_events l)) 0) as [Hz|Hnz].
  - apply nil_length_inv in Hz. rewrite Hz. exists w. simpl. rewrite app_nil_r.
    repeat split; auto. intros p Hp. exact Hp.
  - unfold bind at 1. simpl.
    destruct (pregenerate_loop E (spoken_events l)
                (Scheduler.set_trace
                   (Scheduler.trace w ++ [Scheduler.Log "info" "Pre-generating TTS audio"])
                   w) Hinv)
      as (w' & Hrun & Hinv' & Hk & Hv & Ha & Hj & Hg).
    exists w'. split; [exact Hrun|]. simpl in *.
    rewrite Hg, generations_app. simpl. rewrite app_nil_r. auto 10.
Qed.

Lemma pregeneration_tries_every_spoken_event_witness :
  exists w',
    Scheduler._pregenerateTTS env_failing_synthesis [spoken; culito; spoken]
      (Scheduler.initial sample_files) = (Ok tt, w')
    /\ generations (Scheduler.trace w')
       = generations (Scheduler.trace (Scheduler.initial sample_files))
         ++ map Events.content (spoken_events [spoken; culito; spoken])
    /\ pregenerated_present w'
    /\ keeps_files (Scheduler.tts (Scheduler.initial sample_files)) (Scheduler.tts w')
    /\ Scheduler.voice w' = Scheduler.voice (Scheduler.initial sample_files)
    /\ Scheduler.audio w' = Scheduler.audio (Scheduler.initial sample_files)
    /\ Scheduler.scheduledJobs w'
       = Scheduler.scheduledJobs (Scheduler.initial sample_files).
Proof.
  apply (pregeneration_tries_every_spoken_event env_failing_synthesis
           [spoken; culito; spoken] (Scheduler.initial sample_files)).
  intros n p Hp. simpl in Hp. rewrite lookup_empty in Hp. discriminate.
Defined.

(** With a service that answers, [generate] for a text, as the scheduler
    calls it, returns the cache file of the text. *)
Lemma generate_returns_cache_file (cfg : Config.config) (svc : TTS.service)
    (text : string) (st : TTS.state) :
  (forall req, exists audio, svc req = Ok audio) ->
  fst (TTS.generate cfg svc text TTS.no_options st) = Ok (cache_file cfg text).
Proof.
  intros Hsvc.
  destruct (generate_returns cfg svc text TTS.no_options st Hsvc) as [file Hfile].
  destruct (TTS.generate cfg svc text TTS.no_options st) as [r st1] eqn:Hgen.
  simpl in Hfile. subst r. apply generate_Ok in Hgen. destruct Hgen as [-> _].
  reflexivity.
Qed.

Lemma pregenerate_loop_entries (E : Scheduler.env) (evs : list Events.event)
    (w : Scheduler.world) :
  (forall n req, exists audio, Scheduler.synthesis E n req = Ok audio) ->
  forall name,
    Scheduler.pregeneratedAudio
      (snd (for_each evs
              (fun event =>
                 try_catch
                   (let* audioPath := Scheduler.generate E (Events.content event) in
                    modify (fun w => Scheduler.set_pregeneratedAudio
                              (<[Events.name event := audioPath]>
                                 (Scheduler.pregeneratedAudio w)) w) ;;
                    Scheduler.log "debug" "Pre-generated TTS for event")
                   (fun error => Scheduler.log "error" "Failed to pre-generate TTS")) w))
      !! name
    = match last_named name evs with
      | Some ev => Some (cache_file (Scheduler.config E) (Events.content ev))
      | None => Scheduler.pregeneratedAudio w !! name
      end.
Proof.
  intros Hsvc name. revert w. induction evs as [|ev evs IH]; intros w; [reflexivity|].
  simpl. unfold bind at 1. unfold try_catch at 1. unfold bind at 1.
  rewrite scheduler_generate_run.
  rewrite (generate_returns_cache_file (Scheduler.config E)
             (Scheduler.synthesis E (Scheduler.observations w)) (Events.content ev)
             (Scheduler.tts w) (Hsvc _)).
  run_M. rewrite IH, last_named_cons. simpl.
  destruct (last_named name evs); [reflexivity|].
  destruct (String.eqb_spec (Events.name ev) name) as [->|Hne].
  - apply lookup_insert_eq.
  - apply lookup_insert_ne. exact Hne.
Qed.

Lemma last_named_unique (l : list Events.event) (e : Events.event) :
  In e l ->
  NoDup (map Events.name l) ->
  last_named (Events.name e) l = Some e.
Proof.
  intros Hin Hnd. unfold last_named. apply find_by_unique_name.
  - apply in_rev. rewrite rev_involutive. exact Hin.
  - rewrite map_rev. apply NoDup_ListNoDup, List.NoDup_rev, NoDup_ListNoDup, Hnd.
Qed.

(** X6. With a synthesis service that answers, after [_pregenerateTTS]
    on a list whose spoken events carry distinct names, each spoken event
    of the list has its cache file entered under its name and present in
    the store, and the choice of the audio file at execution time returns
    that file without calling [generate]: the world, the trace included,
    is left as it is. *)
Theorem pregenerated_event_needs_no_synthesis
    (E : Scheduler.env) (l : list Events.event) (e : Events.event)
    (w : Scheduler.world) :
  (forall n req, exists audio, Scheduler.synthesis E n req = Ok audio) ->
  NoDup (map Events.name (spoken_events l)) ->
  In e l ->
  Events.type e = Events.TTS ->
  let w1 := snd (Scheduler._pregenerateTTS E l w) in
  Scheduler.pregeneratedAudio w1 !! Events.name e
  = Some (cache_file (Scheduler.config E) (Events.content e))
  /\ Scheduler.audioPath_of E e w1
     = (Ok (Some (cache_file (Scheduler.config E) (Events.content e))), w1).
Proof.
  intros Hsvc Hnd Hin Htype w1.
  assert (Hspoken : In e (spoken_events l)).
  { unfold spoken_events. apply list_elem_of_In, list_elem_of_filter.
    split; [exact Htype|apply list_elem_of_In, Hin]. }
  assert (Hentry : Scheduler.pregeneratedAudio w1 !! Events.name e
                   = Some (cache_file (Scheduler.config E) (Events.content e))).
  { subst w1. unfold Scheduler._pregenerateTTS. fold (spoken_events l).
    destruct (Nat.eqb_spec (length (spoken_events l)) 0) as [Hz|Hnz].
    - apply nil_length_inv in Hz. rewrite Hz in Hspoken. destruct Hspoken.
    - unfold bind at 1. simpl.
      rewrite pregenerate_loop_entries by exact Hsvc.
      rewrite (last_named_unique _ _ Hspoken Hnd). reflexivity. }
  split; [exact Hentry|].
  unfold Scheduler.audioPath_of. rewrite Htype.
  unfold bind, gets. rewrite Hentry.
  unfold cache_file at 1. rewrite path_join_truthy. reflexivity.
Qed.

Lemma pregenerated_event_needs_no_synthesis_witness :
  let E := steady_env [spoken] wednesday_10_15 true (fun _ => Ok "mp3") Player.Finished in
  let w1 := snd (Scheduler._pregenerateTTS E [culito; spoken]
                   (Scheduler.initial sample_files)) in
  Scheduler.pregeneratedAudio w1 !! Events.name spoken
  = Some (cache_file (Scheduler.config E) (Events.content spoken))
  /\ Scheduler.audioPath_of E spoken w1
     = (Ok (Some (cache_file (Scheduler.config E) (Events.content spoken))), w1).
Proof.
  intros E.
  apply (pregenerated_event_needs_no_synthesis E [culito; spoken] spoken
           (Scheduler.initial sample_files)).
  - intros n req. exists "mp3". reflexivity.
  - apply (bool_decide_unpack _). vm_compute. exact I.
  - simpl. auto.
  - reflexivity.
Defined.

(** An event whose pre-generation failed is synthesized when it runs. *)
Example failed_pregeneration_is_retried :
  let w1 := snd (Scheduler._pregenerateTTS env_failing_synthesis [spoken]
                   (Scheduler.initial sample_files)) in
  let '(r, w2) := Scheduler.audioPath_of sample_env spoken w1 in
  Scheduler.pregeneratedAudio w1 = ∅
  /\ r = Ok (Some "cache/tts_96600d9668d7b4085b0fcf98fe02a9f3.mp3")
  /\ generations (Scheduler.trace w2) = ["hola"; "hola"].
Proof. vm_compute. repeat split; reflexivity. Qed.

(* ===================================================================== *)
(** ** The voice manager: its map and the registry (connection.js)       *)
(* ===================================================================== *)

#[local] Instance keeps_recorded_refl : Reflexive keeps_recorded.
Proof. intros st H. exact H. Qed.

#[local] Instance keeps_recorded_trans : Transitive keeps_recorded.
Proof. intros s1 s2 s3 H12 H23 H. auto. Qed.

(** What [destroy] does to a connection that is not destroyed. *)
Lemma destroy_effect (c : nat) (st : Voice.state) (o : Voice.VoiceConnection) :
  Voice.objects st !! c = Some o ->
  Voice.status o <> Voice.Destroyed ->
  exists st',
    Voice.destroy c st = (Ok tt, st')
    /\ Voice.objects st' = alter (Voice.with_status Voice.Destroyed) c (Voice.objects st)
    /\ Voice.tracked st'
       = (if decide (Voice.tracked st !! Voice.guildId o = Some c)
          then delete (Voice.guildId o) (Voice.tracked st) else Voice.tracked st)
    /\ Voice.connections st'
       = (if Nat.ltb 0 (Voice.handlers o)
          then delete (Voice.guildId o) (Voice.connections st) else Voice.connections st)
    /\ Voice.destroyed st' = Voice.destroyed st ++ [c]
    /\ Voice.timers st' = Voice.timers st
    /\ Voice.reconnecting st' = Voice.reconnecting st
    /\ Voice.opened st' = Voice.opened st.
Proof.
  intros Ho Hs. unfold Voice.destroy. rewrite Ho.
  assert (Hout : forall st4,
            (let st1 := Voice.set_destroyed (Voice.destroyed st ++ [c]) st in
             let st2 := Voice.set_objects
                          (alter (Voice.with_status Voice.Destroyed) c (Voice.objects st1)) st1 in
             let st3 := match Voice.tracked st2 !! Voice.guildId o with
                        | Some c' =>
                            if Nat.eqb c' c
                            then Voice.set_tracked (delete (Voice.guildId o) (Voice.tracked st2)) st2
                            else st2
                        | None => st2
                        end in
             if Nat.ltb 0 (Voice.handlers o)
             then Voice.set_connections (delete (Voice.guildId o) (Voice.connections st3)) st3
             else st3) = st4 ->
            Voice.objects st4 = alter (Voice.with_status Voice.Destroyed) c (Voice.objects st)
            /\ Voice.tracked st4
               = (if decide (Voice.tracked st !! Voice.guildId o = Some c)
                  then delete (Voice.guildId o) (Voice.tracked st) else Voice.tracked st)
            /\ Voice.connections st4
               = (if Nat.ltb 0 (Voice.handlers o)
                  then delete (Voice.guildId o) (Voice.connections st)
                  else Voice.connections st)
            /\ Voice.destroyed st4 = Voice.destroyed st ++ [c]
            /\ Voice.timers st4 = Voice.timers st
            /\ Voice.reconnecting st4 = Voice.reconnecting st
            /\ Voice.opened st4 = Voice.opened st).
  { intros st4 <-. cbv zeta. simpl.
    destruct (Voice.tracked st !! Voice.guildId o) as [c'|] eqn:Ht.
    - destruct (Nat.eqb_spec c' c) as [->|Hne].
      + destruct (decide (Some c = Some c)) as [_|Hn]; [|contradiction].
        destruct (Nat.ltb 0 (Voice.handlers o)); simpl; auto 10.
      + destruct (decide (Some c' = Some c)) as [Heq|_]; [congruence|].
        destruct (Nat.ltb 0 (Voice.handlers o)); simpl; auto 10.
    - destruct (decide (None = Some c)) as [Heq|_]; [discriminate|].
      destruct (Nat.ltb 0 (Voice.handlers o)); simpl; auto 10. }
  destruct (Voice.status o); try congruence; eexists; (split; [reflexivity|]);
    apply Hout; reflexivity.
Qed.

(** [destroy] on a connection that is missing or destroyed throws and
    changes nothing. *)
Lemma destroy_twice_throws (c : nat) (st : Voice.state) :
  (forall o, Voice.objects st !! c = Some o -> Voice.status o = Voice.Destroyed) ->
  Voice.destroy c st
  = (Throw "Cannot destroy VoiceConnection - it has already been destroyed", st).
Proof.
  intros H. unfold Voice.destroy.
  destruct (Voice.objects st !! c) as [o|]; [|reflexivity].
  rewrite (H o eq_refl). reflexivity.
Qed.

Lemma recorded_initial : recorded_tracked Voice.initial.
Proof. intros g c ch H. simpl in H. rewrite lookup_empty in H. discriminate. Qed.

(** An update of objects that keeps their handlers, with the registry
    and the map as they are. *)
Lemma recorded_alter (f : Voice.VoiceConnection -> Voice.VoiceConnection)
    (c : nat) (st st' : Voice.state) :
  (forall o, (Voice.handlers o <= Voice.handlers (f o))%nat) ->
  Voice.objects st' = alter f c (Voice.objects st) ->
  Voice.tracked st' = Voice.tracked st ->
  Voice.connections st' = Voice.connections st ->
  recorded_tracked st -> recorded_tracked st'.
Proof.
  intros Hf Ho Ht Hc HJ g c' ch. rewrite Hc, Ht, Ho. intros Hg.
  destruct (HJ g c' ch Hg) as (Htr & o & Hoc & Hh).
  split; [exact Htr|].
  destruct (decide (c' = c)) as [->|Hne].
  - exists (f o). rewrite list_lookup_alter_eq, Hoc. simpl.
    split; [reflexivity|]. specialize (Hf o). lia.
  - exists o. rewrite list_lookup_alter_ne by auto. auto.
Qed.

Lemma recorded_same (st st' : Voice.state) :
  Voice.objects st' = Voice.objects st ->
  Voice.tracked st' = Voice.tracked st ->
  Voice.connections st' = Voice.connections st ->
  recorded_tracked st -> recorded_tracked st'.
Proof. intros Ho Ht Hc HJ g c ch. rewrite Hc, Ht, Ho. apply HJ. Qed.

Lemma recorded_delete (g : string) (st st' : Voice.state) :
  Voice.objects st' = Voice.objects st ->
  Voice.tracked st' = Voice.tracked st ->
  Voice.connections st' = delete g (Voice.connections st) ->
  recorded_tracked st -> recorded_tracked st'.
Proof.
  intros Ho Ht Hc HJ g' c ch. rewrite Hc, Ht, Ho. intros Hg.
  apply lookup_delete_Some in Hg. destruct Hg as [_ Hg]. apply (HJ g' c ch Hg).
Qed.

Lemma destroy_recorded (c : nat) : preserves keeps_recorded (Voice.destroy c).
Proof.
  intros st HJ.
  destruct (Voice.objects st !! c) as [o|] eqn:Ho.
  - destruct (decide (Voice.status o = Voice.Destroyed)) as [Hd|Hlive].
    + rewrite destroy_twice_throws; [exact HJ|].
      intros o' Ho'. rewrite Ho in Ho'. injection Ho' as <-. exact Hd.
    + destruct (destroy_effect c st o Ho Hlive)
        as (st' & Hrun & Hobj & Htr & Hconn & _).
      rewrite Hrun. simpl. intros g c' ch Hg. rewrite Hconn in Hg.
      assert (Hg0 : Voice.connections st !! g = Some (c', ch)
                    /\ (g = Voice.guildId o -> Nat.ltb 0 (Voice.handlers o) = false)).
      { destruct (Nat.ltb 0 (Voice.handlers o)).
        - apply lookup_delete_Some in Hg. destruct Hg as [Hne Hg].
          split; [exact Hg|]. intros ->. contradiction.
        - auto. }
      destruct Hg0 as [Hg0 Hsame].
      destruct (HJ g c' ch Hg0) as (Htr0 & o' & Ho' & Hh').
      assert (Hne : Voice.tracked st !! Voice.guildId o = Some c -> Voice.guildId o <> g).
      { intros Htc Heq. rewrite Heq in Htc. rewrite Htc in Htr0. injection Htr0 as <-.
        rewrite Ho in Ho'. injection Ho' as <-.
        specialize (Hsame (eq_sym Heq)). apply Nat.ltb_ge in Hsame. lia. }
      split.
      * rewrite Htr. destruct (decide _) as [Htc|_]; [|exact Htr0].
        rewrite lookup_delete_ne; [exact Htr0|]. apply Hne, Htc.
      * rewrite Hobj. destruct (decide (c' = c)) as [->|Hnc].
        -- rewrite list_lookup_alter_eq, Ho' . simpl. eexists. split; [reflexivity|].
           simpl. exact Hh'.
        -- exists o'. rewrite list_lookup_alter_ne by auto. auto.
  - rewrite destroy_twice_throws; [exact HJ|]. intros o' Ho'. congruence.
Qed.

Lemma joinVoiceChannel_recorded (g ch : string) (st : Voice.state) :
  consistent st ->
  recorded_tracked st -> recorded_tracked (snd (Voice.joinVoiceChannel g ch st)).
Proof.
  intros Hc HJ. unfold Voice.joinVoiceChannel.
  destruct (Voice.existing g st) as [[c o]|] eqn:Hex.
  - destruct (Voice.status o); simpl; try exact HJ.
    apply (recorded_alter (Voice.rejoin ch) c st);
      [intros o'; simpl; lia|reflexivity..|exact HJ].
  - pose proof (existing_None g st Hc Hex) as Ht.
    intros g' c' ch' Hg'. simpl in *.
    destruct (HJ g' c' ch' Hg') as (Htr & o & Ho & Hh).
    split.
    + rewrite lookup_insert_ne; [exact Htr|]. intros <-. congruence.
    + exists o. rewrite lookup_app_l by (eapply lookup_lt_Some; eauto). auto.
Qed.

Lemma cleanupConnection_recorded (g : string) :
  preserves keeps_recorded (Voice._cleanupConnection g).
Proof.
  unfold Voice._cleanupConnection.
  apply (preserves_bind keeps_recorded); [apply (preserves_gets keeps_recorded)|].
  intros conn. apply (preserves_bind keeps_recorded).
  - destruct conn; [apply destroy_recorded|apply (preserves_ret keeps_recorded)].
  - intros _ st HJ. apply (recorded_delete g st); [reflexivity..|exact HJ].
Qed.

Lemma connectToChannel_recorded (ready : bool) (channel : Discord.channel)
    (st : Voice.state) :
  consistent st ->
  recorded_tracked st ->
  recorded_tracked (snd (Voice.connectToChannel ready channel st)).
Proof.
  intros Hc HJ. unfold Voice.connectToChannel, try_catch.
  unfold bind at 1, gets at 1. unfold bind at 1, gets at 1.
  assert (Hopen : recorded_tracked
            (snd ((let* connection :=
                     (fun st => let '(c, st') :=
                                  Voice.joinVoiceChannel (Discord.guild_id channel)
                                    (Discord.id channel) st in (Ok c, st')) in
                   Voice._setupConnectionHandlers connection ;;
                   Voice.entersReady ready connection ;;
                   modify (fun st => Voice.set_connections
                             (<[Discord.guild_id channel := (connection, Discord.id channel)]>
                                (Voice.connections st)) st) ;;
                   ret connection) st))).
  { unfold bind at 1.
    pose proof (joinVoiceChannel_recorded (Discord.guild_id channel) (Discord.id channel)
                  st Hc HJ) as HJ1.
    destruct (Voice.joinVoiceChannel (Discord.guild_id channel) (Discord.id channel) st)
      as [c st1] eqn:Hj.
    apply joinVoiceChannel_spec in Hj. destruct Hj as [Htc _]. simpl in HJ1.
    unfold Voice._setupConnectionHandlers. unfold bind at 1, modify at 1.
    set (st2 := Voice.set_objects (alter Voice.add_handlers c (Voice.objects st1)) st1).
    assert (HJ2 : recorded_tracked st2).
    { apply (recorded_alter Voice.add_handlers c st1);
        [intros o; simpl; lia|reflexivity..|exact HJ1]. }
    assert (Hh2 : forall o, Voice.objects st2 !! c = Some o -> (0 < Voice.handlers o)%nat).
    { intros o. simpl. rewrite list_lookup_alter_eq.
      destruct (Voice.objects st1 !! c); simpl; [|discriminate].
      intros [= <-]. simpl. lia. }
    unfold bind at 1. unfold Voice.entersReady.
    destruct (Voice.objects st2 !! c) as [o2|] eqn:Ho2; [|exact HJ2].
    specialize (Hh2 o2 eq_refl).
    assert (Hset : forall st3,
              Voice.objects st3 !! c = Some o2
              \/ Voice.objects st3 !! c = Some (Voice.with_status Voice.Ready o2) ->
              Voice.tracked st3 = Voice.tracked st2 ->
              recorded_tracked st3 ->
              recorded_tracked
                (Voice.set_connections
                   (<[Discord.guild_id channel := (c, Discord.id channel)]>
                      (Voice.connections st3)) st3)).
    { intros st3 Ho3 Ht3 HJ3 g c' ch'. simpl.
      destruct (decide (Discord.guild_id channel = g)) as [<-|Hne].
      - rewrite lookup_insert_eq. intros [= <- <-]. rewrite Ht3. split; [exact Htc|].
        destruct Ho3 as [Ho3|Ho3]; rewrite Ho3; eexists; (split; [reflexivity|]);
          simpl; exact Hh2.
      - rewrite lookup_insert_ne by exact Hne. apply HJ3. }
    destruct (Voice.status o2) eqn:Hs2, ready; simpl; try exact HJ2.
    all: try (apply (Hset st2); [left; exact Ho2|reflexivity|exact HJ2]).
    all: apply (Hset (Voice.set_objects
                        (alter (Voice.with_status Voice.Ready) c (Voice.objects st2)) st2));
      [right; simpl; rewrite list_lookup_alter_eq; fold st2; simpl in Ho2 |- *;
       rewrite Ho2; reflexivity
      |reflexivity
      |apply (recorded_alter (Voice.with_status Voice.Ready) c st2);
         [intros o'; simpl; lia|reflexivity..|exact HJ2]]. }
  destruct (Voice.getVoiceConnection (Discord.guild_id channel) st) as [c0|].
  - destruct (Voice.targets c0 (Discord.id channel) st); [exact HJ|].
    destruct (bind _ _ st) as [[c1|e] st2]; exact Hopen.
  - destruct (bind _ _ st) as [[c1|e] st2]; exact Hopen.
Qed.

Lemma step_recorded (st st' : Voice.state) :
  step st st' -> consistent st -> recorded_tracked st -> recorded_tracked st'.
Proof.
  intros Hstep Hc. destruct Hstep.
  - apply connectToChannel_recorded, Hc.
  - unfold Voice.disconnectFromChannel, bind, gets, modify, ret.
    destruct (Voice.getVoiceConnection g st); simpl; [|auto].
    intros HJ. apply (recorded_same st); [reflexivity..|exact HJ].
  - unfold Voice.fire_timer. destruct (Voice.timers st) as [|g rest]; [auto|].
    intros HJ. apply (cleanupConnection_recorded g).
    apply (recorded_same st); [reflexivity..|exact HJ].
  - apply cleanupConnection_recorded.
  - unfold Voice.disconnectAll.
    apply (preserves_bind keeps_recorded); [apply (preserves_gets keeps_recorded)|].
    intros guilds. apply (preserves_bind keeps_recorded).
    + apply (preserves_for_each keeps_recorded). apply cleanupConnection_recorded.
    + intros _ s _ g c ch H. simpl in H. rewrite lookup_empty in H. discriminate.
  - unfold Voice.on_disconnected.
    apply (preserves_bind keeps_recorded); [apply (preserves_gets keeps_recorded)|].
    intros [|]; [apply (preserves_ret keeps_recorded)|].
    apply (preserves_bind keeps_recorded);
      [intros s HJ; apply (recorded_same s); [reflexivity..|exact HJ]|].
    intros _. apply (preserves_try_finally keeps_recorded).
    + destruct renegotiating;
        [apply (preserves_ret keeps_recorded)|apply cleanupConnection_recorded].
    + intros s HJ. apply (recorded_same s); [reflexivity..|exact HJ].
  - unfold Voice.transport_reports.
    destruct (Voice.objects st !! c) as [o|] eqn:Ho; [|destruct s; auto].
    destruct s, (Voice.status o); simpl; auto;
      (intros HJ;
       eapply (recorded_alter _ c st); [|reflexivity..|exact HJ];
       intros o'; simpl; lia).
  - unfold Voice.voice_state_update.
    destruct (Voice.objects st !! c) as [o|] eqn:Ho; [|auto].
    destruct (Voice.status o); simpl; auto;
      (intros HJ;
       eapply (recorded_alter _ c st); [|reflexivity..|exact HJ];
       intros o'; simpl; lia).
Qed.

Lemma reachable_recorded (st : Voice.state) : reachable st -> recorded_tracked st.
Proof.
  induction 1 as [|st st' Hreach IH Hstep].
  - apply recorded_initial.
  - eapply step_recorded; eauto using reachable_consistent.
Qed.

(** X7. In every state that the manager can reach, an entry of
    [this.connections] names the connection that the library holds for
    the guild, and that connection is live: the map never lists a session
    that is gone. *)
Theorem recorded_sessions_are_live (st : Voice.state) (g ch : string) (c : nat) :
  reachable st ->
  Voice.connections st !! g = Some (c, ch) ->
  Voice.getVoiceConnection g st = Some c /\ live st g c.
Proof.
  intros Hreach Hg.
  destruct (reachable_recorded st Hreach g c ch Hg) as [Htr _].
  split; [exact Htr|].
  apply (tracked_live st (reachable_consistent st Hreach)), Htr.
Qed.

Lemma recorded_sessions_are_live_witness :
  let st := snd (Voice.connectToChannel true general Voice.initial) in
  Voice.getVoiceConnection "g1" st = Some 0%nat /\ live st "g1" 0.
Proof.
  intros st.
  apply (recorded_sessions_are_live st "g1" "c1" 0%nat).
  - apply reachable_step with Voice.initial; [apply reachable_initial|].
    apply step_connect.
  - vm_compute. reflexivity.
Defined.

(** The part of [connectToChannel] after the early return, when the
    transport gets ready: it returns, the connection is [Ready] and the
    guild is entered in the map. *)
Lemma open_session_ready (g ch : string) (st : Voice.state) :
  consistent st ->
  exists c st1,
    (let* connection :=
       (fun st => let '(c, st') := Voice.joinVoiceChannel g ch st in (Ok c, st')) in
     Voice._setupConnectionHandlers connection ;;
     Voice.entersReady true connection ;;
     modify (fun st => Voice.set_connections
               (<[g := (connection, ch)]> (Voice.connections st)) st) ;;
     ret connection) st = (Ok c, st1)
    /\ Voice.connections st1 = <[g := (c, ch)]> (Voice.connections st)
    /\ Voice.isConnected g st1 = true
    /\ Voice.timers st1 = Voice.timers st
    /\ Voice.destroyed st1 = Voice.destroyed st.
Proof.
  intros Hc. unfold bind at 1.
  pose proof (joinVoiceChannel_consistent g ch st Hc) as Hc1.
  assert (Hsame : Voice.connections (snd (Voice.joinVoiceChannel g ch st))
                  = Voice.connections st
                  /\ Voice.timers (snd (Voice.joinVoiceChannel g ch st)) = Voice.timers st
                  /\ Voice.destroyed (snd (Voice.joinVoiceChannel g ch st))
                     = Voice.destroyed st).
  { unfold Voice.joinVoiceChannel.
    destruct (Voice.existing g st) as [[c0 o0]|]; [destruct (Voice.status o0)|];
      simpl; auto. }
  destruct (Voice.joinVoiceChannel g ch st) as [c st1] eqn:Hj. simpl in Hc1, Hsame.
  destruct Hsame as (Hconn & Htm & Hd).
  apply joinVoiceChannel_spec in Hj. destruct Hj as [Ht _].
  destruct (tracked_live st1 Hc1 g c Ht) as (o & Ho & Hg & Hs).
  unfold Voice._setupConnectionHandlers, Voice.entersReady, Voice.isConnected,
    Voice.getVoiceConnection.
  unfold bind, modify, ret. simpl.
  rewrite list_lookup_alter_eq, Ho. simpl.
  destruct (Voice.status o) eqn:Hso; try congruence; simpl;
    eexists _, _; (split; [reflexivity|]); simpl;
    rewrite Hconn, Htm, Hd, Ht, ?list_lookup_alter_eq, Ho; simpl;
    rewrite ?list_lookup_alter_eq, ?Ho; simpl; rewrite ?Hso; auto.
Qed.

(** [connectToChannel] with a transport that gets ready. *)
Lemma connectToChannel_ready (st : Voice.state) (channel : Discord.channel) :
  consistent st ->
  exists c st1,
    Voice.connectToChannel true channel st = (Ok c, st1)
    /\ Voice.getVoiceConnection (Discord.guild_id channel) st1 = Some c
    /\ (st1 = st
        \/ (Voice.isConnected (Discord.guild_id channel) st1 = true
            /\ Voice.connections st1 !! Discord.guild_id channel
               = Some (c, Discord.id channel)))
    /\ (Voice.targets c (Discord.id channel) st1 = true
        \/ (Voice.getVoiceConnection (Discord.guild_id channel) st = Some c
            /\ Voice.targets c (Discord.id channel) st = false))
    /\ (Voice.getVoiceConnection (Discord.guild_id channel) st = None ->
        Voice.targets c (Discord.id channel) st1 = true)
    /\ Voice.timers st1 = Voice.timers st
    /\ Voice.destroyed st1 = Voice.destroyed st.
Proof.
  intros Hc.
  assert (Hrun : exists c st1,
            Voice.connectToChannel true channel st = (Ok c, st1)
            /\ (st1 = st
                \/ (Voice.isConnected (Discord.guild_id channel) st1 = true
                    /\ Voice.connections st1 !! Discord.guild_id channel
                       = Some (c, Discord.id channel)))
            /\ Voice.timers st1 = Voice.timers st
            /\ Voice.destroyed st1 = Voice.destroyed st).
  { destruct (open_session_ready (Discord.guild_id channel) (Discord.id channel) st Hc)
      as (c & st1 & Hopen & Hconn & Hic & Htm & Hd).
    unfold Voice.connectToChannel, try_catch.
    unfold bind at 1, gets at 1. unfold bind at 1, gets at 1.
    destruct (Voice.getVoiceConnection (Discord.guild_id channel) st) as [c0|].
    - destruct (Voice.targets c0 (Discord.id channel) st).
      + exists c0, st. unfold ret. auto.
      + rewrite Hopen. exists c, st1. split; [reflexivity|]. split; [|auto].
        right. split; [exact Hic|]. rewrite Hconn. apply lookup_insert_eq.
    - rewrite Hopen. exists c, st1. split; [reflexivity|]. split; [|auto].
      right. split; [exact Hic|]. rewrite Hconn. apply lookup_insert_eq. }
  destruct Hrun as (c & st1 & Hrun & Hcase & Htm & Hd).
  exists c, st1. split; [exact Hrun|].
  destruct (connectToChannel_Ok _ _ _ _ _ Hrun) as [Hg Ht].
  split; [exact Hg|]. split; [exact Hcase|]. split; [|split; [|auto]].
  - destruct Ht as [Ht|(_ & _ & Hold & Hother)]; auto.
  - intros Hnone. destruct Ht as [Ht|(_ & _ & Hold & _)]; [exact Ht|congruence].
Qed.

(** X8. In a state that the manager can reach, [connectToChannel]
    returns a connection whenever the transport gets ready in time, and
    the connection is the one the library holds for the guild.  Either a
    session of the guild was already on that channel and nothing changed,
    or the guild is now connected ([isConnected] answers true) and entered
    in [this.connections] with the channel.  The connection is on the
    channel asked for, in particular when the guild had none; the
    exception is a guild that had this connection on another channel:
    its join configuration keeps that channel until Discord reports the
    move.  No timer is set and nothing is torn down. *)
Theorem connect_succeeds_when_transport_ready
    (st : Voice.state) (channel : Discord.channel) :
  reachable st ->
  exists c st1,
    Voice.connectToChannel true channel st = (Ok c, st1)
    /\ Voice.getVoiceConnection (Discord.guild_id channel) st1 = Some c
    /\ (st1 = st
        \/ (Voice.isConnected (Discord.guild_id channel) st1 = true
            /\ Voice.connections st1 !! Discord.guild_id channel
               = Some (c, Discord.id channel)))
    /\ (Voice.targets c (Discord.id channel) st1 = true
        \/ (Voice.getVoiceConnection (Discord.guild_id channel) st = Some c
            /\ Voice.targets c (Discord.id channel) st = false))
    /\ (Voice.getVoiceConnection (Discord.guild_id channel) st = None ->
        Voice.targets c (Discord.id channel) st1 = true)
    /\ Voice.timers st1 = Voice.timers st
    /\ Voice.destroyed st1 = Voice.destroyed st.
Proof.
  intros Hreach. apply connectToChannel_ready, reachable_consistent, Hreach.
Qed.

Lemma connect_succeeds_when_transport_ready_witness :
  let st := snd (Voice.connectToChannel true general Voice.initial) in
  exists c st1,
    Voice.connectToChannel true afk st = (Ok c, st1)
    /\ Voice.getVoiceConnection (Discord.guild_id afk) st1 = Some c
    /\ (st1 = st
        \/ (Voice.isConnected (Discord.guild_id afk) st1 = true
            /\ Voice.connections st1 !! Discord.guild_id afk
               = Some (c, Discord.id afk)))
    /\ (Voice.targets c (Discord.id afk) st1 = true
        \/ (Voice.getVoiceConnection (Discord.guild_id afk) st = Some c
            /\ Voice.targets c (Discord.id afk) st = false))
    /\ (Voice.getVoiceConnection (Discord.guild_id afk) st = None ->
        Voice.targets c (Discord.id afk) st1 = true)
    /\ Voice.timers st1 = Voice.timers st
    /\ Voice.destroyed st1 = Voice.destroyed st.
Proof.
  intros st.
  apply (connect_succeeds_when_transport_ready st afk).
  apply (reachable_step Voice.initial st); [apply reachable_initial|].
  apply (step_connect true general Voice.initial).
Defined.

(** X9. For a guild without a session, a connect whose transport does
    not get ready in time throws, and [this.connections] gets no entry;
    but the connection that [joinVoiceChannel] made stays in the registry
    of the library, not ready and not destroyed, and the next connect to
    the same channel returns it at once, whatever the transport does. *)
Theorem connect_timeout_leaves_session_behind
    (st : Voice.state) (channel : Discord.channel) :
  Voice.getVoiceConnection (Discord.guild_id channel) st = None ->
  exists st1,
    Voice.connectToChannel false channel st = (Throw "The operation was aborted", st1)
    /\ Voice.connections st1 = Voice.connections st
    /\ Voice.getVoiceConnection (Discord.guild_id channel) st1
       = Some (length (Voice.objects st))
    /\ Voice.isConnected (Discord.guild_id channel) st1 = false
    /\ Voice.destroyed st1 = Voice.destroyed st
    /\ forall ready,
         Voice.connectToChannel ready channel st1
         = (Ok (length (Voice.objects st)), st1).
Proof.
  intros Hnone. unfold Voice.getVoiceConnection in Hnone.
  assert (Hrun : exists st1,
            Voice.connectToChannel false channel st
            = (Throw "The operation was aborted", st1)
            /\ Voice.connections st1 = Voice.connections st
            /\ Voice.tracked st1 !! Discord.guild_id channel
               = Some (length (Voice.objects st))
            /\ Voice.objects st1 !! length (Voice.objects st)
               = Some {| Voice.guildId := Discord.guild_id channel;
                         Voice.channelId := Discord.id channel;
                         Voice.status := Voice.Signalling; Voice.handlers := 1 |}
            /\ Voice.destroyed st1 = Voice.destroyed st).
  { unfold Voice.connectToChannel, try_catch, Voice.getVoiceConnection.
    unfold bind at 1, gets at 1. unfold bind at 1, gets at 1. rewrite Hnone.
    unfold Voice.joinVoiceChannel, Voice.existing, Voice._setupConnectionHandlers,
      Voice.entersReady.
    unfold bind, modify, ret, throw. rewrite Hnone. simpl.
    rewrite list_lookup_alter_eq, lookup_app_r, Nat.sub_diag by lia. simpl.
    eexists. split; [reflexivity|]. simpl.
    rewrite lookup_insert_eq, list_lookup_alter_eq, lookup_app_r, Nat.sub_diag by lia.
    simpl. auto. }
  destruct Hrun as (st1 & Hrun & Hconn & Htr & Hobj & Hd).
  exists st1. split; [exact Hrun|]. split; [exact Hconn|]. split; [exact Htr|].
  split; [|split; [exact Hd|]].
  - unfold Voice.isConnected, Voice.getVoiceConnection. rewrite Htr, Hobj. reflexivity.
  - intros ready. apply connectToChannel_existing; [exact Htr|].
    unfold Voice.targets. rewrite Hobj. simpl. apply String.eqb_refl.
Qed.

Lemma connect_timeout_leaves_session_behind_witness :
  exists st1,
    Voice.connectToChannel false general Voice.initial
    = (Throw "The operation was aborted", st1)
    /\ Voice.connections st1 = Voice.connections Voice.initial
    /\ Voice.getVoiceConnection (Discord.guild_id general) st1
       = Some (length (Voice.objects Voice.initial))
    /\ Voice.isConnected (Discord.guild_id general) st1 = false
    /\ Voice.destroyed st1 = Voice.destroyed Voice.initial
    /\ forall ready,
         Voice.connectToChannel ready general st1
         = (Ok (length (Voice.objects Voice.initial)), st1).
Proof.
  apply (connect_timeout_leaves_session_behind Voice.initial general).
  reflexivity.
Defined.

(** [_cleanupConnection] in a consistent state: it returns, the session
    of the guild, if there is one, is destroyed, and the guild is tracked
    no more. *)
Lemma cleanupConnection_run (g : string) (st : Voice.state) :
  consistent st ->
  exists st',
    Voice._cleanupConnection g st = (Ok tt, st')
    /\ consistent st'
    /\ Voice.tracked st' = delete g (Voice.tracked st)
    /\ Voice.destroyed st'
       = Voice.destroyed st
         ++ match Voice.tracked st !! g with Some c => [c] | None => [] end
    /\ Voice.timers st' = Voice.timers st.
Proof.
  intros Hc.
  pose proof (cleanupConnection_consistent g st Hc) as Hc'.
  unfold Voice._cleanupConnection in *.
  unfold bind at 1, gets at 1 in Hc'. unfold bind at 1, gets at 1.
  unfold Voice.getVoiceConnection in *.
  destruct (Voice.tracked st !! g) as [c|] eqn:Htr.
  - destruct (destroy_tracked st g c Hc Htr) as (sd & Hd & Hdd & Hdt & Hdtm).
    unfold bind in Hc' |- *. rewrite Hd in Hc' |- *. simpl in Hc' |- *.
    eexists. split; [reflexivity|]. split; [exact Hc'|]. simpl. auto.
  - unfold bind, ret, modify in Hc' |- *. simpl in Hc' |- *.
    eexists. split; [reflexivity|]. split; [exact Hc'|]. simpl.
    rewrite app_nil_r, delete_id by exact Htr. auto.
Qed.

Lemma sessions_of_delete (g : string) (gs : list string) (st st' : Voice.state) :
  ~ In g gs ->
  Voice.tracked st' = delete g (Voice.tracked st) ->
  sessions_of st' gs = sessions_of st gs.
Proof.
  intros Hnin Ht. induction gs as [|g' gs IH]; [reflexivity|].
  change (match Voice.tracked st' !! g' with
          | Some y => y :: sessions_of st' gs
          | None => sessions_of st' gs
          end
          = match Voice.tracked st !! g' with
            | Some y => y :: sessions_of st gs
            | None => sessions_of st gs
            end).
  rewrite IH by (intros H; apply Hnin; right; exact H).
  rewrite Ht, lookup_delete_ne by (intros ->; apply Hnin; left; reflexivity).
  reflexivity.
Qed.

(** The loop of [disconnectAll] over a list of guilds. *)
Lemma cleanup_each_run (gs : list string) (st : Voice.state) :
  consistent st ->
  NoDup gs ->
  exists st',
    for_each gs Voice._cleanupConnection st = (Ok tt, st')
    /\ consistent st'
    /\ (forall g, In g gs -> Voice.tracked st' !! g = None)
    /\ (forall g, ~ In g gs -> Voice.tracked st' !! g = Voice.tracked st !! g)
    /\ Voice.destroyed st' = Voice.destroyed st ++ sessions_of st gs
    /\ Voice.timers st' = Voice.timers st.
Proof.
  revert st. induction gs as [|g gs IH]; intros st Hc Hnd.
  - exists st. simpl. unfold sessions_of. simpl. rewrite app_nil_r.
    split; [reflexivity|]. split; [exact Hc|]. split; [intros g []|]. auto.
  - apply NoDup_cons in Hnd. destruct Hnd as [Hnin Hnd].
    rewrite list_elem_of_In in Hnin.
    destruct (cleanupConnection_run g st Hc) as (st1 & Hrun1 & Hc1 & Ht1 & Hd1 & Htm1).
    destruct (IH st1 Hc1 Hnd) as (st' & Hrun & Hc' & Hin & Hout & Hd & Htm).
    exists st'. simpl. unfold bind. rewrite Hrun1, Hrun.
    split; [reflexivity|]. split; [exact Hc'|]. split; [|split; [|split]].
    + intros g' [<-|Hg'].
      * rewrite Hout by exact Hnin. rewrite Ht1. apply lookup_delete_eq.
      * apply Hin, Hg'.
    + intros g' Hg'. rewrite Hout by (intros H; apply Hg'; right; exact H).
      rewrite Ht1. apply lookup_delete_ne. intros ->. apply Hg'. left. reflexivity.
    + rewrite Hd, Hd1, (sessions_of_delete g gs st st1 Hnin Ht1).
      unfold sessions_of at 2. simpl. fold (sessions_of st gs).
      destruct (Voice.tracked st !! g); simpl; rewrite <- ?app_assoc; reflexivity.
    + rewrite Htm. exact Htm1.
Qed.

(** In a consistent state, a connection is counted once among the
    sessions of a list of distinct guilds that holds its guild. *)
Lemma count_sessions_of (st : Voice.state) (gs : list string) (g : string) (c : nat) :
  consistent st ->
  NoDup gs ->
  Voice.tracked st !! g = Some c ->
  (In g gs -> count_occ Nat.eq_dec (sessions_of st gs) c = 1%nat)
  /\ (~ In g gs -> count_occ Nat.eq_dec (sessions_of st gs) c = 0%nat).
Proof.
  intros Hc Hnd Hg.
  assert (Hinj : forall g', Voice.tracked st !! g' = Some c -> g' = g).
  { intros g' Hg'.
    destruct (tracked_live st Hc g c Hg) as (o & Ho & Hgo & _).
    destruct (tracked_live st Hc g' c Hg') as (o' & Ho' & Hgo' & _). congruence. }
  induction gs as [|g0 gs IH].
  - split; [intros []|reflexivity].
  - apply NoDup_cons in Hnd. destruct Hnd as [Hnin Hnd].
    rewrite list_elem_of_In in Hnin. destruct (IH Hnd) as [IH1 IH0].
    change (sessions_of st (g0 :: gs))
      with (match Voice.tracked st !! g0 with
            | Some y => y :: sessions_of st gs
            | None => sessions_of st gs
            end).
    destruct (decide (g0 = g)) as [->|Hne].
    + rewrite Hg. simpl. destruct (Nat.eq_dec c c) as [_|Hn]; [|contradiction].
      split; [intros _; rewrite IH0 by exact Hnin; reflexivity|].
      intros Hn. exfalso. apply Hn. left. reflexivity.
    + assert (Hsame : count_occ Nat.eq_dec
                        (match Voice.tracked st !! g0 with
                         | Some y => y :: sessions_of st gs
                         | None => sessions_of st gs
                         end) c
                      = count_occ Nat.eq_dec (sessions_of st gs) c).
      { destruct (Voice.tracked st !! g0) as [c0|] eqn:Hg0; [|reflexivity].
        simpl. destruct (Nat.eq_dec c0 c) as [->|_]; [|reflexivity].
        destruct (Hne (Hinj g0 Hg0)). }
      rewrite Hsame. split.
      * intros [Heq|Hin]; [contradiction|auto].
      * intros Hn. apply IH0. intros Hin. apply Hn. right. exact Hin.
Qed.

(** [disconnectAll] in a state that the manager can reach. *)
Lemma disconnectAll_run (st : Voice.state) :
  reachable st ->
  exists st',
    Voice.disconnectAll st = (Ok tt, st')
    /\ Voice.connections st' = ∅
    /\ (forall g c ch,
          Voice.connections st !! g = Some (c, ch) ->
          Voice.getVoiceConnection g st' = None
          /\ teardowns c st' = S (teardowns c st))
    /\ (forall g,
          Voice.connections st !! g = None ->
          Voice.getVoiceConnection g st' = Voice.getVoiceConnection g st)
    /\ Voice.timers st' = Voice.timers st.
Proof.
  intros Hreach.
  pose proof (reachable_consistent st Hreach) as Hc.
  pose proof (reachable_recorded st Hreach) as HJ.
  set (gs := map fst (map_to_list (Voice.connections st))).
  assert (Hnd : NoDup gs).
  { unfold gs. rewrite map_is_fmap. apply NoDup_fst_map_to_list. }
  assert (Hin : forall g, In g gs <-> is_Some (Voice.connections st !! g)).
  { intros g. unfold gs. rewrite <- list_elem_of_In, map_is_fmap, list_elem_of_fmap. split.
    - intros ([k v] & -> & Hkv). apply elem_of_map_to_list in Hkv. simpl. eauto.
    - intros [v Hv]. exists (g, v). split; [reflexivity|].
      apply elem_of_map_to_list. exact Hv. }
  destruct (cleanup_each_run gs st Hc Hnd) as (st1 & Hrun & Hc1 & Hgone & Hkept & Hd & Htm).
  exists (Voice.set_connections ∅ st1).
  split; [|split; [reflexivity|split; [|split; [|exact Htm]]]].
  - unfold Voice.disconnectAll. unfold bind at 1, gets at 1. fold gs.
    unfold bind. rewrite Hrun. reflexivity.
  - intros g c ch Hg. unfold Voice.getVoiceConnection. simpl.
    assert (Hg' : In g gs) by (apply Hin; eauto).
    split; [apply Hgone, Hg'|].
    destruct (HJ g c ch Hg) as [Htr _].
    unfold teardowns. simpl. rewrite Hd, count_occ_app.
    rewrite (proj1 (count_sessions_of st gs g c Hc Hnd Htr) Hg'). lia.
  - intros g Hg. unfold Voice.getVoiceConnection. simpl. apply Hkept.
    intros Hg'. apply Hin in Hg'. rewrite Hg in Hg'. destruct Hg' as [? ?]. discriminate.
Qed.

(** X10. In a state that the manager can reach, [disconnectAll] (and
    with it [disconnect] and [cleanup], which only call it) returns
    normally and leaves [this.connections] empty.  Every guild the map
    listed has no session afterwards, and [destroy] was called on its
    session exactly once, at once and not after the delay; the guilds the
    map did not list keep what the library holds for them, and the pending
    timers stay pending. *)
Theorem disconnectAll_tears_down_recorded_sessions (st : Voice.state) :
  reachable st ->
  exists st',
    Voice.disconnectAll st = (Ok tt, st')
    /\ Voice.cleanup st = (Ok tt, st')
    /\ Voice.disconnect st = (Ok tt, st')
    /\ Voice.connections st' = ∅
    /\ (forall g c ch,
          Voice.connections st !! g = Some (c, ch) ->
          Voice.getVoiceConnection g st' = None
          /\ teardowns c st' = S (teardowns c st))
    /\ (forall g,
          Voice.connections st !! g = None ->
          Voice.getVoiceConnection g st' = Voice.getVoiceConnection g st)
    /\ Voice.timers st' = Voice.timers st.
Proof.
  intros Hreach. destruct (disconnectAll_run st Hreach) as (st' & Hrun & H).
  exists st'. unfold Voice.cleanup, Voice.disconnect. auto.
Qed.

Lemma disconnectAll_tears_down_recorded_sessions_witness :
  let st1 := snd (Voice.connectToChannel true general Voice.initial) in
  let st2 := snd (Voice.connectToChannel true lobby st1) in
  let st := snd (Voice.disconnectFromChannel "g1" st2) in
  exists st',
    Voice.disconnectAll st = (Ok tt, st')
    /\ Voice.cleanup st = (Ok tt, st')
    /\ Voice.disconnect st = (Ok tt, st')
    /\ Voice.connections st' = ∅
    /\ (forall g c ch,
          Voice.connections st !! g = Some (c, ch) ->
          Voice.getVoiceConnection g st' = None
          /\ teardowns c st' = S (teardowns c st))
    /\ (forall g,
          Voice.connections st !! g = None ->
          Voice.getVoiceConnection g st' = Voice.getVoiceConnection g st)
    /\ Voice.timers st' = Voice.timers st.
Proof.
  intros st1 st2 st.
  apply (disconnectAll_tears_down_recorded_sessions st).
  apply (reachable_step st2 st); [|apply (step_disconnect "g1" st2)].
  apply (reachable_step st1 st2); [|apply (step_connect true lobby st1)].
  apply (reachable_step Voice.initial st1); [apply reachable_initial|].
  apply (step_connect true general Voice.initial).
Defined.

(* ===================================================================== *)
(** ** The playback driver across calls (player.js)                      *)
(* ===================================================================== *)

(** A list with one entry of [f] is cut at that entry. *)
Lemma registrations_single_split (f : Player.listener) (x : Player.registration)
    (l : list Player.registration) :
  registrations f l = [x] ->
  exists pre post,
    l = pre ++ x :: post
    /\ registrations f pre = [] /\ registrations f post = [].
Proof.
  unfold registrations. induction l as [|r l IH]; [discriminate|].
  rewrite filter_cons. destruct (decide (Player.fn r = f)) as [Hf|Hf].
  - intros [= -> Hrest]. exists [], l. rewrite filter_nil. auto.
  - intros H. destruct (IH H) as (pre & post & -> & Hpre & Hpost).
    exists (r :: pre), post. split; [reflexivity|]. split; [|exact Hpost].
    rewrite filter_cons. destruct (decide (Player.fn r = f)); [contradiction|exact Hpre].
Qed.

Lemma idle_entries_foreign (k n : nat) (l : list Player.registration) :
  Forall (idle_listener n) l ->
  registrations (Player.OnIdle k) l = [] ->
  Forall (foreign k) l.
Proof.
  intros Hwf Hnone. apply registrations_nil_Forall in Hnone.
  rewrite Forall_forall in Hwf, Hnone. apply Forall_forall. intros r Hr. split.
  - apply Hnone, Hr.
  - destruct (Hwf r Hr) as [H|(j & _ & H)]; rewrite H; discriminate.
Qed.

Lemma error_entries_foreign (k n : nat) (l : list Player.registration) :
  Forall (error_listener n) l ->
  registrations (Player.OnError k) l = [] ->
  Forall (foreign k) l.
Proof.
  intros Hwf Hnone. apply registrations_nil_Forall in Hnone.
  rewrite Forall_forall in Hwf, Hnone. apply Forall_forall. intros r Hr. split.
  - destruct (Hwf r Hr) as [H|(j & _ & H)]; rewrite H; discriminate.
  - apply Hnone, Hr.
Qed.

Lemma awaiting_of_view (k : nat) (st st' : Player.state) :
  view k st' = view k st -> awaiting k st -> awaiting k st'.
Proof.
  unfold view, awaiting. intros [= Hp Hi He] (H1 & H2 & H3).
  rewrite Hp, Hi, He. auto.
Qed.

Lemma settled_of_view (k : nat) (st st' : Player.state) (p : Player.promise) :
  view k st' = view k st ->
  Player.promises st !! k = Some p /\ detached k st ->
  Player.promises st' !! k = Some p /\ detached k st'.
Proof.
  unfold view, detached. intros [= Hp Hi He] (H1 & H2 & H3).
  rewrite Hp, Hi, He. auto.
Qed.

(** An emission of [Idle] while a call waits, wherever its observer is
    in the array. *)
Lemma emit_idle_settles (k : nat) (st : Player.state) :
  well_formed st ->
  awaiting k st ->
  Player.promises (Player.emit_idle st) !! k = Some Player.Resolved
  /\ detached k (Player.emit_idle st).
Proof.
  intros [Hwi _] Haw.
  destruct (registrations_single_split _ _ _ (proj1 (proj2 Haw)))
    as (pre & post & Hl & Hpre & Hpost).
  rewrite Hl in Hwi. apply Forall_app in Hwi. destruct Hwi as [Hwpre Hwpost].
  apply Forall_cons in Hwpost. destruct Hwpost as [_ Hwpost].
  pose proof (idle_entries_foreign k _ pre Hwpre Hpre) as Hfpre.
  pose proof (idle_entries_foreign k _ post Hwpost Hpost) as Hfpost.
  unfold Player.emit_idle. rewrite Hl, fold_left_app. simpl.
  eapply settled_of_view.
  - apply fold_foreign; [intros s r; apply deliver_idle_foreign|exact Hfpost].
  - apply deliver_own_idle. eapply awaiting_of_view; [|exact Haw].
    apply fold_foreign; [intros s r; apply deliver_idle_foreign|exact Hfpre].
Qed.

Lemma emit_error_settles (k : nat) (e : string) (st : Player.state) :
  well_formed st ->
  awaiting k st ->
  Player.promises (Player.emit_error e st) !! k = Some (Player.Rejected e)
  /\ detached k (Player.emit_error e st).
Proof.
  intros [_ Hwe] Haw.
  destruct (registrations_single_split _ _ _ (proj2 (proj2 Haw)))
    as (pre & post & Hl & Hpre & Hpost).
  rewrite Hl in Hwe. apply Forall_app in Hwe. destruct Hwe as [Hwpre Hwpost].
  apply Forall_cons in Hwpost. destruct Hwpost as [_ Hwpost].
  pose proof (error_entries_foreign k _ pre Hwpre Hpre) as Hfpre.
  pose proof (error_entries_foreign k _ post Hwpost Hpost) as Hfpost.
  unfold Player.emit_error. rewrite Hl, fold_left_app. simpl.
  eapply settled_of_view.
  - apply fold_foreign; [intros s r; apply deliver_error_foreign|exact Hfpost].
  - apply deliver_own_error. eapply awaiting_of_view; [|exact Haw].
    apply fold_foreign; [intros s r; apply deliver_error_foreign|exact Hfpre].
Qed.

Lemma engine_reports_settles (k : nat) (r : Player.report) (st : Player.state) :
  well_formed st ->
  awaiting k st ->
  Player.promises (Player.engine_reports r st) !! k = Some (settled r)
  /\ detached k (Player.engine_reports r st).
Proof.
  intros Hwf Haw. destruct r as [|e]; simpl.
  - apply emit_idle_settles; assumption.
  - destruct (emit_error_settles k e st Hwf Haw) as [Hp Hd].
    eapply settled_of_view; [|split; [exact Hp|exact Hd]].
    apply emit_idle_detached; [apply emit_error_well_formed, Hwf|exact Hd].
Qed.

(** A promise that is not pending stays as it is. *)
Lemma settle_keeps_settled (j k : nat) (p q : Player.promise) (st : Player.state) :
  Player.promises st !! k = Some q -> q <> Player.Pending ->
  Player.promises (Player.settle j p st) !! k = Some q.
Proof.
  intros Hq Hne. unfold Player.settle.
  destruct (Player.promises st !! j) as [[| |e]|] eqn:Hj; simpl; auto.
  destruct (decide (j = k)) as [->|Hjk]; [congruence|].
  rewrite list_lookup_insert_ne by exact Hjk. exact Hq.
Qed.

Lemma call_keeps_settled (f : Player.listener) (e : string) (k : nat)
    (q : Player.promise) (st : Player.state) :
  Player.promises st !! k = Some q -> q <> Player.Pending ->
  Player.promises (Player.call f e st) !! k = Some q.
Proof.
  intros Hq Hne. destruct f; simpl; auto; apply settle_keeps_settled; auto.
Qed.

Lemma fold_keeps_settled (unwrap : Player.listener -> Player.state -> Player.state)
    (e : string) (l : list Player.registration) (k : nat) (q : Player.promise)
    (st : Player.state) :
  (forall f s, Player.promises (unwrap f s) = Player.promises s) ->
  Player.promises st !! k = Some q -> q <> Player.Pending ->
  Player.promises (fold_left (Player.deliver unwrap e) l st) !! k = Some q.
Proof.
  intros Hu. revert st. induction l as [|r l IH]; intros st Hq Hne; simpl; [exact Hq|].
  apply IH; [|exact Hne]. unfold Player.deliver. apply call_keeps_settled; [|exact Hne].
  destruct (Player.once r); [rewrite Hu|]; exact Hq.
Qed.

Lemma engine_reports_keeps_settled (r : Player.report) (k : nat) (q : Player.promise)
    (st : Player.state) :
  Player.promises st !! k = Some q -> q <> Player.Pending ->
  Player.promises (Player.engine_reports r st) !! k = Some q.
Proof.
  intros Hq Hne. destruct r as [|e]; simpl; unfold Player.emit_idle, Player.emit_error.
  - apply fold_keeps_settled; auto.
  - apply fold_keeps_settled; auto. apply fold_keeps_settled; auto.
Qed.

(** The promises are as many after an emission as before. *)
Lemma call_promises_length (f : Player.listener) (e : string) (st : Player.state) :
  length (Player.promises (Player.call f e st)) = length (Player.promises st).
Proof. destruct f; simpl; auto; rewrite settle_length; reflexivity. Qed.

Lemma fold_promises_length (unwrap : Player.listener -> Player.state -> Player.state)
    (e : string) (l : list Player.registration) (st : Player.state) :
  (forall f s, Player.promises (unwrap f s) = Player.promises s) ->
  length (Player.promises (fold_left (Player.deliver unwrap e) l st))
  = length (Player.promises st).
Proof.
  intros Hu. revert st. induction l as [|r l IH]; intros st; simpl; [reflexivity|].
  rewrite IH. unfold Player.deliver. rewrite call_promises_length.
  destruct (Player.once r); [rewrite Hu|]; reflexivity.
Qed.

(** After an emission no promise that was waiting is pending. *)
Lemma emit_idle_pending (st : Player.state) :
  well_formed st -> pending_awaits st -> pending_awaits (Player.emit_idle st).
Proof.
  intros Hwf Hpa k Hk. exfalso.
  destruct (Player.promises st !! k) as [q|] eqn:Hq.
  - assert (Hne : q <> Player.Pending).
    { intros ->. destruct (emit_idle_settles k st Hwf (Hpa k Hq)) as [Hs _]. congruence. }
    unfold Player.emit_idle in Hk.
    rewrite (fold_keeps_settled _ "" _ k q st) in Hk; auto. congruence.
  - apply lookup_ge_None in Hq. apply lookup_lt_Some in Hk.
    unfold Player.emit_idle in Hk. rewrite fold_promises_length in Hk by auto. lia.
Qed.

Lemma emit_error_pending (e : string) (st : Player.state) :
  well_formed st -> pending_awaits st -> pending_awaits (Player.emit_error e st).
Proof.
  intros Hwf Hpa k Hk. exfalso.
  destruct (Player.promises st !! k) as [q|] eqn:Hq.
  - assert (Hne : q <> Player.Pending).
    { intros ->. destruct (emit_error_settles k e st Hwf (Hpa k Hq)) as [Hs _].
      congruence. }
    unfold Player.emit_error in Hk.
    rewrite (fold_keeps_settled _ e _ k q st) in Hk; auto. congruence.
  - apply lookup_ge_None in Hq. apply lookup_lt_Some in Hk.
    unfold Player.emit_error in Hk. rewrite fold_promises_length in Hk by auto. lia.
Qed.

Lemma playFile_pending (cwd : string) (files : gmap string string) (fault : option string)
    (filePath : string) (connection : nat) (st : Player.state) :
  well_formed st -> pending_awaits st ->
  pending_awaits (snd (Player.playFile cwd files fault filePath connection st)).
Proof.
  intros Hwf Hpa.
  destruct (Player.playFile cwd files fault filePath connection st) as [r st1] eqn:Hrun.
  simpl. intros k Hk.
  destruct (decide (k < length (Player.promises st))%nat) as [Hlt|Hge].
  - pose proof (playFile_view _ _ _ _ _ _ _ _ k Hlt Hrun) as Hv.
    eapply awaiting_of_view; [exact Hv|]. apply Hpa.
    unfold view in Hv. injection Hv as Hp _ _. rewrite <- Hp. exact Hk.
  - destruct r as [k'|e].
    + destruct (playFile_Ok _ _ _ _ _ _ _ _ Hwf Hrun) as (Hk' & _ & Haw & _).
      assert (Hlen : length (Player.promises st1) = S (length (Player.promises st))).
      { revert Hrun. unfold Player.playFile.
        destruct (negb _); [unfold throw; discriminate|].
        unfold try_catch, bind, modify, gets, ret, throw.
        destruct fault; cbn; [discriminate|]. intros [= _ <-]. cbn.
        rewrite length_app, getPlayer_promises. simpl. lia. }
      apply lookup_lt_Some in Hk. assert (k = k') by lia. subst k. exact Haw.
    + assert (Hlen : Player.promises st1 = Player.promises st).
      { revert Hrun. unfold Player.playFile.
        destruct (negb _); [unfold throw; intros [= _ <-]; reflexivity|].
        unfold try_catch, bind, modify, gets, ret, throw.
        destruct fault; cbn; [|discriminate]. intros [= _ <-].
        apply getPlayer_promises. }
      apply lookup_lt_Some in Hk. rewrite Hlen in Hk. lia.
Qed.

Lemma driver_reachable_pending (st : Player.state) :
  driver_reachable st -> pending_awaits st.
Proof.
  induction 1 as [|st st' Hreach IH Hstep]; [intros k Hk; destruct k; discriminate|].
  pose proof (driver_reachable_well_formed st Hreach) as Hwf.
  destruct Hstep.
  - apply playFile_pending; assumption.
  - destruct r as [|e]; simpl.
    + apply emit_idle_pending; assumption.
    + apply emit_idle_pending;
        [apply emit_error_well_formed, Hwf|apply emit_error_pending; assumption].
  - apply emit_idle_pending; assumption.
  - apply emit_error_pending; assumption.
Qed.

(** X11. In every state that the driver can reach, whatever the engine
    reports next settles every pending promise of [playFile] accordingly,
    also those of calls made while an earlier file was still playing, and
    takes the observers of each off the engine; a promise that has settled
    stays as it is; so no promise is pending after a report. *)
Theorem report_settles_every_pending_play
    (st : Player.state) (r : Player.report) (k : nat) (p : Player.promise) :
  driver_reachable st ->
  Player.promises st !! k = Some p ->
  Player.promises (Player.engine_reports r st) !! k
  = Some (match p with Player.Pending => settled r | _ => p end)
  /\ (p = Player.Pending -> detached k (Player.engine_reports r st)).
Proof.
  intros Hreach Hp.
  pose proof (driver_reachable_well_formed st Hreach) as Hwf.
  pose proof (driver_reachable_pending st Hreach) as Hpa.
  destruct p as [| |e].
  - destruct (engine_reports_settles k r st Hwf (Hpa k Hp)) as [Hs Hd]. auto.
  - split; [|discriminate]. apply engine_reports_keeps_settled; [exact Hp|discriminate].
  - split; [|discriminate]. apply engine_reports_keeps_settled; [exact Hp|discriminate].
Qed.

Lemma report_settles_every_pending_play_witness :
  let st1 := snd (Player.playFile sample_cwd sample_files None "./audio/culito.mp3" 0
                    Player.initial) in
  let st2 := snd (Player.playFile sample_cwd sample_files None "./audio/shugo_1.mp3" 0 st1) in
  Player.promises (Player.engine_reports (Player.Failed "decoder died") st2) !! 0%nat
  = Some (settled (Player.Failed "decoder died"))
  /\ (Player.Pending = Player.Pending ->
      detached 0 (Player.engine_reports (Player.Failed "decoder died") st2)).
Proof.
  intros st1 st2.
  apply (report_settles_every_pending_play st2 (Player.Failed "decoder died") 0%nat
           Player.Pending).
  - apply (driver_next st1 st2); [|apply driver_playFile].
    apply (driver_next Player.initial st1); [apply driver_initial|apply driver_playFile].
  - vm_compute. reflexivity.
Defined.

(** Two files started one after the other, then one report. *)
Example overlapping_plays_settle_together :
  let st1 := snd (Player.playFile sample_cwd sample_files None "./audio/culito.mp3" 0
                    Player.initial) in
  let st2 := snd (Player.playFile sample_cwd sample_files None "./audio/shugo_1.mp3" 0 st1) in
  Player.promises st2 = [Player.Pending; Player.Pending]
  /\ Player.promises (Player.engine_reports Player.Finished st2)
     = [Player.Resolved; Player.Resolved]
  /\ Player.on_idle (Player.engine_reports Player.Finished st2)
     = [ {| Player.fn := Player.CleanupOnIdle; Player.once := false |} ].
Proof. vm_compute. repeat split; reflexivity. Qed.

(** The body of a listener leaves the handlers of the manager where
    they are and never sets [currentResource]. *)
Lemma call_own_view (f : Player.listener) (e : string) (st : Player.state) :
  own_view (Player.call f e st) = own_view st.
Proof.
  assert (Hs : forall j p s, own_view (Player.settle j p s) = own_view s).
  { intros j p s. unfold Player.settle.
    destruct (Player.promises s !! j) as [[| |e']|]; reflexivity. }
  destruct f as [| | |j|j]; simpl; try reflexivity.
  - rewrite Hs. unfold own_view. simpl.
    rewrite !registrations_off_ne by discriminate. reflexivity.
  - rewrite Hs. unfold own_view. simpl.
    rewrite !registrations_off_ne by discriminate. reflexivity.
Qed.

Lemma call_currentResource (f : Player.listener) (e : string) (st : Player.state) :
  Player.currentResource (Player.call f e st)
  = match f with
    | Player.CleanupOnIdle | Player.CleanupOnError => None
    | _ => Player.currentResource st
    end.
Proof.
  assert (Hs : forall j p s,
            Player.currentResource (Player.settle j p s) = Player.currentResource s).
  { intros j p s. unfold Player.settle.
    destruct (Player.promises s !! j) as [[| |e']|]; reflexivity. }
  destruct f; simpl; try reflexivity; rewrite Hs; reflexivity.
Qed.

Lemma deliver_idle_own_view (e : string) (st : Player.state) (r : Player.registration) :
  wraps_call_only r ->
  own_view (Player.deliver (fun f s => Player.set_on_idle
                              (Player.remove_wrapper f (Player.on_idle s)) s) e st r)
  = own_view st.
Proof.
  intros Hr. unfold Player.deliver. rewrite call_own_view.
  destruct (Player.once r) eqn:Ho; [|reflexivity].
  destruct (Hr Ho) as [Hi _].
  unfold own_view. simpl. rewrite registrations_remove_wrapper_ne by exact Hi.
  reflexivity.
Qed.

Lemma deliver_error_own_view (e : string) (st : Player.state) (r : Player.registration) :
  wraps_call_only r ->
  own_view (Player.deliver (fun f s => Player.set_on_error
                              (Player.remove_wrapper f (Player.on_error s)) s) e st r)
  = own_view st.
Proof.
  intros Hr. unfold Player.deliver. rewrite call_own_view.
  destruct (Player.once r) eqn:Ho; [|reflexivity].
  destruct (Hr Ho) as [_ He].
  unfold own_view. simpl. rewrite registrations_remove_wrapper_ne by exact He.
  reflexivity.
Qed.

Lemma fold_own_view (step : Player.state -> Player.registration -> Player.state)
    (l : list Player.registration) (st : Player.state) :
  (forall s r, wraps_call_only r -> own_view (step s r) = own_view s) ->
  Forall wraps_call_only l ->
  own_view (fold_left step l st) = own_view st.
Proof.
  intros Hstep Hl. revert st. induction Hl as [|r l Hr Hl IH]; intros st; simpl.
  - reflexivity.
  - rewrite IH. apply Hstep, Hr.
Qed.

(** With one entry of a handler of the manager, not wrapped, every entry
    that is wrapped is an observer of a call. *)
Lemma wraps_call_only_idle (l : list Player.registration) (n : nat) :
  Forall (idle_listener n) l ->
  registrations Player.CleanupOnIdle l
  = [ {| Player.fn := Player.CleanupOnIdle; Player.once := false |} ] ->
  Forall wraps_call_only l.
Proof.
  intros Hwf Hown. apply Forall_forall. intros r Hr Ho.
  rewrite Forall_forall in Hwf. split.
  - intros Hf.
    assert (Hin : r ∈ registrations Player.CleanupOnIdle l).
    { unfold registrations. apply list_elem_of_filter. split; [exact Hf|exact Hr]. }
    rewrite Hown in Hin. apply list_elem_of_singleton in Hin. subst r. discriminate.
  - destruct (Hwf r Hr) as [H|(j & _ & H)]; rewrite H; discriminate.
Qed.

Lemma wraps_call_only_error (l : list Player.registration) (n : nat) :
  Forall (error_listener n) l ->
  registrations Player.CleanupOnError l
  = [ {| Player.fn := Player.CleanupOnError; Player.once := false |} ] ->
  Forall wraps_call_only l.
Proof.
  intros Hwf Hown. apply Forall_forall. intros r Hr Ho.
  rewrite Forall_forall in Hwf. split.
  - destruct (Hwf r Hr) as [H|(j & _ & H)]; rewrite H; discriminate.
  - intros Hf.
    assert (Hin : r ∈ registrations Player.CleanupOnError l).
    { unfold registrations. apply list_elem_of_filter. split; [exact Hf|exact Hr]. }
    rewrite Hown in Hin. apply list_elem_of_singleton in Hin. subst r. discriminate.
Qed.

Lemma emit_idle_own (st : Player.state) :
  well_formed st -> own_handlers st -> own_handlers (Player.emit_idle st).
Proof.
  intros [Hwi _] [->|Hown]; [left; reflexivity|]. right.
  rewrite <- Hown. unfold Player.emit_idle.
  apply fold_own_view; [intros s r; apply deliver_idle_own_view|].
  unfold own_view in Hown. injection Hown as _ _ Hi _.
  eapply wraps_call_only_idle; eauto.
Qed.

Lemma emit_error_own (e : string) (st : Player.state) :
  well_formed st -> own_handlers st -> own_handlers (Player.emit_error e st).
Proof.
  intros [_ Hwe] [->|Hown]; [left; reflexivity|]. right.
  rewrite <- Hown. unfold Player.emit_error.
  apply fold_own_view; [intros s r; apply deliver_error_own_view|].
  unfold own_view in Hown. injection Hown as _ _ _ He.
  eapply wraps_call_only_error; eauto.
Qed.

Lemma getPlayer_own (st : Player.state) :
  own_handlers st ->
  own_view (Player.getPlayer st)
  = (true,
     [ {| Player.fn := Player.LogPlaying; Player.once := false |} ],
     [ {| Player.fn := Player.CleanupOnIdle; Player.once := false |} ],
     [ {| Player.fn := Player.CleanupOnError; Player.once := false |} ]).
Proof.
  intros [->|Hown]; [reflexivity|].
  unfold Player.getPlayer.
  assert (Hp : Player.player st = true) by (unfold own_view in Hown; congruence).
  rewrite Hp. exact Hown.
Qed.

Lemma playFile_own (cwd : string) (files : gmap string string) (fault : option string)
    (filePath : string) (connection : nat) (st : Player.state) :
  own_handlers st ->
  own_handlers (snd (Player.playFile cwd files fault filePath connection st)).
Proof.
  intros Hown. pose proof (getPlayer_own st Hown) as Hg.
  unfold Player.playFile.
  destruct (negb _); [exact Hown|].
  unfold try_catch, bind, modify, gets, ret, throw.
  destruct fault as [e|]; cbn; right; [exact Hg|].
  rewrite <- Hg. unfold own_view, registrations. simpl.
  rewrite !filter_app, !filter_cons, !filter_nil.
  destruct (decide _) as [H|_]; [discriminate|].
  destruct (decide _) as [H|_]; [discriminate|].
  rewrite !app_nil_r. reflexivity.
Qed.

Lemma driver_reachable_own (st : Player.state) :
  driver_reachable st -> own_handlers st.
Proof.
  induction 1 as [|st st' Hreach IH Hstep]; [left; reflexivity|].
  pose proof (driver_reachable_well_formed st Hreach) as Hwf.
  destruct Hstep.
  - apply playFile_own, IH.
  - destruct r as [|e]; simpl.
    + apply emit_idle_own; assumption.
    + apply emit_idle_own; [apply emit_error_well_formed, Hwf|].
      apply emit_error_own; assumption.
  - apply emit_idle_own; assumption.
  - apply emit_error_own; assumption.
Qed.

(** Once a handler of the manager has run in an emission, the resource
    stays cleared to the end of the emission. *)
Lemma fold_clears (unwrap : Player.listener -> Player.state -> Player.state)
    (e : string) (f : Player.listener) (l : list Player.registration) (st : Player.state) :
  (forall g s, Player.currentResource (unwrap g s) = Player.currentResource s) ->
  f = Player.CleanupOnIdle \/ f = Player.CleanupOnError ->
  Player.currentResource st = None \/ Exists (fun r => Player.fn r = f) l ->
  Player.currentResource (fold_left (Player.deliver unwrap e) l st) = None.
Proof.
  intros Hu Hf. revert st. induction l as [|r l IH]; intros st Hcase; simpl.
  - destruct Hcase as [H|H]; [exact H|inversion H].
  - apply IH. unfold Player.deliver. rewrite call_currentResource.
    destruct Hcase as [Hnone|Hex].
    + left. destruct (Player.fn r); try reflexivity;
        destruct (Player.once r); rewrite ?Hu; exact Hnone.
    + apply Exists_cons in Hex. destruct Hex as [Hr|Hl].
      * left. rewrite Hr. destruct Hf as [->| ->]; reflexivity.
      * destruct (Player.fn r) eqn:Hfn; try (left; reflexivity); right; exact Hl.
Qed.

Lemma emit_idle_clears (st : Player.state) :
  own_handlers st -> Player.currentResource (Player.emit_idle st) = None.
Proof.
  intros [->|Hown]; [reflexivity|].
  unfold Player.emit_idle.
  apply (fold_clears _ "" Player.CleanupOnIdle); [reflexivity|left; reflexivity|].
  right. unfold own_view in Hown. injection Hown as _ _ Hi _.
  apply Exists_exists. exists {| Player.fn := Player.CleanupOnIdle; Player.once := false |}.
  split; [|reflexivity].
  assert (Hin : {| Player.fn := Player.CleanupOnIdle; Player.once := false |}
                ∈ registrations Player.CleanupOnIdle (Player.on_idle st))
    by (rewrite Hi; apply list_elem_of_singleton; reflexivity).
  unfold registrations in Hin. apply list_elem_of_filter in Hin. apply Hin.
Qed.

(** X12. In every state that the driver can reach, the manager is either
    as constructed or holds a player whose engine carries the three
    handlers of [_setupPlayerHandlers] exactly once each, however many
    files were played; and after every report of the engine
    [currentResource] is null. *)
Theorem manager_handlers_registered_once (st : Player.state) (r : Player.report) :
  driver_reachable st ->
  own_handlers st
  /\ own_handlers (Player.engine_reports r st)
  /\ Player.currentResource (Player.engine_reports r st) = None.
Proof.
  intros Hreach.
  pose proof (driver_reachable_own st Hreach) as Hown.
  pose proof (driver_reachable_well_formed st Hreach) as Hwf.
  split; [exact Hown|]. split.
  - apply (driver_reachable_own (Player.engine_reports r st)).
    apply (driver_next st); [exact Hreach|apply driver_reports].
  - destruct r as [|e]; simpl.
    + apply emit_idle_clears, Hown.
    + apply emit_idle_clears, emit_error_own; assumption.
Qed.

Lemma manager_handlers_registered_once_witness :
  let st1 := snd (Player.playFile sample_cwd sample_files None "./audio/culito.mp3" 0
                    Player.initial) in
  own_handlers st1
  /\ own_handlers (Player.engine_reports Player.Finished st1)
  /\ Player.currentResource (Player.engine_reports Player.Finished st1) = None.
Proof.
  intros st1.
  apply (manager_handlers_registered_once st1 Player.Finished).
  apply (driver_next Player.initial st1); [apply driver_initial|apply driver_playFile].
Defined.

(** The two ways in which [playFile] ends. *)
Lemma playFile_outcome
    (cwd : string) (files : gmap string string) (fault : option string) (filePath : string)
    (connection : nat) (st : Player.state) :
  match Player.playFile cwd files fault filePath connection st with
  | (Throw e, st1) =>
      ((Fs.existsSync cwd files (Path.resolve cwd filePath) = false
        /\ e = "Audio file not found: " +:+ Path.resolve cwd filePath
        /\ st1 = st)
       \/ (Fs.existsSync cwd files (Path.resolve cwd filePath) = true
           /\ fault = Some e /\ st1 = Player.getPlayer st))
      /\ Player.promises st1 = Player.promises st
      /\ Player.subscribed st1 = Player.subscribed st
      /\ Player.played st1 = Player.played st
      /\ Player.currentResource st1 = Player.currentResource st
      /\ forall k, view k st1 = view k st
  | (Ok k, st1) =>
      Fs.existsSync cwd files (Path.resolve cwd filePath) = true /\ fault = None
      /\ k = length (Player.promises st)
      /\ Player.promises st1 = Player.promises st ++ [Player.Pending]
      /\ Player.subscribed st1 = Player.subscribed st ++ [connection]
      /\ exists resource,
           Player.played st1 = Player.played st ++ [resource]
           /\ Player.currentResource st1 = Some resource
           /\ Player.title resource = Path.basename (Path.resolve cwd filePath)
  end.
Proof.
  assert (Hg : Player.promises (Player.getPlayer st) = Player.promises st
               /\ Player.subscribed (Player.getPlayer st) = Player.subscribed st
               /\ Player.played (Player.getPlayer st) = Player.played st
               /\ Player.currentResource (Player.getPlayer st) = Player.currentResource st).
  { unfold Player.getPlayer. destruct (Player.player st); simpl; auto. }
  destruct Hg as (Hgp & Hgs & Hgl & Hgc).
  unfold Player.playFile.
  destruct (Fs.existsSync cwd files (Path.resolve cwd filePath)) eqn:Hfile.
  - simpl.
    unfold try_catch, bind, modify, gets, ret, throw.
    destruct fault as [e|]; cbn.
    + split; [right; eauto|]. rewrite Hgp, Hgs, Hgl, Hgc.
      repeat split; auto. intros k. apply getPlayer_view.
    + rewrite Hgp, Hgs, Hgl. split; [eauto|]. split; [reflexivity|].
      split; [reflexivity|]. split; [reflexivity|]. split; [reflexivity|].
      eexists. split; [reflexivity|]. split; [reflexivity|].
      destruct (String.eqb _ ".opus"); reflexivity.
  - simpl. unfold throw. split; [left; auto|]. auto 10.
Qed.

(** X13. A call of [playFile] throws in two cases only.  When
    [existsSync] finds nothing at the resolved path -- no file and no
    directory -- it throws before anything else is done, with the
    resolved path in the message: the manager is as before and no player
    is made.  When the library fails to make the resource, the player
    has been made with its handlers, and that is all.  In both cases no
    promise is created, nothing is subscribed or played, and
    [currentResource] and the observers of every call are as before.  In
    all other cases the call returns a promise.  With the working
    directory of a process, which is absolute, the resolved path is
    absolute, and a file of the store is found under its name. *)
Theorem playFile_throws_before_playing
    (cwd : string) (files : gmap string string) (fault : option string) (filePath : string)
    (connection : nat) (st : Player.state) :
  match Player.playFile cwd files fault filePath connection st with
  | (Throw e, st1) =>
      ((Fs.existsSync cwd files (Path.resolve cwd filePath) = false
        /\ e = "Audio file not found: " +:+ Path.resolve cwd filePath
        /\ st1 = st)
       \/ (Fs.existsSync cwd files (Path.resolve cwd filePath) = true
           /\ fault = Some e /\ st1 = Player.getPlayer st))
      /\ Player.promises st1 = Player.promises st
      /\ Player.subscribed st1 = Player.subscribed st
      /\ Player.played st1 = Player.played st
      /\ Player.currentResource st1 = Player.currentResource st
      /\ forall k, view k st1 = view k st
  | (Ok k, st1) =>
      Fs.existsSync cwd files (Path.resolve cwd filePath) = true /\ fault = None
      /\ k = length (Player.promises st)
      /\ Player.promises st1 = Player.promises st ++ [Player.Pending]
      /\ Player.subscribed st1 = Player.subscribed st ++ [connection]
      /\ exists resource,
           Player.played st1 = Player.played st ++ [resource]
           /\ Player.currentResource st1 = Some resource
           /\ Player.title resource = Path.basename (Path.resolve cwd filePath)
  end
  /\ (Path.isAbsolute cwd = true ->
      Path.isAbsolute (Path.resolve cwd filePath) = true
      /\ (is_Some (files !! filePath) ->
          Fs.existsSync cwd files (Path.resolve cwd filePath) = true)).
Proof.
  split; [apply playFile_outcome|].
  intros Hcwd. split; [apply resolve_absolute, Hcwd|apply stored_file_exists, Hcwd].
Qed.

(* ===================================================================== *)
(** ** The per-channel execution when everything works (cron.js)         *)
(* ===================================================================== *)

(** With a path that [existsSync] finds and a library that makes the
    resource, [playFile] returns a promise. *)
Lemma playFile_returns (cwd : string) (files : gmap string string) (filePath : string)
    (connection : nat) (st : Player.state) :
  Fs.existsSync cwd files (Path.resolve cwd filePath) = true ->
  exists k st1, Player.playFile cwd files None filePath connection st = (Ok k, st1).
Proof.
  intros Hfile.
  pose proof (playFile_outcome cwd files None filePath connection st) as H.
  destruct (Player.playFile cwd files None filePath connection st) as [[k|e] st1]; [eauto|].
  destruct H as [[(Hnone & _)|(_ & Hfault & _)] _].
  - rewrite Hnone in Hfile. discriminate.
  - discriminate.
Qed.

(** An emission leaves the records of [subscribe] and [play] alone. *)
Lemma call_records (f : Player.listener) (e : string) (st : Player.state) :
  Player.subscribed (Player.call f e st) = Player.subscribed st
  /\ Player.played (Player.call f e st) = Player.played st.
Proof.
  assert (Hs : forall j p s,
            Player.subscribed (Player.settle j p s) = Player.subscribed s
            /\ Player.played (Player.settle j p s) = Player.played s).
  { intros j p s. unfold Player.settle.
    destruct (Player.promises s !! j) as [[| |e']|]; auto. }
  destruct f as [| | |j|j]; simpl; auto.
  - destruct (Hs j Player.Resolved (Player.cleanup j st)) as [-> ->]. auto.
  - destruct (Hs j (Player.Rejected e) (Player.cleanup j st)) as [-> ->]. auto.
Qed.

Lemma fold_records (unwrap : Player.listener -> Player.state -> Player.state)
    (e : string) (l : list Player.registration) (st : Player.state) :
  (forall f s, Player.subscribed (unwrap f s) = Player.subscribed s
               /\ Player.played (unwrap f s) = Player.played s) ->
  Player.subscribed (fold_left (Player.deliver unwrap e) l st) = Player.subscribed st
  /\ Player.played (fold_left (Player.deliver unwrap e) l st) = Player.played st.
Proof.
  intros Hu. revert st. induction l as [|r l IH]; intros st; simpl; [auto|].
  destruct (IH (Player.deliver unwrap e st r)) as [-> ->].
  unfold Player.deliver.
  destruct (call_records (Player.fn r) e (if Player.once r then unwrap (Player.fn r) st else st))
    as [-> ->].
  destruct (Player.once r); [apply Hu|auto].
Qed.

Lemma engine_reports_records (r : Player.report) (st : Player.state) :
  Player.subscribed (Player.engine_reports r st) = Player.subscribed st
  /\ Player.played (Player.engine_reports r st) = Player.played st.
Proof.
  destruct r as [|e]; simpl; unfold Player.emit_idle, Player.emit_error.
  - apply fold_records. auto.
  - destruct (fold_records
                (fun f s => Player.set_on_idle (Player.remove_wrapper f (Player.on_idle s)) s)
                "" (Player.on_idle (fold_left
                      (Player.deliver
                         (fun f s => Player.set_on_error
                                       (Player.remove_wrapper f (Player.on_error s)) s) e)
                      (Player.on_error st) st))
                (fold_left
                   (Player.deliver
                      (fun f s => Player.set_on_error
                                    (Player.remove_wrapper f (Player.on_error s)) s) e)
                   (Player.on_error st) st)) as [-> ->]; [auto|].
    apply fold_records. auto.
Qed.

(** A file that is found, played to the end, in a state that the driver
    can reach. *)
Lemma playback_to_the_end (cwd : string) (files : gmap string string) (filePath : string)
    (conn : nat) (st : Player.state) :
  Fs.existsSync cwd files (Path.resolve cwd filePath) = true ->
  driver_reachable st ->
  exists k a1 resource,
    Player.playFile cwd files None filePath conn st = (Ok k, a1)
    /\ k = length (Player.promises st)
    /\ Player.await k (Player.engine_reports Player.Finished a1)
       = (Ok tt, Player.engine_reports Player.Finished a1)
    /\ Player.promises (Player.emit_idle a1) !! k = Some Player.Resolved
    /\ Player.subscribed (Player.emit_idle a1) = Player.subscribed st ++ [conn]
    /\ Player.played (Player.emit_idle a1) = Player.played st ++ [resource]
    /\ Player.title resource = Path.basename (Path.resolve cwd filePath)
    /\ Player.currentResource (Player.emit_idle a1) = None.
Proof.
  intros Hfile Hdrv.
  destruct (playFile_returns cwd files filePath conn st Hfile) as (k & a1 & Hplay).
  pose proof (driver_reachable_well_formed _ Hdrv) as Hwf.
  pose proof (playFile_outcome cwd files None filePath conn st) as Hshape.
  rewrite Hplay in Hshape.
  destruct Hshape as (_ & _ & Hk & Hprom & Hsub & resource & Hplayed & _ & Htitle).
  destruct (playFile_Ok _ _ _ _ _ _ _ _ Hwf Hplay) as (_ & Hwf1 & Haw & _).
  destruct (engine_reports_settles k Player.Finished a1 Hwf1 Haw) as [Hres _].
  assert (Hreach1 : driver_reachable a1).
  { apply (driver_next st); [exact Hdrv|].
    replace a1 with (snd (Player.playFile cwd files None filePath conn st))
      by (rewrite Hplay; reflexivity).
    apply driver_playFile. }
  pose proof (emit_idle_clears a1 (driver_reachable_own a1 Hreach1)) as Hcur.
  destruct (engine_reports_records Player.Finished a1) as [Hsub1 Hplayed1].
  exists k, a1, resource. split; [exact Hplay|]. split; [exact Hk|].
  split; [unfold Player.await; rewrite Hres; reflexivity|].
  change (Player.engine_reports Player.Finished a1) with (Player.emit_idle a1)
    in Hres, Hsub1, Hplayed1.
  rewrite Hsub1, Hplayed1. auto 10.
Qed.

(** X14. The execution for a channel when everything works.  Outside
    the maintenance window, for an event that plays a file that
    [existsSync] finds and asks for users, with a voice channel that holds a member who is
    not a bot, a transport that gets ready and an engine that plays to the
    end, the execution returns normally and makes exactly these calls, in
    this order: the lookup of the users, the lookup of the channel, the
    connect, a delay of 500 ms, the play of the file on the connection
    obtained, and the request to disconnect the guild of the channel.
    Afterwards the session is still there, one more timer is pending for
    the guild, the promise of the play is resolved and [currentResource]
    is null. *)
Theorem successful_execution_plays_and_disconnects
    (E : Scheduler.env) (event : Events.event) (channelId : string)
    (w : Scheduler.world) (c1 c : Discord.channel) :
  Scheduler.inWindow (Scheduler.clock E (Scheduler.observations w)) = false ->
  Events.requireUsers event <> Some false ->
  Scheduler.directory E (S (Scheduler.observations w)) channelId = Discord.Found c1 ->
  Discord.isVoiceBased c1 = true ->
  Scheduler.humanMembers c1 <> [] ->
  Scheduler.directory E (S (S (Scheduler.observations w))) channelId = Discord.Found c ->
  Discord.isVoiceBased c = true ->
  Discord.guild_id c <> "" ->
  reachable (Scheduler.voice w) ->
  Scheduler.transport_ready E (S (S (S (Scheduler.observations w)))) = true ->
  Events.type event = Events.AUDIO ->
  Fs.existsSync (Scheduler.cwd E) (TTS.files (Scheduler.tts w))
    (Path.resolve (Scheduler.cwd E) (Events.content event)) = true ->
  Scheduler.resource_fault E (S (S (S (S (Scheduler.observations w))))) = None ->
  Scheduler.engine E (S (S (S (S (Scheduler.observations w))))) = Player.Finished ->
  driver_reachable (Scheduler.audio w) ->
  exists (conn : nat) (w' : Scheduler.world),
    Scheduler._executeEventForChannel E event channelId w = (Ok tt, w')
    /\ Scheduler.trace w'
       = Scheduler.trace w
         ++ [ Scheduler.Fetch channelId;
              Scheduler.Log "debug" "Channel user check";
              Scheduler.Log "info" "Executing event for channel";
              Scheduler.Fetch channelId;
              Scheduler.ConnectToChannel (Discord.guild_id c) (Discord.id c) (Ok conn);
              Scheduler.Delay 500;
              Scheduler.PlayFile (Some (Events.content event)) conn (Ok tt);
              Scheduler.Log "info" "Event playback complete";
              Scheduler.DisconnectFromChannel (Discord.guild_id c) ]
    /\ Voice.getVoiceConnection (Discord.guild_id c) (Scheduler.voice w') = Some conn
    /\ Voice.timers (Scheduler.voice w')
       = Voice.timers (Scheduler.voice w) ++ [Discord.guild_id c]
    /\ Voice.destroyed (Scheduler.voice w') = Voice.destroyed (Scheduler.voice w)
    /\ Player.subscribed (Scheduler.audio w')
       = Player.subscribed (Scheduler.audio w) ++ [conn]
    /\ (exists resource,
          Player.played (Scheduler.audio w')
          = Player.played (Scheduler.audio w) ++ [resource]
          /\ Player.title resource = Path.basename (Path.resolve (Scheduler.cwd E) (Events.content event)))
    /\ Player.promises (Scheduler.audio w') !! length (Player.promises (Scheduler.audio w))
       = Some Player.Resolved
    /\ Player.currentResource (Scheduler.audio w') = None
    /\ Scheduler.tts w' = Scheduler.tts w.
Proof.
  intros Hwin Hreq Hd1 Hv1 Hh1 Hd2 Hv2 Hg Hreach Hready Htype Hfile Hfault Hengine Hdrv.
  assert (Hr : match Events.requireUsers event with Some false => false | _ => true end
               = true)
    by (destruct (Events.requireUsers event) as [[|]|]; congruence).
  assert (Hcount : Nat.ltb 0 (length (Scheduler.humanMembers c1)) = true).
  { destruct (Scheduler.humanMembers c1); [contradiction|reflexivity]. }
  destruct (connectToChannel_ready (Scheduler.voice w) c
              (reachable_consistent _ Hreach))
    as (conn & v1 & Hconn & Hget & _ & _ & _ & Htm & Hdes).
  destruct (playback_to_the_end (Scheduler.cwd E) (TTS.files (Scheduler.tts w)) (Events.content event) conn
              (Scheduler.audio w) Hfile Hdrv)
    as (k & a1 & resource & Hplay & Hk & Hawait & Hres & Hsub & Hplayed & Htitle & Hcur).
  unfold Scheduler._executeEventForChannel, Scheduler._isMaintenanceWindow,
    Scheduler._hasUsersInChannel, Scheduler.fetch.
  run_M. rewrite Hwin. simpl. rewrite Hr. simpl. rewrite Hd1. simpl. rewrite Hv1. simpl.
  rewrite Hcount. simpl.
  unfold Scheduler.with_frame, Scheduler.try_block, Scheduler.catch_block,
    Scheduler.finally_block, Scheduler.in_world, Scheduler._getVoiceChannel,
    Scheduler.fetch, Scheduler.assign_guildId, Scheduler.assign_connection,
    Scheduler.connectToChannel, Scheduler._delay, Scheduler.audioPath_of,
    Scheduler.playFile, Scheduler.disconnectFromChannel.
  run_M. rewrite Hd2. simpl. rewrite Hv2. simpl. rewrite Hready, Hconn. simpl.
  rewrite Htype. simpl. rewrite Hfault, Hplay. simpl. rewrite Hengine, Hawait. simpl.
  rewrite (truthy_nonempty _ Hg). simpl.
  unfold Voice.disconnectFromChannel. run_M. rewrite Hget. simpl.
  exists conn. eexists. split; [reflexivity|]. simpl.
  rewrite <- !app_assoc. simpl.
  split; [reflexivity|]. split; [exact Hget|]. split; [rewrite Htm; reflexivity|].
  split; [exact Hdes|]. split; [exact Hsub|].
  split; [exists resource; auto|].
  split; [rewrite <- Hk; exact Hres|]. split; [exact Hcur|reflexivity].
Qed.

Lemma successful_execution_plays_and_disconnects_witness :
  exists (conn : nat) (w' : Scheduler.world),
    Scheduler._executeEventForChannel sample_env culito "c1"
      (Scheduler.initial sample_files) = (Ok tt, w')
    /\ Scheduler.trace w'
       = Scheduler.trace (Scheduler.initial sample_files)
         ++ [ Scheduler.Fetch "c1";
              Scheduler.Log "debug" "Channel user check";
              Scheduler.Log "info" "Executing event for channel";
              Scheduler.Fetch "c1";
              Scheduler.ConnectToChannel (Discord.guild_id general) (Discord.id general)
                (Ok conn);
              Scheduler.Delay 500;
              Scheduler.PlayFile (Some (Events.content culito)) conn (Ok tt);
              Scheduler.Log "info" "Event playback complete";
              Scheduler.DisconnectFromChannel (Discord.guild_id general) ]
    /\ Voice.getVoiceConnection (Discord.guild_id general) (Scheduler.voice w') = Some conn
    /\ Voice.timers (Scheduler.voice w')
       = Voice.timers (Scheduler.voice (Scheduler.initial sample_files))
         ++ [Discord.guild_id general]
    /\ Voice.destroyed (Scheduler.voice w')
       = Voice.destroyed (Scheduler.voice (Scheduler.initial sample_files))
    /\ Player.subscribed (Scheduler.audio w')
       = Player.subscribed (Scheduler.audio (Scheduler.initial sample_files)) ++ [conn]
    /\ (exists resource,
          Player.played (Scheduler.audio w')
          = Player.played (Scheduler.audio (Scheduler.initial sample_files)) ++ [resource]
          /\ Player.title resource = Path.basename (Path.resolve sample_cwd (Events.content culito)))
    /\ Player.promises (Scheduler.audio w')
         !! length (Player.promises (Scheduler.audio (Scheduler.initial sample_files)))
       = Some Player.Resolved
    /\ Player.currentResource (Scheduler.audio w') = None
    /\ Scheduler.tts w' = Scheduler.tts (Scheduler.initial sample_files).
Proof.
  apply (successful_execution_plays_and_disconnects sample_env culito "c1"
           (Scheduler.initial sample_files) general general).
  - reflexivity.
  - simpl. discriminate.
  - reflexivity.
  - reflexivity.
  - simpl. discriminate.
  - reflexivity.
  - reflexivity.
  - simpl. discriminate.
  - apply reachable_initial.
  - reflexivity.
  - reflexivity.
  - vm_compute. eauto.
  - reflexivity.
  - reflexivity.
  - apply driver_initial.
Defined.

(** X15. An event with [requireUsers: false] does not look at who is in
    the channel: outside the maintenance window, with a voice channel, a
    transport that gets ready and an engine that plays to the end, the
    file is played also in a channel without members, and the directory
    is asked once, for the channel itself. *)
Theorem unattended_event_plays_in_any_channel
    (E : Scheduler.env) (event : Events.event) (channelId : string)
    (w : Scheduler.world) (c : Discord.channel) :
  Scheduler.inWindow (Scheduler.clock E (Scheduler.observations w)) = false ->
  Events.requireUsers event = Some false ->
  Scheduler.directory E (S (Scheduler.observations w)) channelId = Discord.Found c ->
  Discord.isVoiceBased c = true ->
  Discord.guild_id c <> "" ->
  reachable (Scheduler.voice w) ->
  Scheduler.transport_ready E (S (S (Scheduler.observations w))) = true ->
  Events.type event = Events.AUDIO ->
  Fs.existsSync (Scheduler.cwd E) (TTS.files (Scheduler.tts w))
    (Path.resolve (Scheduler.cwd E) (Events.content event)) = true ->
  Scheduler.resource_fault E (S (S (S (Scheduler.observations w)))) = None ->
  Scheduler.engine E (S (S (S (Scheduler.observations w)))) = Player.Finished ->
  driver_reachable (Scheduler.audio w) ->
  exists (conn : nat) (w' : Scheduler.world),
    Scheduler._executeEventForChannel E event channelId w = (Ok tt, w')
    /\ Scheduler.trace w'
       = Scheduler.trace w
         ++ [ Scheduler.Log "info" "Executing event for channel";
              Scheduler.Fetch channelId;
              Scheduler.ConnectToChannel (Discord.guild_id c) (Discord.id c) (Ok conn);
              Scheduler.Delay 500;
              Scheduler.PlayFile (Some (Events.content event)) conn (Ok tt);
              Scheduler.Log "info" "Event playback complete";
              Scheduler.DisconnectFromChannel (Discord.guild_id c) ]
    /\ Player.subscribed (Scheduler.audio w')
       = Player.subscribed (Scheduler.audio w) ++ [conn]
    /\ Voice.timers (Scheduler.voice w')
       = Voice.timers (Scheduler.voice w) ++ [Discord.guild_id c].
Proof.
  intros Hwin Hreq Hd2 Hv2 Hg Hreach Hready Htype Hfile Hfault Hengine Hdrv.
  destruct (connectToChannel_ready (Scheduler.voice w) c
              (reachable_consistent _ Hreach))
    as (conn & v1 & Hconn & Hget & _ & _ & _ & Htm & Hdes).
  destruct (playback_to_the_end (Scheduler.cwd E) (TTS.files (Scheduler.tts w)) (Events.content event) conn
              (Scheduler.audio w) Hfile Hdrv)
    as (k & a1 & resource & Hplay & Hk & Hawait & Hres & Hsub & Hplayed & Htitle & Hcur).
  unfold Scheduler._executeEventForChannel, Scheduler._isMaintenanceWindow.
  run_M. rewrite Hwin. simpl. rewrite Hreq. simpl.
  unfold Scheduler.with_frame, Scheduler.try_block, Scheduler.catch_block,
    Scheduler.finally_block, Scheduler.in_world, Scheduler._getVoiceChannel,
    Scheduler.fetch, Scheduler.assign_guildId, Scheduler.assign_connection,
    Scheduler.connectToChannel, Scheduler._delay, Scheduler.audioPath_of,
    Scheduler.playFile, Scheduler.disconnectFromChannel.
  run_M. rewrite Hd2. simpl. rewrite Hv2. simpl. rewrite Hready, Hconn. simpl.
  rewrite Htype. simpl. rewrite Hfault, Hplay. simpl. rewrite Hengine, Hawait. simpl.
  rewrite (truthy_nonempty _ Hg). simpl.
  unfold Voice.disconnectFromChannel. run_M. rewrite Hget. simpl.
  exists conn. eexists. split; [reflexivity|]. simpl.
  rewrite <- !app_assoc. simpl.
  split; [reflexivity|]. split; [exact Hsub|]. rewrite Htm. reflexivity.
Qed.

Lemma unattended_event_plays_in_any_channel_witness :
  exists (conn : nat) (w' : Scheduler.world),
    Scheduler._executeEventForChannel sample_env unattended "c2"
      (Scheduler.initial sample_files) = (Ok tt, w')
    /\ Scheduler.trace w'
       = Scheduler.trace (Scheduler.initial sample_files)
         ++ [ Scheduler.Log "info" "Executing event for channel";
              Scheduler.Fetch "c2";
              Scheduler.ConnectToChannel (Discord.guild_id lobby) (Discord.id lobby)
                (Ok conn);
              Scheduler.Delay 500;
              Scheduler.PlayFile (Some (Events.content unattended)) conn (Ok tt);
              Scheduler.Log "info" "Event playback complete";
              Scheduler.DisconnectFromChannel (Discord.guild_id lobby) ]
    /\ Player.subscribed (Scheduler.audio w')
       = Player.subscribed (Scheduler.audio (Scheduler.initial sample_files)) ++ [conn]
    /\ Voice.timers (Scheduler.voice w')
       = Voice.timers (Scheduler.voice (Scheduler.initial sample_files))
         ++ [Discord.guild_id lobby].
Proof.
  apply (unattended_event_plays_in_any_channel sample_env unattended "c2"
           (Scheduler.initial sample_files) lobby).
  - reflexivity.
  - reflexivity.
  - reflexivity.
  - reflexivity.
  - simpl. discriminate.
  - apply reachable_initial.
  - reflexivity.
  - reflexivity.
  - vm_compute. eauto.
  - reflexivity.
  - reflexivity.
  - apply driver_initial.
Defined.

(* ===================================================================== *)
(** ** The speech generator beside the cache hit (generator.js)          *)
(* ===================================================================== *)

(** X16. When the cache is switched off for the request, or holds no
    file under the key, [generate] sends one request to the service, with
    the text and the voice, rate and pitch of the options, each falling
    back to the configuration when absent or empty.  If the service
    answers, the audio is written under the cache key, over what was there,
    also when the cache is switched off, and the path is returned; if the
    service fails, the failure is thrown on and the store of files is as
    before. *)
Theorem synthesis_stores_or_propagates
    (cfg : Config.config) (svc : TTS.service) (text : string) (opts : TTS.options)
    (st : TTS.state) :
  let voice := Js.or_else (TTS.voice opts) (Config.voice_name (Config.tts cfg)) in
  let req := {| TTS.req_text := text; TTS.req_voice := voice;
                TTS.req_rate := Js.or_else (TTS.rate opts) (Config.rate (Config.tts cfg));
                TTS.req_pitch := Js.or_else (TTS.pitch opts) (Config.pitch (Config.tts cfg)) |} in
  let file := Path.join (Config.cacheDir cfg) (TTS._getCacheKey cfg text voice) in
  TTS.useCache opts = Some false \/ TTS.files st !! file = None ->
  TTS.generate cfg svc text opts st
  = match svc req with
    | Ok audio =>
        (Ok file, {| TTS.files := <[file := audio]> (TTS.files st);
                     TTS.requests := TTS.requests st ++ [req] |})
    | Throw e =>
        (Throw e, {| TTS.files := TTS.files st; TTS.requests := TTS.requests st ++ [req] |})
    end.
Proof.
  intros voice req file Hmiss. unfold TTS.generate.
  fold voice. fold file. fold req.
  assert (Hrun : try_catch
                   (modify (fun st0 => TTS.set_requests (TTS.requests st0 ++ [req]) st0) ;;
                    let* audio := (fun st0 => (svc req, st0)) in
                    modify (fun st0 => TTS.set_files (<[file := audio]> (TTS.files st0)) st0) ;;
                    ret file)
                   (fun error => throw error) st
                 = match svc req with
                   | Ok audio =>
                       (Ok file, {| TTS.files := <[file := audio]> (TTS.files st);
                                    TTS.requests := TTS.requests st ++ [req] |})
                   | Throw e =>
                       (Throw e, {| TTS.files := TTS.files st;
                                    TTS.requests := TTS.requests st ++ [req] |})
                   end).
  { run_M. destruct (svc req); reflexivity. }
  destruct Hmiss as [Hoff|Hnone].
  - rewrite Hoff. exact Hrun.
  - destruct (match TTS.useCache opts with Some false => false | _ => true end);
      [|exact Hrun].
    unfold bind at 1, gets at 1. unfold TTS.getCached. fold file.
    rewrite bool_decide_eq_false_2 by (rewrite Hnone; intros [? ?]; discriminate).
    exact Hrun.
Qed.

Lemma synthesis_stores_or_propagates_witness :
  let opts := {| TTS.voice := Some ""; TTS.rate := Some "+50%"; TTS.pitch := None;
                 TTS.useCache := Some false |} in
  let st := {| TTS.files := <["cache/tts_96600d9668d7b4085b0fcf98fe02a9f3.mp3" := "old"]> ∅;
               TTS.requests := [] |} in
  let voice := Js.or_else (TTS.voice opts) (Config.voice_name (Config.tts sample_config)) in
  let req := {| TTS.req_text := "hola"; TTS.req_voice := voice;
                TTS.req_rate :=
                  Js.or_else (TTS.rate opts) (Config.rate (Config.tts sample_config));
                TTS.req_pitch :=
                  Js.or_else (TTS.pitch opts) (Config.pitch (Config.tts sample_config)) |} in
  let file := Path.join (Config.cacheDir sample_config)
                (TTS._getCacheKey sample_config "hola" voice) in
  TTS.generate sample_config rate_telling_service "hola" opts st
  = match rate_telling_service req with
    | Ok audio =>
        (Ok file, {| TTS.files := <[file := audio]> (TTS.files st);
                     TTS.requests := TTS.requests st ++ [req] |})
    | Throw e =>
        (Throw e, {| TTS.files := TTS.files st; TTS.requests := TTS.requests st ++ [req] |})
    end.
Proof.
  intros opts st.
  apply (synthesis_stores_or_propagates sample_config rate_telling_service "hola" opts st).
  left. reflexivity.
Defined.

(** The cache switched off, an empty voice and a rate of its own: the
    configured voice is asked for, at the rate of the request, and the
    file of the key is written over. *)
Example generate_without_cache :
  let opts := {| TTS.voice := Some ""; TTS.rate := Some "+50%"; TTS.pitch := None;
                 TTS.useCache := Some false |} in
  let st := {| TTS.files := <["cache/tts_96600d9668d7b4085b0fcf98fe02a9f3.mp3" := "old"]> ∅;
               TTS.requests := [] |} in
  let '(r, st') := TTS.generate sample_config rate_telling_service "hola" opts st in
  r = Ok "cache/tts_96600d9668d7b4085b0fcf98fe02a9f3.mp3"
  /\ TTS.files st' !! "cache/tts_96600d9668d7b4085b0fcf98fe02a9f3.mp3"
     = Some "speech at rate +50%"
  /\ TTS.requests st'
     = [ {| TTS.req_text := "hola"; TTS.req_voice := "es-MX-DaliaNeural";
            TTS.req_rate := "+50%"; TTS.req_pitch := "+0Hz" |} ].
Proof. vm_compute. repeat split; reflexivity. Qed.

(** [generate] without options: the cache file if it is there, and
    otherwise what the service answers, stored under that name. *)
Lemma generate_no_options (cfg : Config.config) (svc : TTS.service) (text : string)
    (st : TTS.state) :
  TTS.generate cfg svc text TTS.no_options st
  = if present_in st (cache_file cfg text)
    then (Ok (cache_file cfg text), st)
    else match svc (request_of cfg text) with
         | Ok audio =>
             (Ok (cache_file cfg text),
              {| TTS.files := <[cache_file cfg text := audio]> (TTS.files st);
                 TTS.requests := TTS.requests st ++ [request_of cfg text] |})
         | Throw e =>
             (Throw e,
              {| TTS.files := TTS.files st;
                 TTS.requests := TTS.requests st ++ [request_of cfg text] |})
         end.
Proof.
  unfold TTS.generate, TTS.getCached, present_in, cache_file, request_of. simpl.
  unfold bind at 1. unfold gets at 1.
  destruct (bool_decide (is_Some (TTS.files st !! _))) eqn:Hpresent.
  - rewrite path_join_truthy. reflexivity.
  - run_M. destruct (svc _); reflexivity.
Qed.

(** Nothing obtainable is left out of the texts obtained, and whatever
    is obtained is a text of the list. *)
Lemma obtained_complete (cfg : Config.config) (svc : TTS.service) (texts : list string) :
  forall present text,
    In text texts -> obtainable cfg svc present text = true ->
    In text (obtained cfg svc present texts).
Proof.
  induction texts as [|t texts IH]; intros present text Hin Hob; [destruct Hin|].
  simpl. destruct Hin as [->|Hin].
  - rewrite Hob. left. reflexivity.
  - destruct (obtainable cfg svc present t).
    + right. apply IH; [exact Hin|].
      unfold obtainable in *. apply orb_true_iff in Hob.
      destruct Hob as [Hp|Hs]; [rewrite Hp|rewrite Hs, orb_true_r]; reflexivity.
    + apply IH; assumption.
Qed.

Lemma obtained_sublist (cfg : Config.config) (svc : TTS.service) (texts : list string) :
  forall present, sublist (obtained cfg svc present texts) texts.
Proof.
  induction texts as [|t texts IH]; intros present; simpl; [constructor|].
  destruct (obtainable cfg svc present t);
    [apply sublist_skip|apply sublist_cons]; apply IH.
Qed.

Lemma obtained_all (cfg : Config.config) (svc : TTS.service) (texts : list string) :
  (forall req, exists audio, svc req = Ok audio) ->
  forall present, obtained cfg svc present texts = texts.
Proof.
  intros Hsvc. induction texts as [|t texts IH]; intros present; simpl; [reflexivity|].
  unfold obtainable. destruct (Hsvc (request_of cfg t)) as [audio ->].
  rewrite orb_true_r, IH. reflexivity.
Qed.

(** The loop of [pregenerate], from any list of results. *)
Lemma pregenerate_run (cfg : Config.config) (svc : TTS.service) (texts results : list string)
    (st : TTS.state) (present : string -> bool) :
  (forall p, present p = present_in st p) ->
  exists st',
    TTS.pregenerate cfg svc texts results st
    = (Ok (results ++ map (cache_file cfg) (obtained cfg svc present texts)), st')
    /\ Forall (fun p => is_Some (TTS.files st' !! p))
         (map (cache_file cfg) (obtained cfg svc present texts))
    /\ keeps_files st st'.
Proof.
  revert results st present.
  induction texts as [|text texts IH]; intros results st present Hpresent.
  - exists st. simpl. rewrite app_nil_r. unfold ret.
    repeat split; auto. intros p Hp; exact Hp.
  - simpl. unfold bind at 1. unfold try_catch at 1. unfold bind at 1.
    rewrite generate_no_options. unfold obtainable. rewrite Hpresent.
    destruct (present_in st (cache_file cfg text)) eqn:Hthere.
    + simpl.
      destruct (IH (results ++ [cache_file cfg text]) st
                  (fun p => present p || String.eqb p (cache_file cfg text)))
        as (st' & Hrun & Hall & Hk).
      { intros p. rewrite Hpresent.
        destruct (String.eqb_spec p (cache_file cfg text)) as [->|_];
          [rewrite Hthere; reflexivity|apply orb_false_r]. }
      exists st'. rewrite Hrun, <- app_assoc.
      split; [reflexivity|]. split; [|exact Hk].
      constructor; [|exact Hall].
      apply Hk. unfold present_in in Hthere. apply bool_decide_eq_true_1 in Hthere.
      exact Hthere.
    + simpl. destruct (svc (request_of cfg text)) as [audio|e]; simpl.
      * set (st1 := {| TTS.files := <[cache_file cfg text := audio]> (TTS.files st);
                       TTS.requests := TTS.requests st ++ [request_of cfg text] |}).
        destruct (IH (results ++ [cache_file cfg text]) st1
                    (fun p => present p || String.eqb p (cache_file cfg text)))
          as (st' & Hrun & Hall & Hk).
        { intros p. rewrite Hpresent. unfold present_in, st1. simpl.
          destruct (String.eqb_spec p (cache_file cfg text)) as [->|Hne].
          - rewrite orb_true_r. symmetry. apply bool_decide_eq_true_2.
            rewrite lookup_insert_eq. eauto.
          - rewrite orb_false_r, lookup_insert_ne by auto. reflexivity. }
        exists st'. rewrite Hrun, <- app_assoc.
        split; [reflexivity|]. split.
        -- constructor; [|exact Hall]. apply Hk. unfold st1. simpl.
           rewrite lookup_insert_eq. eauto.
        -- intros p Hp. apply Hk. unfold st1. simpl.
           apply lookup_insert_is_Some'. right. exact Hp.
      * set (st1 := {| TTS.files := TTS.files st;
                       TTS.requests := TTS.requests st ++ [request_of cfg text] |}).
        destruct (IH results st1 present) as (st' & Hrun & Hall & Hk).
        { intros p. rewrite Hpresent. reflexivity. }
        exists st'. rewrite Hrun. split; [reflexivity|]. split; [exact Hall|].
        intros p Hp. apply Hk. exact Hp.
Qed.

(** X17. [pregenerate] never throws.  It returns, in the order of the
    texts and with their repetitions, the cache file of every text for
    which [generate] has a file to return -- the cache file is there, be
    it from an earlier text of the list, or the service answers the
    request -- and leaves out the others: no text whose file is in the
    store or whose request the service answers is dropped.  Every path
    returned names a file of the store; no file is removed; and with a
    service that answers every request the result holds the cache file of
    every text. *)
Theorem pregenerate_collects_the_successes
    (cfg : Config.config) (svc : TTS.service) (texts : list string) (st : TTS.state) :
  exists paths st',
    TTS.pregenerate cfg svc texts [] st = (Ok paths, st')
    /\ paths = map (cache_file cfg) (obtained cfg svc (present_in st) texts)
    /\ (forall text,
          In text texts ->
          is_Some (TTS.files st !! cache_file cfg text)
          \/ (exists audio, svc (request_of cfg text) = Ok audio) ->
          In (cache_file cfg text) paths)
    /\ sublist paths (map (cache_file cfg) texts)
    /\ Forall (fun p => is_Some (TTS.files st' !! p)) paths
    /\ keeps_files st st'
    /\ ((forall req, exists audio, svc req = Ok audio) ->
        paths = map (cache_file cfg) texts).
Proof.
  destruct (pregenerate_run cfg svc texts [] st (present_in st) (fun p => eq_refl))
    as (st' & Hrun & Hall & Hk).
  exists (map (cache_file cfg) (obtained cfg svc (present_in st) texts)), st'.
  split; [exact Hrun|]. split; [reflexivity|]. split; [|split; [|split; [|split]]].
  - intros text Hin Hcan. apply in_map, obtained_complete; [exact Hin|].
    unfold obtainable, present_in. destruct Hcan as [Hthere|[audio ->]].
    + rewrite bool_decide_eq_true_2 by exact Hthere. reflexivity.
    + apply orb_true_r.
  - rewrite !map_is_fmap. apply fmap_sublist, obtained_sublist.
  - exact Hall.
  - exact Hk.
  - intros Hsvc. rewrite (obtained_all cfg svc texts Hsvc). reflexivity.
Qed.

(** A service that fails for one text of three; a text that comes twice
    is returned twice and asked for once. *)
Example pregenerate_skips_a_failure :
  let svc : TTS.service :=
    fun r => if String.eqb (TTS.req_text r) "dos" then Throw "no audio" else Ok "mp3" in
  let '(r, st') :=
    TTS.pregenerate sample_config svc ["uno"; "dos"; "hola"; "dos"; "uno"] [] empty_store in
  r = Ok [ cache_file sample_config "uno"; cache_file sample_config "hola";
           cache_file sample_config "uno" ]
  /\ obtained sample_config svc (present_in empty_store) ["uno"; "dos"; "hola"; "dos"; "uno"]
     = ["uno"; "hola"; "uno"]
  /\ map TTS.req_text (TTS.requests st') = ["uno"; "dos"; "hola"; "dos"]
  /\ size (TTS.files st') = 2%nat.
Proof. vm_compute. repeat split; reflexivity. Qed.

(* ===================================================================== *)
(** ** The configuration read from the environment (config.js)           *)
(* ===================================================================== *)

Lemma strip_Some (w l r : list ascii) : Js.strip w l = Some r <-> l = w ++ r.
Proof.
  revert l. induction w as [|a w IH]; intros l; simpl.
  - split; [intros [= ->]; reflexivity|intros ->; reflexivity].
  - destruct l as [|b l]; [split; discriminate|].
    destruct (Ascii.eqb_spec a b) as [->|Hne].
    + rewrite IH. split; [intros ->; reflexivity|intros [= ->]; reflexivity].
    + split; [discriminate|]. intros [= -> _]. contradiction.
Qed.

Lemma strip_any_Some (ws : list (list ascii)) (l r : list ascii) :
  Js.strip_any ws l = Some r -> exists w, In w ws /\ l = w ++ r.
Proof.
  induction ws as [|w ws IH]; simpl; [discriminate|].
  destruct (Js.strip w l) as [r'|] eqn:Hw.
  - intros [= <-]. exists w. split; [left; reflexivity|]. apply strip_Some, Hw.
  - intros H. destruct (IH H) as (w' & Hin & Heq). exists w'. auto.
Qed.

Lemma strip_any_prefix (ws : list (list ascii)) (w l r : list ascii) :
  In w ws -> l = w ++ r -> Js.strip_any ws l <> None.
Proof.
  intros Hin ->. induction ws as [|w0 ws IH]; [destruct Hin|]. simpl.
  destruct (Js.strip w0 (w ++ r)) eqn:Hs; [discriminate|].
  destruct Hin as [->|Hin]; [|auto].
  assert (Js.strip w (w ++ r) = Some r) by (apply strip_Some; reflexivity). congruence.
Qed.

Lemma strip_all_suffix (fuel : nat) (ws : list (list ascii)) (l : list ascii) :
  exists pre, l = pre ++ Js.strip_all fuel ws l.
Proof.
  revert l. induction fuel as [|fuel IH]; intros l; simpl; [exists []; reflexivity|].
  destruct (Js.strip_any ws l) as [r|] eqn:Hs; [|exists []; reflexivity].
  apply strip_any_Some in Hs. destruct Hs as (w & _ & ->).
  destruct (IH r) as [pre Hpre]. exists (w ++ pre). rewrite <- app_assoc, <- Hpre.
  reflexivity.
Qed.

Lemma strip_all_fixed (fuel : nat) (ws : list (list ascii)) (l : list ascii) :
  Forall (fun w => w <> []) ws ->
  (length l <= fuel)%nat ->
  Js.strip_any ws (Js.strip_all fuel ws l) = None.
Proof.
  intros Hne. revert l. induction fuel as [|fuel IH]; intros l Hlen; simpl.
  - destruct l; [|simpl in Hlen; lia].
    destruct (Js.strip_any ws []) as [r|] eqn:Hs; [|reflexivity].
    apply strip_any_Some in Hs. destruct Hs as (w & Hin & Heq).
    rewrite Forall_forall in Hne. apply list_elem_of_In in Hin.
    destruct w; [destruct (Hne [] Hin eq_refl)|discriminate].
  - destruct (Js.strip_any ws l) as [r|] eqn:Hs; [|exact Hs].
    apply IH. apply strip_any_Some in Hs. destruct Hs as (w & Hin & ->).
    rewrite Forall_forall in Hne. apply list_elem_of_In in Hin. specialize (Hne w Hin).
    rewrite length_app in Hlen. destruct w; [contradiction|simpl in Hlen; lia].
Qed.

Lemma strip_all_id (fuel : nat) (ws : list (list ascii)) (l : list ascii) :
  Js.strip_any ws l = None -> Js.strip_all fuel ws l = l.
Proof. intros H. destruct fuel; simpl; [reflexivity|]. rewrite H. reflexivity. Qed.

Lemma whiteSpace_nonempty : Forall (fun w : list ascii => w <> []) Js.whiteSpace.
Proof. repeat constructor; discriminate. Qed.

Lemma whiteSpace_rev_nonempty :
  Forall (fun w : list ascii => w <> []) (map (@rev ascii) Js.whiteSpace).
Proof. repeat constructor; discriminate. Qed.

(** What [trim] returns: a piece from the middle of the string with no
    white space at either end. *)
Lemma trim_chars (l : list ascii) :
  exists pre post,
    l = pre ++ Js.trimEnd (Js.trimStart l) ++ post
    /\ Js.strip_any Js.whiteSpace (Js.trimEnd (Js.trimStart l)) = None
    /\ Js.strip_any (map (@rev ascii) Js.whiteSpace) (rev (Js.trimEnd (Js.trimStart l)))
       = None.
Proof.
  set (a := Js.trimStart l).
  destruct (strip_all_suffix (length l) Js.whiteSpace l) as [pre Hpre]. fold (Js.trimStart l) in Hpre.
  fold a in Hpre.
  assert (Ha : Js.strip_any Js.whiteSpace a = None)
    by (apply strip_all_fixed; [apply whiteSpace_nonempty|lia]).
  unfold Js.trimEnd.
  set (t := Js.strip_all (length a) (map (@rev ascii) Js.whiteSpace) (rev a)).
  destruct (strip_all_suffix (length a) (map (@rev ascii) Js.whiteSpace) (rev a))
    as [q Hq]. fold t in Hq.
  assert (Ht : Js.strip_any (map (@rev ascii) Js.whiteSpace) t = None)
    by (apply strip_all_fixed; [apply whiteSpace_rev_nonempty|rewrite length_rev; lia]).
  assert (Hab : a = rev t ++ rev q).
  { rewrite <- rev_app_distr, <- Hq, rev_involutive. reflexivity. }
  exists pre, (rev q). split; [rewrite Hpre at 1; rewrite Hab; reflexivity|].
  split; [|rewrite rev_involutive; exact Ht].
  destruct (Js.strip_any Js.whiteSpace (rev t)) as [r|] eqn:Hs; [|reflexivity].
  apply strip_any_Some in Hs. destruct Hs as (w & Hin & Heq).
  exfalso. apply (strip_any_prefix Js.whiteSpace w a (r ++ rev q) Hin); [|exact Ha].
  rewrite Hab, Heq, <- app_assoc. reflexivity.
Qed.

(** [trim] does nothing to what it has returned. *)
Lemma trim_idempotent (s : string) : Js.trim (Js.trim s) = Js.trim s.
Proof.
  unfold Js.trim. rewrite list_ascii_of_string_of_list_ascii.
  destruct (trim_chars (list_ascii_of_string s)) as (pre & post & _ & Hstart & Hend).
  set (b := Js.trimEnd (Js.trimStart (list_ascii_of_string s))) in *.
  f_equal. unfold Js.trimStart. rewrite (strip_all_id _ _ b Hstart).
  unfold Js.trimEnd. rewrite (strip_all_id _ _ (rev b) Hend). apply rev_involutive.
Qed.

Lemma split_chars_no_sep (sep : ascii) (piece l : list ascii) :
  ~ In sep piece ->
  Forall (fun p => ~ In sep p) (Js.split_chars sep piece l).
Proof.
  revert piece. induction l as [|a l IH]; intros piece Hp; simpl.
  - constructor; [exact Hp|constructor].
  - destruct (Ascii.eqb_spec a sep) as [->|Hne].
    + constructor; [exact Hp|]. apply IH. intros [].
    + apply IH. intros Hin. apply in_app_or in Hin.
      destruct Hin as [Hin|[Heq|[]]]; [auto|]. apply Hne. exact Heq.
Qed.

(** X18. Every id that [parseChannelIds] returns is clean: it is not
    empty, it holds no comma, and it has no white space at either end;
    and without a value, or with the empty string, no id is returned. *)
Theorem parsed_channel_ids_are_clean (value : option string) (id : string) :
  In id (Config.parseChannelIds value) ->
  clean_id id
  /\ exists v, value = Some v /\ v <> "".
Proof.
  unfold Config.parseChannelIds. destruct value as [v|]; [|intros []].
  destruct (String.eqb_spec v "") as [->|Hv]; [intros []|].
  unfold Js.truthy. rewrite (proj2 (String.eqb_neq v "") Hv). simpl.
  intros Hin. split; [|eauto].
  apply list_elem_of_In, list_elem_of_filter in Hin. destruct Hin as [Hlen Hin].
  apply list_elem_of_In, in_map_iff in Hin. destruct Hin as (piece & <- & Hpiece).
  unfold Js.split in Hpiece. apply in_map_iff in Hpiece.
  destruct Hpiece as (chars & <- & Hchars).
  split; [|split].
  - intros Heq. rewrite Heq in Hlen. simpl in Hlen. lia.
  - pose proof (split_chars_no_sep ","%char [] (list_ascii_of_string v) (fun H => H))
      as Hno.
    rewrite Forall_forall in Hno. apply list_elem_of_In in Hchars.
    specialize (Hno chars Hchars).
    unfold Js.trim. rewrite !list_ascii_of_string_of_list_ascii.
    destruct (trim_chars chars) as (pre & post & Heq & _).
    intros Hc. apply Hno. rewrite Heq. apply in_or_app. right.
    apply in_or_app. left. exact Hc.
  - apply trim_idempotent.
Qed.

Lemma parsed_channel_ids_are_clean_witness :
  clean_id "123"
  /\ exists v, Some "  123 ,, 456  " = Some v /\ v <> "".
Proof.
  apply (parsed_channel_ids_are_clean (Some "  123 ,, 456  ") "123").
  vm_compute. auto.
Defined.

Example parseChannelIds_examples :
  Config.parseChannelIds (Some "  123 ,, 456  ") = ["123"; "456"]
  /\ Config.parseChannelIds (Some " , ,") = []
  /\ Config.parseChannelIds (Some "") = []
  /\ Config.parseChannelIds None = []
  /\ Config.parseChannelIds (Some "1 2,3") = ["1 2"; "3"].
Proof. vm_compute. repeat split; reflexivity. Qed.

Lemma split_chars_piece (sep : ascii) (piece p rest : list ascii) :
  ~ In sep p ->
  Js.split_chars sep piece (p ++ rest) = Js.split_chars sep (piece ++ p) rest.
Proof.
  revert piece. induction p as [|a p IH]; intros piece Hp; simpl.
  - rewrite app_nil_r. reflexivity.
  - destruct (Ascii.eqb_spec a sep) as [->|Hne]; [exfalso; apply Hp; left; reflexivity|].
    rewrite IH by (intros H; apply Hp; right; exact H).
    rewrite <- app_assoc. reflexivity.
Qed.

(** [split] takes apart what [join] put together. *)
Lemma split_concat (ids : list string) :
  ids <> [] ->
  Forall (fun id => ~ In ","%char (list_ascii_of_string id)) ids ->
  Js.split "," (String.concat "," ids) = ids.
Proof.
  intros Hne Hall. unfold Js.split.
  induction Hall as [|x xs Hx Hxs IH]; [contradiction|].
  destruct xs as [|y l].
  - simpl. rewrite <- (app_nil_r (list_ascii_of_string x)).
    rewrite split_chars_piece by exact Hx. simpl.
    rewrite string_of_list_ascii_of_string. reflexivity.
  - change (String.concat "," (x :: y :: l))
      with (x +:+ "," +:+ String.concat "," (y :: l)).
    rewrite !list_of_append. simpl.
    rewrite split_chars_piece by exact Hx. simpl.
    rewrite string_of_list_ascii_of_string. f_equal. apply IH. discriminate.
Qed.

(** X19. Clean ids joined by commas are read back as they are, in
    their order and with their repetitions. *)
Theorem channel_ids_round_trip (ids : list string) :
  Forall clean_id ids ->
  Config.parseChannelIds (Some (String.concat "," ids)) = ids.
Proof.
  intros Hall. destruct ids as [|x xs]; [reflexivity|].
  unfold Config.parseChannelIds.
  assert (Htruthy : Js.truthy (String.concat "," (x :: xs)) = true).
  { apply Forall_cons in Hall. destruct Hall as [(Hx & _) _].
    unfold Js.truthy. apply negb_true_iff, String.eqb_neq.
    destruct x as [|a x]; [contradiction|]. destruct xs; discriminate. }
  rewrite Htruthy. simpl negb. cbv iota. clear Htruthy.
  rewrite split_concat; [|discriminate|].
  - induction Hall as [|y ys (Hy & _ & Htrim) _ IH]; [reflexivity|].
    simpl. rewrite Htrim, filter_cons.
    destruct (decide (0 < String.length y)%nat) as [_|Hn].
    + f_equal. exact IH.
    + exfalso. apply Hn. destruct y; [contradiction|simpl; lia].
  - eapply Forall_impl; [exact Hall|]. intros id (_ & Hc & _). exact Hc.
Qed.

Lemma channel_ids_round_trip_witness :
  Config.parseChannelIds (Some (String.concat "," ["123"; "45 6"; "123"]))
  = ["123"; "45 6"; "123"].
Proof.
  apply (channel_ids_round_trip ["123"; "45 6"; "123"]).
  repeat constructor; try discriminate; vm_compute; intuition discriminate.
Defined.

Lemma parseChannelIds_nonempty (value : option string) :
  Config.parseChannelIds value <> []
  <-> exists v piece, value = Some v /\ In piece (Js.split "," v) /\ Js.trim piece <> "".
Proof.
  split.
  - intros Hne. destruct (Config.parseChannelIds value) as [|id ids] eqn:Hp;
      [contradiction|].
    assert (Hin : In id (Config.parseChannelIds value)) by (rewrite Hp; left; reflexivity).
    clear Hp Hne. unfold Config.parseChannelIds in Hin.
    destruct value as [v|]; [|destruct Hin].
    destruct (negb (Js.truthy v)); [destruct Hin|].
    apply list_elem_of_In, list_elem_of_filter in Hin. destruct Hin as [Hlen Hin].
    apply list_elem_of_In, in_map_iff in Hin. destruct Hin as (piece & <- & Hpiece).
    exists v, piece. split; [reflexivity|]. split; [exact Hpiece|].
    intros Heq. rewrite Heq in Hlen. simpl in Hlen. lia.
  - intros (v & piece & -> & Hpiece & Htrim). unfold Config.parseChannelIds.
    destruct (String.eqb_spec v "") as [->|Hv].
    + simpl in Hpiece. destruct Hpiece as [<-|[]]. exfalso. apply Htrim. reflexivity.
    + unfold Js.truthy. rewrite (proj2 (String.eqb_neq v "") Hv). simpl.
      intros Hnil.
      assert (Hin : Js.trim piece
                    ∈ filter (fun id => (0 < String.length id)%nat)
                        (map Js.trim (Js.split "," v))).
      { apply list_elem_of_filter. split.
        - destruct (Js.trim piece); [contradiction|simpl; lia].
        - apply list_elem_of_In, in_map, Hpiece. }
      rewrite Hnil in Hin. inversion Hin.
Qed.

Lemma validateConfig_Ok (c : Config.config) :
  Config.validateConfig c = Ok true
  <-> (exists t, Config.token c = Some t /\ t <> "") /\ Config.channelIds c <> [].
Proof.
  unfold Config.validateConfig, Config.missing, Js.truthy.
  destruct (Config.token c) as [t|].
  - destruct (String.eqb_spec t "") as [->|Ht]; simpl.
    + split; [discriminate|]. intros [(t & [= <-] & Ht) _]. contradiction.
    + destruct (Config.channelIds c) as [|id ids]; simpl.
      * split; [discriminate|]. intros [_ H]. contradiction.
      * split; [|reflexivity]. intros _. split; [eauto|discriminate].
  - simpl. split; [discriminate|]. intros [(t & Ht & _) _]. discriminate.
Qed.

(** X20. The configuration read from the environment passes
    [validateConfig] exactly when the environment names a token that is
    not empty and at least one channel id that is not blank, in
    [CHANNEL_IDS] or, when that is unset or empty, in [CHANNEL_ID].
    [main] calls [client.login], with the token, in that case only;
    otherwise, and when the login is rejected, it logs the error and exits
    with code 1.  [main] itself never rejects. *)
Theorem bot_logs_in_only_when_configured
    (env : gmap string string) (login : outcome unit) (p : Index.process) :
  (Config.validateConfig (Config.load env) = Ok true <-> configured env)
  /\ fst (Index.main (Config.load env) login p) = Ok tt
  /\ (configured env ->
      Index.login_calls (snd (Index.main (Config.load env) login p))
      = Index.login_calls p ++ [env !! "DISCORD_TOKEN"]
      /\ Index.exited (snd (Index.main (Config.load env) login p))
         = match login with Ok _ => Index.exited p | Throw _ => Some (Index.Exit 1) end)
  /\ (~ configured env ->
      Index.login_calls (snd (Index.main (Config.load env) login p)) = Index.login_calls p
      /\ Index.exited (snd (Index.main (Config.load env) login p))
         = Some (Index.Exit 1)).
Proof.
  assert (Hiff : Config.validateConfig (Config.load env) = Ok true <-> configured env).
  { rewrite validateConfig_Ok. unfold configured. simpl.
    rewrite parseChannelIds_nonempty. reflexivity. }
  split; [exact Hiff|].
  unfold Index.main, Index.log, Index.process_exit, Scheduler.of_outcome.
  unfold try_catch, bind, modify.
  destruct (Config.validateConfig (Config.load env)) as [b|e] eqn:Hv.
  - assert (Hb : b = true).
    { revert Hv. unfold Config.validateConfig.
      destruct (Config.missing _); [intros [= <-]; reflexivity|discriminate]. }
    subst b. destruct login as [[]|e]; simpl.
    + split; [reflexivity|]. split; [auto|].
      intros Hn. exfalso. apply Hn, Hiff. reflexivity.
    + split; [reflexivity|]. split; [auto|].
      intros Hn. exfalso. apply Hn, Hiff. reflexivity.
  - simpl. split; [reflexivity|]. split; [|auto].
    intros Hc. apply Hiff in Hc. discriminate.
Qed.

Example configurations :
  let env1 : gmap string string :=
    <["DISCORD_TOKEN" := "t"]> (<["CHANNEL_ID" := "42"]> (<["CHANNEL_IDS" := ""]> ∅)) in
  let env2 : gmap string string :=
    <["CHANNEL_IDS" := " , ,"]> (<["CHANNEL_ID" := "42"]> ∅) in
  let env3 : gmap string string :=
    <["DISCORD_TOKEN" := "t"]> (<["CHANNEL_IDS" := "1, 2"]> (<["DISCONNECT_DELAY" := "0"]>
      (<["PRE_CONNECT_SECONDS" := " 12s"]> (<["LOG_LEVEL" := ""]> ∅)))) in
  Config.validateConfig (Config.load env1) = Ok true
  /\ Config.channelIds (Config.load env1) = ["42"]
  /\ Config.validateConfig (Config.load env2)
     = Throw "Missing required environment variables: DISCORD_TOKEN, CHANNEL_IDS"
  /\ Config.channelIds (Config.load env3) = ["1"; "2"]
  /\ Config.disconnectDelay (Config.voice (Config.load env3)) = 5
  /\ Config.preConnectSeconds (Config.voice (Config.load env3)) = 12
  /\ Config.logLevel (Config.load env3) = "info"
  /\ Config.load (<["DISCORD_TOKEN" := "token"]> (<["CHANNEL_IDS" := "c1,c2"]> ∅))
     = sample_config.
Proof. vm_compute. repeat split; reflexivity. Qed.

(* ===================================================================== *)
(** ** The logger (logger.js)                                            *)
(* ===================================================================== *)

(** X21. A line is written exactly when its level is at or above the
    configured one, to the stream of its level and to no other; a
    configured name that is none of the four levels counts as [info], so
    warnings and errors are always written then.  The exception are the
    names of the members of [Object.prototype]: under such a name nothing
    is written at all.  A line starts with the time stamp in brackets and
    the level in capitals, in a field of five characters. *)
Theorem log_writes_from_the_threshold
    (cfg : Config.config) (timestamp : string) (l : Logger.level) (message : string)
    (d : option Logger.data) (c : Logger.console) :
  (In (Config.logLevel cfg) Logger.objectPrototype ->
   Logger.log cfg timestamp l message d c = c)
  /\ (~ In (Config.logLevel cfg) Logger.objectPrototype ->
      Logger.log cfg timestamp l message d c
      = if rank (threshold (Config.logLevel cfg)) <=? rank l
        then written l (Logger.formatLog timestamp l message d) c
        else c)
  /\ exists field,
       String.length field = 5%nat
       /\ Logger.formatLog timestamp l message None
          = "[" +:+ timestamp +:+ "] " +:+ field +:+ " " +:+ message.
Proof.
  split; [|split].
  - intros Hin. unfold Logger.log, Logger.currentLevel.
    assert (Hinh : Logger.LOG_LEVELS (Config.logLevel cfg) = Logger.Inherited).
    { simpl in Hin.
      repeat (destruct Hin as [<-|Hin]; [reflexivity|]). destruct Hin. }
    rewrite Hinh. destruct l; reflexivity.
  - intros Hnot. unfold Logger.log, Logger.currentLevel, threshold, Logger.LOG_LEVELS.
    assert (Hex : existsb (String.eqb (Config.logLevel cfg)) Logger.objectPrototype = false).
    { destruct (existsb _ _) eqn:He; [|reflexivity].
      apply existsb_exists in He. destruct He as (x & Hx & Heq).
      apply String.eqb_eq in Heq. subst x. contradiction. }
    rewrite Hex.
    destruct (String.eqb (Config.logLevel cfg) "debug") eqn:H0;
      [destruct l; reflexivity|].
    destruct (String.eqb (Config.logLevel cfg) "info") eqn:H1;
      [apply String.eqb_eq in H1; rewrite H1; destruct l; reflexivity|].
    destruct (String.eqb (Config.logLevel cfg) "warn") eqn:H2;
      [destruct l; reflexivity|].
    destruct (String.eqb (Config.logLevel cfg) "error") eqn:H3;
      [destruct l; reflexivity|].
    destruct l; reflexivity.
  - exists (Logger.padEnd 5 (Logger.toUpperCase (Logger.name l))).
    split; [destruct l; reflexivity|reflexivity].
Qed.

Example log_lines :
  let quiet_cfg := Config.load (<["LOG_LEVEL" := "warn"]> ∅) in
  let odd_cfg := Config.load (<["LOG_LEVEL" := "verbose"]> ∅) in
  let lost_cfg := Config.load (<["LOG_LEVEL" := "constructor"]> ∅) in
  let empty := {| Logger.console_log := []; Logger.console_warn := [];
                  Logger.console_error := [] |} in
  let stamp := "2025-01-07T19:55:00.000Z" in
  Logger.log quiet_cfg stamp Logger.info "Event scheduled" None empty = empty
  /\ Logger.console_error
       (Logger.log quiet_cfg stamp Logger.error "Event not found"
          (Some {| Logger.keys := 1; Logger.json := "{name: Boss}" |}) empty)
     = ["[2025-01-07T19:55:00.000Z] ERROR Event not found {name: Boss}"]
  /\ Logger.console_log (Logger.log odd_cfg stamp Logger.info "Event scheduled"
                           (Some {| Logger.keys := 0; Logger.json := "{}" |}) empty)
     = ["[2025-01-07T19:55:00.000Z] INFO  Event scheduled"]
  /\ Logger.log odd_cfg stamp Logger.debug "Channel user check" None empty = empty
  /\ Logger.log lost_cfg stamp Logger.error "Event not found" None empty = empty.
Proof. vm_compute. repeat split; reflexivity. Qed.

(* ===================================================================== *)
(** ** Stopping the player and shutting down (player.js, index.js)       *)
(* ===================================================================== *)

Lemma pending_has_player (st : Player.state) (k : nat) :
  own_handlers st ->
  Player.promises st !! k = Some Player.Pending ->
  Player.player st = true.
Proof.
  intros [->|Hown] Hp; [destruct k; discriminate|].
  unfold own_view in Hown. congruence.
Qed.

(** X22. [stop()] and [destroy()] while a file plays end the play as if
    the file had finished: the engine goes idle, so the pending promise of
    [playFile] is resolved, not rejected, and its observers are taken off.
    On an idle engine [stop()] changes nothing.  After [destroy()] the
    manager holds no player and no resource, and the next [getPlayer]
    makes a player that carries the three handlers of the manager once
    each. *)
Theorem stop_resolves_the_pending_play (st : Player.state) (k : nat) (busy : bool) :
  driver_reachable st ->
  Player.promises st !! k = Some Player.Pending ->
  Player.promises (Player.stop true st) !! k = Some Player.Resolved
  /\ detached k (Player.stop true st)
  /\ Player.promises (Player.destroy true st) !! k = Some Player.Resolved
  /\ Player.stop false st = st
  /\ Player.player (Player.destroy busy st) = false
  /\ Player.currentResource (Player.destroy busy st) = None
  /\ own_view (Player.getPlayer (Player.destroy busy st))
     = (true,
        [ {| Player.fn := Player.LogPlaying; Player.once := false |} ],
        [ {| Player.fn := Player.CleanupOnIdle; Player.once := false |} ],
        [ {| Player.fn := Player.CleanupOnError; Player.once := false |} ]).
Proof.
  intros Hreach Hp.
  pose proof (driver_reachable_well_formed st Hreach) as Hwf.
  pose proof (driver_reachable_pending st Hreach) as Hpa.
  pose proof (pending_has_player st k (driver_reachable_own st Hreach) Hp) as Hpl.
  destruct (emit_idle_settles k st Hwf (Hpa k Hp)) as [Hres Hdet].
  unfold Player.stop, Player.destroy, Player.engine_stop. rewrite Hpl.
  split; [exact Hres|]. split; [exact Hdet|]. split; [exact Hres|].
  split; [reflexivity|]. destruct busy; repeat split; reflexivity.
Qed.

Lemma stop_resolves_the_pending_play_witness :
  let st := snd (Player.playFile sample_cwd sample_files None "./audio/culito.mp3" 0
                   Player.initial) in
  Player.promises (Player.stop true st) !! 0%nat = Some Player.Resolved
  /\ detached 0 (Player.stop true st)
  /\ Player.promises (Player.destroy true st) !! 0%nat = Some Player.Resolved
  /\ Player.stop false st = st
  /\ Player.player (Player.destroy false st) = false
  /\ Player.currentResource (Player.destroy false st) = None
  /\ own_view (Player.getPlayer (Player.destroy false st))
     = (true,
        [ {| Player.fn := Player.LogPlaying; Player.once := false |} ],
        [ {| Player.fn := Player.CleanupOnIdle; Player.once := false |} ],
        [ {| Player.fn := Player.CleanupOnError; Player.once := false |} ]).
Proof.
  intros st.
  apply (stop_resolves_the_pending_play st 0%nat false).
  - apply (driver_next Player.initial st); [apply driver_initial|apply driver_playFile].
  - vm_compute. reflexivity.
Defined.

(** [shutdown], step by step. *)
Lemma shutdown_run (busy : bool) (p : Index.process) :
  reachable (Scheduler.voice (Index.world p)) ->
  exists p',
    Index.shutdown busy p = (Ok tt, p')
    /\ Index.exited p' = Some (Index.Exit 0)
    /\ Index.client_destroyed p' = true
    /\ (Index.scheduler p = true ->
        Scheduler.scheduledJobs (Index.world p') = ∅)
    /\ Voice.connections (Scheduler.voice (Index.world p')) = ∅
    /\ (forall g c ch,
          Voice.connections (Scheduler.voice (Index.world p)) !! g = Some (c, ch) ->
          Voice.getVoiceConnection g (Scheduler.voice (Index.world p')) = None
          /\ teardowns c (Scheduler.voice (Index.world p'))
             = S (teardowns c (Scheduler.voice (Index.world p))))
    /\ Player.player (Scheduler.audio (Index.world p')) = false
    /\ Player.currentResource (Scheduler.audio (Index.world p')) = None
    /\ Scheduler.trace (Index.world p')
       = Scheduler.trace (Index.world p)
         ++ (if Index.scheduler p
             then flat_map (fun name => [ Scheduler.JobStop name;
                                          Scheduler.Log "debug" "Stopped scheduled job" ])
                    (map fst (map_to_list (Scheduler.scheduledJobs (Index.world p))))
             else []).
Proof.
  intros Hreach.
  destruct (disconnectAll_run _ Hreach) as (v' & Hrun & Hconn & Hgone & _ & _).
  unfold Index.shutdown, Index.log, Index.process_exit.
  unfold bind at 1, modify at 1. unfold bind at 1, gets at 1. cbn [Index.scheduler Index.set_logged].
  destruct (Index.scheduler p) eqn:Hs.
  - destruct (stopAll_stops_jobs (Index.world p))
      as (w1 & Hstop & Hjobs & Hvoice & Haudio & Htrace).
    unfold zoom, bind, modify, ret, Voice.cleanup. simpl.
    rewrite Hstop. simpl. rewrite Hvoice, Hrun. simpl.
    eexists. split; [reflexivity|]. simpl.
    split; [reflexivity|]. split; [reflexivity|]. split; [intros _; exact Hjobs|].
    split; [exact Hconn|]. split; [exact Hgone|].
    split; [|split; [reflexivity|exact Htrace]].
    destruct (Player.player (Scheduler.audio w1)) eqn:Hp; [reflexivity|exact Hp].
  - unfold zoom, bind, modify, ret, Voice.cleanup. simpl.
    rewrite Hrun. simpl.
    eexists. split; [reflexivity|]. simpl.
    split; [reflexivity|]. split; [reflexivity|]. split; [discriminate|].
    split; [exact Hconn|]. split; [exact Hgone|].
    split; [|split; [reflexivity|rewrite app_nil_r; reflexivity]].
    destruct (Player.player (Scheduler.audio (Index.world p))) eqn:Hp;
      [reflexivity|exact Hp].
Qed.

(** X23. [shutdown] runs to [process.exit(0)] from every state in which
    the voice manager can be: no step of it throws.  The scheduled jobs
    are stopped and the registry is empty, every session listed in
    [this.connections] is destroyed at once and the map is empty, the
    manager of the player holds no player and no resource, and
    [client.destroy] has been called. *)
Theorem shutdown_reaches_exit (busy : bool) (p : Index.process) :
  reachable (Scheduler.voice (Index.world p)) ->
  exists p',
    Index.shutdown busy p = (Ok tt, p')
    /\ Index.exited p' = Some (Index.Exit 0)
    /\ Index.client_destroyed p' = true
    /\ (Index.scheduler p = true ->
        Scheduler.scheduledJobs (Index.world p') = ∅)
    /\ Voice.connections (Scheduler.voice (Index.world p')) = ∅
    /\ (forall g c ch,
          Voice.connections (Scheduler.voice (Index.world p)) !! g = Some (c, ch) ->
          Voice.getVoiceConnection g (Scheduler.voice (Index.world p')) = None
          /\ teardowns c (Scheduler.voice (Index.world p'))
             = S (teardowns c (Scheduler.voice (Index.world p))))
    /\ Player.player (Scheduler.audio (Index.world p')) = false
    /\ Player.currentResource (Scheduler.audio (Index.world p')) = None.
Proof.
  intros Hreach.
  destruct (shutdown_run busy p Hreach)
    as (p' & Hrun & H1 & H2 & H3 & H4 & H5 & H6 & H7 & _).
  exists p'. auto 10.
Qed.

Lemma shutdown_reaches_exit_witness :
  let st1 := snd (Voice.connectToChannel true general Voice.initial) in
  let p := Index.set_scheduler true
             (Index.set_world
                (Scheduler.set_voice st1 (Scheduler.initial sample_files))
                (Index.initial sample_files)) in
  exists p',
    Index.shutdown true p = (Ok tt, p')
    /\ Index.exited p' = Some (Index.Exit 0)
    /\ Index.client_destroyed p' = true
    /\ (Index.scheduler p = true ->
        Scheduler.scheduledJobs (Index.world p') = ∅)
    /\ Voice.connections (Scheduler.voice (Index.world p')) = ∅
    /\ (forall g c ch,
          Voice.connections (Scheduler.voice (Index.world p)) !! g = Some (c, ch) ->
          Voice.getVoiceConnection g (Scheduler.voice (Index.world p')) = None
          /\ teardowns c (Scheduler.voice (Index.world p'))
             = S (teardowns c (Scheduler.voice (Index.world p))))
    /\ Player.player (Scheduler.audio (Index.world p')) = false
    /\ Player.currentResource (Scheduler.audio (Index.world p')) = None.
Proof.
  intros st1 p.
  apply (shutdown_reaches_exit true p).
  change (reachable st1).
  apply (reachable_step Voice.initial st1); [apply reachable_initial|].
  apply (step_connect true general Voice.initial).
Defined.

(* ===================================================================== *)
(** ** Clearing the speech cache (generator.js)                          *)
(* ===================================================================== *)

Lemma basename_chars_plain (acc l : list ascii) :
  plain l -> Path.basename_chars acc l = acc ++ l.
Proof.
  revert acc. induction l as [|a l IH]; intros acc Hl; simpl.
  - rewrite app_nil_r. reflexivity.
  - destruct (Ascii.eqb a "/") eqn:Ha.
    + apply Ascii.eqb_eq in Ha. subst a. exfalso. apply Hl. left. reflexivity.
    + rewrite IH; [rewrite <- app_assoc; reflexivity|].
      intros Hin. apply Hl. right. exact Hin.
Qed.

Lemma basename_chars_after (acc l1 l2 : list ascii) :
  Path.basename_chars acc (l1 ++ "/"%char :: l2) = Path.basename_chars [] l2.
Proof.
  revert acc. induction l1 as [|a l1 IH]; intros acc; simpl; [reflexivity|].
  destruct (Ascii.eqb a "/"); apply IH.
Qed.

Lemma basename_chars_is_plain (acc l : list ascii) :
  plain acc -> plain (Path.basename_chars acc l).
Proof.
  revert acc. induction l as [|a l IH]; intros acc Hacc; simpl; [exact Hacc|].
  destruct (Ascii.eqb a "/") eqn:Ha.
  - apply IH. intros [].
  - apply IH. intros Hin. apply in_app_or in Hin. destruct Hin as [Hin|[Heq|[]]].
    + exact (Hacc Hin).
    + rewrite Heq, Ascii.eqb_refl in Ha. discriminate.
Qed.

(** Characters that end in a name keep their end. *)
Lemma skip_separators_named (l1 l2 : list ascii) :
  plain l2 -> l2 <> [] ->
  rev (Path.skip_separators (rev (l1 ++ l2))) = l1 ++ l2.
Proof.
  intros Hplain Hne. rewrite rev_app_distr.
  destruct (rev l2) as [|a r] eqn:Hr.
  - exfalso. apply Hne. rewrite <- (rev_involutive l2), Hr. reflexivity.
  - simpl. destruct (Ascii.eqb_spec a "/") as [->|_].
    + exfalso. apply Hplain. apply in_rev. rewrite Hr. left. reflexivity.
    + change (a :: r ++ rev l1) with ((a :: r) ++ rev l1).
      rewrite <- Hr, <- rev_app_distr. apply rev_involutive.
Qed.

Lemma basename_after (pre name : string) :
  opens pre -> plain (list_ascii_of_string name) -> name <> "" ->
  Path.basename (pre +:+ name) = name.
Proof.
  intros Hopens Hname Hne. unfold Path.basename.
  rewrite list_of_append, skip_separators_named;
    [|exact Hname|intros Hnil; apply Hne;
       rewrite <- (string_of_list_ascii_of_string name), Hnil; reflexivity].
  destruct Hopens as [->|[x ->]].
  - simpl. rewrite basename_chars_plain by exact Hname. simpl.
    apply string_of_list_ascii_of_string.
  - rewrite !list_of_append. simpl. rewrite <- app_assoc. simpl.
    rewrite basename_chars_after, basename_chars_plain by exact Hname. simpl.
    apply string_of_list_ascii_of_string.
Qed.

Lemma resolve_segments_last (b : bool) (name : string) (segs kept : list string) :
  name <> "" -> name <> "." -> name <> ".." ->
  exists ks, Path.resolve_segments b kept (segs ++ [name]) = ks ++ [name].
Proof.
  intros H0 H1 H2. revert kept. induction segs as [|seg segs IH]; intros kept; simpl.
  - apply String.eqb_neq in H0, H1, H2. rewrite H0, H1, H2. simpl.
    exists (rev kept). reflexivity.
  - destruct (String.eqb seg "" || String.eqb seg "."); [apply IH|].
    destruct (String.eqb seg ".."); [|apply IH].
    destruct kept as [|top below]; [apply IH|].
    destruct (String.eqb top ".."); apply IH.
Qed.

Lemma join_of_segment (dir name : string) :
  dir <> "" -> segment_name name ->
  exists pre, Path.join dir name = pre +:+ name /\ opens pre.
Proof.
  intros Hdir (Hplain & H0 & H1 & H2).
  unfold Path.join.
  apply String.eqb_neq in Hdir. rewrite Hdir.
  pose proof H0 as H0'. apply String.eqb_neq in H0'. rewrite H0'. simpl negb. cbv iota.
  unfold Path.normalize.
  assert (Hne : String.eqb (dir +:+ "/" +:+ name) "" = false).
  { destruct dir; [discriminate|reflexivity]. }
  rewrite Hne.
  assert (Hsegs : Path.segments (dir +:+ "/" +:+ name) = Path.segments dir ++ [name]).
  { unfold Path.segments. rewrite !list_of_append. simpl.
    rewrite path_split_app, map_app.
    rewrite (path_split_plain [] (list_ascii_of_string name) Hplain). simpl.
    rewrite string_of_list_ascii_of_string. reflexivity. }
  rewrite Hsegs.
  destruct (resolve_segments_last (negb (Path.isAbsolute (dir +:+ "/" +:+ name)))
              name (Path.segments dir) [] H0 H1 H2) as [ks ->].
  destruct (concat_last name ks) as (pre & -> & Hopens).
  assert (Hbody : String.eqb (pre +:+ name) "" = false).
  { apply String.eqb_neq. intros Heq. destruct pre; [|discriminate].
    apply H0. exact Heq. }
  rewrite Hbody.
  assert (Hend : Path.endsWithSeparator (dir +:+ "/" +:+ name) = false).
  { unfold Path.endsWithSeparator. rewrite !list_of_append, !rev_app_distr.
    destruct (rev (list_ascii_of_string name)) as [|a l] eqn:Hrev.
    - exfalso. apply H0. rewrite <- (string_of_list_ascii_of_string name).
      rewrite <- (rev_involutive (list_ascii_of_string name)), Hrev. reflexivity.
    - simpl. apply Ascii.eqb_neq. intros ->. apply Hplain.
      apply in_rev. rewrite Hrev. left. reflexivity. }
  rewrite Hend.
  destruct (Path.isAbsolute _).
  - exists ("/" +:+ pre). split; [rewrite append_assoc; reflexivity|].
    right. destruct Hopens as [->|[x ->]].
    + exists "". reflexivity.
    + exists ("/" +:+ x). rewrite append_assoc. reflexivity.
  - exists pre. split; [reflexivity|exact Hopens].
Qed.

Lemma basename_join (dir name : string) :
  dir <> "" -> segment_name name ->
  Path.basename (Path.join dir name) = name.
Proof.
  intros Hdir Hname. destruct (join_of_segment dir name Hdir Hname) as (pre & -> & Hopens).
  apply basename_after; [exact Hopens|apply Hname..].
Qed.

Lemma directly_in_join (dir name : string) :
  dir <> "" -> segment_name name ->
  TTS.directly_in dir (Path.join dir name) = true.
Proof.
  intros Hdir Hname. unfold TTS.directly_in.
  rewrite basename_join by assumption. apply String.eqb_refl.
Qed.

Lemma basename_is_plain (p : string) : plain (list_ascii_of_string (Path.basename p)).
Proof.
  unfold Path.basename. rewrite list_ascii_of_string_of_list_ascii.
  apply basename_chars_is_plain. intros [].
Qed.

Lemma readdirSync_lists (dir name : string) (fs : gmap string string) :
  In name (TTS.readdirSync dir fs) ->
  plain (list_ascii_of_string name)
  /\ (is_Some (fs !! Path.join dir name)
      \/ TTS.isDirectory (Path.join dir name) fs = true).
Proof.
  unfold TTS.readdirSync. intros Hin.
  rewrite <- list_elem_of_In, elem_of_remove_dups, list_elem_of_In in Hin.
  apply in_flat_map in Hin. destruct Hin as (k & Hk & Hin).
  apply in_app_or in Hin. destruct Hin as [Hin|Hin].
  - destruct (TTS.directly_in dir k) eqn:Hd; [|destruct Hin].
    destruct Hin as [<-|[]]. split; [apply basename_is_plain|]. left.
    unfold TTS.directly_in in Hd. apply String.eqb_eq in Hd. rewrite Hd.
    apply in_map_iff in Hk. destruct Hk as ([k' v] & <- & Hkv).
    apply list_elem_of_In, elem_of_map_to_list in Hkv. exists v. exact Hkv.
  - apply in_map_iff in Hin. destruct Hin as (a & <- & Ha).
    split; [apply basename_is_plain|]. right.
    apply list_elem_of_In, list_elem_of_filter in Ha. destruct Ha as [Hd Ha].
    unfold TTS.directly_in in Hd. apply String.eqb_eq in Hd. rewrite Hd.
    unfold TTS.isDirectory. apply existsb_exists. exists k. split; [exact Hk|].
    apply existsb_exists. exists a. split; [apply list_elem_of_In; exact Ha|].
    apply String.eqb_refl.
Qed.

Lemma readdirSync_complete (dir k v : string) (fs : gmap string string) :
  fs !! k = Some v -> TTS.directly_in dir k = true ->
  In (Path.basename k) (TTS.readdirSync dir fs).
Proof.
  intros Hk Hd. unfold TTS.readdirSync.
  rewrite <- list_elem_of_In, elem_of_remove_dups, list_elem_of_In.
  apply in_flat_map. exists k. split.
  - apply in_map_iff. exists (k, v). split; [reflexivity|].
    apply list_elem_of_In, elem_of_map_to_list. exact Hk.
  - apply in_or_app. left. rewrite Hd. left. reflexivity.
Qed.

Lemma cache_name_segment (name : string) :
  cache_name name = true -> plain (list_ascii_of_string name) -> segment_name name.
Proof.
  intros Hc Hp. split; [exact Hp|].
  repeat split; intros ->; vm_compute in Hc; discriminate.
Qed.

Lemma hex_digit_plain (n : Z) : MD5.hex_digit n <> "/"%char.
Proof.
  unfold MD5.hex_digit.
  destruct (nth_in_or_default (Z.to_nat n) (list_ascii_of_string "0123456789abcdef")
              "0"%char) as [Hin| ->]; [|discriminate].
  intros Heq. rewrite Heq in Hin. simpl in Hin.
  repeat (destruct Hin as [Hin|Hin]; [discriminate|]). destruct Hin.
Qed.

Lemma md5_hex_plain (s : string) : plain (list_ascii_of_string (MD5.md5_hex s)).
Proof.
  unfold MD5.md5_hex, MD5.hex_of_bytes. rewrite list_ascii_of_string_of_list_ascii.
  intros Hin. apply in_flat_map in Hin. destruct Hin as (b & _ & [H|[H|[]]]);
    exact (hex_digit_plain _ H).
Qed.

Lemma cache_key_name (cfg : Config.config) (text voice : string) :
  cache_name (TTS._getCacheKey cfg text voice) = true
  /\ segment_name (TTS._getCacheKey cfg text voice).
Proof.
  unfold TTS._getCacheKey. cbv zeta.
  pose proof (md5_hex_plain (text +:+ "|" +:+ voice +:+ "|"
                +:+ Config.rate (Config.tts cfg) +:+ "|"
                +:+ Config.pitch (Config.tts cfg))) as Hplain.
  set (hash := MD5.md5_hex _) in *.
  assert (Hname : cache_name ("tts_" +:+ hash +:+ ".mp3") = true).
  { unfold cache_name. apply andb_true_intro. split.
    - unfold Js.startsWith.
      change ("tts_" +:+ hash +:+ ".mp3")
        with (String "t" (String "t" (String "s" (String "_" (hash +:+ ".mp3"))))).
      simpl. destruct (hash +:+ ".mp3"); reflexivity.
    - unfold Js.endsWith. rewrite !list_of_append, !rev_app_distr.
      destruct (Js.strip _ _) eqn:Hs; [reflexivity|].
      assert (Hsome : Js.strip (rev (list_ascii_of_string ".mp3"))
                (rev (list_ascii_of_string ".mp3")
                 ++ rev (list_ascii_of_string hash) ++ rev (list_ascii_of_string "tts_"))
              = Some (rev (list_ascii_of_string hash) ++ rev (list_ascii_of_string "tts_"))).
      { apply strip_Some. reflexivity. }
      rewrite <- app_assoc in Hs. rewrite Hsome in Hs. discriminate. }
  split; [exact Hname|]. apply cache_name_segment; [exact Hname|].
  rewrite !list_of_append. intros Hin.
  apply in_app_or in Hin. destruct Hin as [Hin|Hin].
  - simpl in Hin. repeat (destruct Hin as [Hin|Hin]; [discriminate|]). destruct Hin.
  - apply in_app_or in Hin. destruct Hin as [Hin|Hin]; [exact (Hplain Hin)|].
    simpl in Hin. repeat (destruct Hin as [Hin|Hin]; [discriminate|]). destruct Hin.
Qed.

(** The loop of [clearCache] over names that are regular files. *)
Lemma unlink_each_run (dir : string) (names : list string) (st : TTS.state) :
  dir <> "" ->
  NoDup names ->
  (forall n, In n names -> plain (list_ascii_of_string n)) ->
  (forall n, In n names -> cache_name n = true ->
     is_Some (TTS.files st !! Path.join dir n)) ->
  exists st',
    for_each names
      (fun file =>
         if Js.startsWith file "tts_" && Js.endsWith file ".mp3"
         then TTS.unlinkSync (Path.join dir file)
         else ret tt) st = (Ok tt, st')
    /\ TTS.requests st' = TTS.requests st
    /\ forall p,
         TTS.files st' !! p
         = if existsb (fun n => cache_name n && String.eqb (Path.join dir n) p) names
           then None else TTS.files st !! p.
Proof.
  intros Hdir Hnd. revert st.
  induction Hnd as [|n names Hnotin Hnd IH]; intros st Hplain Hfiles.
  - exists st. split; [reflexivity|]. split; reflexivity.
  - simpl for_each. unfold bind at 1.
    fold (cache_name n). destruct (cache_name n) eqn:Hc.
    + unfold TTS.unlinkSync at 1.
      rewrite (bool_decide_eq_true_2 _ (Hfiles n (or_introl eq_refl) Hc)).
      destruct (IH (TTS.set_files (delete (Path.join dir n) (TTS.files st)) st))
        as (st' & Hrun & Hreq & Hlook).
      * intros n' Hn'. apply Hplain. right. exact Hn'.
      * intros n' Hn' Hc'. simpl.
        rewrite lookup_delete_ne; [apply Hfiles; [right; exact Hn'|exact Hc']|].
        intros Heq. apply Hnotin.
        assert (n = n') as ->; [|apply list_elem_of_In; exact Hn'].
        rewrite <- (basename_join dir n), <- (basename_join dir n'), Heq;
          [reflexivity|exact Hdir|apply cache_name_segment|exact Hdir
          |apply cache_name_segment]; auto.
        -- apply Hplain. right. exact Hn'.
        -- apply Hplain. left. reflexivity.
      * exists st'. split; [exact Hrun|]. split; [rewrite Hreq; reflexivity|].
        intros p. rewrite Hlook. simpl. rewrite Hc.
        destruct (String.eqb_spec (Path.join dir n) p) as [<-|Hne]; simpl.
        -- rewrite lookup_delete_eq. destruct (existsb _ names); reflexivity.
        -- rewrite lookup_delete_ne by exact Hne. reflexivity.
    + unfold ret at 1.
      destruct (IH st) as (st' & Hrun & Hreq & Hlook).
      * intros n' Hn'. apply Hplain. right. exact Hn'.
      * intros n' Hn' Hc'. apply Hfiles; [right; exact Hn'|exact Hc'].
      * exists st'. split; [exact Hrun|]. split; [exact Hreq|].
        intros p. rewrite Hlook. simpl. rewrite Hc. reflexivity.
Qed.

(** X24. When the cache directory is named and holds no directory called
    [tts_*.mp3], [clearCache] returns normally and removes exactly the
    files directly in the cache directory whose name starts with [tts_]
    and ends with [.mp3]: every other file of the store stays as it is,
    no request goes to the synthesis service, and afterwards [getCached]
    is [null] for every text and voice, so each text is synthesized anew. *)
Theorem clearCache_forgets_every_text (cfg : Config.config) (st : TTS.state) :
  Config.cacheDir cfg <> "" ->
  (forall name,
     In name (TTS.readdirSync (Config.cacheDir cfg) (TTS.files st)) ->
     cache_name name = true ->
     TTS.isDirectory (Path.join (Config.cacheDir cfg) name) (TTS.files st) = false) ->
  exists st',
    TTS.clearCache cfg st = (Ok tt, st')
    /\ TTS.requests st' = TTS.requests st
    /\ (forall text voice, TTS.getCached cfg text voice st' = None)
    /\ (forall p,
          TTS.files st' !! p
          = if cache_name (Path.basename p) && TTS.directly_in (Config.cacheDir cfg) p
            then None else TTS.files st !! p).
Proof.
  intros Hdir Hnodir.
  set (dir := Config.cacheDir cfg) in *.
  destruct (unlink_each_run dir (TTS.readdirSync dir (TTS.files st)) st Hdir)
    as (st' & Hrun & Hreq & Hlook).
  - apply NoDup_remove_dups.
  - intros n Hn. apply (readdirSync_lists dir n _ Hn).
  - intros n Hn Hc. destruct (readdirSync_lists dir n _ Hn) as [_ [Hfile|Hisdir]];
      [exact Hfile|]. rewrite (Hnodir n Hn Hc) in Hisdir. discriminate.
  - assert (Hfinal : forall p,
              TTS.files st' !! p
              = if cache_name (Path.basename p) && TTS.directly_in dir p
                then None else TTS.files st !! p).
    { intros p. rewrite Hlook.
      destruct (existsb _ _) eqn:Hex.
      - apply existsb_exists in Hex. destruct Hex as (n & Hn & Hcond).
        apply andb_prop in Hcond. destruct Hcond as [Hc Heq].
        apply String.eqb_eq in Heq. subst p.
        destruct (readdirSync_lists dir n _ Hn) as [Hpl _].
        rewrite basename_join, Hc, directly_in_join;
          auto using cache_name_segment.
      - destruct (cache_name (Path.basename p) && TTS.directly_in dir p) eqn:Hcond;
          [|reflexivity].
        apply andb_prop in Hcond. destruct Hcond as [Hc Hd].
        destruct (TTS.files st !! p) as [v|] eqn:Hp; [|reflexivity].
        exfalso. pose proof (readdirSync_complete dir p v _ Hp Hd) as Hin.
        assert (Htrue : existsb
                  (fun n => cache_name n && String.eqb (Path.join dir n) p)
                  (TTS.readdirSync dir (TTS.files st)) = true).
        { apply existsb_exists. exists (Path.basename p). split; [exact Hin|].
          rewrite Hc. exact Hd. }
        rewrite Htrue in Hex. discriminate. }
    exists st'. split.
    + unfold TTS.clearCache. unfold bind, gets. exact Hrun.
    + split; [exact Hreq|]. split; [|exact Hfinal].
      intros text voice. unfold TTS.getCached. cbv zeta.
      destruct (cache_key_name cfg text voice) as [Hc Hseg].
      rewrite bool_decide_eq_false_2; [reflexivity|].
      rewrite Hfinal, basename_join, Hc, directly_in_join by assumption.
      simpl. intros [? ?]. discriminate.
Qed.

Lemma clearCache_forgets_every_text_witness :
  exists st',
    TTS.clearCache sample_config cached_store = (Ok tt, st')
    /\ TTS.requests st' = TTS.requests cached_store
    /\ (forall text voice, TTS.getCached sample_config text voice st' = None)
    /\ (forall p,
          TTS.files st' !! p
          = if cache_name (Path.basename p)
               && TTS.directly_in (Config.cacheDir sample_config) p
            then None else TTS.files cached_store !! p).
Proof.
  apply (clearCache_forgets_every_text sample_config cached_store).
  - discriminate.
  - intros name Hin _. vm_compute in Hin.
    destruct Hin as [<-|[<-|[]]]; vm_compute; reflexivity.
Defined.

Example clearCache_runs :
  TTS.getCached sample_config "hola" "es-MX-DaliaNeural" cached_store
    = Some "cache/tts_96600d9668d7b4085b0fcf98fe02a9f3.mp3"
  /\ TTS.readdirSync "./cache" (TTS.files cached_store)
     = ["notes.txt"; "tts_96600d9668d7b4085b0fcf98fe02a9f3.mp3"]
  /\ map fst (map_to_list (TTS.files (snd (TTS.clearCache sample_config cached_store))))
     = map fst (map_to_list (<["cache/notes.txt" := "n"]> sample_files))
  /\ fst (TTS.clearCache sample_config
            {| TTS.files := <["cache/tts_old.mp3/part" := "x"]> sample_files;
               TTS.requests := [] |})
     = Throw "EISDIR: illegal operation on a directory, unlink 'cache/tts_old.mp3'".
Proof. vm_compute. repeat split; reflexivity. Qed.

(* ===================================================================== *)
(** ** From ready to shutdown (index.js)                                 *)
(* ===================================================================== *)

#[local] Instance setup_step_refl : Reflexive setup_step.
Proof. intros w. repeat split. apply (grows_by_refl not_a_stop). Qed.

#[local] Instance setup_step_trans : Transitive setup_step.
Proof.
  intros w1 w2 w3 (Hv1 & Ha1 & Hg1) (Hv2 & Ha2 & Hg2).
  split; [congruence|]. split; [congruence|].
  exact (grows_by_trans not_a_stop _ _ _ Hg1 Hg2).
Qed.

Lemma record_setup (c : Scheduler.call) :
  not_a_stop c -> preserves setup_step (Scheduler.record c).
Proof.
  intros Hc w. split; [reflexivity|]. split; [reflexivity|].
  apply (record_grows not_a_stop c Hc w).
Qed.

Lemma generate_setup (E : Scheduler.env) (text : string) :
  preserves setup_step (Scheduler.generate E text).
Proof.
  intros w. unfold Scheduler.generate, Scheduler.recording, Scheduler.observe.
  unfold bind, gets, modify, ret, zoom. simpl.
  destruct (TTS.generate _ _ _ _ _) as [r t]. simpl.
  split; [reflexivity|]. split; [reflexivity|].
  exists [Scheduler.Generate text r]. split; [reflexivity|]. repeat constructor.
Qed.

Lemma initialize_setup (E : Scheduler.env) : preserves setup_step (Scheduler.initialize E).
Proof.
  unfold Scheduler.initialize. cbv zeta.
  destruct (Nat.eqb _ 0); [apply record_setup; exact I|].
  apply (preserves_bind setup_step); [apply record_setup; exact I|intros _].
  apply (preserves_bind setup_step); [|intros _].
  - unfold Scheduler._pregenerateTTS. cbv zeta.
    destruct (Nat.eqb _ 0); [apply (preserves_ret setup_step)|].
    apply (preserves_bind setup_step); [apply record_setup; exact I|intros _].
    apply (preserves_for_each setup_step). intros ev.
    apply (preserves_try_catch setup_step).
    + apply (preserves_bind setup_step); [apply generate_setup|intros p].
      apply (preserves_bind setup_step); [|intros _; apply record_setup; exact I].
      apply preserves_modify. intros w. repeat split.
      apply grows_by_same_trace. reflexivity.
    + intros e. apply record_setup. exact I.
  - apply (preserves_for_each setup_step). intros ev.
    unfold Scheduler.scheduleEvent.
    destruct (negb _); [apply record_setup; exact I|].
    apply (preserves_bind setup_step); [apply record_setup; exact I|intros _].
    apply (preserves_bind setup_step); [|intros _; apply record_setup; exact I].
    apply preserves_modify. intros w. repeat split.
      apply grows_by_same_trace. reflexivity.
Qed.

Lemma stops_quiet (l : list Scheduler.call) : Forall not_a_stop l -> stops l = [].
Proof.
  induction 1 as [|c l Hc _ IH]; [reflexivity|].
  destruct c; simpl; auto; contradiction.
Qed.

Lemma schedules_of_stop_lines (names : list string) :
  schedules (flat_map (fun name => [ Scheduler.JobStop name;
                                     Scheduler.Log "debug" "Stopped scheduled job" ]) names)
  = [].
Proof. induction names as [|n names IH]; simpl; [reflexivity|exact IH]. Qed.

Lemma last_named_listed (n : string) (l : list Events.event) :
  is_Some (last_named n l) <-> In n (map Events.name l).
Proof.
  induction l as [|ev l IH]; simpl.
  - split; [intros [? ?]; discriminate|intros []].
  - rewrite last_named_cons. destruct (last_named n l) as [e|].
    + split; [intros _; right; apply IH; eauto|eauto].
    + destruct (String.eqb_spec (Events.name ev) n) as [->|Hne].
      * split; [intros _; left; reflexivity|eauto].
      * split; [intros [? ?]; discriminate|].
        intros [Heq|Hin]; [contradiction|]. apply IH in Hin. destruct Hin. discriminate.
Qed.

(** X25. The handler of [ready] followed by [shutdown], from a state in
    which the voice manager can be: both return normally and the process
    exits with code 0.  The shutdown stops one job for each name that
    [ready] scheduled, so every scheduled job is stopped when the names
    are distinct; of several jobs scheduled under one name only one is
    stopped. *)
Theorem shutdown_stops_the_jobs_of_ready (E : Scheduler.env) (busy : bool)
    (p : Index.process) :
  reachable (Scheduler.voice (Index.world p)) ->
  exists p1 p2 stopped,
    Index.on_ready E p = (Ok tt, p1)
    /\ Index.shutdown busy p1 = (Ok tt, p2)
    /\ Index.exited p2 = Some (Index.Exit 0)
    /\ schedules (Scheduler.trace (Index.world p2))
       = schedules (Scheduler.trace (Index.world p)) ++ map Events.name (scheduled_by E)
    /\ stops (Scheduler.trace (Index.world p2))
       = stops (Scheduler.trace (Index.world p)) ++ stopped
    /\ NoDup stopped
    /\ (forall n, In n stopped <-> In n (map Events.name (scheduled_by E)))
    /\ (NoDup (map Events.name (scheduled_by E)) ->
        stopped ≡ₚ map Events.name (scheduled_by E)).
Proof.
  intros Hreach.
  set (w0 := Scheduler.set_pregeneratedAudio ∅
               (Scheduler.set_scheduledJobs ∅ (Index.world p))).
  destruct (initialize_run E w0) as (w1 & Hinit & Hjobs & Hsched).
  pose proof (initialize_setup E w0) as Hsetup.
  unfold preserves in Hsetup. rewrite Hinit in Hsetup.
  destruct Hsetup as (Hvoice & Haudio & (new & Hnew & Hquiet)). simpl in *.
  set (p1 := Index.set_logged
               (Index.logged p ++ [("info", "Bot is online");
                                   ("info", "Bot initialization complete")])
               (Index.set_world w1 (Index.set_scheduler true p))).
  assert (Hready : Index.on_ready E p = (Ok tt, p1)).
  { unfold Index.on_ready, Index.log. unfold bind, modify, zoom. simpl.
    fold w0. rewrite Hinit. simpl. unfold p1, Index.set_logged. simpl.
    rewrite <- app_assoc. reflexivity. }
  destruct (shutdown_run busy p1) as (p2 & Hshut & Hexit & _ & _ & _ & _ & _ & _ & Htrace).
  { simpl. rewrite Hvoice. exact Hreach. }
  simpl in Htrace.
  set (names := map fst (map_to_list (Scheduler.scheduledJobs w1))) in *.
  assert (Hmem : forall n, In n names <-> In n (map Events.name (scheduled_by E))).
  { intros n. rewrite <- last_named_listed. unfold names.
    rewrite <- list_elem_of_In, map_is_fmap, list_elem_of_fmap. split.
    - intros ([k v] & -> & Hkv). apply elem_of_map_to_list in Hkv. simpl.
      rewrite Hjobs in Hkv. destruct (last_named k (scheduled_by E)); [eauto|].
      simpl in Hkv. rewrite lookup_empty in Hkv. discriminate.
    - intros [e He]. exists (n, e). split; [reflexivity|].
      apply elem_of_map_to_list. rewrite Hjobs, He. reflexivity. }
  assert (Hnd : NoDup names).
  { unfold names. rewrite map_is_fmap. apply NoDup_fst_map_to_list. }
  exists p1, p2, names.
  split; [exact Hready|]. split; [exact Hshut|]. split; [exact Hexit|].
  split; [|split; [|split; [exact Hnd|split; [exact Hmem|]]]].
  - rewrite Htrace, schedules_app, schedules_of_stop_lines, app_nil_r. exact Hsched.
  - rewrite Htrace, stops_app, stops_of_stop_lines, Hnew, stops_app.
    rewrite (stops_quiet new Hquiet), app_nil_r. reflexivity.
  - intros Hnd'. apply NoDup_Permutation; [exact Hnd|exact Hnd'|].
    intros n. rewrite !list_elem_of_In. apply Hmem.
Qed.

Lemma shutdown_stops_the_jobs_of_ready_witness :
  exists p1 p2 stopped,
    Index.on_ready sample_env (Index.initial sample_files) = (Ok tt, p1)
    /\ Index.shutdown true p1 = (Ok tt, p2)
    /\ Index.exited p2 = Some (Index.Exit 0)
    /\ schedules (Scheduler.trace (Index.world p2))
       = schedules (Scheduler.trace (Index.world (Index.initial sample_files)))
         ++ map Events.name (scheduled_by sample_env)
    /\ stops (Scheduler.trace (Index.world p2))
       = stops (Scheduler.trace (Index.world (Index.initial sample_files))) ++ stopped
    /\ NoDup stopped
    /\ (forall n, In n stopped <-> In n (map Events.name (scheduled_by sample_env)))
    /\ (NoDup (map Events.name (scheduled_by sample_env)) ->
        stopped ≡ₚ map Events.name (scheduled_by sample_env)).
Proof.
  apply (shutdown_stops_the_jobs_of_ready sample_env true (Index.initial sample_files)).
  apply reachable_initial.
Defined.

(** Two enabled events under one name: both are handed to
    [cron.schedule], the registry keeps the second, and the shutdown stops
    one job. *)
Example job_under_a_reused_name_is_not_stopped :
  let E := steady_env
             [ culito;
               Events.audio_event sample_config "Culito" "0 15 * * * *" "culito.mp3" ]
             wednesday_10_15 true (fun _ => Ok "mp3") Player.Finished in
  let p1 := snd (Index.on_ready E (Index.initial sample_files)) in
  let p2 := snd (Index.shutdown false p1) in
  schedules (Scheduler.trace (Index.world p2)) = ["Culito"; "Culito"]
  /\ stops (Scheduler.trace (Index.world p2)) = ["Culito"].
Proof. vm_compute. split; reflexivity. Qed.

(* ===================================================================== *)
(** ** A connect while a disconnect is pending (connection.js)           *)
(* ===================================================================== *)

(** X26. A connect does not cancel a disconnect that is pending.  With a
    session of the guild on the channel, [disconnectFromChannel] sets its
    timer; a [connectToChannel] for that channel within the delay returns
    the session that is there and leaves the timer pending; and when the
    delay has elapsed that session is destroyed, so the caller of
    [connectToChannel] holds a destroyed connection and the guild has
    none. *)
Theorem reconnect_does_not_cancel_the_disconnect
    (st : Voice.state) (ready : bool) (channel : Discord.channel) (c : nat) :
  reachable st ->
  Voice.getVoiceConnection (Discord.guild_id channel) st = Some c ->
  Voice.targets c (Discord.id channel) st = true ->
  exists st1 st',
    Voice.disconnectFromChannel (Discord.guild_id channel) st = (Ok tt, st1)
    /\ Voice.connectToChannel ready channel st1 = (Ok c, st1)
    /\ Voice.timers st1 = Voice.timers st ++ [Discord.guild_id channel]
    /\ expire (length (Voice.timers st1)) st1 = (Ok tt, st')
    /\ teardowns c st' = S (teardowns c st)
    /\ Voice.getVoiceConnection (Discord.guild_id channel) st' = None
    /\ Voice.isConnected (Discord.guild_id channel) st' = false.
Proof.
  intros Hreach Hconn Htargets.
  pose proof (reachable_consistent st Hreach) as Hc.
  set (g := Discord.guild_id channel) in *.
  set (st1 := Voice.set_timers (Voice.timers st ++ [g]) st).
  assert (H1 : Voice.disconnectFromChannel g st = (Ok tt, st1)).
  { unfold Voice.disconnectFromChannel, bind, gets, modify. rewrite Hconn. reflexivity. }
  assert (Hc1 : consistent st1)
    by (eapply consistent_same_sessions; [| |exact Hc]; reflexivity).
  destruct (expire_tracked g c (length (Voice.timers st1)) st1 Hc1 Hconn)
    as (st' & Hrun & Hcount & _ & Hnone).
  { rewrite firstn_all. simpl. apply in_or_app. right. left. reflexivity. }
  exists st1, st'. split; [exact H1|]. split.
  { apply connectToChannel_existing; [exact Hconn|exact Htargets]. }
  split; [reflexivity|]. split; [exact Hrun|]. split; [exact Hcount|].
  split; [exact Hnone|].
  unfold Voice.isConnected, Voice.getVoiceConnection. rewrite Hnone. reflexivity.
Qed.

Lemma reconnect_does_not_cancel_the_disconnect_witness :
  let st := snd (Voice.connectToChannel true general Voice.initial) in
  exists st1 st',
    Voice.disconnectFromChannel (Discord.guild_id general) st = (Ok tt, st1)
    /\ Voice.connectToChannel true general st1 = (Ok 0%nat, st1)
    /\ Voice.timers st1 = Voice.timers st ++ [Discord.guild_id general]
    /\ expire (length (Voice.timers st1)) st1 = (Ok tt, st')
    /\ teardowns 0 st' = S (teardowns 0 st)
    /\ Voice.getVoiceConnection (Discord.guild_id general) st' = None
    /\ Voice.isConnected (Discord.guild_id general) st' = false.
Proof.
  intros st.
  apply (reconnect_does_not_cancel_the_disconnect st true general 0%nat).
  - apply (reachable_step Voice.initial st); [apply reachable_initial|].
    apply (step_connect true general Voice.initial).
  - reflexivity.
  - reflexivity.
Defined.
